(** * Wine debugger, [debugger/stabs.c]: the STABS string parser

    A shallow embedding of the type-definition parser, the typedef
    registry, the type-number tables and the record loop of
    [DEBUG_ParseStabs], followed by the properties of the specification
    that were checked against it.

    Conventions.
    - A [char *] into a text buffer is the pair of the buffer (a list of
      bytes, terminating NUL included, stale bytes behind it kept) and an
      index.  A read outside the list has no defined result: the function
      that performs it returns [None].
    - [int] and [long] are the 32-bit types of the i386 ABI the debugger
      is built for.
    - A [struct datatype *] is an index into the catalog of type nodes
      ([option nat], [None] for [NULL]); a [struct datatype **] returned by
      [DEBUG_FileSubNr2StabEnum] is the table it points into and the
      subscript, so a table that is reallocated keeps its cells. *)

From Stdlib Require Import ZArith List Ascii String Lia Bool DecimalN DecimalPos.
From stdpp Require Import base numbers option list strings sorting.

Open Scope Z_scope.

(** ** The C library on byte lists *)

Module CStr.

Definition NUL : ascii := Ascii.zero.

Definition ord (a : ascii) : Z := Z.of_nat (nat_of_ascii a).

(** [char] is signed on i386: the value of [*p] in an arithmetic
    expression. *)
Definition char_val (a : ascii) : Z :=
  if ord a <? 128 then ord a else ord a - 256.

Definition LONG_MAX : Z := 2147483647.
Definition LONG_MIN : Z := -2147483648.

Definition of_string (s : string) : list ascii := list_ascii_of_string s.

(** [strlen]: the number of bytes before the first NUL. *)
Fixpoint strlen (l : list ascii) : option nat :=
  match l with
  | [] => None
  | a :: l' => if Ascii.eqb a NUL then Some 0%nat else S <$> strlen l'
  end.

(** The bytes of the C string that starts the list. *)
Definition cstr (l : list ascii) : option (list ascii) :=
  n ← strlen l; Some (take n l).

(** [strchr (s, ch)]: offset of the first [ch], [Some None] for [NULL]. *)
Fixpoint strchr (ch : ascii) (l : list ascii) : option (option nat) :=
  match l with
  | [] => None
  | a :: l' =>
      if Ascii.eqb a ch then Some (Some 0%nat)
      else if Ascii.eqb a NUL then Some None
      else match strchr ch l' with
           | Some (Some i) => Some (Some (S i))
           | r => r
           end
  end.

(** [strrchr (s, ch)]: offset of the last [ch] before the terminator. *)
Fixpoint strrchr (ch : ascii) (l : list ascii) : option (option nat) :=
  match l with
  | [] => None
  | a :: l' =>
      if Ascii.eqb a NUL then Some (if Ascii.eqb ch NUL then Some 0%nat else None)
      else match strrchr ch l' with
           | None => None
           | Some (Some i) => Some (Some (S i))
           | Some None => Some (if Ascii.eqb a ch then Some 0%nat else None)
           end
  end.

(** The offsets visited by
    [for (p = strchr (s, ch); p; p = strchr (p + 1, ch))]. *)
Fixpoint strchr_all (ch : ascii) (l : list ascii) : option (list nat) :=
  match l with
  | [] => None
  | a :: l' =>
      if Ascii.eqb a NUL then Some []
      else r ← strchr_all ch l';
           Some (if Ascii.eqb a ch then 0%nat :: map S r else map S r)
  end.

Definition isspace (a : ascii) : bool :=
  let n := ord a in (n =? 32) || ((9 <=? n) && (n <=? 13)).

Definition digit_val (a : ascii) : option Z :=
  let n := ord a in if (48 <=? n) && (n <=? 57) then Some (n - 48) else None.

Definition isdigit (a : ascii) : bool :=
  match digit_val a with Some _ => true | None => false end.

Fixpoint skip_space (l : list ascii) : option nat :=
  match l with
  | [] => None
  | a :: l' => if isspace a then S <$> skip_space l' else Some 0%nat
  end.

(** The run of decimal digits that starts [l]: value and length. *)
Fixpoint digits (acc : Z) (l : list ascii) : option (Z * nat) :=
  match l with
  | [] => None
  | a :: l' =>
      match digit_val a with
      | Some d => '(v, k) ← digits (10 * acc + d) l'; Some (v, S k)
      | None => Some (acc, 0%nat)
      end
  end.

Definition clamp_long (v : Z) : Z :=
  if v <? LONG_MIN then LONG_MIN else if LONG_MAX <? v then LONG_MAX else v.

(** [strtol (s, &end, 10)]: the value and [end - s].  White space is
    skipped, one sign is accepted, the value saturates; without a digit
    nothing is converted and [end = s]. *)
Definition strtol (l : list ascii) : option (Z * nat) :=
  n ← skip_space l;
  let l1 := drop n l in
  a ← head l1;
  let neg := Ascii.eqb a "-" in
  let s := if neg || Ascii.eqb a "+" then 1%nat else 0%nat in
  '(v, k) ← digits 0 (drop s l1);
  if (k =? 0)%nat then Some (0, 0%nat)
  else Some (clamp_long (if neg then - v else v), (n + s + k)%nat).

(** [strcmp (a, b) == 0]. *)
Definition streq (a b : list ascii) : option bool :=
  x ← cstr a; y ← cstr b; Some (bool_decide (x = y)).

(** The bytes before the first [stop] byte, copied without a look at
    them: the loops [while( *tc != ':' ) ...] of the parser. *)
Fixpoint span_until (stop : ascii) (l : list ascii) : option (list ascii) :=
  match l with
  | [] => None
  | a :: l' => if Ascii.eqb a stop then Some [] else (a ::.) <$> span_until stop l'
  end.

(** [*p = a] inside the buffer. *)
Definition poke (buf : list ascii) (p : nat) (a : ascii) : option (list ascii) :=
  if (p <? length buf)%nat then Some (<[p:=a]> buf) else None.

(** [strcpy (buf + dst, buf + src)] with [dst < src], bytes moved in
    ascending order, terminator included. *)
Definition strcpy_down (buf : list ascii) (dst src : nat) : option (list ascii) :=
  n ← strlen (drop src buf);
  Some (take dst buf ++ take (S n) (drop src buf) ++ drop (dst + S n) buf).

End CStr.

(** ** The catalog of type nodes ([debugger/types.c], not part of the
    sources at hand) *)

Module Types.

Inductive debug_type : Set :=
  DT_BASIC | DT_POINTER | DT_ARRAY | DT_STRUCT | DT_ENUM | DT_FUNC.

#[global] Instance debug_type_eq_dec : EqDecision debug_type.
Proof. solve_decision. Defined.

Record member := mkMember {
  m_name : list ascii;
  m_type : option nat;
  m_offset : Z;
  m_size : Z }.

(** Modelled from the spec: the [TypeNode] of section 3, whose declaration
    ([struct datatype]) is missing.  One record carries the fields of
    every kind: the target of a pointer (the return type of a function),
    the bounds and element of an array, the size of a struct ([None] while
    it has not been sized, so that size 0 differs from it) and the ordered
    members of a struct or an enum. *)
Record datatype := mkDatatype {
  dt_type : debug_type;
  dt_name : option (list ascii);
  dt_target : option nat;
  dt_min : Z;
  dt_max : Z;
  dt_elt : option nat;
  dt_size : option Z;
  dt_members : list member }.

Abbreviation catalog := (list datatype) (only parsing).

Definition blank (xtype : debug_type) (name : option (list ascii)) : datatype :=
  mkDatatype xtype name None 0 0 None None [].

(** Modelled from the spec: [new_basic_type (name?)] ..
    [new_function_type ()] of section 6, the missing [DEBUG_NewDataType];
    a node is allocated and its handle returned. *)
Definition DEBUG_NewDataType (xtype : debug_type) (typename : option (list ascii))
    (h : catalog) : catalog * option nat :=
  (h ++ [blank xtype typename], Some (length h)).

(** Modelled from the spec: the kind of a node, the missing
    [DEBUG_GetType]; there is no kind to read behind [NULL]. *)
Definition DEBUG_GetType (h : catalog) (dt : option nat) : option debug_type :=
  i ← dt; d ← h !! i; Some (dt_type d).

Definition update (h : catalog) (dt : option nat) (f : datatype → datatype) :
    option catalog :=
  i ← dt; d ← h !! i; Some (<[i := f d]> h).

(** Modelled from the spec: [set_pointer_target (handle, target)], the
    missing [DEBUG_SetPointerType]. *)
Definition DEBUG_SetPointerType (h : catalog) (dt target : option nat) :
    option catalog :=
  update h dt (λ d, mkDatatype (dt_type d) (dt_name d) target (dt_min d)
                      (dt_max d) (dt_elt d) (dt_size d) (dt_members d)).

(** Modelled from the spec: [set_array_bounds (handle, min, max, element)],
    the missing [DEBUG_SetArrayParams]. *)
Definition DEBUG_SetArrayParams (h : catalog) (dt : option nat) (lo hi : Z)
    (elt : option nat) : option catalog :=
  update h dt (λ d, mkDatatype (dt_type d) (dt_name d) (dt_target d) lo hi elt
                      (dt_size d) (dt_members d)).

(** Modelled from the spec: [set_struct_size (handle, bytes) -> bool (false
    if already sized)], the missing [DEBUG_SetStructSize]. *)
Definition DEBUG_SetStructSize (h : catalog) (dt : option nat) (size : Z) :
    option (catalog * bool) :=
  i ← dt; d ← h !! i;
  match dt_size d with
  | Some _ => Some (h, false)
  | None =>
      Some (<[i := mkDatatype (dt_type d) (dt_name d) (dt_target d) (dt_min d)
                     (dt_max d) (dt_elt d) (Some size) (dt_members d)]> h, true)
  end.

(** Modelled from the spec: [add_struct_field (handle, name, type?, offset,
    size)], the missing [DEBUG_AddStructElement]; the member goes to the end
    of the list, and a [NULL] type is legal. *)
Definition DEBUG_AddStructElement (h : catalog) (dt : option nat)
    (name : list ascii) (type : option nat) (offset size : Z) : option catalog :=
  update h dt (λ d, mkDatatype (dt_type d) (dt_name d) (dt_target d) (dt_min d)
                      (dt_max d) (dt_elt d) (dt_size d)
                      (dt_members d ++ [mkMember name type offset size])).

End Types.
Export Types.

(** ** The statics of [stabs.c] *)

(** [struct known_typedef]; [ndefs] is the length of [types]. *)
Record known_typedef := mkKtd {
  ktd_name : list ascii;
  ktd_types : list (option nat) }.

Definition NR_STAB_HASH : Z := 521.
Definition MAX_INCLUDES : Z := 256.

Record include_def := mkInclude {
  inc_name : list ascii;
  inc_value : Z;
  inc_vector : list (option nat) }.

(** What [DEBUG_Printf] was asked to print. *)
Inductive message :=
| MsgUnknownType (c : ascii)
| MsgUnknownCondition (dt dt2 : option nat) (ptr : list ascii)
| MsgFailure (ptr ti : list ascii)
| MsgUnknownStab (n_type : Z).

Record statics := mkStatics {
  heap : catalog;
  ktd_head : list (list known_typedef);
  curr_types : list (option nat);
  include_defs : list include_def;
  cu_include_stack : list Z;
  cu_include_stk_idx : Z;
  cu_vector : list (option nat);
  printed : list message }.

Definition set_heap (h : catalog) (st : statics) : statics :=
  mkStatics h (ktd_head st) (curr_types st) (include_defs st)
    (cu_include_stack st) (cu_include_stk_idx st) (cu_vector st) (printed st).
Definition set_ktd_head (k : list (list known_typedef)) (st : statics) : statics :=
  mkStatics (heap st) k (curr_types st) (include_defs st)
    (cu_include_stack st) (cu_include_stk_idx st) (cu_vector st) (printed st).
Definition set_curr_types (c : list (option nat)) (st : statics) : statics :=
  mkStatics (heap st) (ktd_head st) c (include_defs st)
    (cu_include_stack st) (cu_include_stk_idx st) (cu_vector st) (printed st).
Definition set_include_defs (d : list include_def) (st : statics) : statics :=
  mkStatics (heap st) (ktd_head st) (curr_types st) d
    (cu_include_stack st) (cu_include_stk_idx st) (cu_vector st) (printed st).
Definition set_include_stack (s : list Z) (i : Z) (st : statics) : statics :=
  mkStatics (heap st) (ktd_head st) (curr_types st) (include_defs st)
    s i (cu_vector st) (printed st).
Definition set_cu_vector (v : list (option nat)) (st : statics) : statics :=
  mkStatics (heap st) (ktd_head st) (curr_types st) (include_defs st)
    (cu_include_stack st) (cu_include_stk_idx st) v (printed st).
Definition DEBUG_Printf (m : message) (st : statics) : statics :=
  mkStatics (heap st) (ktd_head st) (curr_types st) (include_defs st)
    (cu_include_stack st) (cu_include_stk_idx st) (cu_vector st)
    (printed st ++ [m]).

(** The statics as the program starts: no node, empty hash chains, no
    table, a zeroed include stack. *)
Definition initial_statics : statics :=
  mkStatics [] (replicate (Z.to_nat NR_STAB_HASH) []) [] []
    (replicate (Z.to_nat MAX_INCLUDES) 0) 0 [] [].

Definition wrap32 (z : Z) : Z := z mod 2 ^ 32.

(** [stab_hash]: [unsigned int] arithmetic, one step per byte. *)
Definition stab_hash_step (hash : Z) (a : ascii) : Z :=
  let hash := wrap32 (Z.shiftl hash 4 + CStr.char_val a) in
  let tmp := Z.land hash 0xf0000000 in
  let hash := if tmp =? 0 then hash else Z.lxor hash (Z.shiftr tmp 24) in
  Z.land hash (wrap32 (Z.lnot tmp)).

Definition stab_hash (name : list ascii) : Z :=
  fold_left stab_hash_step name 0 mod NR_STAB_HASH.

(** [stab_strcpy (dest, sz, source)]: the bytes before the first [':'] or
    NUL; the closing [assert (sz > 0)] stops the program when [sz] of them
    or more were there to copy. *)
Fixpoint stab_strcpy_loop (fuel : nat) (source : list ascii) : option (list ascii) :=
  match source with
  | [] => None
  | a :: source' =>
      if Ascii.eqb a CStr.NUL || Ascii.eqb a ":" then Some []
      else match fuel with
           | O => None
           | S fuel' => (a ::.) <$> stab_strcpy_loop fuel' source'
           end
  end.

Definition stab_strcpy (sz : Z) (source : list ascii) : option (list ascii) :=
  if sz <=? 0 then None
  else stab_strcpy_loop (Z.to_nat (sz - 1)) source.

(** ** Include files and type-number tables *)

(** A [struct datatype **] as [DEBUG_FileSubNr2StabEnum] returns it: the
    table ([cu_vector], or the vector of an entry of [include_defs]) and
    the subscript.  It designates the entry of the table as it is when
    the pointer is returned; a pointer that is kept while other type
    numbers are resolved is used through [load_held] and [store_held]
    below. *)
Inductive slot :=
| CuSlot (subnr : Z)
| IncSlot (idx : nat) (subnr : Z).

#[global] Instance slot_eq_dec : EqDecision slot.
Proof. solve_decision. Defined.

Definition index_ok (subnr : Z) (v : list (option nat)) : bool :=
  (0 <=? subnr) && (subnr <? Z.of_nat (length v)).

(** [*dt] as an rvalue. *)
Definition load (st : statics) (dt : slot) : option (option nat) :=
  match dt with
  | CuSlot n =>
      if index_ok n (cu_vector st) then cu_vector st !! Z.to_nat n else None
  | IncSlot i n =>
      d ← include_defs st !! i;
      if index_ok n (inc_vector d) then inc_vector d !! Z.to_nat n else None
  end.

(** [*dt = v]. *)
Definition store (st : statics) (dt : slot) (v : option nat) : option statics :=
  match dt with
  | CuSlot n =>
      if index_ok n (cu_vector st)
      then Some (set_cu_vector (<[Z.to_nat n := v]> (cu_vector st)) st)
      else None
  | IncSlot i n =>
      d ← include_defs st !! i;
      if index_ok n (inc_vector d)
      then Some (set_include_defs
                   (<[i := mkInclude (inc_name d) (inc_value d)
                             (<[Z.to_nat n := v]> (inc_vector d))]>
                      (include_defs st)) st)
      else None
  end.

Definition DEBUG_CreateInclude (file : list ascii) (val : Z) (st : statics) :
    statics * Z :=
  (set_include_defs (include_defs st ++ [mkInclude file val []]) st,
   Z.of_nat (length (include_defs st))).

Fixpoint find_include_from (i : Z) (file : list ascii) (val : Z)
    (defs : list include_def) : Z :=
  match defs with
  | [] => -1
  | d :: defs' =>
      if (val =? inc_value d) && bool_decide (file = inc_name d) then i
      else find_include_from (i + 1) file val defs'
  end.

Definition DEBUG_FindInclude (file : list ascii) (val : Z) (st : statics) : Z :=
  find_include_from 0 file val (include_defs st).

(** [DEBUG_AddInclude]: the [assert] stops the program at the 256th level. *)
Definition DEBUG_AddInclude (idx : Z) (st : statics) : option (statics * Z) :=
  let k := cu_include_stk_idx st + 1 in
  if (0 <=? k) && (k <? MAX_INCLUDES) then
    Some (set_include_stack (<[Z.to_nat k := idx]> (cu_include_stack st)) k st, k)
  else None.

Definition DEBUG_ResetIncludes (st : statics) : statics :=
  set_cu_vector (replicate (length (cu_vector st)) None)
    (set_include_stack (cu_include_stack st) 0 st).

Definition DEBUG_FreeIncludes (st : statics) : statics :=
  set_cu_vector [] (set_include_defs [] (DEBUG_ResetIncludes st)).

(** [sizeof (struct datatype * )] on i386, where [int], [long] and
    [size_t] have 32 bits. *)
Definition PTR_SIZE : Z := 4.

(** The request [DBG_realloc (v, sizeof (v[0]) * (subnr + 1))] is the one
    meant as long as the number of bytes, computed in [size_t], does not
    wrap: from [subnr = 2^30 - 1] on the block is too small for the
    [memset] that follows and for the entry returned, and at [INT_MAX]
    the sum [subnr + 1] overflows. *)
Definition fits (subnr : Z) : bool := PTR_SIZE * (subnr + 1) <? 2 ^ 32.

(** [if (nrofentries <= subnr) { realloc; memset; nrofentries = subnr + 1; }]:
    the vector with [subnr + 1] entries, the new ones zeroed; no result
    when the size of the block wraps. *)
Definition grow (subnr : Z) (v : list (option nat)) : option (list (option nat)) :=
  if Z.of_nat (length v) <=? subnr then
    if fits subnr
    then Some (v ++ replicate (Z.to_nat (subnr + 1) - length v) None)
    else None
  else Some v.

Definition DEBUG_FileSubNr2StabEnum (filenr subnr : Z) (st : statics) :
    option (statics * slot) :=
  if filenr =? 0 then
    v ← grow subnr (cu_vector st);
    Some (set_cu_vector v st, CuSlot subnr)
  else if cu_include_stk_idx st <? filenr then None
  else if filenr <? 0 then None
  else
    idx ← cu_include_stack st !! Z.to_nat filenr;
    if idx <? 0 then None
    else
      d ← include_defs st !! Z.to_nat idx;
      v ← grow subnr (inc_vector d);
      Some (set_include_defs
              (<[Z.to_nat idx := mkInclude (inc_name d) (inc_value d) v]>
                 (include_defs st)) st,
            IncSlot (Z.to_nat idx) subnr).

(** The number of entries of the table a slot lies in. *)
Definition entries (st : statics) (dt : slot) : option nat :=
  match dt with
  | CuSlot _ => Some (length (cu_vector st))
  | IncSlot i _ => d ← include_defs st !! i; Some (length (inc_vector d))
  end.

(** [*dt] and [*dt = v] through a [struct datatype **] that was taken
    when its table had [n] entries and has been kept in a local variable
    since.  When the table has grown in between, [DBG_realloc] has given
    it another block and the pointer is left in the block that was
    freed: the access has no defined result. *)
Definition load_held (n : nat) (st : statics) (dt : slot) : option (option nat) :=
  m ← entries st dt;
  if (m =? n)%nat then load st dt else None.

Definition store_held (n : nat) (st : statics) (dt : slot) (v : option nat) :
    option statics :=
  m ← entries st dt;
  if (m =? n)%nat then store st dt v else None.

(** The offset of the byte that ends a leftward scan,
    [while (cond ( *x )) x--;], started at the last byte of [rev_prefix]
    reversed: [Some k] when [k] bytes were stepped over. *)
Fixpoint scan_back (cond : ascii → bool) (rev_prefix : list ascii) : option nat :=
  match rev_prefix with
  | [] => None
  | a :: r => if cond a then S <$> scan_back cond r else Some 0%nat
  end.

(** The text part of [DEBUG_ReadTypeEnumBackwards (buf + x)]. *)
Definition read_backwards (buf : list ascii) (x : nat) : option (Z * Z) :=
  a ← buf !! x;
  if Ascii.eqb a ")" then
    k ← scan_back (λ b, negb (Ascii.eqb b "(")) (rev (take (S x) buf));
    let x1 := (x - k + 1)%nat in
    '(filenr, n1) ← CStr.strtol (drop x1 buf);
    let x2 := (x1 + n1 + 1)%nat in
    '(subnr, _) ← CStr.strtol (drop x2 buf);
    Some (filenr, subnr)
  else
    k ← scan_back CStr.isdigit (rev (take (S x) buf));
    '(subnr, _) ← CStr.strtol (drop (x - k + 1)%nat buf);
    Some (0, subnr).

(** [DEBUG_ReadTypeEnumBackwards (c - 1)] for an ['='] at offset [c]. *)
Definition DEBUG_ReadTypeEnumBackwards (buf : list ascii) (c : nat)
    (st : statics) : option (statics * slot) :=
  match c with
  | O => None
  | S x => '(filenr, subnr) ← read_backwards buf x;
           DEBUG_FileSubNr2StabEnum filenr subnr st
  end.

(** The text part of [DEBUG_ReadTypeEnum (&x)]: file number, subscript and
    the new offset. *)
Definition read_forwards (buf : list ascii) (x : nat) : option (Z * Z * nat) :=
  a ← buf !! x;
  if Ascii.eqb a "(" then
    let x1 := S x in
    '(filenr, n1) ← CStr.strtol (drop x1 buf);
    let x2 := (x1 + n1 + 1)%nat in
    '(subnr, n2) ← CStr.strtol (drop x2 buf);
    Some (filenr, subnr, (x2 + n2 + 1)%nat)
  else
    '(subnr, n) ← CStr.strtol (drop x buf);
    Some (0, subnr, (x + n)%nat).

Definition DEBUG_ReadTypeEnum (buf : list ascii) (x : nat) (st : statics) :
    option (statics * slot * nat) :=
  '(filenr, subnr, x') ← read_forwards buf x;
  '(st', dt) ← DEBUG_FileSubNr2StabEnum filenr subnr st;
  Some (st', dt, x').

(** ** The registry of known typedefs *)

Definition DEBUG_RegisterTypedef (name : list ascii) (types : list (option nat))
    (ndef : nat) (st : statics) : option statics :=
  if (ndef =? 1)%nat then Some st
  else if (length types <? ndef)%nat then None
  else
    let hash := Z.to_nat (stab_hash name) in
    chain ← ktd_head st !! hash;
    Some (set_ktd_head (<[hash := mkKtd name (take ndef types) :: chain]> (ktd_head st)) st).

(** The kind a tag stands for in [DEBUG_HandlePreviousTypedef]:
    [Some None] is the [-1] of a plain reference, [None] the [default:]
    branch. *)
Definition expect_of (tag : ascii) : option (option debug_type) :=
  if Ascii.eqb tag "*" then Some (Some DT_POINTER)
  else if Ascii.eqb tag "s" || Ascii.eqb tag "u" then Some (Some DT_STRUCT)
  else if Ascii.eqb tag "a" then Some (Some DT_ARRAY)
  else if Ascii.eqb tag "(" then Some None
  else if Ascii.eqb tag "1" || Ascii.eqb tag "r" then Some (Some DT_BASIC)
  else if Ascii.eqb tag "x" then Some (Some DT_STRUCT)
  else if Ascii.eqb tag "e" then Some (Some DT_ENUM)
  else if Ascii.eqb tag "f" then Some (Some DT_FUNC)
  else None.

(** The first loop of [DEBUG_HandlePreviousTypedef] over the ['=']
    offsets [ps]: [Some count] when it ran to its end, [None] when it
    left with [return FALSE]. *)
Fixpoint check_defs (buf : list ascii) (types : list (option nat)) (count : nat)
    (ps : list nat) (st : statics) : option (statics * option nat) :=
  match ps with
  | [] => Some (st, Some count)
  | p :: ps' =>
      if (length types <=? count)%nat then Some (st, None)
      else
        tag ← buf !! S p;
        match expect_of tag with
        | None => Some (DEBUG_Printf (MsgUnknownType tag) st, None)
        | Some None => check_defs buf types (S count) ps' st
        | Some (Some expect) =>
            t ← types !! count;
            got ← DEBUG_GetType (heap st) t;
            if bool_decide (expect = got)
            then check_defs buf types (S count) ps' st
            else Some (st, None)
        end
  end.

(** Its second loop: every slot named in front of an ['='] is bound to
    the cached node of the same rank. *)
Fixpoint rebind_defs (buf : list ascii) (types : list (option nat)) (count : nat)
    (ps : list nat) (st : statics) : option statics :=
  match ps with
  | [] => Some st
  | p :: ps' =>
      '(st, dt) ← DEBUG_ReadTypeEnumBackwards buf p st;
      t ← types !! count;
      st ← store st dt t;
      rebind_defs buf types (S count) ps' st
  end.

Definition find_typedef (name : list ascii) (st : statics) :
    option (option known_typedef) :=
  chain ← ktd_head st !! Z.to_nat (stab_hash name);
  Some (List.find (λ k, bool_decide (ktd_name k = name)) chain).

Definition DEBUG_HandlePreviousTypedef (name : list ascii) (stab : list ascii)
    (st : statics) : option (statics * bool) :=
  found ← find_typedef name st;
  match found with
  | None => Some (st, false)
  | Some ktd =>
      ps ← CStr.strchr_all "=" stab;
      '(st, r) ← check_defs stab (ktd_types ktd) 0 ps st;
      match r with
      | None => Some (st, false)
      | Some count =>
          if negb (length (ktd_types ktd) =? count)%nat then Some (st, false)
          else st ← rebind_defs stab (ktd_types ktd) 0 ps st; Some (st, true)
      end
  end.

Definition DEBUG_FreeRegisteredTypedefs (st : statics) : statics :=
  set_ktd_head (replicate (length (ktd_head st)) []) st.

(** ** [DEBUG_ParseTypedefStab] *)

(** What the first sweep does for a tag. *)
Inductive skeleton :=
| Skeleton (xtype : debug_type) (name : option (list ascii))
| Reference
| UnknownTag.

Definition skeleton_of (buf : list ascii) (c : nat) (tag : ascii)
    (typename : option (list ascii)) : option skeleton :=
  if Ascii.eqb tag "*" then Some (Skeleton DT_POINTER None)
  else if Ascii.eqb tag "s" || Ascii.eqb tag "u" then Some (Skeleton DT_STRUCT typename)
  else if Ascii.eqb tag "a" then Some (Skeleton DT_ARRAY None)
  else if Ascii.eqb tag "(" then Some Reference
  else if Ascii.eqb tag "1" || Ascii.eqb tag "r" then Some (Skeleton DT_BASIC typename)
  else if Ascii.eqb tag "x" then
    element_name ← stab_strcpy 1024 (drop (c + 3)%nat buf);
    Some (Skeleton DT_STRUCT (Some element_name))
  else if Ascii.eqb tag "e" then Some (Skeleton DT_ENUM None)
  else if Ascii.eqb tag "f" then Some (Skeleton DT_FUNC None)
  else Some UnknownTag.

(** [curr_types[n] = v], the array reallocated by 64 entries first when
    [n] reached [allocated_types]. *)
Definition push_curr_type (n : nat) (v : option nat) (st : statics) : option statics :=
  let cur := if (length (curr_types st) <=? n)%nat
             then curr_types st ++ replicate 64 None else curr_types st in
  if (n <? length cur)%nat then Some (set_curr_types (<[n := v]> cur) st) else None.

(** The first sweep, left to right over the ['='] offsets: [Some ntypes]
    at its end, [None] after [return FALSE]. *)
Fixpoint pass1 (buf : list ascii) (ps : list nat) (typename : option (list ascii))
    (ntypes : nat) (st : statics) :
    option (statics * option nat * option (list ascii)) :=
  match ps with
  | [] => Some (st, Some ntypes, typename)
  | c :: ps' =>
      '(st, dt) ← DEBUG_ReadTypeEnumBackwards buf c st;
      tag ← buf !! S c;
      sk ← skeleton_of buf c tag typename;
      match sk with
      | Skeleton xtype name =>
          let '(h, node) := DEBUG_NewDataType xtype name (heap st) in
          st ← store (set_heap h st) dt node;
          st ← push_curr_type ntypes node st;
          pass1 buf ps' None (S ntypes) st
      | Reference =>
          st ← push_curr_type ntypes None st;
          pass1 buf ps' None (S ntypes) st
      | UnknownTag => Some (DEBUG_Printf (MsgUnknownType tag) st, None, typename)
      end
  end.

(** The end of every branch of the second sweep:
    [if( *tc == 0 ) *c = 0; else strcpy(c, tc + skip);]. *)
Definition cut (buf : list ascii) (c tc skip : nat) : option (list ascii) :=
  a ← buf !! tc;
  if Ascii.eqb a CStr.NUL then CStr.poke buf c CStr.NUL
  else if (c <? tc + skip)%nat then CStr.strcpy_down buf c (tc + skip)
  else None.

(** [element_name] holds 1024 bytes; the name is handed on as a C string. *)
Definition element_name_of (bytes : list ascii) : option (list ascii) :=
  if (1024 <=? length bytes)%nat then None
  else CStr.cstr (bytes ++ [CStr.NUL]).

(** The member loop of a struct or union, [tc] on the first member. *)
Fixpoint struct_members (fuel : nat) (buf : list ascii) (tc : nat)
    (curr_type : option nat) (failure : bool) (st : statics) :
    option (statics * list ascii * nat * bool) :=
  match fuel with
  | O => None
  | S fuel' =>
      a ← buf !! tc;
      if Ascii.eqb a ";" then Some (st, buf, tc, failure)
      else
        bytes ← CStr.span_until ":" (drop tc buf);
        element_name ← element_name_of bytes;
        let ti := (tc + length bytes + 1)%nat in
        '(st, dt, tc) ← DEBUG_ReadTypeEnum buf ti st;
        datatype ← load st dt;
        buf ← CStr.poke buf tc CStr.NUL;
        let tc := S tc in
        '(offset, n) ← CStr.strtol (drop tc buf);
        let tc := (tc + n + 1)%nat in
        '(size, n) ← CStr.strtol (drop tc buf);
        let tc := (tc + n + 1)%nat in
        match datatype with
        | Some _ =>
            h ← DEBUG_AddStructElement (heap st) curr_type element_name
                  datatype offset size;
            struct_members fuel' buf tc curr_type failure (set_heap h st)
        | None =>
            ptr ← CStr.cstr buf;
            tis ← CStr.cstr (drop ti buf);
            struct_members fuel' buf tc curr_type true
              (DEBUG_Printf (MsgFailure ptr tis) st)
        end
  end.

(** The member loop of an enum. *)
Fixpoint enum_members (fuel : nat) (buf : list ascii) (tc : nat)
    (curr_type : option nat) (st : statics) : option (statics * nat) :=
  match fuel with
  | O => None
  | S fuel' =>
      a ← buf !! tc;
      if Ascii.eqb a ";" then Some (st, tc)
      else
        bytes ← CStr.span_until ":" (drop tc buf);
        element_name ← element_name_of bytes;
        let tc := (tc + length bytes + 1)%nat in
        '(offset, n) ← CStr.strtol (drop tc buf);
        let tc := (tc + n + 1)%nat in
        h ← DEBUG_AddStructElement (heap st) curr_type element_name None offset 0;
        enum_members fuel' buf tc curr_type (set_heap h st)
  end.

(** [while( tc[0] != ';' && tc[1] != ';' ) tc++;]: the number of steps. *)
Fixpoint skip_members (l : list ascii) : option nat :=
  match l with
  | [] => None
  | a :: l' =>
      if Ascii.eqb a ";" then Some 0%nat
      else match l' with
           | [] => None
           | b :: _ => if Ascii.eqb b ";" then Some 0%nat else S <$> skip_members l'
           end
  end.

(** The branches of the [switch] of the second sweep, for the ['='] at
    offset [c], the slot [dt] in front of it and the node [curr_type] in
    that slot.  Each gives the new statics and text. *)

(** [case 'x':] *)
Definition pass2_xref_struct (buf : list ascii) (c : nat) (st : statics) :
    option (statics * list ascii) :=
  n ← CStr.span_until ":" (drop (c + 3)%nat buf);
  let tc := (c + 3 + length n + 1)%nat in
  buf ← cut buf c tc 0;
  Some (st, buf).

(** [case '*': case 'f':] *)
Definition pass2_pointer (buf : list ascii) (c : nat) (curr_type : option nat)
    (st : statics) : option (statics * list ascii) :=
  '(st, dt2, tc) ← DEBUG_ReadTypeEnum buf (c + 2)%nat st;
  datatype ← load st dt2;
  h ← DEBUG_SetPointerType (heap st) curr_type datatype;
  buf ← cut buf c tc 0;
  Some (set_heap h st, buf).

(** [case '(':] up to the assignment to [curr_types[ntp--]]; [dt] was
    taken at the head of the turn, when its table had [n] entries, and
    [dt2] is taken here. *)
Definition pass2_reference (buf : list ascii) (c : nat) (dt : slot) (n : nat)
    (typename : option (list ascii)) (st : statics) :
    option (statics * list ascii) :=
  '(st, dt2, tc) ← DEBUG_ReadTypeEnum buf (c + 1)%nat st;
  v ← load_held n st dt;
  v2 ← load st dt2;
  st ← match v, v2 with
       | None, Some _ => store_held n st dt v2
       | None, None =>
           let '(h, node) := DEBUG_NewDataType DT_BASIC typename (heap st) in
           st ← store_held n (set_heap h st) dt node;
           store st dt2 node
       | _, _ =>
           ptr ← CStr.cstr buf;
           Some (DEBUG_Printf (MsgUnknownCondition v v2 ptr) st)
       end;
  buf ← cut buf c tc 0;
  Some (st, buf).

(** [case 'a':] *)
Definition pass2_array (buf : list ascii) (c : nat) (curr_type : option nat)
    (st : statics) : option (statics * list ascii) :=
  '(st, _, tc) ← DEBUG_ReadTypeEnum buf (c + 3)%nat st;
  let tc := S tc in
  '(arrmin, n) ← CStr.strtol (drop tc buf);
  let tc := (tc + n + 1)%nat in
  '(arrmax, n) ← CStr.strtol (drop tc buf);
  let tc := (tc + n + 1)%nat in
  '(st, dt2, tc) ← DEBUG_ReadTypeEnum buf tc st;
  datatype ← load st dt2;
  buf ← cut buf c tc 0;
  h ← DEBUG_SetArrayParams (heap st) curr_type arrmin arrmax datatype;
  Some (set_heap h st, buf).

(** [case 's': case 'u':]; [dt] was taken at the head of the turn, when
    its table had [n] entries, and is written after the members have been
    read. *)
Definition pass2_struct (buf : list ascii) (c : nat) (dt : slot) (n : nat)
    (curr_type : option nat) (st : statics) : option (statics * list ascii) :=
  '(size, k) ← CStr.strtol (drop (c + 2)%nat buf);
  let tc := (c + 2 + k)%nat in
  '(h, fresh) ← DEBUG_SetStructSize (heap st) curr_type size;
  let st := set_heap h st in
  if negb fresh then
    k ← skip_members (drop tc buf);
    let tc := (tc + k + 2)%nat in
    buf ← cut buf c tc 1;
    Some (st, buf)
  else
    '(st, buf, tc, failure) ← struct_members (length buf) buf tc curr_type false st;
    st ← (if failure : bool then store_held n st dt None else Some st);
    buf ← cut buf c tc 1;
    Some (st, buf).

(** [case 'e':] *)
Definition pass2_enum (buf : list ascii) (c : nat) (curr_type : option nat)
    (st : statics) : option (statics * list ascii) :=
  '(st, tc) ← enum_members (length buf) buf (c + 2)%nat curr_type st;
  buf ← cut buf c tc 1;
  Some (st, buf).

(** One turn of the second sweep for the ['='] at offset [c]: the new
    statics, text and [ntp], or [None] in last place after
    [return FALSE]. *)
Definition pass2_step (buf : list ascii) (c : nat) (ntp : Z)
    (typename : option (list ascii)) (st : statics) :
    option (statics * list ascii * option Z) :=
  '(st, dt) ← DEBUG_ReadTypeEnumBackwards buf c st;
  curr_type ← load st dt;
  tag ← buf !! S c;
  if Ascii.eqb tag "x" then
    '(st, buf) ← pass2_xref_struct buf c st;
    Some (st, buf, Some (ntp - 1))
  else if Ascii.eqb tag "*" || Ascii.eqb tag "f" then
    '(st, buf) ← pass2_pointer buf c curr_type st;
    Some (st, buf, Some (ntp - 1))
  else if Ascii.eqb tag "(" then
    n ← entries st dt;
    '(st, buf) ← pass2_reference buf c dt n typename st;
    v ← load_held n st dt;
    if (0 <=? ntp) && (ntp <? Z.of_nat (length (curr_types st))) then
      Some (set_curr_types (<[Z.to_nat ntp := v]> (curr_types st)) st, buf,
            Some (ntp - 1))
    else None
  else if Ascii.eqb tag "1" || Ascii.eqb tag "r" then
    buf ← CStr.poke buf c CStr.NUL;
    Some (st, buf, Some (ntp - 1))
  else if Ascii.eqb tag "a" then
    '(st, buf) ← pass2_array buf c curr_type st;
    Some (st, buf, Some (ntp - 1))
  else if Ascii.eqb tag "s" || Ascii.eqb tag "u" then
    n ← entries st dt;
    '(st, buf) ← pass2_struct buf c dt n curr_type st;
    Some (st, buf, Some (ntp - 1))
  else if Ascii.eqb tag "e" then
    '(st, buf) ← pass2_enum buf c curr_type st;
    Some (st, buf, Some (ntp - 1))
  else
    Some (DEBUG_Printf (MsgUnknownType tag) st, buf, None).

(** The second sweep: [for( c = strrchr(ptr, '='); c != NULL;
    c = strrchr(ptr, '=') )].  [Some true] in last place when the loop ran
    out of ['='], [Some false] after [return FALSE]. *)
Fixpoint pass2 (fuel : nat) (buf : list ascii) (ntp : Z)
    (typename : option (list ascii)) (st : statics) :
    option (statics * list ascii * bool) :=
  r ← CStr.strrchr "=" buf;
  match r with
  | None => Some (st, buf, true)
  | Some c =>
      match fuel with
      | O => None
      | S fuel' =>
          '(st, buf, ntp') ← pass2_step buf c ntp typename st;
          match ntp' with
          | None => Some (st, buf, false)
          | Some ntp => pass2 fuel' buf ntp typename st
          end
      end
  end.

Definition DEBUG_ParseTypedefStab (ptr : list ascii) (typename : list ascii)
    (st : statics) : option (statics * list ascii * bool) :=
  '(st, handled) ← DEBUG_HandlePreviousTypedef typename ptr st;
  if handled : bool then Some (st, ptr, true)
  else
    ps ← CStr.strchr_all "=" ptr;
    '(st, r, typename') ← pass1 ptr ps (Some typename) 0 st;
    match r with
    | None => Some (st, ptr, false)
    | Some ntypes =>
        '(st, ptr, ok) ← pass2 (length ptr) ptr (Z.of_nat ntypes - 1) typename' st;
        if ok : bool then
          st ← DEBUG_RegisterTypedef typename (curr_types st) ntypes st;
          Some (st, ptr, true)
        else Some (st, ptr, false)
    end.

(** [DEBUG_ParseStabType]: the node a symbol's type number stands for. *)
Definition DEBUG_ParseStabType (stab : list ascii) (st : statics) :
    option (statics * option nat) :=
  r ← CStr.strchr ":" stab;
  match r with
  | None => Some (st, None)
  | Some c =>
      let c := S c in
      a ← stab !! c;
      let c := if Ascii.eqb a "(" then c else S c in
      '(st, dt, _) ← DEBUG_ReadTypeEnum stab c st;
      v ← load st dt;
      Some (st, v)
  end.

(** ** [DEBUG_ParseStabs]: the record loop *)

Definition N_UNDF : Z := 0x00.
Definition N_GSYM : Z := 0x20.
Definition N_FUN : Z := 0x24.
Definition N_STSYM : Z := 0x26.
Definition N_LCSYM : Z := 0x28.
Definition N_MAIN : Z := 0x2a.
Definition N_ROSYM : Z := 0x2c.
Definition N_OPT : Z := 0x3c.
Definition N_RSYM : Z := 0x40.
Definition N_SLINE : Z := 0x44.
Definition N_SO : Z := 0x64.
Definition N_LSYM : Z := 0x80.
Definition N_BINCL : Z := 0x82.
Definition N_SOL : Z := 0x84.
Definition N_PSYM : Z := 0xa0.
Definition N_EINCL : Z := 0xa2.
Definition N_LBRAC : Z := 0xc0.
Definition N_EXCL : Z := 0xc2.
Definition N_RBRAC : Z := 0xe0.

(** [PATH_MAX] of [<limits.h>] on Linux. *)
Definition PATH_MAX : Z := 4096.

Record stab_nlist := mkStab {
  n_strx : Z;
  n_type : Z;
  n_other : Z;
  n_desc : Z;
  n_value : Z }.

(** The two places the [ptr] of the loop points to: the mapped file, at
    an offset from [addr], and the start of [stabbuff]. *)
Inductive cptr :=
| InFile (off : Z)
| InBuff.

#[global] Instance cptr_eq_dec : EqDecision cptr.
Proof. solve_decision. Defined.

Inductive sym_flag := SYM_WINE | SYM_DATA | SYM_FUNC | SYM_INVALID.

(** Calls into the symbol table ([hash.c], outside these sources), in the
    order they are made.  A [struct name_hash *] or
    [struct wine_locals *] is the rank of the call that returned it. *)
Inductive event :=
| AddSymbol (name : list ascii) (type : option nat) (off : Z)
    (path : list ascii) (flags : list sym_flag)
| AddLocal (func : nat) (regno offset : Z) (name : list ascii)
| SetLocalSymbolType (loc : nat) (type : option nat)
| AddLineNumber (func : nat) (line : Z) (offset : Z)
| Normalize (func : option nat).

(** The local variables of [DEBUG_ParseStabs].  [subpath] is kept with
    the value [stabbufflen] had when the pointer was saved. *)
Record locals := mkLocals {
  curr_func : option nat;
  curr_loc : option nat;
  curr_sym : option nat;
  currpath : list ascii;
  in_external_file : bool;
  last_nso : Z;
  stabbuff : list ascii;
  stabbufflen : Z;
  strs : Z;
  strtabinc : Z;
  subpath : option (cptr * Z);
  events : list event;
  glob : statics }.

Definition set_glob (g : statics) (l : locals) : locals :=
  mkLocals (curr_func l) (curr_loc l) (curr_sym l) (currpath l)
    (in_external_file l) (last_nso l) (stabbuff l) (stabbufflen l) (strs l)
    (strtabinc l) (subpath l) (events l) g.
Definition set_stabbuff (b : list ascii) (n : Z) (l : locals) : locals :=
  mkLocals (curr_func l) (curr_loc l) (curr_sym l) (currpath l)
    (in_external_file l) (last_nso l) b n (strs l)
    (strtabinc l) (subpath l) (events l) (glob l).
Definition set_curr_func (f : option nat) (l : locals) : locals :=
  mkLocals f (curr_loc l) (curr_sym l) (currpath l)
    (in_external_file l) (last_nso l) (stabbuff l) (stabbufflen l) (strs l)
    (strtabinc l) (subpath l) (events l) (glob l).
Definition set_curr_loc (f : option nat) (l : locals) : locals :=
  mkLocals (curr_func l) f (curr_sym l) (currpath l)
    (in_external_file l) (last_nso l) (stabbuff l) (stabbufflen l) (strs l)
    (strtabinc l) (subpath l) (events l) (glob l).
Definition set_curr_sym (f : option nat) (l : locals) : locals :=
  mkLocals (curr_func l) (curr_loc l) f (currpath l)
    (in_external_file l) (last_nso l) (stabbuff l) (stabbufflen l) (strs l)
    (strtabinc l) (subpath l) (events l) (glob l).
Definition set_currpath (p : list ascii) (l : locals) : locals :=
  mkLocals (curr_func l) (curr_loc l) (curr_sym l) p
    (in_external_file l) (last_nso l) (stabbuff l) (stabbufflen l) (strs l)
    (strtabinc l) (subpath l) (events l) (glob l).
Definition set_in_external_file (b : bool) (l : locals) : locals :=
  mkLocals (curr_func l) (curr_loc l) (curr_sym l) (currpath l)
    b (last_nso l) (stabbuff l) (stabbufflen l) (strs l)
    (strtabinc l) (subpath l) (events l) (glob l).
Definition set_last_nso (i : Z) (l : locals) : locals :=
  mkLocals (curr_func l) (curr_loc l) (curr_sym l) (currpath l)
    (in_external_file l) i (stabbuff l) (stabbufflen l) (strs l)
    (strtabinc l) (subpath l) (events l) (glob l).
Definition set_strs (s inc : Z) (l : locals) : locals :=
  mkLocals (curr_func l) (curr_loc l) (curr_sym l) (currpath l)
    (in_external_file l) (last_nso l) (stabbuff l) (stabbufflen l) s
    inc (subpath l) (events l) (glob l).
Definition set_subpath (p : option (cptr * Z)) (l : locals) : locals :=
  mkLocals (curr_func l) (curr_loc l) (curr_sym l) (currpath l)
    (in_external_file l) (last_nso l) (stabbuff l) (stabbufflen l) (strs l)
    (strtabinc l) p (events l) (glob l).

(** A call into the symbol table: the event is recorded and its rank
    stands for the pointer returned. *)
Definition emit (e : event) (l : locals) : locals * option nat :=
  (mkLocals (curr_func l) (curr_loc l) (curr_sym l) (currpath l)
     (in_external_file l) (last_nso l) (stabbuff l) (stabbufflen l) (strs l)
     (strtabinc l) (subpath l) (events l ++ [e]) (glob l),
   Some (length (events l))).

(** The locals after the declarations and the two statements in front of
    the loop; only the first byte of [stabbuff] has been written. *)
Definition initial_locals (strtaboff : Z) (g : statics) : locals :=
  mkLocals None None None [] false (-1) [CStr.NUL] 65536 strtaboff 0 None [] g.

(** The bytes a pointer designates, up to the end of its object. *)
Definition bytes_at (addr : list ascii) (l : locals) (p : cptr) : option (list ascii) :=
  match p with
  | InFile off => if off <? 0 then None else Some (drop (Z.to_nat off) addr)
  | InBuff => Some (stabbuff l)
  end.

(** The bytes designated by a pointer that was saved when [stabbuff] had
    [n] bytes.  [DBG_realloc] gives [stabbuff] another block when it
    grows, and a pointer to the buffer that was saved before is left in
    the block that was released: reading through it has no defined
    result. *)
Definition bytes_held (addr : list ascii) (l : locals) (p : cptr) (n : Z) :
    option (list ascii) :=
  match p with
  | InBuff => if stabbufflen l =? n then Some (stabbuff l) else None
  | InFile _ => bytes_at addr l p
  end.

(** [strcpy (stabbuff + at, s)] for a C string [s] that is not part of
    [stabbuff]: the bytes and the terminator must fit. *)
Definition write_buff (at_ : nat) (s : list ascii) (l : locals) : option locals :=
  if Z.of_nat (at_ + length s + 1) <=? stabbufflen l then
    Some (set_stabbuff (take at_ (stabbuff l) ++ s ++ [CStr.NUL]
                          ++ drop (at_ + length s + 1) (stabbuff l))
            (stabbufflen l) l)
  else None.

(** What one turn of the loop did with its record. *)
Inductive turn :=
| Continued    (* the text ended in a backslash: appended, [continue] *)
| Skipped      (* [DEBUG_ParseTypedefStab] failed: [continue] *)
| Dispatched.  (* the [switch] was reached *)

(** The head of the loop body.  [Some (l, None)] after [continue],
    [Some (l, Some ptr)] with the text to go on with. *)
Definition join (addr : list ascii) (stab_ptr : stab_nlist) (l : locals) :
    option (locals * option cptr) :=
  let ptr := strs l + wrap32 (n_strx stab_ptr) in
  text ← bytes_at addr l (InFile ptr);
  len ← CStr.strlen text;
  let last := ptr + Z.of_nat len - 1 in
  c ← (if last <? 0 then None else addr !! Z.to_nat last);
  if Ascii.eqb c "\" then
    blen ← CStr.strlen (stabbuff l);
    let l := if stabbufflen l <? Z.of_nat (blen + len)
             then set_stabbuff (stabbuff l) (stabbufflen l + 65536) l else l in
    l ← write_buff blen (take (len - 1) text) l;
    Some (l, None)
  else
    c0 ← stabbuff l !! 0%nat;
    if negb (Ascii.eqb c0 CStr.NUL) then
      blen ← CStr.strlen (stabbuff l);
      l ← write_buff blen (take len text) l;
      Some (l, Some InBuff)
    else Some (l, Some (InFile ptr)).

(** [if( strchr(ptr, '=') != NULL ) ...]: [None] in last place after
    [continue]. *)
Definition typedef_part (addr : list ascii) (ptr : cptr) (l : locals) :
    option (locals * option cptr) :=
  text ← bytes_at addr l ptr;
  r ← CStr.strchr "=" text;
  match r with
  | None => Some (l, Some ptr)
  | Some _ =>
      l ← (if bool_decide (ptr = InBuff) then Some l
           else s ← CStr.cstr text; write_buff 0 s l);
      symname ← stab_strcpy 4096 (stabbuff l);
      '(g, buf, ok) ← DEBUG_ParseTypedefStab (stabbuff l) symname (glob l);
      let l := set_glob g (set_stabbuff buf (stabbufflen l) l) in
      if ok : bool then Some (l, Some InBuff)
      else Some (set_stabbuff (<[0%nat := CStr.NUL]> (stabbuff l)) (stabbufflen l) l, None)
  end.

(** [stab_strcpy (symname, sizeof (symname), ptr)]. *)
Definition symname_of (addr : list ascii) (ptr : cptr) (l : locals) :
    option (list ascii) :=
  text ← bytes_at addr l ptr; stab_strcpy 4096 text.

(** [DEBUG_ParseStabType (ptr)] on the statics of [l]. *)
Definition stab_type (addr : list ascii) (ptr : cptr) (l : locals) :
    option (locals * option nat) :=
  text ← bytes_at addr l ptr;
  '(g, t) ← DEBUG_ParseStabType text (glob l);
  Some (set_glob g l, t).

Definition data_symbol (addr : list ascii) (load_offset : Z) (stab_ptr : stab_nlist)
    (ptr : cptr) (flags : list sym_flag) (l : locals) : option locals :=
  '(l, type) ← stab_type addr ptr l;
  symname ← symname_of addr ptr l;
  let '(l, sym) := emit (AddSymbol symname type
                           (wrap32 (load_offset + n_value stab_ptr))
                           (currpath l) flags) l in
  Some (set_curr_sym sym l).

Definition local_symbol (addr : list ascii) (stab_ptr : stab_nlist) (ptr : cptr)
    (regno offset : Z) (l : locals) : option locals :=
  match curr_func l with
  | Some func =>
      if in_external_file l then Some l
      else
        symname ← symname_of addr ptr l;
        let '(l, loc) := emit (AddLocal func regno offset symname) l in
        let l := set_curr_loc loc l in
        '(l, type) ← stab_type addr ptr l;
        loc ← loc;
        Some (fst (emit (SetLocalSymbolType loc type) l))
  | None => Some l
  end.

(** The [switch (stab_ptr->n_type)] of the loop, [__ELF__] defined. *)
Definition dispatch (addr : list ascii) (load_offset : Z) (i : Z)
    (stab_ptr : stab_nlist) (ptr : cptr) (l : locals) : option locals :=
  let t := n_type stab_ptr in
  if t =? N_GSYM then
    data_symbol addr load_offset stab_ptr ptr [SYM_WINE; SYM_DATA; SYM_INVALID] l
  else if (t =? N_RBRAC) || (t =? N_LBRAC) then Some l
  else if (t =? N_LCSYM) || (t =? N_STSYM) then
    data_symbol addr load_offset stab_ptr ptr [SYM_WINE; SYM_DATA] l
  else if t =? N_PSYM then local_symbol addr stab_ptr ptr 0 (n_value stab_ptr) l
  else if t =? N_RSYM then
    local_symbol addr stab_ptr ptr (wrap32 (n_value stab_ptr + 1)) 0 l
  else if t =? N_LSYM then local_symbol addr stab_ptr ptr 0 (n_value stab_ptr) l
  else if t =? N_SLINE then
    match curr_func l with
    | Some func =>
        if in_external_file l then Some l
        else Some (fst (emit (AddLineNumber func (n_desc stab_ptr)
                                (n_value stab_ptr)) l))
    | None => Some l
    end
  else if t =? N_FUN then
    let l := fst (emit (Normalize (curr_func l)) l) in
    if negb (in_external_file l) then
      symname ← symname_of addr ptr l;
      match symname with
      | _ :: _ =>
          '(l, type) ← stab_type addr ptr l;
          let '(l, sym) := emit (AddSymbol symname type
                                   (wrap32 (load_offset + n_value stab_ptr))
                                   (currpath l) [SYM_WINE; SYM_FUNC; SYM_INVALID]) l in
          Some (set_curr_func sym l)
      | [] => Some (set_curr_func None l)
      end
    else Some (set_curr_func None l)
  else if t =? N_SO then
    text ← bytes_at addr l ptr;
    s ← CStr.cstr text;
    l ← match s with
        | [] =>
            let l := set_currpath [] l in
            let l := fst (emit (Normalize (curr_func l)) l) in
            Some (set_curr_func None l)
        | a :: _ =>
            let path := if Ascii.eqb a "/" then s else currpath l ++ s in
            if PATH_MAX <? Z.of_nat (length path + 1) then None
            else Some (set_glob (DEBUG_ResetIncludes (glob l))
                         (set_subpath (Some (ptr, stabbufflen l)) (set_currpath path l)))
        end;
    Some (set_last_nso i l)
  else if t =? N_SOL then
    match subpath l with
    | None => Some (set_in_external_file false l)
    | Some (sp, n) =>
        text ← bytes_at addr l ptr;
        main ← bytes_held addr l sp n;
        same ← CStr.streq text main;
        Some (set_in_external_file (negb same) l)
    end
  else if t =? N_UNDF then
    let l := set_strs (strs l + strtabinc l) (n_value stab_ptr) l in
    let l := fst (emit (Normalize (curr_func l)) l) in
    Some (set_curr_func None l)
  else if t =? N_OPT then Some l
  else if t =? N_BINCL then
    text ← bytes_at addr l ptr;
    file ← CStr.cstr text;
    let '(g, idx) := DEBUG_CreateInclude file (n_value stab_ptr) (glob l) in
    '(g, _) ← DEBUG_AddInclude idx g;
    Some (set_glob g l)
  else if t =? N_EINCL then Some l
  else if t =? N_EXCL then
    text ← bytes_at addr l ptr;
    file ← CStr.cstr text;
    '(g, _) ← DEBUG_AddInclude (DEBUG_FindInclude file (n_value stab_ptr) (glob l))
                (glob l);
    Some (set_glob g l)
  else if t =? N_MAIN then Some l
  else Some (set_glob (DEBUG_Printf (MsgUnknownStab t) (glob l)) l).

(** The body of the loop for the record of rank [i]. *)
Definition DEBUG_ParseStabs_body (addr : list ascii) (load_offset : Z) (i : Z)
    (stab_ptr : stab_nlist) (l : locals) : option (locals * turn) :=
  '(l, ptr) ← join addr stab_ptr l;
  match ptr with
  | None => Some (l, Continued)
  | Some ptr =>
      '(l, ptr) ← typedef_part addr ptr l;
      match ptr with
      | None => Some (l, Skipped)
      | Some ptr =>
          l ← dispatch addr load_offset i stab_ptr ptr l;
          Some (set_stabbuff (<[0%nat := CStr.NUL]> (stabbuff l)) (stabbufflen l) l,
                Dispatched)
      end
  end.

(** The loop over the records, [i] the rank of the first one. *)
Fixpoint DEBUG_ParseStabs_loop (addr : list ascii) (load_offset : Z) (i : Z)
    (stabs : list stab_nlist) (l : locals) : option locals :=
  match stabs with
  | [] => Some l
  | stab_ptr :: stabs' =>
      '(l, _) ← DEBUG_ParseStabs_body addr load_offset i stab_ptr l;
      DEBUG_ParseStabs_loop addr load_offset (i + 1) stabs' l
  end.

(** [DEBUG_ParseStabs]: the loop, then the registry and the tables are
    released.  [stabs] are the records at [addr + staboff], [strtaboff]
    the offset of the strings. *)
Definition DEBUG_ParseStabs (addr : list ascii) (load_offset : Z)
    (stabs : list stab_nlist) (strtaboff : Z) (g : statics) : option locals :=
  l ← DEBUG_ParseStabs_loop addr load_offset 0 stabs (initial_locals strtaboff g);
  Some (set_glob (set_curr_types []
                    (DEBUG_FreeIncludes (DEBUG_FreeRegisteredTypedefs (glob l)))) l).

(** ** Vocabulary of the properties *)

(** A text as the parser receives it: the bytes and their terminator. *)
Definition stab_text (s : string) : list ascii := CStr.of_string s ++ [CStr.NUL].

(** The statics after a typedef record was parsed (unchanged when the
    parse has no defined result). *)
Definition after_typedef (text : string) (name : string) (st : statics) : statics :=
  match DEBUG_ParseTypedefStab (stab_text text) (CStr.of_string name) st with
  | Some (st', _, _) => st'
  | None => st
  end.

(** No byte [ch] at offset [k] or behind it. *)
Definition none_from (ch : ascii) (k : nat) (buf : list ascii) : Prop :=
  ∀ i, (k ≤ i)%nat → buf !! i ≠ Some ch.

(** Every ['='] of the buffer belongs to the C string at its start: none
    is left behind the terminator by an earlier use of the buffer. *)
Definition no_stale_eq (buf : list ascii) : Prop :=
  ∀ n, CStr.strlen buf = Some n → none_from "=" n buf.

(** Decimal notation. *)
Fixpoint uint_chars (u : Decimal.uint) : list ascii :=
  match u with
  | Decimal.Nil => []
  | Decimal.D0 u => "0"%char :: uint_chars u
  | Decimal.D1 u => "1"%char :: uint_chars u
  | Decimal.D2 u => "2"%char :: uint_chars u
  | Decimal.D3 u => "3"%char :: uint_chars u
  | Decimal.D4 u => "4"%char :: uint_chars u
  | Decimal.D5 u => "5"%char :: uint_chars u
  | Decimal.D6 u => "6"%char :: uint_chars u
  | Decimal.D7 u => "7"%char :: uint_chars u
  | Decimal.D8 u => "8"%char :: uint_chars u
  | Decimal.D9 u => "9"%char :: uint_chars u
  end.

Definition dec (z : Z) : list ascii :=
  if z <? 0 then "-"%char :: uint_chars (N.to_uint (Z.to_N (- z)))
  else uint_chars (N.to_uint (Z.to_N z)).

Definition in_long (z : Z) : Prop := CStr.LONG_MIN ≤ z ≤ CStr.LONG_MAX.

(** A type reference as the grammar writes it: a bare subscript, or a
    file number and a subscript in parentheses. *)
Inductive type_ref :=
| Bare (subnr : Z)
| Paren (filenr subnr : Z).

Definition ref_chars (r : type_ref) : list ascii :=
  match r with
  | Bare n => dec n
  | Paren f n => "("%char :: dec f ++ ","%char :: dec n ++ [")"%char]
  end.

Definition ref_numbers (r : type_ref) : Z * Z :=
  match r with Bare n => (0, n) | Paren f n => (f, n) end.

(** The node a reference stands for in [st]: the cell
    [DEBUG_FileSubNr2StabEnum] gives, read. *)
Definition node_of (st : statics) (r : type_ref) : option (option nat) :=
  '(st', dt) ← DEBUG_FileSubNr2StabEnum (ref_numbers r).1 (ref_numbers r).2 st;
  load st' dt.

(** A member of a struct as the grammar writes it:
    [<name>:<type-ref>,<offset>,<size>;]. *)
Record field := mkField {
  f_name : list ascii;
  f_ref : type_ref;
  f_offset : Z;
  f_size : Z }.

Definition field_chars (f : field) : list ascii :=
  f_name f ++ ":"%char :: ref_chars (f_ref f) ++ ","%char :: dec (f_offset f)
    ++ ","%char :: dec (f_size f) ++ [";"%char].

Definition fields_chars (fs : list field) : list ascii :=
  concat (map field_chars fs).

Definition field_ok (st : statics) (f : field) : Prop :=
  (":"%char ∉ f_name f) ∧ (CStr.NUL ∉ f_name f)
  ∧ (∀ a, head (f_name f) = Some a → a ≠ ";"%char ∧ CStr.isdigit a = false)
  ∧ (length (f_name f) < 1024)%nat
  ∧ 0 ≤ (ref_numbers (f_ref f)).1 ∧ in_long (ref_numbers (f_ref f)).1
  ∧ 0 ≤ (ref_numbers (f_ref f)).2 ∧ in_long (ref_numbers (f_ref f)).2
  ∧ in_long (f_offset f) ∧ in_long (f_size f)
  ∧ is_Some (node_of st (f_ref f)).

(** The members the resolved fields give, and the number of the others. *)
Definition member_of (st : statics) (f : field) : list member :=
  match node_of st (f_ref f) with
  | Some (Some h) => [mkMember (f_name f) (Some h) (f_offset f) (f_size f)]
  | _ => []
  end.

Definition unresolved (st : statics) (f : field) : bool :=
  match node_of st (f_ref f) with Some (Some _) => false | _ => true end.

(** A slot that holds a node keeps that node. *)
Definition keeps_filled_slots (st st' : statics) : Prop :=
  ∀ dt h, load st dt = Some (Some h) → load st' dt = Some (Some h).

(** A slot that holds a node keeps it or is emptied. *)
Definition keeps_or_empties (st st' : statics) : Prop :=
  ∀ dt h, load st dt = Some (Some h) →
    load st' dt = Some (Some h) ∨ load st' dt = Some None.

(** The second parse of a text is answered from the registry: nothing is
    allocated. *)
Definition second_parse_rebinds (text name : list ascii) (st : statics) : Prop :=
  ∀ st1 buf1,
    DEBUG_ParseTypedefStab text name st = Some (st1, buf1, true) →
    ∃ st2, DEBUG_HandlePreviousTypedef name text st1 = Some (st2, true)
           ∧ DEBUG_ParseTypedefStab text name st1 = Some (st2, text, true)
           ∧ heap st2 = heap st1.

(** After a shape mismatch and the fresh parse, the name still finds the
    entry it found before. *)
Definition mismatch_keeps_entry (text name : list ascii) (st : statics) : Prop :=
  ∀ orig st' st2 buf2 ok,
    find_typedef name st = Some (Some orig) →
    DEBUG_HandlePreviousTypedef name text st = Some (st', false) →
    DEBUG_ParseTypedefStab text name st = Some (st2, buf2, ok) →
    find_typedef name st2 = Some (Some orig).

(** What the statics share when tables only grew and cells were written:
    the include stack and the number of include files. *)
Definition same_includes (st st' : statics) : Prop :=
  cu_include_stack st' = cu_include_stack st
  ∧ cu_include_stk_idx st' = cu_include_stk_idx st
  ∧ length (include_defs st') = length (include_defs st).

(** Nodes keep their kind and their handle. *)
Definition keeps_kinds (st st' : statics) : Prop :=
  ∀ h d, heap st !! h = Some d →
    ∃ d', heap st' !! h = Some d' ∧ dt_type d' = dt_type d.


(** ** Relations between two states of the statics *)

(** What [grow] gives when the request fits: the vector with
    [subnr + 1] entries when it was shorter, the new ones zeroed. *)
Definition grown (subnr : Z) (v : list (option nat)) : list (option nat) :=
  if Z.of_nat (length v) <=? subnr
  then v ++ replicate (Z.to_nat (subnr + 1) - length v) None
  else v.

(** A table of the length it had, or longer by a request that fitted. *)
Definition widened (v v' : list (option nat)) : Prop :=
  length v' = length v
  ∨ ((length v < length v')%nat ∧ fits (Z.of_nat (length v') - 1) = true).

(** The tables of [st'] are those of [st], or wider. *)
Definition wider (st st' : statics) : Prop :=
  widened (cu_vector st) (cu_vector st')
  ∧ length (include_defs st') = length (include_defs st)
  ∧ ∀ i d d', include_defs st !! i = Some d → include_defs st' !! i = Some d' →
      widened (inc_vector d) (inc_vector d').

(** What a step leaves alone besides the cells of the tables. *)
Definition frame (st st' : statics) : Prop :=
  heap st' = heap st ∧ ktd_head st' = ktd_head st
  ∧ curr_types st' = curr_types st ∧ printed st' = printed st
  ∧ same_includes st st' ∧ wider st st'.

(** Every cell that exists keeps its content. *)
Definition loads_kept (st st' : statics) : Prop :=
  ∀ d v, load st d = Some v → load st' d = Some v.

(** The registry and the include stack are as they were, and the tables
    are as long or wider. *)
Definition untouched (st st' : statics) : Prop :=
  ktd_head st' = ktd_head st ∧ same_includes st st' ∧ wider st st'.

(** A failed comparison with the cached entry changes nothing but the
    messages. *)
Definition only_printed (st st' : statics) : Prop :=
  heap st' = heap st ∧ ktd_head st' = ktd_head st ∧ cu_vector st' = cu_vector st
  ∧ include_defs st' = include_defs st ∧ curr_types st' = curr_types st
  ∧ cu_include_stack st' = cu_include_stack st
  ∧ cu_include_stk_idx st' = cu_include_stk_idx st.

(** The nodes keep their kinds and the scratch list is as it was. *)
Definition steady (st st' : statics) : Prop :=
  keeps_kinds st st' ∧ curr_types st' = curr_types st.

(** A table that only grew: the old cells, then empty ones. *)
Definition pads (v v' : list (option nat)) : Prop :=
  ∃ k, v' = v ++ replicate k None.

(** An include file whose table only grew. *)
Definition inc_pads (d d' : include_def) : Prop :=
  inc_name d' = inc_name d ∧ inc_value d' = inc_value d
  ∧ pads (inc_vector d) (inc_vector d').

(** The tables of [st'] are those of [st], grown. *)
Definition extends (st st' : statics) : Prop :=
  cu_include_stack st' = cu_include_stack st
  ∧ cu_include_stk_idx st' = cu_include_stk_idx st
  ∧ pads (cu_vector st) (cu_vector st')
  ∧ ∀ i d, include_defs st !! i = Some d →
      ∃ d', include_defs st' !! i = Some d' ∧ inc_pads d d'.

(** The cell of subscript [s] of a table once the table covers it. *)
Definition cell (v : list (option nat)) (s : Z) : option (option nat) :=
  if 0 <=? s then Some (from_option id None (v !! Z.to_nat s)) else None.

(** The subscript of a slot. *)
Definition subnr_of (dt : slot) : Z :=
  match dt with CuSlot n => n | IncSlot _ n => n end.

(** A file number that [DEBUG_FileSubNr2StabEnum] accepts. *)
Definition resolvable (f : Z) (st : statics) : Prop :=
  f = 0
  ∨ (0 < f ≤ cu_include_stk_idx st
     ∧ ∃ idx, cu_include_stack st !! Z.to_nat f = Some idx ∧ 0 ≤ idx
              ∧ (Z.to_nat idx < length (include_defs st))%nat).

(** The table that the file number [f] designates. *)
Definition table_of (f : Z) (st : statics) : option (list (option nat)) :=
  if f =? 0 then Some (cu_vector st)
  else if cu_include_stk_idx st <? f then None
  else if f <? 0 then None
  else
    idx ← cu_include_stack st !! Z.to_nat f;
    if idx <? 0 then None
    else d ← include_defs st !! Z.to_nat idx; Some (inc_vector d).

(** The table of file [f] has an entry of subscript [s]: the slot is
    taken without a reallocation. *)
Definition covered (f s : Z) (st : statics) : Prop :=
  ∃ v, table_of f st = Some v ∧ 0 ≤ s < Z.of_nat (length v).

(** No table has been reallocated: each has the entries it had. *)
Definition same_entries (st st' : statics) : Prop :=
  ∀ dt, entries st' dt = entries st dt.

(** A reference to an entry that its table has. *)
Definition in_table (st : statics) (r : type_ref) : Prop :=
  covered (ref_numbers r).1 (ref_numbers r).2 st.

(** The tables and the include stack are as they were. *)
Definition same_tables (st st' : statics) : Prop :=
  cu_vector st' = cu_vector st ∧ include_defs st' = include_defs st
  ∧ cu_include_stack st' = cu_include_stack st
  ∧ cu_include_stk_idx st' = cu_include_stk_idx st.

(** The slot in front of the ['='] at offset [p] exists in [st]. *)
Definition bindable (text : list ascii) (st : statics) (p : nat) : Prop :=
  ∃ x f s, p = S x ∧ read_backwards text x = Some (f, s) ∧ covered f s st.

(** A parse of a typedef writes no filled slot. *)
Definition write_once (text name : list ascii) (st : statics) : Prop :=
  ∀ st' buf ok,
    DEBUG_ParseTypedefStab text name st = Some (st', buf, ok) →
    keeps_filled_slots st st'.

(** ** Texts and what they stand for *)

(** The number a run of digits stands for, [acc] the digits read before. *)
Fixpoint uint_val (u : Decimal.uint) (acc : Z) : Z :=
  match u with
  | Decimal.Nil => acc
  | Decimal.D0 u => uint_val u (10 * acc + 0)
  | Decimal.D1 u => uint_val u (10 * acc + 1)
  | Decimal.D2 u => uint_val u (10 * acc + 2)
  | Decimal.D3 u => uint_val u (10 * acc + 3)
  | Decimal.D4 u => uint_val u (10 * acc + 4)
  | Decimal.D5 u => uint_val u (10 * acc + 5)
  | Decimal.D6 u => uint_val u (10 * acc + 6)
  | Decimal.D7 u => uint_val u (10 * acc + 7)
  | Decimal.D8 u => uint_val u (10 * acc + 8)
  | Decimal.D9 u => uint_val u (10 * acc + 9)
  end.

(** The bytes of a number in decimal notation: a digit or the sign. *)
Definition numeric (a : ascii) : Prop := CStr.isdigit a = true ∨ a = "-"%char.

(** A byte that is neither [ch] nor the terminator. *)
Definition plain (ch a : ascii) : Prop := a ≠ ch ∧ a ≠ CStr.NUL.

(** A byte at which [strtol] stops: no digit, no white space, no sign. *)
Definition stopper (e : ascii) : Prop :=
  CStr.isspace e = false ∧ CStr.isdigit e = false ∧ e ≠ "-"%char ∧ e ≠ "+"%char.

(** [qs] lists, in ascending order, the offsets below [m] at which
    [text] holds an ['=']. *)
Definition eqs_below (text : list ascii) (m : nat) (qs : list nat) : Prop :=
  StronglySorted lt qs
  ∧ ∀ q, q ∈ qs ↔ (q < m)%nat ∧ text !! q = Some "="%char.

(** The text the second sweep has in hand once it is through with every
    ['='] from offset [m] on: the bytes below [m] are those of [text], and
    no ['='] is left from [m] on. *)
Definition swept (text : list ascii) (m : nat) (buf : list ascii) : Prop :=
  take m buf = take m text ∧ none_from "=" m buf.

(** The tag behind the ['='] at offset [p] is one that
    [DEBUG_HandlePreviousTypedef] knows. *)
Definition tagged (text : list ascii) (p : nat) : Prop :=
  ∃ tag, text !! S p = Some tag ∧ expect_of tag ≠ None.

(** A struct or union in the text: the ['='], the tag, the size, the
    members and the closing [';']. *)
Definition struct_chars (tag : ascii) (size : Z) (fs : list field) : list ascii :=
  "="%char :: tag :: dec size ++ fields_chars fs ++ [";"%char].

(** A node with its size set, and with members added at the end of its
    list. *)
Definition with_size (d : datatype) (size : Z) : datatype :=
  mkDatatype (dt_type d) (dt_name d) (dt_target d) (dt_min d) (dt_max d)
    (dt_elt d) (Some size) (dt_members d).

Definition with_members (d : datatype) (ms : list member) : datatype :=
  mkDatatype (dt_type d) (dt_name d) (dt_target d) (dt_min d) (dt_max d)
    (dt_elt d) (dt_size d) (dt_members d ++ ms).

(** The members a list of fields gives, in order, and the number of
    fields that give none. *)
Definition members_of (st : statics) (fs : list field) : list member :=
  flat_map (member_of st) fs.

Definition failures (st : statics) (fs : list field) : nat :=
  length (List.filter (unresolved st) fs).

(** The message of the member loop for a field without a type. *)
Definition is_failure (m : message) : bool :=
  match m with MsgFailure _ _ => true | _ => false end.

(** The typedef of an array of type 5 with the bounds [lo] and [hi],
    [bar:t6=ar1;<lo>;<hi>;5], and its part behind the index type. *)
Definition bounds_tail (lo hi : Z) : list ascii :=
  dec lo ++ ";"%char :: dec hi ++ CStr.of_string ";5" ++ [CStr.NUL].

Definition array_text (lo hi : Z) : list ascii :=
  CStr.of_string "bar:t6=ar1;" ++ bounds_tail lo hi.

(** The text a successful parse leaves in its buffer. *)
Definition parsed_text (r : option (statics * list ascii * bool)) :
    option (list ascii) :=
  match r with
  | Some (_, buf, true) => CStr.cstr buf
  | _ => None
  end.

(** ** The record loop observed *)

(** The text of a record: the C string at its offset in the strings. *)
Definition record_string (addr : list ascii) (strs : Z) (r : stab_nlist) :
    option (list ascii) :=
  let ptr := strs + wrap32 (n_strx r) in
  if ptr <? 0 then None else CStr.cstr (drop (Z.to_nat ptr) addr).

(** The loop body over records that are all continued. *)
Fixpoint continued_run (addr : list ascii) (load_offset : Z) (i : Z)
    (rs : list stab_nlist) (l : locals) : option locals :=
  match rs with
  | [] => Some l
  | r :: rs' =>
      '(l, t) ← DEBUG_ParseStabs_body addr load_offset i r l;
      match t with
      | Continued => continued_run addr load_offset (i + 1) rs' l
      | _ => None
      end
  end.

(** What a loop body did with its record. *)
Definition turn_of (r : option (locals * turn)) : option turn := snd <$> r.

(** The symbols handed to the symbol table. *)
Definition symbols_of (r : option locals) : option (list (list ascii)) :=
  l ← r;
  Some (flat_map (λ e, match e with AddSymbol n _ _ _ _ => [n] | _ => [] end)
          (events l)).

(** The include stack up to its top. *)
Definition include_stack_of (r : option locals) : option (list Z) :=
  l ← r;
  Some (take (Z.to_nat (cu_include_stk_idx (glob l)) + 1) (cu_include_stack (glob l))).

(** ** Sample inputs *)

(** The statics of a compilation unit that has seen the typedef of
    [int], as type 1 and as type 5. *)
Definition int1_state : statics :=
  after_typedef "int:t1=r1;0;127;" "int" initial_statics.

Definition int_state : statics :=
  after_typedef "int:t5=r5;0;127;" "int" initial_statics.

(** A struct whose first member names type 3, which the table of the
    compilation unit has but which is not defined, and the statics once
    [int] is type 1 and the first sweep has run over the struct: the
    table has the six entries 0 to 5. *)
Definition struct_fields : list field :=
  [mkField (CStr.of_string "x") (Bare 3) 0 32;
   mkField (CStr.of_string "y") (Bare 1) 32 32].

Definition struct_text : list ascii :=
  CStr.of_string "A:t5" ++ struct_chars "s" 8 struct_fields ++ [CStr.NUL].

Definition struct_state : statics :=
  match pass1 struct_text [4%nat] (Some (CStr.of_string "A")) 0 int1_state with
  | Some (st, _, _) => st
  | None => initial_statics
  end.

(** The same struct with type 9 for its first member, a type number
    beyond the end of the table. *)
Definition far_fields : list field :=
  [mkField (CStr.of_string "x") (Bare 9) 0 32;
   mkField (CStr.of_string "y") (Bare 1) 32 32].

Definition far_text : list ascii :=
  CStr.of_string "A:t5" ++ struct_chars "s" 8 far_fields ++ [CStr.NUL].

Definition far_state : statics :=
  match pass1 far_text [4%nat] (Some (CStr.of_string "A")) 0 int1_state with
  | Some (st, _, _) => st
  | None => initial_statics
  end.

(** A typedef of a reference to a type number beyond the end of the
    table, and one whose text has no [':'] behind the name of its cross
    reference, in a buffer that holds the end of an earlier text behind
    the terminator. *)
Definition far_reference_text : list ascii := stab_text "T:t(0,5)=(0,9)".

Definition stale_text : list ascii :=
  stab_text "A:t5=*6=xsB" ++ stab_text ":7=(0,1)".

(** A struct of two members whose second member defines type 5 again. *)
Definition nested_text : list ascii :=
  stab_text "A:t5=s8x:1,0,32;y:5=s4z:1,0,32;;,32,32;;".

(** A typedef of two pointers, the statics it leaves when it is parsed
    first, and a text of another shape under the same name. *)
Definition two_pointers_text : list ascii := stab_text "A:t5=*6=*1".

Definition two_pointers_state : statics :=
  after_typedef "A:t5=*6=*1" "A" initial_statics.

Definition pointer_array_text : list ascii := stab_text "A:t5=*6=ar1;0;9;1".

(** A mapped file: a byte in front of the strings, then the strings, the
    first of them empty.  Offset 8 of the strings is the terminator of the
    string at offset 6, an empty string as well. *)
Definition sample_file : list ascii :=
  [CStr.NUL] ++ stab_text "" ++ stab_text "/a.c" ++ stab_text "x\"
    ++ stab_text "h.h" ++ stab_text "foo:F1" ++ stab_text "v:(1,3)".

Definition sample_strtaboff : Z := 1.

(** Records over [sample_file]. *)
Definition rec_so_main : stab_nlist := mkStab 1 N_SO 0 0 0.
Definition rec_so_continued : stab_nlist := mkStab 6 N_SO 0 0 0.
Definition rec_so_empty : stab_nlist := mkStab 8 N_SO 0 0 0.
Definition rec_fun : stab_nlist := mkStab 13 N_FUN 0 0 0.
Definition rec_excl : stab_nlist := mkStab 9 N_EXCL 0 0 7.
Definition rec_bincl : stab_nlist := mkStab 9 N_BINCL 0 0 7.
Definition rec_gsym : stab_nlist := mkStab 20 N_GSYM 0 0 0.

(** The records [stabs] run through the loop from the start. *)
Definition run_records (stabs : list stab_nlist) : option locals :=
  DEBUG_ParseStabs_loop sample_file 0 0 stabs
    (initial_locals sample_strtaboff initial_statics).

(** The text of a record of [sample_file]. *)
Definition record_text (r : stab_nlist) : option (list ascii) :=
  record_string sample_file sample_strtaboff r.

(** The locals once the record of the primary source file is through, and
    once the include file [h.h] with value 7 is through as well. *)
Definition sample_locals : locals :=
  match run_records [rec_so_main] with
  | Some l => l
  | None => initial_locals sample_strtaboff initial_statics
  end.

Definition known_include_locals : locals :=
  match run_records [rec_so_main; rec_bincl] with
  | Some l => l
  | None => initial_locals sample_strtaboff initial_statics
  end.

(** ** Include files and enumerations observed *)

(** The entry of an include file with the name and the value that
    [DEBUG_FindInclude] compares. *)
Definition is_include (file : list ascii) (val : Z) (d : include_def) : Prop :=
  inc_value d = val ∧ inc_name d = file.

(** The statics once two nodes were registered under the name [A]. *)
Definition registered_state : statics :=
  match DEBUG_RegisterTypedef (CStr.of_string "A")
          [Some 7%nat; None; Some 1%nat] 2 initial_statics with
  | Some st => st
  | None => initial_statics
  end.

(** An enumerator as the grammar writes it: [<name>:<value>,]. *)
Record enumerator := mkEnumerator {
  e_name : list ascii;
  e_value : Z }.

Definition enumerator_chars (e : enumerator) : list ascii :=
  e_name e ++ ":"%char :: dec (e_value e) ++ [","%char].

Definition enumerators_chars (es : list enumerator) : list ascii :=
  concat (map enumerator_chars es).

(** An enumeration in the text: the ['='], the tag, the enumerators and
    the closing [';']. *)
Definition enum_chars (es : list enumerator) : list ascii :=
  "="%char :: "e"%char :: enumerators_chars es ++ [";"%char].

Definition enumerator_ok (e : enumerator) : Prop :=
  (":"%char ∉ e_name e) ∧ (CStr.NUL ∉ e_name e)
  ∧ head (e_name e) ≠ Some ";"%char
  ∧ (length (e_name e) < 1024)%nat ∧ in_long (e_value e).

(** The member an enumerator gives: no type, no size. *)
Definition enumerator_member (e : enumerator) : member :=
  mkMember (e_name e) None (e_value e) 0.

(** The typedef of an enumeration of two values, and the statics once
    the first sweep has run over it. *)
Definition colour_enumerators : list enumerator :=
  [mkEnumerator (CStr.of_string "red") 0; mkEnumerator (CStr.of_string "blue") (-1)].

Definition colour_text : list ascii :=
  CStr.of_string "C:t7" ++ enum_chars colour_enumerators ++ [CStr.NUL].

Definition colour_state : statics :=
  match pass1 colour_text [4%nat] (Some (CStr.of_string "C")) 0 initial_statics with
  | Some (st, _, _) => st
  | None => initial_statics
  end.

(** A node with its target set. *)
Definition with_target (d : datatype) (t : option nat) : datatype :=
  mkDatatype (dt_type d) (dt_name d) t (dt_min d) (dt_max d) (dt_elt d)
    (dt_size d) (dt_members d).

(** The typedef of a pointer to type 1, and the statics once [int] is
    type 1 and the first sweep has run over the pointer. *)
Definition pointer_text : list ascii := stab_text "P:t(0,5)=*(0,1)".

Definition pointer_state : statics :=
  match pass1 pointer_text [8%nat] (Some (CStr.of_string "P")) 0 int1_state with
  | Some (st, _, _) => st
  | None => initial_statics
  end.

(** A call that records a function, or a local, a parameter or a line
    number of one. *)
Definition of_function (e : event) : bool :=
  match e with
  | AddLocal _ _ _ _ | SetLocalSymbolType _ _ | AddLineNumber _ _ _ => true
  | AddSymbol _ _ _ _ flags =>
      existsb (λ f, match f with SYM_FUNC => true | _ => false end) flags
  | Normalize _ => false
  end.

(** The record of a line that comes from the include file [h.h], and the
    locals once the primary source file and that record are through. *)
Definition rec_sol_header : stab_nlist := mkStab 9 N_SOL 0 0 0.

Definition external_locals : locals :=
  match run_records [rec_so_main; rec_sol_header] with
  | Some l => l
  | None => initial_locals sample_strtaboff initial_statics
  end.

(** A second [N_SO] record, with the text [h.h]. *)
Definition rec_so_file : stab_nlist := mkStab 9 N_SO 0 0 0.

(** A parameter record with the text [v:(1,3)], and the locals inside the
    function [foo] of the primary source file, the include file [h.h]
    known. *)
Definition rec_psym : stab_nlist := mkStab 20 N_PSYM 0 0 8.

Definition function_locals : locals :=
  match run_records [rec_so_main; rec_bincl; rec_fun] with
  | Some l => l
  | None => initial_locals sample_strtaboff initial_statics
  end.

(** The typedef of another name for type 1, and the statics once [int] is
    type 1 and the first sweep has run over the text. *)
Definition alias_text : list ascii := stab_text "T:t(0,5)=(0,1)".

Definition alias_state : statics :=
  match pass1 alias_text [8%nat] (Some (CStr.of_string "T")) 0 int1_state with
  | Some (st, _, _) => st
  | None => initial_statics
  end.

(** The same text with type 9, which lies beyond the end of the table,
    and the statics once the first sweep has run over it. *)
Definition far_reference_state : statics :=
  match pass1 far_reference_text [8%nat] (Some (CStr.of_string "T")) 0 int1_state with
  | Some (st, _, _) => st
  | None => initial_statics
  end.

(** A mapped file whose strings are the empty one, [a\], [b] and [ab],
    with records for a source file whose name is continued over two
    records, and for lines that come from the files [ab], the empty name,
    and [ab] continued over two records. *)
Definition path_file : list ascii :=
  [CStr.NUL] ++ stab_text "" ++ stab_text "a\" ++ stab_text "b" ++ stab_text "ab".

Definition rec_so_head : stab_nlist := mkStab 1 N_SO 0 0 0.
Definition rec_so_tail : stab_nlist := mkStab 4 N_SO 0 0 0.
Definition rec_sol_same : stab_nlist := mkStab 6 N_SOL 0 0 0.
Definition rec_sol_none : stab_nlist := mkStab 0 N_SOL 0 0 0.
Definition rec_sol_head : stab_nlist := mkStab 1 N_SOL 0 0 0.
Definition rec_sol_tail : stab_nlist := mkStab 4 N_SOL 0 0 0.

Definition run_path_records (stabs : list stab_nlist) : option locals :=
  DEBUG_ParseStabs_loop path_file 0 0 stabs (initial_locals 1 initial_statics).

(** * Properties *)

(** ** Slots, tables and what a parse leaves alone *)

Ltac inv_some H :=
  repeat (simpl in H;
          lazymatch type of H with
          | Some _ = Some _ => first [discriminate H | injection H as H; try subst]
          | None = Some _ => discriminate H
          | mbind _ ?x = Some _ =>
              let E := fresh "E" in
              destruct x eqn:E; simpl in H; [try inv_some E|discriminate H]
          | match ?x with _ => _ end = Some _ =>
              let E := fresh "E" in
              destruct x eqn:E; simpl in H; try discriminate H; try inv_some E
          | (let '(_, _) := ?x in _) = Some _ =>
              let E := fresh "E" in destruct x eqn:E
          end).

Lemma same_includes_refl st : same_includes st st.
Proof. by repeat split. Qed.

Lemma same_includes_trans st1 st2 st3 :
  same_includes st1 st2 → same_includes st2 st3 → same_includes st1 st3.
Proof. intros (?&?&?) (?&?&?). repeat split; congruence. Qed.

(** *** Tables that are reallocated *)

Lemma fits_le a b : a ≤ b → fits b = true → fits a = true.
Proof. unfold fits, PTR_SIZE. intros Hab Hb%Z.ltb_lt. apply Z.ltb_lt. lia. Qed.

Lemma grow_grown s v v' : grow s v = Some v' → v' = grown s v.
Proof.
  unfold grow, grown. intros H. destruct (Z.of_nat (length v) <=? s).
  - destruct (fits s); by simplify_eq.
  - by simplify_eq.
Qed.

Lemma grow_fits s v : fits s = true → grow s v = Some (grown s v).
Proof. unfold grow, grown. intros ->. by case_match. Qed.

Lemma grow_covered s v : s < Z.of_nat (length v) → grow s v = Some v.
Proof. unfold grow. intros H. by rewrite (proj2 (Z.leb_gt _ _)) by lia. Qed.

Lemma grown_covered s v : s < Z.of_nat (length v) → grown s v = v.
Proof. unfold grown. intros H. by rewrite (proj2 (Z.leb_gt _ _)) by lia. Qed.

Lemma grown_lookup s v i x : v !! i = Some x → grown s v !! i = Some x.
Proof.
  unfold grown. intros H. case_match; [|done]. by apply lookup_app_l_Some.
Qed.

Lemma grown_length s v : (length v ≤ length (grown s v))%nat.
Proof. unfold grown. case_match; [|done]. rewrite length_app. lia. Qed.

Lemma index_ok_grown n s v : index_ok n v = true → index_ok n (grown s v) = true.
Proof.
  unfold index_ok. pose proof (grown_length s v) as Hg.
  intros Hi%andb_true_iff. apply andb_true_iff. lia.
Qed.

Lemma widened_refl v : widened v v.
Proof. by left. Qed.

Lemma widened_length v v' : widened v v' → (length v ≤ length v')%nat.
Proof. intros [->|[? _]]; lia. Qed.

Lemma widened_trans v1 v2 v3 : widened v1 v2 → widened v2 v3 → widened v1 v3.
Proof.
  unfold widened. intros [E1|[L1 F1]] [E2|[L2 F2]].
  - left. congruence.
  - right. rewrite <- E1. done.
  - right. rewrite E2. done.
  - right. split; [lia|done].
Qed.

Lemma grow_widened s v v' : grow s v = Some v' → widened v v'.
Proof.
  unfold grow. intros H. destruct (Z.leb_spec (Z.of_nat (length v)) s) as [Hl|Hl].
  - destruct (fits s) eqn:Ef; [|done]. simplify_eq. right.
    rewrite length_app, length_replicate. split; [lia|].
    by replace (Z.of_nat (length v + (Z.to_nat (s + 1) - length v)) - 1) with s by lia.
  - simplify_eq. apply widened_refl.
Qed.

Lemma widened_insert i x v : widened v (<[i := x]> v).
Proof. left. apply length_insert. Qed.

Lemma wider_refl st : wider st st.
Proof.
  split; [apply widened_refl|]. split; [done|]. intros i d d' H1 H2.
  simplify_eq. apply widened_refl.
Qed.

Lemma wider_trans st1 st2 st3 : wider st1 st2 → wider st2 st3 → wider st1 st3.
Proof.
  intros (W1 & L1 & I1) (W2 & L2 & I2). split; [by eapply widened_trans|].
  split; [congruence|]. intros i d d3 H1 H3.
  destruct (lookup_lt_is_Some_2 (include_defs st2) i) as [d2 H2].
  { rewrite L1. by eapply lookup_lt_Some. }
  eapply widened_trans; eauto.
Qed.

Lemma wider_cu v st : widened (cu_vector st) v → wider st (set_cu_vector v st).
Proof.
  intros H. split; [done|]. split; [done|]. intros i d d' H1 H2. simpl in H2.
  simplify_eq. apply widened_refl.
Qed.

Lemma wider_inc i d v st :
  include_defs st !! i = Some d → widened (inc_vector d) v →
  wider st (set_include_defs
              (<[i := mkInclude (inc_name d) (inc_value d) v]> (include_defs st)) st).
Proof.
  intros Hd H. split; [apply widened_refl|]. split; [simpl; apply length_insert|].
  intros j dj dj' H1 H2. simpl in H2. destruct (decide (j = i)) as [->|Hne].
  - rewrite list_lookup_insert_eq in H2 by (by eapply lookup_lt_Some).
    simplify_eq. done.
  - rewrite list_lookup_insert_ne in H2 by done. simplify_eq. apply widened_refl.
Qed.

Lemma resolve_frame f s st st' dt :
  DEBUG_FileSubNr2StabEnum f s st = Some (st', dt) → frame st st'.
Proof.
  unfold DEBUG_FileSubNr2StabEnum, frame, same_includes. intros H. inv_some H.
  - split_and!; try done. by apply wider_cu, (grow_widened s).
  - split_and!; try done; simpl.
    + by rewrite length_insert.
    + by apply wider_inc, (grow_widened s).
Qed.

Lemma store_frame st dt v st' : store st dt v = Some st' → frame st st'.
Proof.
  unfold store, frame, same_includes. intros H. destruct dt; inv_some H.
  - split_and!; try done. apply wider_cu, widened_insert.
  - split_and!; try done; simpl.
    + by rewrite length_insert.
    + by apply wider_inc, widened_insert.
Qed.

(** A pointer that is held designates its cell as long as the table
    has the entries it had. *)
Lemma load_held_load n st dt v : load_held n st dt = Some v → load st dt = Some v.
Proof. unfold load_held. intros H. inv_some H. done. Qed.

Lemma store_held_store n st dt v st' :
  store_held n st dt v = Some st' → store st dt v = Some st'.
Proof. unfold store_held. intros H. inv_some H. done. Qed.

Lemma load_held_entries n st dt v :
  load_held n st dt = Some v → entries st dt = Some n.
Proof.
  unfold load_held. intros H. destruct (entries st dt) as [m|]; [|done].
  cbn [mbind option_bind] in H. destruct (Nat.eqb_spec m n); [by subst|done].
Qed.

Lemma store_held_entries n st dt v st' :
  store_held n st dt v = Some st' → entries st dt = Some n.
Proof.
  unfold store_held. intros H. destruct (entries st dt) as [m|]; [|done].
  cbn [mbind option_bind] in H. destruct (Nat.eqb_spec m n); [by subst|done].
Qed.

Lemma held_load n st dt : entries st dt = Some n → load_held n st dt = load st dt.
Proof. unfold load_held. intros ->. cbn. by rewrite Nat.eqb_refl. Qed.

Lemma held_store n st dt v :
  entries st dt = Some n → store_held n st dt v = store st dt v.
Proof. unfold store_held. intros ->. cbn. by rewrite Nat.eqb_refl. Qed.

Ltac grown_facts :=
  repeat match goal with
  | G : grow _ _ = Some ?v |- _ => apply grow_grown in G; subst v
  end.

Ltac held_facts :=
  repeat match goal with
  | E : load_held _ _ _ = Some _ |- _ => apply load_held_load in E
  | E : store_held _ _ _ _ = Some _ |- _ => apply store_held_store in E
  end.

Lemma resolve_load f s st st' dt d v :
  DEBUG_FileSubNr2StabEnum f s st = Some (st', dt) →
  load st d = Some v → load st' d = Some v.
Proof.
  unfold DEBUG_FileSubNr2StabEnum. intros H L.
  inv_some H; destruct d as [m|j m]; simpl in *; try done.
  - grown_facts. inv_some L.
    rewrite index_ok_grown by done. by apply grown_lookup.
  - destruct (include_defs st !! j) as [dj|] eqn:Ej; [simpl in L|done].
    destruct (index_ok m (inc_vector dj)) eqn:Em; [|done].
    destruct (decide (j = Z.to_nat z)) as [->|Hne].
    + rewrite list_lookup_insert_eq by (by eapply lookup_lt_Some). simpl.
      assert (dj = i) as -> by congruence.
      grown_facts.
      rewrite index_ok_grown by done. by apply grown_lookup.
    + rewrite list_lookup_insert_ne by done. rewrite Ej. simpl. by rewrite Em.
Qed.

Lemma to_nat_inj_nonneg a b : 0 ≤ a → 0 ≤ b → Z.to_nat a = Z.to_nat b → a = b.
Proof. lia. Qed.

Lemma load_store_eq st dt v st' : store st dt v = Some st' → load st' dt = Some v.
Proof.
  unfold store, load, index_ok. intros H. destruct dt as [n|i n]; inv_some H; simpl.
  - rewrite length_insert, E. apply list_lookup_insert_eq.
    apply andb_true_iff in E. lia.
  - rewrite list_lookup_insert_eq by (by eapply lookup_lt_Some). simpl.
    rewrite length_insert, E0. apply list_lookup_insert_eq.
    apply andb_true_iff in E0. lia.
Qed.

Lemma load_store_ne st dt v st' d :
  store st dt v = Some st' → d ≠ dt → load st' d = load st d.
Proof.
  unfold store, load, index_ok. intros H Hne.
  destruct dt as [n|i n]; inv_some H; destruct d as [m|j m]; simpl; try done.
  - rewrite length_insert. case_match; [|done].
    apply list_lookup_insert_ne. apply andb_true_iff in E, H.
    intros Heq. apply Hne. f_equal. lia.
  - destruct (decide (j = i)) as [->|Hji].
    + rewrite list_lookup_insert_eq by (by eapply lookup_lt_Some). rewrite E. simpl.
      rewrite length_insert. case_match; [|done].
      apply list_lookup_insert_ne. apply andb_true_iff in E0, H.
      intros Heq. apply Hne. f_equal. lia.
    + by rewrite list_lookup_insert_ne.
Qed.

Lemma store_keeps_other st dt v st' :
  store st dt v = Some st' →
  ∀ d x, d ≠ dt → load st d = Some x → load st' d = Some x.
Proof. intros H d x Hne L. by rewrite (load_store_ne _ _ _ _ _ H Hne). Qed.

Lemma load_set_heap h st d : load (set_heap h st) d = load st d.
Proof. done. Qed.
Lemma load_printf m st d : load (DEBUG_Printf m st) d = load st d.
Proof. done. Qed.
Lemma load_set_curr_types c st d : load (set_curr_types c st) d = load st d.
Proof. done. Qed.

Lemma loads_kept_refl st : loads_kept st st.
Proof. by intros d v. Qed.

Lemma loads_kept_trans st1 st2 st3 :
  loads_kept st1 st2 → loads_kept st2 st3 → loads_kept st1 st3.
Proof. intros H1 H2 d v L. eauto. Qed.

Lemma keeps_filled_refl st : keeps_filled_slots st st.
Proof. by intros d h. Qed.

Lemma keeps_filled_trans st1 st2 st3 :
  keeps_filled_slots st1 st2 → keeps_filled_slots st2 st3 → keeps_filled_slots st1 st3.
Proof. intros H1 H2 d v L. eauto. Qed.

Lemma loads_kept_filled st st' : loads_kept st st' → keeps_filled_slots st st'.
Proof. intros H d h L. eauto. Qed.

Lemma keeps_filled_or_empties st st' :
  keeps_filled_slots st st' → keeps_or_empties st st'.
Proof. intros H d h L. left. eauto. Qed.

Lemma resolve_loads_kept f s st st' dt :
  DEBUG_FileSubNr2StabEnum f s st = Some (st', dt) → loads_kept st st'.
Proof. intros H d v. by apply resolve_load with (1 := H). Qed.

Lemma read_enum_loads_kept buf x st st' dt x' :
  DEBUG_ReadTypeEnum buf x st = Some (st', dt, x') → loads_kept st st'.
Proof.
  unfold DEBUG_ReadTypeEnum. intros H. inv_some H. by eapply resolve_loads_kept.
Qed.

Lemma read_back_loads_kept buf c st st' dt :
  DEBUG_ReadTypeEnumBackwards buf c st = Some (st', dt) → loads_kept st st'.
Proof.
  unfold DEBUG_ReadTypeEnumBackwards. intros H. inv_some H.
  by eapply resolve_loads_kept.
Qed.

Lemma store_empty_keeps_filled st dt v st' :
  load st dt = Some None → store st dt v = Some st' → keeps_filled_slots st st'.
Proof.
  intros L S d h Ld. destruct (decide (d = dt)) as [->|Hne]; [congruence|].
  by rewrite (load_store_ne _ _ _ _ _ S Hne).
Qed.

Lemma store_none_keeps_or_empties st dt st' :
  store st dt None = Some st' → keeps_or_empties st st'.
Proof.
  intros S d h Ld. destruct (decide (d = dt)) as [->|Hne].
  - right. by eapply load_store_eq.
  - left. by rewrite (load_store_ne _ _ _ _ _ S Hne).
Qed.

Lemma struct_members_loads_kept fuel : ∀ buf tc ct fl st st' buf' tc' fl',
  struct_members fuel buf tc ct fl st = Some (st', buf', tc', fl') →
  loads_kept st st'.
Proof.
  induction fuel as [|fuel IH]; intros buf tc ct fl st st' buf' tc' fl' H; [done|].
  inv_some H.
  - apply loads_kept_refl.
  - apply IH in H. eapply loads_kept_trans; [by eapply read_enum_loads_kept|].
    intros d v L. by apply H.
  - apply IH in H. eapply loads_kept_trans; [by eapply read_enum_loads_kept|].
    intros d v L. by apply H.
Qed.

Lemma enum_members_loads_kept fuel : ∀ buf tc ct st st' tc',
  enum_members fuel buf tc ct st = Some (st', tc') → loads_kept st st'.
Proof.
  induction fuel as [|fuel IH]; intros buf tc ct st st' tc' H; [done|].
  inv_some H.
  - apply loads_kept_refl.
  - apply IH in H. intros d v L. by apply H.
Qed.

Ltac kept_facts :=
  repeat match goal with
  | E : DEBUG_ReadTypeEnumBackwards _ _ _ = Some _ |- _ =>
      apply read_back_loads_kept in E
  | E : DEBUG_ReadTypeEnum _ _ _ = Some _ |- _ =>
      apply read_enum_loads_kept in E
  | E : struct_members _ _ _ _ _ _ = Some _ |- _ =>
      apply struct_members_loads_kept in E
  | E : enum_members _ _ _ _ _ = Some _ |- _ =>
      apply enum_members_loads_kept in E
  end.

Ltac kept_chain :=
  unfold loads_kept, keeps_filled_slots in *; simpl; eauto 10.

Ltac fact_of lem :=
  match goal with E : _ = Some _ |- _ => apply lem in E end.

Ltac unfold_pass2 :=
  unfold pass2_step, pass2_xref_struct, pass2_pointer, pass2_reference,
    pass2_array, pass2_struct, pass2_enum.

Lemma pass2_reference_keeps_filled buf c dt n tn st st' buf' :
  pass2_reference buf c dt n tn st = Some (st', buf') → keeps_filled_slots st st'.
Proof.
  unfold pass2_reference. intros H. inv_some H.
  all: held_facts; kept_facts.
  - intros d h L. kept_chain.
  - intros d h L.
    match goal with S : store _ _ _ = Some _ |- _ =>
      eapply store_empty_keeps_filled in S; [|eassumption] end.
    kept_chain.
  - intros d h L.
    match goal with S1 : store (set_heap _ ?s) ?d1 _ = Some ?sa,
                    S2 : store ?sa ?d2 _ = Some _,
                    L1 : load ?s ?d1 = Some None, L2 : load ?s ?d2 = Some None |- _ =>
      destruct (decide (d = d2)) as [->|Hne2];
        [assert (load s d2 = Some (Some h)) by kept_chain; congruence|];
      destruct (decide (d = d1)) as [->|Hne1];
        [assert (load s d1 = Some (Some h)) by kept_chain; congruence|];
      rewrite (load_store_ne _ _ _ _ _ S2 Hne2);
      rewrite (load_store_ne _ _ _ _ _ S1 Hne1)
    end.
    kept_chain.
Qed.

Lemma pass2_step_keeps_or_empties buf c ntp tn st st' buf' r :
  pass2_step buf c ntp tn st = Some (st', buf', r) → keeps_or_empties st st'.
Proof.
  unfold pass2_step, pass2_xref_struct, pass2_pointer, pass2_array, pass2_struct,
    pass2_enum.
  intros H. inv_some H.
  all: held_facts; kept_facts.
  all: try (apply keeps_filled_or_empties, loads_kept_filled; intros d v L; kept_chain; fail).
  - fact_of pass2_reference_keeps_filled.
    intros d h L. left. rewrite load_set_curr_types. kept_chain.
  - intros d h L.
    match goal with S : store _ _ None = Some _ |- _ =>
      eapply store_none_keeps_or_empties; [exact S|] end.
    kept_chain.
Qed.

Lemma pass2_xref_keeps_filled buf c ntp tn st st' buf' r :
  buf !! S c = Some "("%char →
  pass2_step buf c ntp tn st = Some (st', buf', r) → keeps_filled_slots st st'.
Proof.
  unfold pass2_step. intros Htag H. inv_some H.
  all: injection Htag as ->; try done.
  held_facts; kept_facts. fact_of pass2_reference_keeps_filled.
  intros d h L. rewrite load_set_curr_types. kept_chain.
Qed.

(** *** What the parser leaves alone: registry and include stack *)

Lemma untouched_refl st : untouched st st.
Proof. split; [done|]. split; [apply same_includes_refl|apply wider_refl]. Qed.

Lemma untouched_trans st1 st2 st3 :
  untouched st1 st2 → untouched st2 st3 → untouched st1 st3.
Proof.
  intros (? & ? & ?) (? & ? & ?). split; [congruence|].
  split; [by eapply same_includes_trans|by eapply wider_trans].
Qed.

Lemma frame_untouched st st' : frame st st' → untouched st st'.
Proof. intros (? & ? & ? & ? & ? & ?). by split_and!. Qed.

Lemma resolve_untouched f s st st' dt :
  DEBUG_FileSubNr2StabEnum f s st = Some (st', dt) → untouched st st'.
Proof. intros H. by eapply frame_untouched, resolve_frame. Qed.

Lemma store_untouched st dt v st' : store st dt v = Some st' → untouched st st'.
Proof. intros H. by eapply frame_untouched, store_frame. Qed.

Lemma read_enum_untouched buf x st st' dt x' :
  DEBUG_ReadTypeEnum buf x st = Some (st', dt, x') → untouched st st'.
Proof.
  unfold DEBUG_ReadTypeEnum. intros H. inv_some H. by eapply resolve_untouched.
Qed.

Lemma read_back_untouched buf c st st' dt :
  DEBUG_ReadTypeEnumBackwards buf c st = Some (st', dt) → untouched st st'.
Proof.
  unfold DEBUG_ReadTypeEnumBackwards. intros H. inv_some H.
  by eapply resolve_untouched.
Qed.

Lemma untouched_set_heap h st : untouched st (set_heap h st).
Proof. exact (untouched_refl st). Qed.
Lemma untouched_printf m st : untouched st (DEBUG_Printf m st).
Proof. exact (untouched_refl st). Qed.
Lemma untouched_set_curr_types c st : untouched st (set_curr_types c st).
Proof. exact (untouched_refl st). Qed.

Lemma untouched_step st1 st2 st3 :
  untouched st1 st2 → untouched st2 st3 → untouched st1 st3.
Proof. apply untouched_trans. Qed.

Ltac untouched_facts :=
  repeat match goal with
  | E : DEBUG_ReadTypeEnumBackwards _ _ _ = Some _ |- _ =>
      apply read_back_untouched in E
  | E : DEBUG_ReadTypeEnum _ _ _ = Some _ |- _ =>
      apply read_enum_untouched in E
  | E : DEBUG_FileSubNr2StabEnum _ _ _ = Some _ |- _ =>
      apply resolve_untouched in E
  | E : store_held _ _ _ _ = Some _ |- _ => apply store_held_store in E
  | E : store _ _ _ = Some _ |- _ => apply store_untouched in E
  | E : push_curr_type _ _ _ = Some _ |- _ =>
      unfold push_curr_type in E; inv_some E
  end.

(** The tables along a chain of steps; the states in between differ
    from those of the facts by the heap, the messages or the scratch list
    only. *)
Ltac wider_chain :=
  lazymatch goal with
  | |- wider ?a ?b =>
      first [ exact (wider_refl a)
            | match goal with
              | H : wider ?x ?y |- _ =>
                  refine (wider_trans a x b _ (H : wider x b)); clear H; wider_chain
              end ]
  end.

Ltac untouched_chain :=
  unfold untouched, same_includes in *; simpl in *;
  repeat match goal with H : _ ∧ _ |- _ => destruct H end;
  split_and!; try congruence; wider_chain.

Lemma struct_members_untouched fuel : ∀ buf tc ct fl st st' buf' tc' fl',
  struct_members fuel buf tc ct fl st = Some (st', buf', tc', fl') →
  untouched st st'.
Proof.
  induction fuel as [|fuel IH]; intros buf tc ct fl st st' buf' tc' fl' H; [done|].
  inv_some H.
  - apply untouched_refl.
  - apply IH in H. untouched_facts. untouched_chain.
  - apply IH in H. untouched_facts. untouched_chain.
Qed.

Lemma enum_members_untouched fuel : ∀ buf tc ct st st' tc',
  enum_members fuel buf tc ct st = Some (st', tc') → untouched st st'.
Proof.
  induction fuel as [|fuel IH]; intros buf tc ct st st' tc' H; [done|].
  inv_some H.
  - apply untouched_refl.
  - apply IH in H. untouched_chain.
Qed.

Ltac untouched_more :=
  repeat match goal with
  | E : struct_members _ _ _ _ _ _ = Some _ |- _ =>
      apply struct_members_untouched in E
  | E : enum_members _ _ _ _ _ = Some _ |- _ =>
      apply enum_members_untouched in E
  end; untouched_facts.

Lemma pass2_step_untouched buf c ntp tn st st' buf' r :
  pass2_step buf c ntp tn st = Some (st', buf', r) → untouched st st'.
Proof.
  unfold_pass2. intros H. inv_some H.
  all: untouched_more; untouched_chain.
Qed.

Lemma pass2_untouched fuel : ∀ buf ntp tn st st' buf' ok,
  pass2 fuel buf ntp tn st = Some (st', buf', ok) → untouched st st'.
Proof.
  induction fuel as [|fuel IH]; intros buf ntp tn st st' buf' ok H; simpl in H.
  - inv_some H. apply untouched_refl.
  - inv_some H.
    + apply IH in H. fact_of pass2_step_untouched. by eapply untouched_trans.
    + by eapply pass2_step_untouched.
    + apply untouched_refl.
Qed.

Lemma pass1_untouched buf ps : ∀ tn n st st' r tn',
  pass1 buf ps tn n st = Some (st', r, tn') → untouched st st'.
Proof.
  induction ps as [|c ps IH]; intros tn n st st' r tn' H; simpl in H.
  - inv_some H. apply untouched_refl.
  - inv_some H.
    + apply IH in H. untouched_facts.
      all: eapply untouched_trans; [|exact H]; untouched_chain.
    + apply IH in H. untouched_facts.
      all: eapply untouched_trans; [|exact H]; untouched_chain.
    + untouched_facts; untouched_chain.
Qed.

Lemma check_defs_untouched buf types ps : ∀ count st st' r,
  check_defs buf types count ps st = Some (st', r) → untouched st st'.
Proof.
  induction ps as [|p ps IH]; intros count st st' r H; simpl in H.
  - inv_some H. apply untouched_refl.
  - inv_some H; eauto using untouched_refl, untouched_printf.
Qed.

Lemma rebind_defs_untouched buf types ps : ∀ count st st',
  rebind_defs buf types count ps st = Some st' → untouched st st'.
Proof.
  induction ps as [|p ps IH]; intros count st st' H; simpl in H.
  - inv_some H. apply untouched_refl.
  - inv_some H. apply IH in H. untouched_facts.
    eapply untouched_trans; [|exact H]. untouched_chain.
Qed.

Lemma handle_previous_untouched name stab st st' b :
  DEBUG_HandlePreviousTypedef name stab st = Some (st', b) → untouched st st'.
Proof.
  unfold DEBUG_HandlePreviousTypedef. intros H. inv_some H.
  all: repeat fact_of check_defs_untouched; repeat fact_of rebind_defs_untouched.
  all: eauto using untouched_refl, untouched_trans.
Qed.

(** ** The registry of known typedefs *)

(** *** The registry across a parse *)

Lemma pass1_count buf ps : ∀ tn n st st' m tn',
  pass1 buf ps tn n st = Some (st', Some m, tn') → m = (n + length ps)%nat.
Proof.
  induction ps as [|c ps IH]; intros tn n st st' m tn' H; simpl in H.
  - inv_some H. simpl. lia.
  - inv_some H; apply IH in H; simpl; lia.
Qed.

Lemma only_printed_refl st : only_printed st st.
Proof. by repeat split. Qed.

Lemma check_defs_only_printed buf types ps : ∀ count st st' r,
  check_defs buf types count ps st = Some (st', r) → only_printed st st'.
Proof.
  induction ps as [|p ps IH]; intros count st st' r H; simpl in H.
  - inv_some H. apply only_printed_refl.
  - inv_some H; eauto using only_printed_refl. by repeat split.
Qed.

Lemma handle_previous_unseen name stab st st' :
  DEBUG_HandlePreviousTypedef name stab st = Some (st', false) →
  only_printed st st'.
Proof.
  unfold DEBUG_HandlePreviousTypedef. intros H. inv_some H.
  all: eauto using only_printed_refl, check_defs_only_printed.
Qed.

Lemma find_typedef_elem name st k :
  find_typedef name st = Some (Some k) →
  ∃ chain, ktd_head st !! Z.to_nat (stab_hash name) = Some chain ∧ k ∈ chain
           ∧ ktd_name k = name.
Proof.
  unfold find_typedef. intros H. inv_some H.
  apply find_some in H as [Hin Hn]. exists l. split; [done|].
  split; [by apply list_elem_of_In|]. by apply bool_decide_eq_true in Hn.
Qed.

Lemma register_shape name types n st st' :
  DEBUG_RegisterTypedef name types n st = Some st' →
  (n = 1%nat ∧ st' = st)
  ∨ (n ≠ 1%nat ∧ (n ≤ length types)%nat ∧
     ∃ chain, ktd_head st !! Z.to_nat (stab_hash name) = Some chain ∧
       st' = set_ktd_head (<[Z.to_nat (stab_hash name) :=
                               mkKtd name (take n types) :: chain]> (ktd_head st)) st).
Proof.
  unfold DEBUG_RegisterTypedef. intros H. inv_some H.
  - left. split; [|done]. by apply Nat.eqb_eq.
  - right. apply Nat.eqb_neq in E. apply Nat.ltb_ge in E0. eauto.
Qed.

Lemma find_typedef_registered name types chain st :
  ktd_head st !! Z.to_nat (stab_hash name) = Some chain →
  find_typedef name
    (set_ktd_head (<[Z.to_nat (stab_hash name) := mkKtd name types :: chain]>
                     (ktd_head st)) st)
  = Some (Some (mkKtd name types)).
Proof.
  intros H. unfold find_typedef. simpl.
  rewrite list_lookup_insert_eq by (by eapply lookup_lt_Some). simpl.
  by rewrite bool_decide_eq_true_2.
Qed.

(** The full parse, taken apart. *)
Lemma parse_typedef_fresh ptr name st st0 st2 buf2 :
  DEBUG_HandlePreviousTypedef name ptr st = Some (st0, false) →
  DEBUG_ParseTypedefStab ptr name st = Some (st2, buf2, true) →
  ∃ ps stp tn' stq,
    CStr.strchr_all "=" ptr = Some ps
    ∧ pass1 ptr ps (Some name) 0 st0 = Some (stp, Some (length ps), tn')
    ∧ pass2 (length ptr) ptr (Z.of_nat (length ps) - 1) tn' stp = Some (stq, buf2, true)
    ∧ DEBUG_RegisterTypedef name (curr_types stq) (length ps) stq = Some st2.
Proof.
  unfold DEBUG_ParseTypedefStab. intros HP H. rewrite HP in H. inv_some H.
  match goal with E : pass1 _ _ _ _ _ = Some _ |- _ =>
    pose proof (pass1_count _ _ _ _ _ _ _ _ E) as Hn end.
  simpl in Hn. subst. eauto 10.
Qed.

(** C2 (shape mismatch): when the name has a cached entry [orig] and
    [DEBUG_HandlePreviousTypedef] reports the text unseen, it has changed
    nothing but the messages.  When the fresh parse then succeeds, [orig]
    is still in the chain of the name as it was; for a text with one ['=']
    the registry is unchanged, and for any other number of them the new
    definition is registered at the head of the chain, where the name
    finds it from then on. *)
Theorem mismatch_then_registered text name st orig st' :
  find_typedef name st = Some (Some orig) →
  DEBUG_HandlePreviousTypedef name text st = Some (st', false) →
  only_printed st st'
  ∧ ∀ st2 buf2,
      DEBUG_ParseTypedefStab text name st = Some (st2, buf2, true) →
      ∃ ps chain,
        CStr.strchr_all "=" text = Some ps
        ∧ ktd_head st !! Z.to_nat (stab_hash name) = Some chain
        ∧ orig ∈ chain
        ∧ (length ps = 1%nat → ktd_head st2 = ktd_head st)
        ∧ (length ps ≠ 1%nat →
           ∃ types, length types = length ps
             ∧ ktd_head st2 = <[Z.to_nat (stab_hash name) :=
                                  mkKtd name types :: chain]> (ktd_head st)
             ∧ find_typedef name st2 = Some (Some (mkKtd name types))).
Proof.
  intros F HP. split; [by eapply handle_previous_unseen|].
  intros st2 buf2 P.
  destruct (parse_typedef_fresh _ _ _ _ _ _ HP P) as (ps & stp & tn' & stq & Hps & P1 & P2 & R).
  destruct (find_typedef_elem _ _ _ F) as (chain & Hc & Hin & _).
  exists ps, chain. split; [done|]. split; [done|]. split; [done|].
  assert (ktd_head stq = ktd_head st) as Hk.
  { apply handle_previous_untouched in HP as [E0 _].
    apply pass1_untouched in P1 as [E1 _].
    apply pass2_untouched in P2 as [E2 _]. congruence. }
  apply register_shape in R as [[Hn ->]|(Hn & Hl & chain' & Hc' & ->)].
  - split; [done|]. intros. lia.
  - split; [intros; lia|]. intros _. rewrite Hk in Hc'.
    assert (chain' = chain) as -> by congruence.
    exists (take (length ps) (curr_types stq)).
    split; [rewrite length_take; lia|]. simpl. rewrite Hk. split; [done|].
    rewrite <- Hk. apply find_typedef_registered. by rewrite Hk.
Qed.

Lemma mismatch_then_registered_witness :
  only_printed two_pointers_state two_pointers_state
  ∧ ∃ types,
      length types = 2%nat
      ∧ find_typedef (CStr.of_string "A")
          (after_typedef "A:t5=*6=ar1;0;9;1" "A" two_pointers_state)
        = Some (Some (mkKtd (CStr.of_string "A") types)).
Proof.
  destruct (mismatch_then_registered pointer_array_text (CStr.of_string "A")
              two_pointers_state
              (mkKtd (CStr.of_string "A") [Some 0%nat; Some 1%nat])
              two_pointers_state) as [H1 H2];
    [vm_compute; reflexivity | vm_compute; reflexivity |].
  split; [exact H1|].
  destruct (DEBUG_ParseTypedefStab pointer_array_text (CStr.of_string "A")
              two_pointers_state) as [[[st2 buf2] [|]]|] eqn:E;
    try (vm_compute in E; discriminate E).
  destruct (H2 st2 buf2 eq_refl) as (ps & chain & Hps & _ & _ & _ & Hreg).
  assert (length ps ≠ 1%nat) as Hn.
  { vm_compute in Hps. injection Hps as <-. simpl. lia. }
  destruct (Hreg Hn) as (types & Hl & _ & Hf).
  exists types. split.
  - rewrite Hl. vm_compute in Hps. by injection Hps as <-.
  - unfold after_typedef. fold pointer_array_text. by rewrite E.
Defined.

(** C2: [A] is registered as two pointers; the text
    [A:t5=*6=ar1;0;9;1] has another shape, is parsed afresh and
    registered, and the name finds the new entry. *)
Lemma mismatch_registers_again :
  ¬ mismatch_keeps_entry (stab_text "A:t5=*6=ar1;0;9;1") (CStr.of_string "A")
      (after_typedef "A:t5=*6=*1" "A" initial_statics).
Proof.
  intros H.
  destruct (DEBUG_ParseTypedefStab (stab_text "A:t5=*6=ar1;0;9;1") (CStr.of_string "A")
              (after_typedef "A:t5=*6=*1" "A" initial_statics))
    as [[[st2 buf2] ok]|] eqn:E; [|vm_compute in E; discriminate E].
  destruct (DEBUG_HandlePreviousTypedef (CStr.of_string "A")
              (stab_text "A:t5=*6=ar1;0;9;1")
              (after_typedef "A:t5=*6=*1" "A" initial_statics))
    as [[st' [|]]|] eqn:E1; try (vm_compute in E1; discriminate E1).
  assert (find_typedef (CStr.of_string "A")
            (after_typedef "A:t5=*6=*1" "A" initial_statics)
          = Some (Some (mkKtd (CStr.of_string "A") [Some 0%nat; Some 1%nat]))) as E0
    by (vm_compute; reflexivity).
  specialize (H _ _ _ _ _ E0 E1 E).
  vm_compute in E. injection E as <- <- <-.
  vm_compute in H. discriminate H.
Qed.

(** ** Arrays *)

(** *** Decimal numbers and [strtol] *)

Lemma digit_val_none e : CStr.isdigit e = false → CStr.digit_val e = None.
Proof. unfold CStr.isdigit. by destruct (CStr.digit_val e). Qed.

Lemma digits_uint u : ∀ acc e rest,
  CStr.isdigit e = false →
  CStr.digits acc (uint_chars u ++ e :: rest)
  = Some (uint_val u acc, length (uint_chars u)).
Proof.
  induction u as [|u IH|u IH|u IH|u IH|u IH|u IH|u IH|u IH|u IH|u IH];
    intros acc e rest He; simpl;
    [by rewrite (digit_val_none _ He)|..];
    rewrite (IH _ _ _ He); reflexivity.
Qed.

Lemma of_uint_acc_val u : ∀ acc,
  Z.pos (Pos.of_uint_acc u acc) = uint_val u (Z.pos acc).
Proof.
  induction u as [|u IH|u IH|u IH|u IH|u IH|u IH|u IH|u IH|u IH|u IH];
    intros acc; simpl; [done|..]; rewrite IH; f_equal; lia.
Qed.

Lemma of_uint_val u : Z.of_N (Pos.of_uint u) = uint_val u 0.
Proof.
  induction u as [|u IH|u IH|u IH|u IH|u IH|u IH|u IH|u IH|u IH|u IH];
    simpl; [done|exact IH|..]; apply of_uint_acc_val.
Qed.

Lemma uint_val_to_uint n : uint_val (N.to_uint n) 0 = Z.of_N n.
Proof.
  rewrite <- of_uint_val. change (Pos.of_uint ?u) with (N.of_uint u).
  by rewrite DecimalN.Unsigned.of_to.
Qed.

Lemma to_uint_nonnil n : N.to_uint n ≠ Decimal.Nil.
Proof.
  destruct n; [done|]. apply DecimalPos.Unsigned.to_uint_nonnil.
Qed.

Lemma isdigit_ord a : CStr.isdigit a = true ↔ 48 ≤ CStr.ord a ≤ 57.
Proof.
  unfold CStr.isdigit, CStr.digit_val.
  destruct ((48 <=? CStr.ord a) && (CStr.ord a <=? 57)) eqn:E.
  - apply andb_true_iff in E. split; [lia|done].
  - apply andb_false_iff in E. split; [done|lia].
Qed.

Lemma ord_inj_eqb a b : CStr.ord a ≠ CStr.ord b → Ascii.eqb a b = false.
Proof. intros H. apply Ascii.eqb_neq. by intros ->. Qed.

Lemma uint_chars_digits u : Forall (λ a, CStr.isdigit a = true) (uint_chars u).
Proof.
  induction u; simpl; constructor; done.
Qed.

Lemma uint_chars_nonnil u : u ≠ Decimal.Nil → uint_chars u ≠ [].
Proof. by destruct u. Qed.

Lemma dec_numeric z : Forall numeric (dec z).
Proof.
  unfold dec. case_match.
  - constructor; [by right|]. eapply Forall_impl; [apply uint_chars_digits|].
    by left.
  - eapply Forall_impl; [apply uint_chars_digits|]. by left.
Qed.

Lemma numeric_not_space a : numeric a → CStr.isspace a = false.
Proof.
  intros [H| ->]; [|done]. apply isdigit_ord in H. unfold CStr.isspace.
  apply orb_false_iff. split; [lia|]. apply andb_false_iff. lia.
Qed.

Lemma strtol_nonspace a l :
  CStr.isspace a = false →
  CStr.strtol (a :: l) =
    let neg := Ascii.eqb a "-" in
    let s := if neg || Ascii.eqb a "+" then 1%nat else 0%nat in
    '(v, k) ← CStr.digits 0 (drop s (a :: l));
    if (k =? 0)%nat then Some (0, 0%nat)
    else Some (CStr.clamp_long (if neg then - v else v), (0 + s + k)%nat).
Proof.
  intros H. unfold CStr.strtol. cbn [CStr.skip_space]. rewrite H. reflexivity.
Qed.

Lemma clamp_in_long z : in_long z → CStr.clamp_long z = z.
Proof.
  unfold in_long, CStr.clamp_long, CStr.LONG_MIN, CStr.LONG_MAX.
  intros ?. repeat case_match; lia.
Qed.

Lemma strtol_dec z e rest :
  in_long z → CStr.isdigit e = false →
  CStr.strtol (dec z ++ e :: rest) = Some (z, length (dec z)).
Proof.
  intros Hz He. unfold dec. destruct (z <? 0) eqn:Hneg.
  - cbn [app]. rewrite strtol_nonspace by done.
    change (Ascii.eqb "-" "-") with true. cbv zeta. cbn [orb drop].
    rewrite drop_0, digits_uint by done. cbn [mbind option_bind].
    destruct (length (uint_chars (N.to_uint (Z.to_N (- z))))) eqn:El.
    { apply length_zero_iff_nil, uint_chars_nonnil in El; [done|apply to_uint_nonnil]. }
    cbn [Nat.eqb length]. rewrite uint_val_to_uint.
    rewrite clamp_in_long by (rewrite Z2N.id by lia; replace (- - z) with z by lia; done).
    rewrite El. f_equal. f_equal. lia.
  - pose proof (uint_chars_digits (N.to_uint (Z.to_N z))) as Hd.
    pose proof (digits_uint (N.to_uint (Z.to_N z)) 0 e rest He) as Hg.
    rewrite uint_val_to_uint in Hg.
    destruct (uint_chars (N.to_uint (Z.to_N z))) as [|a l] eqn:Eu.
    { apply uint_chars_nonnil in Eu; [done|apply to_uint_nonnil]. }
    apply Forall_cons in Hd as [Ha _].
    cbn [app] in *. rewrite strtol_nonspace by (apply numeric_not_space; by left).
    apply isdigit_ord in Ha.
    rewrite (ord_inj_eqb a "-") by (change (CStr.ord "-") with 45; lia).
    rewrite (ord_inj_eqb a "+") by (change (CStr.ord "+") with 43; lia).
    cbv zeta. cbn [orb]. rewrite drop_0, Hg. cbn [mbind option_bind length Nat.eqb].
    rewrite clamp_in_long by (rewrite Z2N.id by lia; done).
    f_equal. f_equal. lia.
Qed.

(** *** Scanning a text made of known pieces *)

Lemma drop_at {A} (text pre suf : list A) n :
  text = pre ++ suf → n = length pre → drop n text = suf.
Proof. intros -> ->. by rewrite drop_app_length. Qed.

Lemma lookup_at {A} (text pre suf : list A) a n :
  text = pre ++ a :: suf → n = length pre → text !! n = Some a.
Proof. intros -> ->. by rewrite list_lookup_middle. Qed.

Lemma plain_eqb ch a : plain ch a → Ascii.eqb a ch = false ∧ Ascii.eqb a CStr.NUL = false.
Proof. intros [? ?]. by split; apply Ascii.eqb_neq. Qed.

Lemma strchr_all_plain ch l1 l2 :
  Forall (plain ch) l1 →
  CStr.strchr_all ch (l1 ++ l2)
  = (map (λ i, (length l1 + i)%nat)) <$> CStr.strchr_all ch l2.
Proof.
  induction 1 as [|a l1 Ha _ IH]; simpl.
  - destruct (CStr.strchr_all ch l2); simpl; [|done]. by rewrite map_id.
  - apply plain_eqb in Ha as [-> ->]. rewrite IH.
    destruct (CStr.strchr_all ch l2); simpl; [|done]. by rewrite map_map.
Qed.

Lemma strrchr_plain ch l1 l2 :
  ch ≠ CStr.NUL → Forall (plain ch) l1 →
  CStr.strrchr ch (l1 ++ l2)
  = match CStr.strrchr ch l2 with
    | Some (Some i) => Some (Some (length l1 + i)%nat)
    | r => r
    end.
Proof.
  intros Hch. induction 1 as [|a l1 Ha _ IH]; simpl.
  - by destruct (CStr.strrchr ch l2) as [[?|]|].
  - apply plain_eqb in Ha as [Ha ->]. rewrite IH, Ha.
    by destruct (CStr.strrchr ch l2) as [[?|]|].
Qed.

Lemma strchr_plain ch l1 l2 :
  Forall (plain ch) l1 →
  CStr.strchr ch (l1 ++ l2)
  = match CStr.strchr ch l2 with
    | Some (Some i) => Some (Some (length l1 + i)%nat)
    | r => r
    end.
Proof.
  induction 1 as [|a l1 Ha _ IH]; simpl.
  - by destruct (CStr.strchr ch l2) as [[?|]|].
  - apply plain_eqb in Ha as [-> ->]. rewrite IH.
    by destruct (CStr.strchr ch l2) as [[?|]|].
Qed.

Lemma strlen_plain ch l1 l2 :
  Forall (plain ch) l1 →
  CStr.strlen (l1 ++ l2) = (λ n, (length l1 + n)%nat) <$> CStr.strlen l2.
Proof.
  induction 1 as [|a l1 Ha _ IH]; simpl.
  - by destruct (CStr.strlen l2).
  - apply plain_eqb in Ha as [_ ->]. rewrite IH.
    by destruct (CStr.strlen l2).
Qed.

Lemma numeric_plain ch a :
  CStr.isdigit ch = false → ch ≠ "-"%char → numeric a → plain ch a.
Proof.
  intros Hd Hm [Ha| ->]; split; try done.
  - intros ->. congruence.
  - by intros ->.
Qed.

Lemma dec_plain ch z :
  CStr.isdigit ch = false → ch ≠ "-"%char → Forall (plain ch) (dec z).
Proof.
  intros Hd Hm. eapply Forall_impl; [apply dec_numeric|].
  intros a. by apply numeric_plain.
Qed.

Lemma bounds_tail_plain lo hi :
  Forall (plain "=") (dec lo ++ ";"%char :: dec hi ++ CStr.of_string ";5").
Proof.
  apply Forall_app. split; [by apply dec_plain|].
  constructor; [done|]. apply Forall_app. split; [by apply dec_plain|].
  by repeat constructor.
Qed.

Lemma bounds_tail_split lo hi :
  bounds_tail lo hi
  = (dec lo ++ ";"%char :: dec hi ++ CStr.of_string ";5") ++ [CStr.NUL].
Proof. unfold bounds_tail. by rewrite <- !app_assoc, <- !app_comm_cons, <- !app_assoc. Qed.

Lemma bounds_tail_eqs lo hi : CStr.strchr_all "=" (bounds_tail lo hi) = Some [].
Proof.
  rewrite bounds_tail_split, strchr_all_plain by apply bounds_tail_plain. done.
Qed.

Lemma bounds_tail_last_eq lo hi : CStr.strrchr "=" (bounds_tail lo hi) = Some None.
Proof.
  rewrite bounds_tail_split, strrchr_plain by (done || apply bounds_tail_plain). done.
Qed.

Opaque bounds_tail.

Lemma array_text_eqs lo hi : CStr.strchr_all "=" (array_text lo hi) = Some [6%nat].
Proof.
  unfold array_text. simpl. rewrite bounds_tail_eqs. done.
Qed.

Lemma array_text_last_eq lo hi : CStr.strrchr "=" (array_text lo hi) = Some (Some 6%nat).
Proof.
  unfold array_text. simpl. rewrite bounds_tail_last_eq. done.
Qed.

Lemma array_text_back lo hi : read_backwards (array_text lo hi) 5 = Some (0, 6).
Proof. unfold array_text. reflexivity. Qed.

Lemma array_text_index lo hi : read_forwards (array_text lo hi) 9 = Some (0, 1, 10%nat).
Proof. unfold array_text. reflexivity. Qed.

Lemma index_ok_grown_self s v : 0 ≤ s → index_ok s (grown s v) = true.
Proof.
  intros Hs. unfold index_ok, grown. apply andb_true_iff. split; [lia|].
  apply Z.ltb_lt.
  destruct (Z.of_nat (length v) <=? s) eqn:E.
  - apply Z.leb_le in E. rewrite length_app, length_replicate. lia.
  - apply Z.leb_gt in E. lia.
Qed.

Lemma resolve_cu s st :
  fits s = true →
  DEBUG_FileSubNr2StabEnum 0 s st
  = Some (set_cu_vector (grown s (cu_vector st)) st, CuSlot s).
Proof. intros H. unfold DEBUG_FileSubNr2StabEnum. cbn. by rewrite grow_fits. Qed.

Lemma grown_grown_small s s' v :
  s' ≤ s → grown s' (grown s v) = grown s v.
Proof.
  intros H. unfold grown at 1.
  destruct (Z.of_nat (length (grown s v)) <=? s') eqn:E; [|done].
  apply Z.leb_le in E. unfold grown in E.
  destruct (Z.of_nat (length v) <=? s) eqn:E'.
  - apply Z.leb_le in E'. rewrite length_app, length_replicate in E. lia.
  - apply Z.leb_gt in E'. lia.
Qed.

Lemma push_first_curr_type v st :
  push_curr_type 0 v st
  = Some (set_curr_types
            (<[0%nat := v]> (if (length (curr_types st) <=? 0)%nat
                             then curr_types st ++ replicate 64 None
                             else curr_types st)) st).
Proof.
  unfold push_curr_type. by destruct (curr_types st).
Qed.

Lemma array_pass1 lo hi st :
  pass1 (array_text lo hi) [6%nat] (Some (CStr.of_string "bar")) 0 st
  = Some (set_curr_types
            (<[0%nat := Some (length (heap st))]>
               (if (length (curr_types st) <=? 0)%nat
                then curr_types st ++ replicate 64 None else curr_types st))
            (set_cu_vector (<[6%nat := Some (length (heap st))]> (grown 6 (cu_vector st)))
               (set_heap (heap st ++ [blank DT_ARRAY None]) st)),
          Some 1%nat, None).
Proof.
  cbn [pass1]. unfold DEBUG_ReadTypeEnumBackwards.
  rewrite array_text_back. cbn [mbind option_bind]. rewrite resolve_cu by done.
  cbn [mbind option_bind].
  change (array_text lo hi !! 7%nat) with (Some "a"%char). cbn [mbind option_bind].
  change (skeleton_of _ _ "a" _) with (Some (Skeleton DT_ARRAY None)).
  cbn [mbind option_bind]. unfold DEBUG_NewDataType. unfold store.
  cbn [cu_vector set_heap set_cu_vector]. rewrite index_ok_grown_self by done.
  cbn [mbind option_bind]. rewrite push_first_curr_type. reflexivity.
Qed.

Lemma array_text_min lo hi :
  in_long lo →
  CStr.strtol (drop 11 (array_text lo hi)) = Some (lo, length (dec lo)).
Proof.
  intros H. unfold array_text. cbn [CStr.of_string list_ascii_of_string app drop].
  rewrite drop_0. Transparent bounds_tail. unfold bounds_tail. Opaque bounds_tail.
  by apply strtol_dec.
Qed.

Lemma array_text_max lo hi :
  in_long hi →
  CStr.strtol (drop (11 + length (dec lo) + 1) (array_text lo hi))
  = Some (hi, length (dec hi)).
Proof.
  intros H.
  rewrite (drop_at _ (CStr.of_string "bar:t6=ar1;" ++ dec lo ++ [";"%char])
             (dec hi ++ CStr.of_string ";5" ++ [CStr.NUL])).
  - by apply strtol_dec.
  - unfold array_text. Transparent bounds_tail. unfold bounds_tail. Opaque bounds_tail.
    by rewrite <- !app_assoc.
  - rewrite !length_app. simpl. lia.
Qed.

Lemma array_text_elt lo hi :
  read_forwards (array_text lo hi)
    (11 + length (dec lo) + 1 + length (dec hi) + 1)
  = Some (0, 5, (11 + length (dec lo) + 1 + length (dec hi) + 1 + 1)%nat).
Proof.
  unfold read_forwards.
  rewrite (lookup_at _ (CStr.of_string "bar:t6=ar1;" ++ dec lo ++ ";"%char :: dec hi ++ [";"%char])
             [CStr.NUL] "5"%char).
  - cbn [mbind option_bind]. change (Ascii.eqb "5" "(") with false. cbv iota.
    rewrite (drop_at _ (CStr.of_string "bar:t6=ar1;" ++ dec lo ++ ";"%char :: dec hi ++ [";"%char])
               ["5"%char; CStr.NUL]).
    + reflexivity.
    + unfold array_text. Transparent bounds_tail. unfold bounds_tail. Opaque bounds_tail.
      by rewrite <- !app_assoc, <- !app_comm_cons, <- !app_assoc.
    + rewrite !length_app. simpl. rewrite !length_app. simpl. lia.
  - unfold array_text. Transparent bounds_tail. unfold bounds_tail. Opaque bounds_tail.
    by rewrite <- !app_assoc, <- !app_comm_cons, <- !app_assoc.
  - rewrite !length_app. simpl. rewrite !length_app. simpl. lia.
Qed.

Lemma array_text_end lo hi :
  array_text lo hi !! (11 + length (dec lo) + 1 + length (dec hi) + 1 + 1)%nat
  = Some CStr.NUL.
Proof.
  apply (lookup_at _ (CStr.of_string "bar:t6=ar1;" ++ dec lo ++ ";"%char :: dec hi ++ CStr.of_string ";5") []).
  - unfold array_text. Transparent bounds_tail. unfold bounds_tail. Opaque bounds_tail.
    by rewrite <- !app_assoc, <- !app_comm_cons, <- !app_assoc.
  - rewrite !length_app. simpl. rewrite !length_app. simpl. lia.
Qed.

Lemma grown_covers s v : 0 ≤ s → s < Z.of_nat (length (grown s v)).
Proof.
  intros Hs. pose proof (index_ok_grown_self s v Hs) as H.
  unfold index_ok in H. apply andb_true_iff in H as [_ H]. by apply Z.ltb_lt.
Qed.

Lemma load_cu_vector n st :
  0 ≤ n < Z.of_nat (length (cu_vector st)) →
  load st (CuSlot n) = cu_vector st !! Z.to_nat n.
Proof.
  intros H. unfold load, index_ok.
  destruct (Z.leb_spec 0 n); [|lia]. destruct (Z.ltb_spec n (Z.of_nat (length (cu_vector st)))); [done|lia].
Qed.

Lemma pass2_step_array buf c ntp tn st :
  buf !! S c = Some "a"%char →
  pass2_step buf c ntp tn st
  = '(st, dt) ← DEBUG_ReadTypeEnumBackwards buf c st;
    curr_type ← load st dt;
    '(st, buf) ← pass2_array buf c curr_type st;
    Some (st, buf, Some (ntp - 1)).
Proof.
  intros Htag. unfold pass2_step.
  destruct (DEBUG_ReadTypeEnumBackwards buf c st) as [[st1 dt]|]; [|done]. simpl.
  destruct (load st1 dt); [|done]. simpl. rewrite Htag. reflexivity.
Qed.

Lemma read_enum_cu buf x st s x' :
  read_forwards buf x = Some (0, s, x') → fits s = true →
  DEBUG_ReadTypeEnum buf x st
  = Some (set_cu_vector (grown s (cu_vector st)) st, CuSlot s, x').
Proof.
  intros H Hs. unfold DEBUG_ReadTypeEnum. rewrite H. cbn [mbind option_bind].
  by rewrite resolve_cu by done.
Qed.

(** C6 (array): for a name that is not registered, the typedef
    [bar:t6=ar1;<lo>;<hi>;5], the bounds in decimal notation and in the
    range of [long], is parsed with success; slot 6 of the compilation
    unit then holds an array node whose bounds are [lo] and [hi], the
    sign kept, and whose element type is the content of slot 5. *)
Theorem array_bounds_parsed st lo hi :
  find_typedef (CStr.of_string "bar") st = Some None →
  in_long lo → in_long hi →
  ∃ st' buf' h d,
    DEBUG_ParseTypedefStab (array_text lo hi) (CStr.of_string "bar") st
      = Some (st', buf', true)
    ∧ load st' (CuSlot 6) = Some (Some h)
    ∧ heap st' !! h = Some d
    ∧ dt_type d = DT_ARRAY ∧ dt_min d = lo ∧ dt_max d = hi
    ∧ load st' (CuSlot 5) = Some (dt_elt d).
Proof.
  intros Hfind Hlo Hhi.
  unfold DEBUG_ParseTypedefStab, DEBUG_HandlePreviousTypedef.
  rewrite Hfind. cbn [mbind option_bind]. rewrite array_text_eqs.
  cbn [mbind option_bind]. rewrite array_pass1. cbn [mbind option_bind].
  set (v6 := <[6%nat := Some (length (heap st))]> (grown 6 (cu_vector st))).
  assert (Hv6 : 6 < Z.of_nat (length v6)).
  { unfold v6. rewrite length_insert. by apply grown_covers. }
  assert (Hpoked : CStr.strrchr "=" (<[6%nat := CStr.NUL]> (array_text lo hi)) = Some None)
    by reflexivity.
  assert (Hlen : length (array_text lo hi) = S (S (S (S (S (S (S (S (S (S (S
                   (length (bounds_tail lo hi))))))))))))) by reflexivity.
  rewrite Hlen.
  cbn [pass2]. rewrite array_text_last_eq. cbn [mbind option_bind].
  rewrite pass2_step_array by done.
  unfold DEBUG_ReadTypeEnumBackwards.
  rewrite array_text_back. cbn [mbind option_bind]. rewrite resolve_cu by done.
  cbn [mbind option_bind cu_vector set_curr_types set_cu_vector set_heap].
  rewrite (grown_covered 6 v6) by done.
  rewrite load_cu_vector by (simpl; lia).
  cbn [cu_vector set_curr_types set_cu_vector set_heap].
  change (Z.to_nat 6) with 6%nat.
  assert (Hv6l : v6 !! 6%nat = Some (Some (length (heap st)))).
  { unfold v6. apply list_lookup_insert_eq.
    pose proof (grown_covers 6 (cu_vector st)). lia. }
  rewrite Hv6l.
  cbn [mbind option_bind].
  unfold pass2_array. change (6 + 3)%nat with 9%nat.
  rewrite (read_enum_cu _ _ _ _ _ (array_text_index lo hi)) by done.
  cbn [mbind option_bind cu_vector set_curr_types set_cu_vector set_heap].
  rewrite (grown_covered 1 v6) by lia.
  change (S 10) with 11%nat. rewrite array_text_min by done. cbn [mbind option_bind].
  rewrite array_text_max by done. cbn [mbind option_bind].
  rewrite (read_enum_cu _ _ _ _ _ (array_text_elt lo hi)) by done.
  cbn [mbind option_bind cu_vector set_curr_types set_cu_vector set_heap].
  rewrite (grown_covered 5 v6) by lia.
  rewrite load_cu_vector by (simpl; lia).
  cbn [cu_vector set_curr_types set_cu_vector set_heap].
  destruct (v6 !! Z.to_nat 5) as [elt|] eqn:Helt;
    [|apply lookup_ge_None in Helt; change (Z.to_nat 5) with 5%nat in Helt; lia].
  cbn [mbind option_bind].
  unfold cut. rewrite array_text_end. cbn [mbind option_bind].
  change (Ascii.eqb CStr.NUL CStr.NUL) with true. cbv iota.
  unfold CStr.poke. rewrite Hlen. cbn [Nat.ltb Nat.leb mbind option_bind].
  unfold DEBUG_SetArrayParams, update.
  cbn [mbind option_bind cu_vector set_curr_types set_cu_vector set_heap heap].
  rewrite list_lookup_middle by done.
  cbn [mbind option_bind pass2]. rewrite Hpoked.
  cbn [mbind option_bind]. unfold DEBUG_RegisterTypedef.
  change (Z.to_nat (Z.of_nat 1)) with 1%nat. cbn [Nat.eqb mbind option_bind].
  eexists _, _, (length (heap st)), _. split; [reflexivity|].
  cbn [cu_vector set_curr_types set_cu_vector set_heap heap].
  split.
  { rewrite load_cu_vector by (simpl; lia). exact Hv6l. }
  split.
  { rewrite list_lookup_insert_eq by (rewrite length_app; simpl; lia). reflexivity. }
  cbn [dt_type dt_min dt_max dt_elt blank].
  repeat split; try done.
  rewrite load_cu_vector by (simpl; lia). exact Helt.
Qed.

Lemma array_bounds_parsed_witness :
  (∃ st' buf' h d,
     DEBUG_ParseTypedefStab (stab_text "bar:t6=ar1;0;9;5") (CStr.of_string "bar") int_state
       = Some (st', buf', true)
     ∧ load st' (CuSlot 6) = Some (Some h) ∧ heap st' !! h = Some d
     ∧ dt_type d = DT_ARRAY ∧ dt_min d = 0 ∧ dt_max d = 9
     ∧ load st' (CuSlot 5) = Some (dt_elt d))
  ∧ (∃ st' buf' h d,
     DEBUG_ParseTypedefStab (stab_text "bar:t6=ar1;-1;10;5") (CStr.of_string "bar") int_state
       = Some (st', buf', true)
     ∧ load st' (CuSlot 6) = Some (Some h) ∧ heap st' !! h = Some d
     ∧ dt_type d = DT_ARRAY ∧ dt_min d = -1 ∧ dt_max d = 10
     ∧ load st' (CuSlot 5) = Some (dt_elt d)).
Proof.
  split.
  - replace (stab_text "bar:t6=ar1;0;9;5") with (array_text 0 9)
      by (vm_compute; reflexivity).
    apply (array_bounds_parsed int_state 0 9);
      [vm_compute; reflexivity | vm_compute; split; discriminate ..].
  - replace (stab_text "bar:t6=ar1;-1;10;5") with (array_text (-1) 10)
      by (vm_compute; reflexivity).
    apply (array_bounds_parsed int_state (-1) 10);
      [vm_compute; reflexivity | vm_compute; split; discriminate ..].
Defined.

(** ** Structs and unions *)

(** *** Tables that grow *)

Lemma pads_refl v : pads v v.
Proof. exists 0%nat. by rewrite app_nil_r. Qed.

Lemma pads_trans v1 v2 v3 : pads v1 v2 → pads v2 v3 → pads v1 v3.
Proof.
  intros [k1 ->] [k2 ->]. exists (k1 + k2)%nat.
  by rewrite <- app_assoc, replicate_add.
Qed.

Lemma pads_grown s v : pads v (grown s v).
Proof. unfold grown. case_match; [by eexists|apply pads_refl]. Qed.

Lemma pads_grow s v v' : grow s v = Some v' → pads v v'.
Proof. intros ->%grow_grown. apply pads_grown. Qed.

(** A request that was served is served again once the table is longer. *)
Lemma grow_pads s v v' :
  pads v v' → is_Some (grow s v) → grow s v' = Some (grown s v').
Proof.
  intros [k ->] [w H]. unfold grow in *. unfold grown.
  destruct (Z.leb_spec (Z.of_nat (length (v ++ replicate k None))) s) as [Hl|Hl];
    [|done].
  rewrite length_app in Hl. rewrite (proj2 (Z.leb_le _ _)) in H by lia.
  by destruct (fits s).
Qed.

Lemma inc_pads_refl d : inc_pads d d.
Proof. repeat split. apply pads_refl. Qed.

Lemma inc_pads_trans d1 d2 d3 : inc_pads d1 d2 → inc_pads d2 d3 → inc_pads d1 d3.
Proof.
  intros (?&?&?) (?&?&?). repeat split; try congruence. by eapply pads_trans.
Qed.

Lemma extends_refl st : extends st st.
Proof.
  repeat split; [apply pads_refl|]. intros i d H. exists d.
  split; [done|apply inc_pads_refl].
Qed.

Lemma extends_trans st1 st2 st3 : extends st1 st2 → extends st2 st3 → extends st1 st3.
Proof.
  intros (?&?&?&Ha) (?&?&?&Hb). repeat split; try congruence.
  - by eapply pads_trans.
  - intros i d Hd. destruct (Ha i d Hd) as (d2 & Hd2 & Hp).
    destruct (Hb i d2 Hd2) as (d3 & Hd3 & Hp'). exists d3.
    split; [done|by eapply inc_pads_trans].
Qed.

Lemma resolve_extends f s st st' dt :
  DEBUG_FileSubNr2StabEnum f s st = Some (st', dt) → extends st st'.
Proof.
  unfold DEBUG_FileSubNr2StabEnum. intros H. inv_some H.
  - repeat split; simpl; [by eapply pads_grow|].
    intros i d Hd. exists d. split; [done|apply inc_pads_refl].
  - repeat split; simpl; [apply pads_refl|].
    intros j d Hd.
    destruct (decide (j = Z.to_nat z)) as [->|Hne].
    + rewrite list_lookup_insert_eq by (by eapply lookup_lt_Some).
      eexists. split; [done|]. simplify_eq. repeat split. by eapply pads_grow.
    + rewrite list_lookup_insert_ne by done.
      exists d. split; [done|apply inc_pads_refl].
Qed.

Lemma read_enum_extends buf x st st' dt x' :
  DEBUG_ReadTypeEnum buf x st = Some (st', dt, x') → extends st st'.
Proof.
  unfold DEBUG_ReadTypeEnum. intros H. inv_some H. by eapply resolve_extends.
Qed.

Lemma extends_set_heap h st : extends st (set_heap h st).
Proof. exact (extends_refl st). Qed.

Lemma extends_printf m st : extends st (DEBUG_Printf m st).
Proof. exact (extends_refl st). Qed.

Lemma cell_grow v s st :
  load (set_cu_vector (grown s v) st) (CuSlot s) = cell v s.
Proof.
  unfold load, cell, index_ok. cbn [cu_vector set_cu_vector].
  destruct (Z.leb_spec 0 s) as [Hs|Hs]; [|done].
  pose proof (grown_covers s v Hs) as Hc.
  destruct (Z.ltb_spec s (Z.of_nat (length (grown s v)))) as [_|?]; [|lia].
  cbn [andb]. unfold grown in *.
  destruct (Z.leb_spec (Z.of_nat (length v)) s) as [Hl|Hl].
  - rewrite lookup_app_r by lia. rewrite (lookup_ge_None_2 v) by lia. simpl.
    rewrite lookup_replicate_2; [done|]. rewrite length_app, length_replicate in Hc. lia.
  - destruct (lookup_lt_is_Some_2 v (Z.to_nat s)) as [x Hx]; [lia|]. by rewrite Hx.
Qed.

Lemma cell_pads v v' s : pads v v' → cell v' s = cell v s.
Proof.
  intros [k ->]. unfold cell. case_match; [|done]. f_equal.
  destruct (v !! Z.to_nat s) as [x|] eqn:E.
  - by rewrite (lookup_app_l_Some _ _ _ _ E).
  - apply lookup_ge_None in E. rewrite lookup_app_r by done.
    destruct (replicate k None !! (Z.to_nat s - length v)%nat) as [y|] eqn:E'; [|done].
    by apply lookup_replicate in E' as [-> _].
Qed.

Lemma cell_grow_inc d s idx st :
  include_defs st !! idx = Some d →
  load (set_include_defs
          (<[idx := mkInclude (inc_name d) (inc_value d) (grown s (inc_vector d))]>
             (include_defs st)) st) (IncSlot idx s)
  = cell (inc_vector d) s.
Proof.
  intros Hd. unfold load. cbn [include_defs set_include_defs].
  rewrite list_lookup_insert_eq by (by eapply lookup_lt_Some).
  cbn [mbind option_bind inc_vector].
  pose proof (cell_grow (inc_vector d) s st) as H. unfold load in H.
  cbn [cu_vector set_cu_vector] in H. exact H.
Qed.

Lemma node_of_extends st st' r v :
  extends st st' → node_of st r = Some v → node_of st' r = Some v.
Proof.
  intros (Hstk & Hidx & Hcu & Hinc). unfold node_of, DEBUG_FileSubNr2StabEnum.
  destruct (ref_numbers r) as [f s]. cbn [fst snd].
  destruct (f =? 0).
  - destruct (grow s (cu_vector st)) as [w|] eqn:G; [|done].
    rewrite (grow_pads _ _ _ Hcu) by (by eexists). grown_facts.
    cbn [mbind option_bind]. rewrite !cell_grow. by rewrite (cell_pads _ _ _ Hcu).
  - rewrite Hstk, Hidx. destruct (cu_include_stk_idx st <? f); [done|].
    destruct (f <? 0); [done|].
    destruct (cu_include_stack st !! Z.to_nat f) as [idx|]; [|done].
    cbn [mbind option_bind]. destruct (idx <? 0); [done|].
    destruct (include_defs st !! Z.to_nat idx) as [d|] eqn:Ed; [|done].
    destruct (Hinc _ _ Ed) as (d' & Ed' & Hp).
    rewrite Ed'. cbn [mbind option_bind]. destruct Hp as (_ & _ & Hp).
    destruct (grow s (inc_vector d)) as [w|] eqn:G; [|done].
    rewrite (grow_pads _ _ _ Hp) by (by eexists). grown_facts.
    cbn [mbind option_bind].
    rewrite (cell_grow_inc _ _ _ _ Ed), (cell_grow_inc _ _ _ _ Ed').
    by rewrite (cell_pads _ _ _ Hp).
Qed.

(** What [DEBUG_ReadTypeEnum] does with a reference that resolves. *)
Lemma read_enum_node buf x st f s x' v :
  read_forwards buf x = Some (f, s, x') →
  ('(st', dt) ← DEBUG_FileSubNr2StabEnum f s st; load st' dt) = Some v →
  ∃ st' dt, DEBUG_ReadTypeEnum buf x st = Some (st', dt, x')
            ∧ load st' dt = Some v ∧ extends st st' ∧ frame st st'.
Proof.
  intros Hr Hn. unfold DEBUG_ReadTypeEnum. rewrite Hr. cbn [mbind option_bind].
  destruct (DEBUG_FileSubNr2StabEnum f s st) as [[st' dt]|] eqn:E; [|done].
  exists st', dt. split; [done|]. split; [done|].
  split; [by eapply resolve_extends|by eapply resolve_frame].
Qed.

(** *** Entries that the tables have *)

Lemma set_cu_vector_same st : set_cu_vector (cu_vector st) st = st.
Proof. by destruct st. Qed.

Lemma set_include_defs_same st : set_include_defs (include_defs st) st = st.
Proof. by destruct st. Qed.

Lemma include_same d : mkInclude (inc_name d) (inc_value d) (inc_vector d) = d.
Proof. by destruct d. Qed.

(** The slot of an entry that exists is taken in place. *)
Lemma resolve_in_place f s st :
  covered f s st →
  ∃ dt, DEBUG_FileSubNr2StabEnum f s st = Some (st, dt) ∧ is_Some (load st dt).
Proof.
  intros (v & Hv & Hs). unfold table_of in Hv. unfold DEBUG_FileSubNr2StabEnum.
  destruct (f =? 0).
  - simplify_eq. rewrite grow_covered by lia. cbn [mbind option_bind].
    rewrite set_cu_vector_same. eexists. split; [done|].
    unfold load, index_ok. rewrite (proj2 (Z.leb_le 0 s)) by lia.
    rewrite (proj2 (Z.ltb_lt _ _)) by lia. apply lookup_lt_is_Some. lia.
  - destruct (cu_include_stk_idx st <? f); [done|]. destruct (f <? 0); [done|].
    destruct (cu_include_stack st !! Z.to_nat f) as [idx|]; [|done].
    cbn [mbind option_bind] in *. destruct (idx <? 0); [done|].
    destruct (include_defs st !! Z.to_nat idx) as [d|] eqn:Ed; [|done].
    cbn [mbind option_bind] in *. simplify_eq.
    rewrite grow_covered by lia. cbn [mbind option_bind].
    rewrite include_same, list_insert_id, set_include_defs_same by done.
    eexists. split; [done|]. unfold load. rewrite Ed. cbn [mbind option_bind].
    unfold index_ok. rewrite (proj2 (Z.leb_le 0 s)) by lia.
    rewrite (proj2 (Z.ltb_lt _ _)) by lia. apply lookup_lt_is_Some. lia.
Qed.

(** A slot that was taken and read lies in its table. *)
Lemma resolve_covered f s st st' dt v :
  DEBUG_FileSubNr2StabEnum f s st = Some (st', dt) → load st' dt = Some v →
  covered f s st'.
Proof.
  unfold DEBUG_FileSubNr2StabEnum, covered, table_of, load, index_ok.
  intros H L. destruct (f =? 0) eqn:E0.
  - inv_some H. cbn [cu_vector set_cu_vector] in *. eexists. split; [done|].
    case_match; [|done]. apply andb_true_iff in H. lia.
  - cbn [cu_include_stk_idx cu_include_stack].
    destruct (cu_include_stk_idx st <? f) eqn:E1; [done|].
    destruct (f <? 0) eqn:E2; [done|].
    destruct (cu_include_stack st !! Z.to_nat f) as [idx|] eqn:E3; [|done].
    cbn [mbind option_bind] in H. destruct (idx <? 0) eqn:E4; [done|].
    destruct (include_defs st !! Z.to_nat idx) as [d|] eqn:E5; [|done].
    cbn [mbind option_bind] in H.
    destruct (grow s (inc_vector d)) as [w|] eqn:G; [|done].
    cbn [mbind option_bind] in H. simplify_eq.
    cbn [cu_include_stk_idx cu_include_stack include_defs set_include_defs] in *.
    rewrite E1, E3. cbn [mbind option_bind]. rewrite E4.
    rewrite list_lookup_insert_eq in L |- * by (by eapply lookup_lt_Some).
    cbn [mbind option_bind inc_vector] in *. eexists. split; [done|].
    case_match; [|done]. apply andb_true_iff in H. lia.
Qed.

Lemma pads_length v v' : pads v v' → (length v ≤ length v')%nat.
Proof. intros [k ->]. rewrite length_app. lia. Qed.

Lemma covered_extends f s st st' : extends st st' → covered f s st → covered f s st'.
Proof.
  intros (Hstk & Hidx & Hcu & Hinc) (v & Hv & Hs). unfold covered, table_of in *.
  rewrite Hstk, Hidx. destruct (f =? 0).
  - simplify_eq. eexists. split; [done|]. apply pads_length in Hcu. lia.
  - destruct (cu_include_stk_idx st <? f); [done|]. destruct (f <? 0); [done|].
    destruct (cu_include_stack st !! Z.to_nat f) as [idx|]; [|done].
    cbn [mbind option_bind] in *. destruct (idx <? 0); [done|].
    destruct (include_defs st !! Z.to_nat idx) as [d|] eqn:Ed; [|done].
    cbn [mbind option_bind] in *. simplify_eq.
    destruct (Hinc _ _ Ed) as (d' & -> & _ & _ & Hp). cbn [mbind option_bind].
    eexists. split; [done|]. apply pads_length in Hp. lia.
Qed.

Lemma same_tables_refl st : same_tables st st.
Proof. by repeat split. Qed.

Lemma same_tables_trans st1 st2 st3 :
  same_tables st1 st2 → same_tables st2 st3 → same_tables st1 st3.
Proof. intros (? & ? & ? & ?) (? & ? & ? & ?). repeat split; congruence. Qed.

Lemma same_tables_entries st st' dt : same_tables st st' → entries st' dt = entries st dt.
Proof. intros (H1 & H2 & _). unfold entries. by rewrite H1, H2. Qed.

(** A reference to an entry that exists is read with the tables as they
    were. *)
Lemma read_enum_in_place buf x st f s x' st' dt :
  read_forwards buf x = Some (f, s, x') → covered f s st →
  DEBUG_ReadTypeEnum buf x st = Some (st', dt, x') → st' = st.
Proof.
  intros Hr Hc. unfold DEBUG_ReadTypeEnum. rewrite Hr. cbn [mbind option_bind].
  destruct (resolve_in_place _ _ _ Hc) as (dt0 & -> & _). cbn [mbind option_bind].
  congruence.
Qed.

(** *** Reading a member *)

Lemma drop_step {A} (buf a b : list A) x :
  drop x buf = a ++ b → drop (x + length a) buf = b.
Proof. intros H. by rewrite <- drop_drop, H, drop_app_length. Qed.

Lemma drop_cons_step {A} (buf b : list A) e x :
  drop x buf = e :: b → drop (S x) buf = b.
Proof.
  intros H. replace (S x) with (x + 1)%nat by lia.
  by rewrite <- drop_drop, H.
Qed.

Lemma drop_cons_lookup {A} (buf b : list A) e x :
  drop x buf = e :: b → buf !! x = Some e.
Proof.
  intros H. rewrite <- (Nat.add_0_r x), <- lookup_drop. by rewrite H.
Qed.

Lemma span_until_app ch l r :
  ch ∉ l → CStr.span_until ch (l ++ ch :: r) = Some l.
Proof.
  induction l as [|a l IH]; intros Hn; simpl.
  - by rewrite Ascii.eqb_refl.
  - apply not_elem_of_cons in Hn as [Hne Hn].
    rewrite (proj2 (Ascii.eqb_neq a ch)) by done. by rewrite IH.
Qed.

Lemma strlen_no_nul l r :
  CStr.NUL ∉ l → CStr.strlen (l ++ CStr.NUL :: r) = Some (length l).
Proof.
  induction l as [|a l IH]; intros Hn; simpl; [done|].
  apply not_elem_of_cons in Hn as [Hne Hn].
  rewrite (proj2 (Ascii.eqb_neq a CStr.NUL)) by done. by rewrite IH.
Qed.

Lemma cstr_no_nul l r : CStr.NUL ∉ l → CStr.cstr (l ++ CStr.NUL :: r) = Some l.
Proof.
  intros H. unfold CStr.cstr. rewrite strlen_no_nul by done. simpl.
  by rewrite take_app_length.
Qed.

Lemma element_name_ok name :
  CStr.NUL ∉ name → (length name < 1024)%nat → element_name_of name = Some name.
Proof.
  intros Hn Hl. unfold element_name_of.
  destruct (Nat.leb_spec 1024 (length name)); [lia|]. by apply cstr_no_nul.
Qed.

Lemma strlen_some_of_nul l i : l !! i = Some CStr.NUL → is_Some (CStr.strlen l).
Proof.
  revert i. induction l as [|a l IH]; intros i H; [done|]. simpl.
  destruct (Ascii.eqb a CStr.NUL) eqn:E; [by eexists|].
  destruct i as [|i]; simpl in H.
  - simplify_eq.
  - destruct (IH _ H) as [n ->]. by eexists.
Qed.

Lemma cstr_some_of_nul l i : l !! i = Some CStr.NUL → is_Some (CStr.cstr l).
Proof.
  intros H. destruct (strlen_some_of_nul _ _ H) as [n Hn].
  unfold CStr.cstr. rewrite Hn. by eexists.
Qed.

Lemma dec_nonneg_head z : 0 ≤ z → ∃ a l, dec z = a :: l ∧ CStr.isdigit a = true.
Proof.
  intros Hz. unfold dec. destruct (Z.ltb_spec z 0); [lia|].
  pose proof (uint_chars_digits (N.to_uint (Z.to_N z))) as Hd.
  destruct (uint_chars (N.to_uint (Z.to_N z))) as [|a l] eqn:Eu.
  { apply uint_chars_nonnil in Eu; [done|apply to_uint_nonnil]. }
  apply Forall_cons in Hd as [Ha _]. eauto.
Qed.

Lemma read_forwards_ref buf x r e X :
  drop x buf = ref_chars r ++ e :: X →
  CStr.isdigit e = false →
  0 ≤ (ref_numbers r).1 → in_long (ref_numbers r).1 →
  0 ≤ (ref_numbers r).2 → in_long (ref_numbers r).2 →
  read_forwards buf x
  = Some ((ref_numbers r).1, (ref_numbers r).2, (x + length (ref_chars r))%nat).
Proof.
  intros Hs He Hf0 Hf Hn0 Hn. unfold read_forwards.
  destruct r as [n|f n]; cbn [ref_chars ref_numbers fst snd] in *.
  - destruct (dec_nonneg_head n Hn0) as (a & l & Hd & Ha).
    rewrite Hd in Hs. cbn [app] in Hs.
    rewrite (drop_cons_lookup _ _ _ _ Hs). cbn [mbind option_bind].
    apply isdigit_ord in Ha.
    rewrite (ord_inj_eqb a "(") by (change (CStr.ord "(") with 40; lia).
    rewrite Hs. change (a :: l ++ e :: X) with ((a :: l) ++ e :: X).
    rewrite <- Hd. rewrite strtol_dec by done. done.
  - cbn [app] in Hs. rewrite (drop_cons_lookup _ _ _ _ Hs). cbn [mbind option_bind].
    change (Ascii.eqb "(" "(") with true. cbv iota.
    apply drop_cons_step in Hs. rewrite <- app_assoc in Hs. cbn [app] in Hs.
    rewrite Hs. rewrite strtol_dec by done. cbn [mbind option_bind].
    apply drop_step in Hs. apply drop_cons_step in Hs.
    replace (S x + length (dec f) + 1)%nat with (S (S x + length (dec f))) by lia.
    rewrite Hs. rewrite <- app_assoc. cbn [app]. rewrite strtol_dec by done.
    cbn [mbind option_bind]. do 2 f_equal. cbn [length]. rewrite !length_app.
    cbn [length]. rewrite !length_app. cbn [length]. lia.
Qed.

(** *** The member loop on a well-formed list of fields *)

Lemma with_members_nil d : with_members d [] = d.
Proof. destruct d. unfold with_members. simpl. by rewrite app_nil_r. Qed.

Lemma with_members_app d ms ms' :
  with_members (with_members d ms) ms' = with_members d (ms ++ ms').
Proof. unfold with_members. simpl. by rewrite app_assoc. Qed.

Lemma field_chars_length f : (0 < length (field_chars f))%nat.
Proof. unfold field_chars. rewrite length_app. simpl. lia. Qed.

Lemma fields_chars_length fs : (length fs ≤ length (fields_chars fs))%nat.
Proof.
  induction fs as [|f fs IH]; [done|]. unfold fields_chars in *. simpl.
  rewrite length_app. pose proof (field_chars_length f). lia.
Qed.

Lemma drop_poke_after (buf : list ascii) p a k :
  (p < k)%nat → drop k (<[p := a]> buf) = drop k buf.
Proof. intros H. by apply drop_insert_lt. Qed.

Lemma take_poke_before (buf : list ascii) p a k :
  (k ≤ p)%nat → take k (<[p := a]> buf) = take k buf.
Proof. intros H. by apply take_insert_ge. Qed.

(** One member. *)
Lemma struct_member_step st0 f T fuel buf tc h fl st nodeX :
  drop tc buf = field_chars f ++ T →
  field_ok st0 f →
  extends st0 st →
  heap st !! h = Some nodeX →
  ∃ st1 buf1 msgs,
    struct_members (S fuel) buf tc (Some h) fl st
    = struct_members fuel buf1 (tc + length (field_chars f)) (Some h)
        (fl || unresolved st0 f) st1
    ∧ drop (tc + length (field_chars f)) buf1 = T
    ∧ take tc buf1 = take tc buf
    ∧ length buf1 = length buf
    ∧ extends st0 st1
    ∧ heap st1 = <[h := with_members nodeX (member_of st0 f)]> (heap st)
    ∧ printed st1 = printed st ++ msgs
    ∧ length msgs = (if unresolved st0 f then 1 else 0)%nat
    ∧ forallb is_failure msgs = true
    ∧ (in_table st0 (f_ref f) → same_tables st st1).
Proof.
  intros Hs (Hcolon & Hnul & Hhead & Hlen & Hf0 & Hf & Hn0 & Hn & Hoff & Hsize & [v Hv])
    Hext Hh.
  unfold field_chars in Hs.
  repeat (rewrite <- ?app_assoc, <- ?app_comm_cons in Hs; cbn [app] in Hs).
  (* the first byte is not the closing semicolon *)
  assert (∃ a, buf !! tc = Some a ∧ Ascii.eqb a ";" = false) as (a & Ha & Hne).
  { destruct (f_name f) as [|a l] eqn:En; cbn [app] in Hs.
    - exists ":"%char. split; [by eapply drop_cons_lookup|done].
    - exists a. split; [by eapply drop_cons_lookup|].
      apply Ascii.eqb_neq. by apply Hhead. }
  cbn [struct_members]. rewrite Ha. cbn [mbind option_bind]. rewrite Hne.
  rewrite Hs, span_until_app by done. cbn [mbind option_bind].
  rewrite element_name_ok by done. cbn [mbind option_bind].
  apply drop_step in Hs. apply drop_cons_step in Hs.
  replace (S (tc + length (f_name f))) with (tc + length (f_name f) + 1)%nat in Hs by lia.
  set (ti := (tc + length (f_name f) + 1)%nat) in *.
  pose proof (read_forwards_ref _ _ _ _ _ Hs eq_refl Hf0 Hf Hn0 Hn) as Hr.
  pose proof (node_of_extends _ _ _ _ Hext Hv) as Hv'.
  destruct (read_enum_node _ _ _ _ _ _ _ Hr Hv') as (st1 & dt & Hre & Hld & Hext1 & Hfr).
  rewrite Hre. cbn [mbind option_bind]. rewrite Hld. cbn [mbind option_bind].
  apply drop_step in Hs.
  set (tc1 := (ti + length (ref_chars (f_ref f)))%nat) in *.
  assert (Hlt : (tc1 < length buf)%nat).
  { apply lookup_lt_is_Some. eexists. by eapply drop_cons_lookup. }
  unfold CStr.poke. destruct (Nat.ltb_spec tc1 (length buf)) as [_|?]; [|lia].
  cbn [mbind option_bind].
  set (buf1 := <[tc1 := CStr.NUL]> buf).
  assert (Hnul1 : buf1 !! tc1 = Some CStr.NUL) by (by apply list_lookup_insert_eq).
  assert (Hd1 : ∀ k, (tc1 < k)%nat → drop k buf1 = drop k buf)
    by (intros; by apply drop_poke_after).
  apply drop_cons_step in Hs.
  rewrite (Hd1 (S tc1)) by lia.
  rewrite Hs, strtol_dec by done. cbn [mbind option_bind].
  apply drop_step in Hs. apply drop_cons_step in Hs.
  replace (S tc1 + length (dec (f_offset f)) + 1)%nat
    with (S (S tc1 + length (dec (f_offset f)))) by lia.
  rewrite (Hd1 (S (S tc1 + length (dec (f_offset f))))) by lia.
  rewrite Hs. rewrite strtol_dec by done.
  cbn [mbind option_bind].
  apply drop_step in Hs. apply drop_cons_step in Hs.
  assert (Hpos : (S (S tc1 + length (dec (f_offset f))) + length (dec (f_size f)) + 1
                 = tc + length (field_chars f))%nat).
  { unfold tc1, ti, field_chars. rewrite !length_app. cbn [length].
    rewrite !length_app. cbn [length]. rewrite !length_app. cbn [length].
    rewrite !length_app. cbn [length]. lia. }
  rewrite Hpos.
  assert (Hdrop : drop (tc + length (field_chars f)) buf1 = T).
  { rewrite <- Hpos. rewrite Hd1 by lia. rewrite <- Hs. f_equal. lia. }
  assert (Htake : take tc buf1 = take tc buf).
  { unfold buf1. apply take_poke_before. unfold tc1, ti. lia. }
  assert (Hl1 : length buf1 = length buf) by (unfold buf1; by rewrite length_insert).
  destruct Hfr as (Hheap & _ & _ & Hpr & _).
  assert (Hext01 : extends st0 st1) by (by eapply extends_trans).
  assert (in_table st0 (f_ref f) → st1 = st) as Hplace.
  { intros Hin. eapply read_enum_in_place; [exact Hr| |exact Hre].
    by eapply covered_extends. }
  unfold member_of, unresolved. rewrite Hv.
  destruct v as [hh|].
  - unfold DEBUG_AddStructElement, update. cbn [mbind option_bind].
    rewrite Hheap, Hh. cbn [mbind option_bind].
    eexists _, buf1, []. split; [by rewrite orb_false_r|].
    split_and!; try done.
    all: first [ by (eapply extends_trans; [exact Hext01|apply extends_set_heap])
               | by (cbn [printed set_heap]; rewrite app_nil_r)
               | (intros Hin; rewrite (Hplace Hin); exact (same_tables_refl st)) ].
  - destruct (cstr_some_of_nul _ _ Hnul1) as [p Hp]. rewrite Hp.
    cbn [mbind option_bind].
    assert (Hti : drop ti buf1 !! (tc1 - ti)%nat = Some CStr.NUL).
    { rewrite lookup_drop. rewrite <- Hnul1. f_equal. unfold tc1. lia. }
    destruct (cstr_some_of_nul _ _ Hti) as [q Hq]. rewrite Hq.
    cbn [mbind option_bind].
    eexists _, buf1, [_]. split; [by rewrite orb_true_r|].
    split_and!; try done.
    + cbn [heap DEBUG_Printf]. rewrite with_members_nil, Hheap.
      by rewrite list_insert_id.
    + cbn [printed DEBUG_Printf]. by rewrite Hpr.
    + done.
    + intros Hin. rewrite (Hplace Hin). exact (same_tables_refl st).
Qed.

Lemma take_le_eq {A} (a b : list A) k n :
  (k ≤ n)%nat → take n a = take n b → take k a = take k b.
Proof.
  intros H E. rewrite <- (Nat.min_l k n) by done. rewrite <- !take_take.
  by rewrite E.
Qed.

(** The member loop over a well-formed list of fields: it ends on the
    closing [';'], writes terminators behind [tc] only, adds every
    resolved member to the node and prints one message for every other
    field. *)
Lemma struct_members_fields st0 h rest : ∀ fs fuel buf tc fl st nodeX,
  drop tc buf = fields_chars fs ++ ";"%char :: rest →
  (length fs < fuel)%nat →
  Forall (field_ok st0) fs →
  extends st0 st →
  heap st !! h = Some nodeX →
  ∃ st' buf' msgs,
    struct_members fuel buf tc (Some h) fl st
    = Some (st', buf', (tc + length (fields_chars fs))%nat,
            fl || existsb (unresolved st0) fs)
    ∧ drop (tc + length (fields_chars fs)) buf' = ";"%char :: rest
    ∧ take tc buf' = take tc buf
    ∧ length buf' = length buf
    ∧ extends st0 st'
    ∧ heap st' = <[h := with_members nodeX (members_of st0 fs)]> (heap st)
    ∧ printed st' = printed st ++ msgs
    ∧ length msgs = failures st0 fs
    ∧ forallb is_failure msgs = true
    ∧ (Forall (λ f, in_table st0 (f_ref f)) fs → same_tables st st').
Proof.
  induction fs as [|f fs IH]; intros fuel buf tc fl st nodeX Hs Hfuel Hok Hext Hh.
  - destruct fuel as [|fuel]; [lia|]. cbn [fields_chars map concat app] in *.
    cbn [struct_members]. rewrite (drop_cons_lookup _ _ _ _ Hs).
    cbn [mbind option_bind]. change (Ascii.eqb ";" ";") with true. cbv iota.
    exists st, buf, []. rewrite Nat.add_0_r, orb_false_r.
    split_and!; try done.
    + unfold members_of. cbn [flat_map]. rewrite with_members_nil.
      by rewrite list_insert_id.
    + by rewrite app_nil_r.
  - destruct fuel as [|fuel]; [cbn [length] in Hfuel; lia|].
    apply Forall_cons in Hok as [Hf Hok].
    change (fields_chars (f :: fs)) with (field_chars f ++ fields_chars fs) in *.
    rewrite <- app_assoc in Hs.
    destruct (struct_member_step st0 f _ fuel buf tc h fl st nodeX Hs Hf Hext Hh)
      as (st1 & buf1 & msgs1 & Heq & Hd1 & Ht1 & Hl1 & He1 & Hh1 & Hp1 & Hm1 & Hf1 & Hs1).
    rewrite Heq.
    assert (Hh1' : heap st1 !! h = Some (with_members nodeX (member_of st0 f))).
    { rewrite Hh1. apply list_lookup_insert_eq. by eapply lookup_lt_Some. }
    destruct (IH fuel buf1 (tc + length (field_chars f))%nat (fl || unresolved st0 f)
                st1 _ Hd1 ltac:(cbn [length] in Hfuel; lia) Hok He1 Hh1')
      as (st' & buf' & msgs & Heq' & Hd' & Ht' & Hl' & He' & Hh' & Hp' & Hm' & Hf' & Hs').
    exists st', buf', (msgs1 ++ msgs). rewrite Heq'.
    rewrite length_app, Nat.add_assoc. cbn [existsb]. rewrite orb_assoc.
    split_and!; try done.
    + rewrite <- Ht1. eapply take_le_eq; [|exact Ht']. lia.
    + congruence.
    + rewrite Hh', Hh1, list_insert_insert_eq, with_members_app. done.
    + rewrite Hp', Hp1. by rewrite app_assoc.
    + rewrite length_app, Hm1, Hm'. unfold failures. cbn [List.filter].
      destruct (unresolved st0 f); cbn [length]; lia.
    + rewrite forallb_app. by rewrite Hf1, Hf'.
    + intros [Hin1 Hin]%Forall_cons. eapply same_tables_trans; eauto.
Qed.

(** *** A struct with fields that do not resolve *)

Lemma fields_text_head st0 fs rest :
  Forall (field_ok st0) fs →
  ∃ e X, fields_chars fs ++ ";"%char :: rest = e :: X ∧ CStr.isdigit e = false.
Proof.
  intros Hok. destruct fs as [|f fs]; [by eexists _, _|].
  apply Forall_cons in Hok as [(_ & _ & Hhead & _) _].
  change (fields_chars (f :: fs)) with (field_chars f ++ fields_chars fs).
  unfold field_chars. destruct (f_name f) as [|a l]; cbn [app].
  - by eexists _, _.
  - eexists _, _. split; [done|]. by apply Hhead.
Qed.

Lemma store_of_load st d v w : load st d = Some v → is_Some (store st d w).
Proof.
  unfold load, store. destruct d as [n|i n]; intros H.
  - destruct (index_ok n (cu_vector st)); [by eexists|done].
  - destruct (include_defs st !! i) as [x|]; [|done]. cbn [mbind option_bind] in *.
    destruct (index_ok n (inc_vector x)); [by eexists|done].
Qed.

Lemma strlen_lt l n : CStr.strlen l = Some n → (n < length l)%nat.
Proof.
  revert n. induction l as [|a l IH]; intros n H; [done|]. cbn [CStr.strlen] in H.
  destruct (Ascii.eqb a CStr.NUL); [simplify_eq; simpl; lia|].
  destruct (CStr.strlen l) as [m|]; [|done]. simpl in H. simplify_eq.
  specialize (IH m eq_refl). simpl. lia.
Qed.

Lemma strlen_take l n X :
  CStr.strlen l = Some n → CStr.strlen (take (S n) l ++ X) = Some n.
Proof.
  revert n. induction l as [|a l IH]; intros n H; [done|]. cbn [CStr.strlen] in H.
  destruct (Ascii.eqb a CStr.NUL) eqn:E.
  - simplify_eq. cbn [take app CStr.strlen]. by rewrite E.
  - destruct (CStr.strlen l) as [m|] eqn:El; [|done]. simpl in H. simplify_eq.
    cbn [take app CStr.strlen]. rewrite E. by rewrite (IH m eq_refl).
Qed.

Lemma cstr_take l n X :
  CStr.strlen l = Some n → CStr.cstr (take (S n) l ++ X) = CStr.cstr l.
Proof.
  intros H. unfold CStr.cstr. rewrite (strlen_take _ _ _ H), H.
  cbn [mbind option_bind]. f_equal.
  pose proof (strlen_lt _ _ H).
  rewrite take_app_le by (rewrite length_take; lia).
  rewrite take_take. f_equal. lia.
Qed.

Lemma cut_down buf c tc skip a n :
  buf !! tc = Some a → a ≠ CStr.NUL → (c < tc + skip)%nat → (c ≤ length buf)%nat →
  CStr.strlen (drop (tc + skip) buf) = Some n →
  ∃ buf', cut buf c tc skip = Some buf'
    ∧ take c buf' = take c buf
    ∧ CStr.cstr (drop c buf') = CStr.cstr (drop (tc + skip) buf)
    ∧ length buf' = length buf.
Proof.
  intros Ha Hne Hlt Hc Hn. unfold cut. rewrite Ha. cbn [mbind option_bind].
  rewrite (proj2 (Ascii.eqb_neq a CStr.NUL)) by done.
  rewrite (proj2 (Nat.ltb_lt _ _)) by done.
  unfold CStr.strcpy_down. rewrite Hn. cbn [mbind option_bind].
  eexists. split; [done|].
  pose proof (strlen_lt _ _ Hn) as Hl. rewrite length_drop in Hl.
  assert (length (take c buf) = c) as Htk by (rewrite length_take; lia).
  split_and!.
  - rewrite take_app_le by lia. rewrite take_take. f_equal. lia.
  - rewrite drop_app_length' by done. by apply cstr_take.
  - rewrite !length_app, Htk, length_take, !length_drop. lia.
Qed.

Lemma read_back_frame buf c st st' dt :
  DEBUG_ReadTypeEnumBackwards buf c st = Some (st', dt) → frame st st'.
Proof.
  unfold DEBUG_ReadTypeEnumBackwards. intros H. inv_some H.
  by eapply resolve_frame.
Qed.

Lemma pass2_step_struct buf c ntp tn st tag :
  buf !! S c = Some tag → tag = "s"%char ∨ tag = "u"%char →
  pass2_step buf c ntp tn st
  = '(st, dt) ← DEBUG_ReadTypeEnumBackwards buf c st;
    curr_type ← load st dt;
    n ← entries st dt;
    '(st, buf) ← pass2_struct buf c dt n curr_type st;
    Some (st, buf, Some (ntp - 1)).
Proof.
  intros Htag Hsu. unfold pass2_step.
  destruct (DEBUG_ReadTypeEnumBackwards buf c st) as [[st1 dt]|]; [|done]. simpl.
  destruct (load st1 dt); [|done]. simpl. rewrite Htag.
  by destruct Hsu as [-> | ->].
Qed.

Lemma load_entries st dt v : load st dt = Some v → is_Some (entries st dt).
Proof.
  unfold load, entries. destruct dt as [n|i n]; [by eexists|].
  destruct (include_defs st !! i); [by eexists|done].
Qed.

(** One turn of the second sweep on a well-formed struct or union that
    has no size yet and whose members name entries that the tables
    have. *)
Lemma struct_step st pre tag size fs rest ntp tn st0 dt h node n :
  let buf := pre ++ struct_chars tag size fs ++ rest in
  let c := length pre in
  tag = "s"%char ∨ tag = "u"%char →
  in_long size →
  Forall (field_ok st0) fs →
  Forall (λ f, in_table st0 (f_ref f)) fs →
  CStr.strlen rest = Some n →
  DEBUG_ReadTypeEnumBackwards buf c st = Some (st0, dt) →
  load st0 dt = Some (Some h) →
  heap st0 !! h = Some node →
  dt_size node = None →
  ∃ st' buf' msgs,
    pass2_step buf c ntp tn st = Some (st', buf', Some (ntp - 1))
    ∧ take c buf' = pre
    ∧ CStr.cstr (drop c buf') = CStr.cstr rest
    ∧ heap st' = <[h := with_members (with_size node size) (members_of st0 fs)]> (heap st0)
    ∧ printed st' = printed st ++ msgs
    ∧ length msgs = failures st0 fs
    ∧ forallb is_failure msgs = true
    ∧ load st' dt = Some (if existsb (unresolved st0) fs then None else Some h).
Proof.
  intros buf c Htag Hsize Hok Hin Hrest Hback Hload Hnode Hfresh.
  assert (buf = pre ++ "="%char :: tag :: dec size ++ fields_chars fs ++ ";"%char :: rest)
    as Hbuf.
  { unfold buf, struct_chars. cbn [app]. by rewrite <- !app_assoc. }
  clearbody buf.
  assert (buf !! S c = Some tag) as Ht.
  { eapply (lookup_at _ (pre ++ ["="%char])); [by rewrite Hbuf, <- app_assoc|].
    rewrite length_app. simpl. unfold c. lia. }
  rewrite (pass2_step_struct _ _ _ _ _ _ Ht Htag), Hback.
  cbn [mbind option_bind]. rewrite Hload. cbn [mbind option_bind].
  destruct (load_entries _ _ _ Hload) as [m Hm]. rewrite Hm.
  cbn [mbind option_bind].
  destruct (fields_text_head st0 fs rest Hok) as (e & X & HX & He).
  assert (drop (c + 2) buf = dec size ++ e :: X) as Hd2.
  { rewrite <- HX. eapply (drop_at _ (pre ++ ["="%char; tag])).
    - by rewrite Hbuf, <- app_assoc.
    - rewrite length_app. simpl. done. }
  unfold pass2_struct. rewrite Hd2, (strtol_dec _ _ _ Hsize He).
  cbn [mbind option_bind]. unfold DEBUG_SetStructSize.
  cbn [mbind option_bind]. rewrite Hnode. cbn [mbind option_bind]. rewrite Hfresh.
  cbn [mbind option_bind negb].
  set (tc := (c + 2 + length (dec size))%nat).
  set (st1 := set_heap _ st0).
  assert (drop tc buf = fields_chars fs ++ ";"%char :: rest) as Hdtc.
  { eapply (drop_at _ (pre ++ "="%char :: tag :: dec size)).
    - by rewrite Hbuf, <- app_assoc.
    - rewrite length_app. simpl. unfold tc, c. lia. }
  assert (length fs < length buf)%nat as Hfuel.
  { rewrite Hbuf, !length_app. simpl. rewrite !length_app. simpl.
    pose proof (fields_chars_length fs). lia. }
  assert (heap st1 !! h = Some (with_size node size)) as Hn1.
  { unfold st1. simpl. apply list_lookup_insert_eq. by eapply lookup_lt_Some. }
  destruct (struct_members_fields st0 h rest fs (length buf) buf tc false st1
              (with_size node size) Hdtc Hfuel Hok (extends_set_heap _ st0) Hn1)
    as (st2 & buf2 & msgs & Hrun & Hd & Htk & Hlen & Hext & Hheap & Hpr & Hcount
        & Hfail & Hsame).
  assert (entries st2 dt = Some m) as Hm2.
  { rewrite (same_tables_entries _ _ _ (Hsame Hin)). exact Hm. }
  rewrite Hrun. cbn [mbind option_bind orb].
  pose proof (struct_members_loads_kept _ _ _ _ _ _ _ _ _ _ Hrun dt _ Hload) as Hl2.
  set (tc' := (tc + length (fields_chars fs))%nat) in *.
  assert (buf2 !! tc' = Some ";"%char) as Hsemi.
  { rewrite <- (Nat.add_0_r tc'), <- lookup_drop, Hd. done. }
  assert (CStr.strlen (drop (tc' + 1) buf2) = Some n) as Hn2.
  { by rewrite <- drop_drop, Hd. }
  assert (c < tc' + 1)%nat as Hctc by (unfold tc', tc; lia).
  assert (c ≤ length buf2)%nat as Hcl.
  { rewrite Hlen, Hbuf, length_app. unfold c. lia. }
  destruct (cut_down buf2 c tc' 1 _ n Hsemi ltac:(done) Hctc Hcl Hn2)
    as (buf3 & Hcut & Htk3 & Hcs & _).
  assert (take c buf3 = pre) as Hpre.
  { rewrite Htk3, (take_le_eq buf2 buf c tc ltac:(unfold tc; lia) Htk).
    rewrite Hbuf. unfold c. by rewrite take_app_length. }
  assert (CStr.cstr (drop c buf3) = CStr.cstr rest) as Hrest3.
  { by rewrite Hcs, <- drop_drop, Hd. }
  assert (heap st2 = <[h := with_members (with_size node size) (members_of st0 fs)]> (heap st0))
    as Hh2.
  { rewrite Hheap. unfold st1. simpl. by rewrite list_insert_insert_eq. }
  assert (printed st2 = printed st ++ msgs) as Hp2.
  { rewrite Hpr. unfold st1. simpl.
    by destruct (read_back_frame _ _ _ _ _ Hback) as (_ & _ & _ & -> & _). }
  destruct (existsb (unresolved st0) fs) eqn:Hbad.
  - destruct (store_of_load st2 dt _ None Hl2) as [st3 Hst].
    rewrite (held_store _ _ _ _ Hm2), Hst. cbn [mbind option_bind]. rewrite Hcut. cbn [mbind option_bind].
    destruct (store_frame _ _ _ _ Hst) as (Hh3 & _ & _ & Hp3 & _).
    exists st3, buf3, msgs. split_and!; try done.
    + by rewrite Hh3.
    + by rewrite Hp3.
    + by eapply load_store_eq.
  - cbn [mbind option_bind]. rewrite Hcut. cbn [mbind option_bind].
    exists st2, buf3, msgs. by split_and!.
Qed.

(** C4 (malformed struct field): the struct [A:t5=s8x:9,0,32;y:1,32,32;;]
    is met when the table of the compilation unit has six entries.  The
    second sweep takes the address of slot 5, which holds the node of
    the struct, and the struct gets its size.  The member loop flags the
    failure for [x], whose type 9 lies beyond the end of the table: to
    read it the table is reallocated with ten entries, and slot 5 of the
    table still holds the node, with its size and the member [y].  The
    assignment [*dt = NULL] that follows goes through the address taken
    before the reallocation, which lies in the block that was given
    back: the assignment has no defined result, so neither the turn nor
    the parse of the typedef has one. *)
Theorem struct_failure_writes_stale_slot :
  ∃ h stm bufm tcm node,
    DEBUG_ReadTypeEnumBackwards far_text 4 far_state = Some (far_state, CuSlot 5)
    ∧ entries far_state (CuSlot 5) = Some 6%nat
    ∧ load far_state (CuSlot 5) = Some (Some 1%nat)
    ∧ DEBUG_SetStructSize (heap far_state) (Some 1%nat) 8 = Some (h, true)
    ∧ struct_members (length far_text) far_text 7 (Some 1%nat) false
        (set_heap h far_state) = Some (stm, bufm, tcm, true)
    ∧ entries stm (CuSlot 5) = Some 10%nat
    ∧ load stm (CuSlot 5) = Some (Some 1%nat)
    ∧ heap stm !! 1%nat = Some node
    ∧ dt_size node = Some 8
    ∧ length (dt_members node) = 1%nat
    ∧ store_held 6 stm (CuSlot 5) None = None
    ∧ pass2_step far_text 4 0 (Some (CStr.of_string "A")) far_state = None
    ∧ DEBUG_ParseTypedefStab far_text (CStr.of_string "A") int1_state = None.
Proof.
  do 5 eexists. split_and!; vm_compute; reflexivity.
Qed.

(** X27 (struct with an undefined member): in the second sweep, a struct
    or union whose text is well formed, whose node has no size yet, whose
    members all name entries that the tables have and of which at least
    one names an entry that holds no node, is dealt with in one turn as
    follows: the sweep goes on ([ntp] is decremented, no [return FALSE]),
    the text before the ['='] is kept and the text behind the closing
    [';'] is moved up to the ['='], the slot of the struct is set to
    empty, one [failure] message is printed per member without a node and
    nothing else, and the node has received its size and every member
    with a node, those behind a member without one included. *)
Theorem struct_failure_empties_slot st pre tag size fs rest ntp tn st0 dt h node n :
  let buf := pre ++ struct_chars tag size fs ++ rest in
  let c := length pre in
  tag = "s"%char ∨ tag = "u"%char →
  in_long size →
  Forall (field_ok st0) fs →
  Forall (λ f, in_table st0 (f_ref f)) fs →
  CStr.strlen rest = Some n →
  DEBUG_ReadTypeEnumBackwards buf c st = Some (st0, dt) →
  load st0 dt = Some (Some h) →
  heap st0 !! h = Some node →
  dt_size node = None →
  existsb (unresolved st0) fs = true →
  ∃ st' buf' msgs,
    pass2_step buf c ntp tn st = Some (st', buf', Some (ntp - 1))
    ∧ take c buf' = pre
    ∧ CStr.cstr (drop c buf') = CStr.cstr rest
    ∧ load st' dt = Some None
    ∧ printed st' = printed st ++ msgs
    ∧ length msgs = failures st0 fs
    ∧ forallb is_failure msgs = true
    ∧ heap st' = <[h := with_members (with_size node size) (members_of st0 fs)]> (heap st0).
Proof.
  intros buf c Htag Hsize Hok Hin Hrest Hback Hload Hnode Hfresh Hbad.
  destruct (struct_step st pre tag size fs rest ntp tn st0 dt h node n
              Htag Hsize Hok Hin Hrest Hback Hload Hnode Hfresh)
    as (st' & buf' & msgs & Hrun & Hpre & Hcs & Hheap & Hpr & Hcount & Hfail & Hslot).
  rewrite Hbad in Hslot. exists st', buf', msgs. by split_and!.
Qed.

Lemma struct_failure_empties_slot_witness :
  ∃ st' buf' msgs,
    pass2_step struct_text 4 0 (Some (CStr.of_string "A")) struct_state
      = Some (st', buf', Some (0 - 1))
    ∧ take 4 buf' = CStr.of_string "A:t5"
    ∧ CStr.cstr (drop 4 buf') = CStr.cstr [CStr.NUL]
    ∧ load st' (CuSlot 5) = Some None
    ∧ printed st' = printed struct_state ++ msgs
    ∧ length msgs = failures struct_state struct_fields
    ∧ forallb is_failure msgs = true
    ∧ heap st' = <[1%nat := with_members (with_size (blank DT_STRUCT (Some (CStr.of_string "A"))) 8)
                              (members_of struct_state struct_fields)]> (heap struct_state).
Proof.
  apply (struct_failure_empties_slot struct_state (CStr.of_string "A:t5") "s" 8
           struct_fields [CStr.NUL] 0 (Some (CStr.of_string "A")) struct_state
           (CuSlot 5) 1 (blank DT_STRUCT (Some (CStr.of_string "A"))) 0).
  - by left.
  - by vm_compute.
  - apply List.Forall_cons; [|apply List.Forall_cons; [|apply List.Forall_nil]];
      (unfold field_ok; cbn [f_name f_ref f_offset f_size ref_numbers fst snd];
       split_and!;
       [ apply (bool_decide_unpack _); by vm_compute
       | apply (bool_decide_unpack _); by vm_compute
       | intros a [= <-]; by vm_compute
       | vm_compute; lia
       | done | by vm_compute | done | by vm_compute | by vm_compute | by vm_compute
       | vm_compute; by eexists ]).
  - apply List.Forall_cons; [|apply List.Forall_cons; [|apply List.Forall_nil]];
      (eexists; split; [vm_compute; reflexivity|vm_compute; split; [discriminate|reflexivity]]).
  - reflexivity.
  - by vm_compute.
  - by vm_compute.
  - by vm_compute.
  - reflexivity.
  - by vm_compute.
Defined.

(** C5 (re-visited struct): with type 1 known, the typedef
    [A:t5=s8x:1,0,32;y:5=s4z:1,0,32;;,32,32;;] is parsed with success.  Its
    inner struct is slot 5 as well, so the second sweep finds the node of
    the outer struct sized already and takes the skipping branch.  The
    branch stops at the [';'] that ends the first member: the text left is
    [A:t5:5,32,32;;], where skipping to the closing [";;"] leaves [A:t5]. *)
Theorem revisited_struct_stops_at_first_member :
  parsed_text (DEBUG_ParseTypedefStab nested_text (CStr.of_string "A") int1_state)
  = Some (CStr.of_string "A:t5:5,32,32;;").
Proof. vm_compute. reflexivity. Qed.

(** ** The slots through one turn of the second sweep *)

Lemma eqb_tag a b : Ascii.eqb a b = true → a = b.
Proof. by intros ?%Ascii.eqb_eq. Qed.

Lemma pass2_step_keeps_filled buf c ntp tn st st' buf' r :
  buf !! S c ≠ Some "s"%char → buf !! S c ≠ Some "u"%char →
  pass2_step buf c ntp tn st = Some (st', buf', r) → keeps_filled_slots st st'.
Proof.
  unfold pass2_step, pass2_xref_struct, pass2_pointer, pass2_array, pass2_struct,
    pass2_enum.
  intros Hs Hu H. inv_some H.
  all: try match goal with
       | E : Ascii.eqb ?a "s" || Ascii.eqb ?a "u" = true |- _ =>
           apply orb_true_iff in E as [->%eqb_tag | ->%eqb_tag]; done
       end.
  all: kept_facts.
  all: try (apply loads_kept_filled; intros d v L; kept_chain; fail).
  fact_of pass2_reference_keeps_filled.
  intros d h L. rewrite load_set_curr_types. kept_chain.
Qed.

(** A turn of the first sweep on a tag that asks for a skeleton. *)
Lemma pass1_turn buf c tn n st st' r tn' st0 dt tag K name :
  DEBUG_ReadTypeEnumBackwards buf c st = Some (st0, dt) →
  buf !! S c = Some tag →
  skeleton_of buf c tag tn = Some (Skeleton K name) →
  pass1 buf [c] tn n st = Some (st', r, tn') →
  load st' dt = Some (Some (length (heap st)))
  ∧ heap st' = heap st ++ [blank K name]
  ∧ r = Some (S n).
Proof.
  intros Hback Htag Hsk H. cbn [pass1] in H. rewrite Hback in H.
  cbn [mbind option_bind] in H. rewrite Htag in H. cbn [mbind option_bind] in H.
  rewrite Hsk in H. cbn [mbind option_bind] in H. unfold DEBUG_NewDataType in H.
  destruct (store _ dt _) as [st1|] eqn:Es; [|done]. cbn [mbind option_bind] in H.
  destruct (push_curr_type n _ st1) as [st2|] eqn:Ep; [|done].
  cbn [mbind option_bind] in H. simplify_eq.
  destruct (read_back_frame _ _ _ _ _ Hback) as (Fh & _).
  destruct (store_frame _ _ _ _ Es) as (Sh & _). cbn [heap set_heap] in Sh.
  unfold push_curr_type in Ep. case_match; [|done]. simplify_eq.
  rewrite load_set_curr_types. cbn [heap set_curr_types]. rewrite <- Fh.
  split; [by eapply load_store_eq|]. split; [congruence|done].
Qed.

(** A turn of the second loop of [DEBUG_HandlePreviousTypedef]. *)
Lemma rebind_turn buf types count p st st' st0 dt :
  DEBUG_ReadTypeEnumBackwards buf p st = Some (st0, dt) →
  rebind_defs buf types count [p] st = Some st' →
  ∃ t, types !! count = Some t ∧ load st' dt = Some t.
Proof.
  intros Hback H. cbn [rebind_defs] in H. rewrite Hback in H.
  cbn [mbind option_bind] in H.
  destruct (types !! count) as [t|]; [|done]. cbn [mbind option_bind] in H.
  destruct (store st0 dt t) as [st1|] eqn:Es; [|done]. cbn [mbind option_bind] in H.
  simplify_eq. exists t. split; [done|]. by eapply load_store_eq.
Qed.

(** C3 (slots and what is written to them): a turn of the second sweep
    that has a defined result never puts another node in a slot that
    holds one.  Such a slot keeps its node or, in the struct and union
    branch, is emptied; in every other branch, the plain reference that
    aliases two slots included, it keeps its node.  A turn of the first
    sweep on a tag that asks for a skeleton puts the new node in the slot
    in front of the ['='], and a turn of the second loop of
    [DEBUG_HandlePreviousTypedef] puts the cached node of its rank
    there: neither looks at what the slot holds. *)
Theorem second_sweep_keeps_or_empties :
  (∀ buf c ntp tn st st' buf' r,
     pass2_step buf c ntp tn st = Some (st', buf', r) →
     keeps_or_empties st st'
     ∧ (buf !! S c ≠ Some "s"%char → buf !! S c ≠ Some "u"%char →
        keeps_filled_slots st st'))
  ∧ (∀ buf c tn n st st' r tn' st0 dt tag K name,
       DEBUG_ReadTypeEnumBackwards buf c st = Some (st0, dt) →
       buf !! S c = Some tag →
       skeleton_of buf c tag tn = Some (Skeleton K name) →
       pass1 buf [c] tn n st = Some (st', r, tn') →
       load st' dt = Some (Some (length (heap st)))
       ∧ heap st' = heap st ++ [blank K name])
  ∧ (∀ buf types count p st st' st0 dt,
       DEBUG_ReadTypeEnumBackwards buf p st = Some (st0, dt) →
       rebind_defs buf types count [p] st = Some st' →
       ∃ t, types !! count = Some t ∧ load st' dt = Some t).
Proof.
  split_and!.
  - intros buf c ntp tn st st' buf' r H. split.
    + by eapply pass2_step_keeps_or_empties.
    + intros Hs Hu. by eapply pass2_step_keeps_filled.
  - intros buf c tn n st st' r tn' st0 dt tag K name Hback Htag Hsk H.
    destruct (pass1_turn _ _ _ _ _ _ _ _ _ _ _ _ _ Hback Htag Hsk H) as (H1 & H2 & _).
    done.
  - intros buf types count p st st' st0 dt Hback H. by eapply rebind_turn.
Qed.

Lemma second_sweep_keeps_or_empties_witness :
  (∃ st' buf' r,
     pass2_step struct_text 4 0 (Some (CStr.of_string "A")) struct_state
       = Some (st', buf', r)
     ∧ load struct_state (CuSlot 5) = Some (Some 1%nat)
     ∧ load st' (CuSlot 5) = Some None
     ∧ keeps_or_empties struct_state st'
     ∧ (struct_text !! 5%nat ≠ Some "s"%char → struct_text !! 5%nat ≠ Some "u"%char →
        keeps_filled_slots struct_state st'))
  ∧ (∃ st' r tn',
       pass1 (stab_text "A:t5=*1") [4%nat] (Some (CStr.of_string "A")) 0
         (after_typedef "A:t5=*1" "A" initial_statics) = Some (st', r, tn')
       ∧ load (after_typedef "A:t5=*1" "A" initial_statics) (CuSlot 5)
         = Some (Some 0%nat)
       ∧ load st' (CuSlot 5) = Some (Some 1%nat))
  ∧ (∃ st',
       rebind_defs two_pointers_text [Some 1%nat] 0 [4%nat] two_pointers_state
         = Some st'
       ∧ load two_pointers_state (CuSlot 5) = Some (Some 0%nat)
       ∧ load st' (CuSlot 5) = Some (Some 1%nat)).
Proof.
  destruct second_sweep_keeps_or_empties as (T1 & T2 & T3).
  split_and!.
  - destruct (pass2_step struct_text 4 0 (Some (CStr.of_string "A")) struct_state)
      as [[[st' buf'] r]|] eqn:E; [|vm_compute in E; discriminate E].
    exists st', buf', r. split; [reflexivity|]. split; [vm_compute; reflexivity|].
    split.
    + vm_compute in E. injection E as <- <- <-. vm_compute. reflexivity.
    + exact (T1 _ _ _ _ _ _ _ _ E).
  - destruct (pass1 (stab_text "A:t5=*1") [4%nat] (Some (CStr.of_string "A")) 0
                (after_typedef "A:t5=*1" "A" initial_statics))
      as [[[st' r] tn']|] eqn:E; [|vm_compute in E; discriminate E].
    exists st', r, tn'. split; [reflexivity|]. split; [vm_compute; reflexivity|].
    destruct (T2 (stab_text "A:t5=*1") 4%nat (Some (CStr.of_string "A")) 0%nat
                (after_typedef "A:t5=*1" "A" initial_statics) st' r tn'
                (after_typedef "A:t5=*1" "A" initial_statics) (CuSlot 5) "*"%char
                DT_POINTER None) as [H _];
      [vm_compute; reflexivity..|exact E|].
    rewrite H. vm_compute. reflexivity.
  - destruct (rebind_defs two_pointers_text [Some 1%nat] 0 [4%nat] two_pointers_state)
      as [st'|] eqn:E; [|vm_compute in E; discriminate E].
    exists st'. split; [reflexivity|]. split; [vm_compute; reflexivity|].
    destruct (T3 two_pointers_text [Some 1%nat] 0%nat 4%nat two_pointers_state st'
                two_pointers_state (CuSlot 5)) as (t & Ht & Hl);
      [vm_compute; reflexivity|exact E|].
    rewrite Hl. cbn in Ht. congruence.
Defined.

(** C3: the second parse of [A:t5=*1] puts a new node in slot 5, which
    held the node of the first parse. *)
Lemma second_parse_overwrites_slot :
  ¬ write_once (stab_text "A:t5=*1") (CStr.of_string "A")
      (after_typedef "A:t5=*1" "A" initial_statics).
Proof.
  intros H.
  destruct (DEBUG_ParseTypedefStab (stab_text "A:t5=*1") (CStr.of_string "A")
              (after_typedef "A:t5=*1" "A" initial_statics))
    as [[[st2 buf2] ok]|] eqn:E; [|vm_compute in E; discriminate E].
  specialize (H _ _ _ E (CuSlot 5) 0%nat).
  vm_compute in E. injection E as <- <- <-.
  vm_compute in H. specialize (H eq_refl). discriminate H.
Qed.

(** ** The second parse of a text *)

(** *** The ['='] of a text *)

Lemma strlen_lookup l n :
  CStr.strlen l = Some n →
  l !! n = Some CStr.NUL ∧ ∀ i, (i < n)%nat → ∃ a, l !! i = Some a ∧ a ≠ CStr.NUL.
Proof.
  revert n. induction l as [|a l IH]; intros n H; [done|]. cbn [CStr.strlen] in H.
  destruct (Ascii.eqb a CStr.NUL) eqn:E.
  - apply Ascii.eqb_eq in E. simplify_eq. split; [done|]. intros i Hi. lia.
  - destruct (CStr.strlen l) as [m|]; [|done]. simpl in H. simplify_eq.
    destruct (IH m eq_refl) as [H1 H2]. split; [done|].
    intros [|i] Hi; simpl.
    + exists a. split; [done|]. by apply Ascii.eqb_neq.
    + apply H2. lia.
Qed.

Lemma strchr_all_below ch text ps :
  CStr.strchr_all ch text = Some ps →
  ∃ n, CStr.strlen text = Some n
       ∧ StronglySorted lt ps
       ∧ ∀ q, q ∈ ps ↔ (q < n)%nat ∧ text !! q = Some ch.
Proof.
  revert ps. induction text as [|a l IH]; intros ps H; [done|].
  cbn [CStr.strchr_all CStr.strlen] in *.
  destruct (Ascii.eqb a CStr.NUL) eqn:E.
  - simplify_eq. exists 0%nat. split; [done|]. split; [constructor|].
    intros q. split; [by intros ?%elem_of_nil|lia].
  - destruct (CStr.strchr_all ch l) as [r|]; [|done]. simpl in H.
    destruct (IH r eq_refl) as (n & Hn & Hs & Hq). rewrite Hn. simpl.
    exists (S n). split; [done|].
    assert (StronglySorted lt (map S r)) as Hs'.
    { apply (StronglySorted_fmap _ lt); [|done]. intros; lia. }
    assert (∀ q, q ∈ map S r ↔ (∃ q', q = S q' ∧ (q' < n)%nat ∧ l !! q' = Some ch))
      as Hq'.
    { intros q. change (map S r) with (S <$> r). rewrite list_elem_of_fmap.
      split.
      - intros (q' & -> & Hin). exists q'. by rewrite <- Hq.
      - intros (q' & -> & Hin). exists q'. by rewrite Hq. }
    destruct (Ascii.eqb a ch) eqn:Ec; simplify_eq.
    + apply Ascii.eqb_eq in Ec as ->. split.
      * constructor; [done|]. apply Forall_fmap, Forall_forall. intros; simpl; lia.
      * intros [|q]; split.
        -- intros _. split; [lia|done].
        -- intros _. apply list_elem_of_here.
        -- intros [?|Hin]%elem_of_cons; [done|]. apply Hq' in Hin as (q' & [= <-] & ? & ?).
           split; [lia|done].
        -- intros [Hlt Hl]. apply list_elem_of_further, Hq'. exists q.
           split; [done|]. split; [lia|done].
    + split; [done|]. intros [|q]; split.
      * intros Hin. apply Hq' in Hin as (q' & [=] & _).
      * intros [_ Hl]. simpl in Hl. apply Ascii.eqb_neq in Ec. congruence.
      * intros Hin. apply Hq' in Hin as (q' & [= <-] & ? & ?). split; [lia|done].
      * intros [Hlt Hl]. apply Hq'. exists q. split; [done|]. split; [lia|done].
Qed.

Lemma strrchr_last ch buf c :
  ch ≠ CStr.NUL →
  CStr.strrchr ch buf = Some (Some c) →
  buf !! c = Some ch
  ∧ ∃ n, CStr.strlen buf = Some n ∧ (c < n)%nat
         ∧ ∀ i, (c < i < n)%nat → buf !! i ≠ Some ch.
Proof.
  intros Hch. revert c. induction buf as [|a l IH]; intros c H; [done|].
  cbn [CStr.strrchr CStr.strlen] in *.
  destruct (Ascii.eqb a CStr.NUL) eqn:E.
  - rewrite (proj2 (Ascii.eqb_neq ch CStr.NUL)) in H by done. done.
  - destruct (CStr.strrchr ch l) as [[i|]|] eqn:El; [| |done].
    + simplify_eq. destruct (IH i eq_refl) as (H1 & n & Hn & Hlt & Hno).
      split; [done|]. exists (S n). rewrite Hn. split; [done|]. split; [lia|].
      intros [|j] Hj; [lia|]. simpl. apply Hno. lia.
    + destruct (Ascii.eqb a ch) eqn:Ec; simplify_eq.
      apply Ascii.eqb_eq in Ec as ->. split; [done|].
      clear IH. revert El. generalize l. clear. intros l.
      induction l as [|b l IH]; intros H; [done|].
      cbn [CStr.strrchr CStr.strlen] in *.
      destruct (Ascii.eqb b CStr.NUL) eqn:E.
      * exists 1%nat. split; [done|]. split; [lia|]. intros i Hi. lia.
      * destruct (CStr.strrchr ch l) as [[i|]|] eqn:El; try done.
        destruct (Ascii.eqb b ch) eqn:Ec; [done|].
        destruct (IH eq_refl) as (n & Hn & Hlt & Hno).
        destruct (CStr.strlen l) as [m|] eqn:Em; [|done]. simpl in Hn. simplify_eq.
        exists (S (S m)). split; [done|]. split; [lia|].
        intros [|[|j]] Hj; [lia| |].
        -- simpl. apply Ascii.eqb_neq in Ec. congruence.
        -- specialize (Hno (S j) ltac:(lia)). done.
Qed.

Lemma strrchr_none ch buf :
  CStr.strrchr ch buf = Some None →
  ∃ n, CStr.strlen buf = Some n ∧ ∀ i, (i < n)%nat → buf !! i ≠ Some ch.
Proof.
  induction buf as [|a l IH]; intros H; [done|].
  cbn [CStr.strrchr CStr.strlen] in *.
  destruct (Ascii.eqb a CStr.NUL) eqn:E.
  - exists 0%nat. split; [done|]. intros i Hi. lia.
  - destruct (CStr.strrchr ch l) as [[i|]|] eqn:El; try done.
    destruct (Ascii.eqb a ch) eqn:Ec; [done|].
    destruct (IH eq_refl) as (n & Hn & Hno). rewrite Hn. exists (S n).
    split; [done|]. intros [|j] Hj; simpl.
    + apply Ascii.eqb_neq in Ec. congruence.
    + apply Hno. lia.
Qed.

Lemma take_lookup_eq {A} (a b : list A) m i :
  take m a = take m b → (i < m)%nat → a !! i = b !! i.
Proof.
  intros H Hi. rewrite <- (lookup_take_lt a m i), <- (lookup_take_lt b m i) by done.
  by rewrite H.
Qed.

Lemma swept_length text n0 m buf n :
  CStr.strlen text = Some n0 → (m ≤ n0)%nat → swept text m buf →
  CStr.strlen buf = Some n → (m ≤ n)%nat.
Proof.
  intros H0 Hm [Htk _] Hn.
  destruct (decide (m ≤ n)%nat) as [|Hlt]; [done|]. exfalso.
  destruct (strlen_lookup _ _ Hn) as [Hnul _].
  destruct (strlen_lookup _ _ H0) as [_ Hnon].
  destruct (Hnon n ltac:(lia)) as (a & Ha & Hne).
  rewrite (take_lookup_eq _ _ m n Htk) in Hnul by lia. congruence.
Qed.

(** The ['='] the second sweep finds next is the last one that is left of
    the text. *)
Lemma swept_last text n0 qs c m buf c' :
  CStr.strlen text = Some n0 → (m ≤ n0)%nat →
  eqs_below text m (qs ++ [c]) → swept text m buf →
  CStr.strrchr "=" buf = Some (Some c') →
  c' = c ∧ (c < m)%nat ∧ buf !! c = Some "="%char
  ∧ none_from "=" (S c) buf ∧ eqs_below text c qs.
Proof.
  intros H0 Hm [Hs Hq] Hsw Hr.
  destruct (strrchr_last "=" _ _ ltac:(done) Hr) as (Hc' & n & Hn & Hlt & Hno).
  pose proof (swept_length _ _ _ _ _ H0 Hm Hsw Hn) as Hmn.
  destruct Hsw as [Htk Hnone].
  assert (c' < m)%nat as Hc'm.
  { destruct (decide (c' < m)%nat); [done|]. exfalso. apply (Hnone c'); [lia|done]. }
  assert (c ∈ qs ++ [c]) as Hin by (apply elem_of_app; right; apply list_elem_of_here).
  apply Hq in Hin as [Hcm Hct].
  assert (buf !! c = Some "="%char) as Hbc by (by rewrite (take_lookup_eq _ _ m c Htk)).
  assert (c ≤ c')%nat as Hle.
  { destruct (decide (c ≤ c')%nat); [done|]. exfalso. apply (Hno c); [lia|done]. }
  assert (c' ∈ qs ++ [c]) as Hin'.
  { apply Hq. split; [done|]. by rewrite <- (take_lookup_eq _ _ m c' Htk). }
  assert (c' = c) as ->.
  { apply elem_of_app in Hin' as [Hin'|Hin']; [|by apply list_elem_of_singleton in Hin'].
    pose proof (StronglySorted_app_1_elem_of _ _ _ c' c Hs Hin'
                  ltac:(apply list_elem_of_here)). lia. }
  split; [done|]. split; [done|]. split; [done|]. split.
  - intros i Hi. destruct (decide (i < n)%nat).
    + apply Hno. lia.
    + apply Hnone. lia.
  - split; [by eapply StronglySorted_app_1_l|]. intros q. split.
    + intros Hqin. split.
      * apply (StronglySorted_app_1_elem_of _ _ _ q c Hs Hqin). apply list_elem_of_here.
      * apply Hq. apply elem_of_app. by left.
    + intros [Hqc Hqt].
      assert (q ∈ qs ++ [c]) as Hqin by (apply Hq; split; [lia|done]).
      apply elem_of_app in Hqin as [|Hqin]; [done|].
      apply list_elem_of_singleton in Hqin. lia.
Qed.

Lemma swept_not_done text n0 qs c m buf :
  CStr.strlen text = Some n0 → (m ≤ n0)%nat →
  eqs_below text m (qs ++ [c]) → swept text m buf →
  CStr.strrchr "=" buf ≠ Some None.
Proof.
  intros H0 Hm [Hs Hq] Hsw Hr.
  destruct (strrchr_none _ _ Hr) as (n & Hn & Hno).
  pose proof (swept_length _ _ _ _ _ H0 Hm Hsw Hn) as Hmn.
  destruct Hsw as [Htk _].
  assert (c ∈ qs ++ [c]) as Hin by (apply elem_of_app; right; apply list_elem_of_here).
  apply Hq in Hin as [Hcm Hct].
  apply (Hno c); [lia|]. by rewrite (take_lookup_eq _ _ m c Htk).
Qed.

Lemma swept_start text ps :
  CStr.strchr_all "=" text = Some ps → no_stale_eq text →
  ∃ n0, CStr.strlen text = Some n0 ∧ eqs_below text n0 ps ∧ swept text n0 text.
Proof.
  intros Hps Hst. destruct (strchr_all_below _ _ _ Hps) as (n0 & H0 & Hs & Hq).
  exists n0. split; [done|]. split; [done|]. split; [done|]. by apply Hst.
Qed.

Lemma swept_step text m buf c buf' :
  swept text m buf → (c < m)%nat →
  take c buf' = take c buf → none_from "=" c buf' → swept text c buf'.
Proof.
  intros [Htk _] Hc Htk' Hnone. split; [|done].
  rewrite Htk'. apply (take_le_eq _ _ c m); [lia|done].
Qed.

(** *** What a turn of the second sweep does to the text *)

Lemma poke_erases buf c buf' :
  CStr.poke buf c CStr.NUL = Some buf' → none_from "=" (S c) buf →
  take c buf' = take c buf ∧ none_from "=" c buf'.
Proof.
  unfold CStr.poke. intros H Hn. case_match; [|done]. simplify_eq. split.
  - by rewrite take_insert_ge by lia.
  - intros i Hi. destruct (decide (i = c)) as [->|Hne].
    + rewrite list_lookup_insert_eq by (by apply Nat.ltb_lt). done.
    + rewrite list_lookup_insert_ne by done. apply Hn. lia.
Qed.

Lemma poke_keeps_none buf p a buf' k :
  CStr.poke buf p a = Some buf' → a ≠ "="%char →
  none_from "=" k buf → none_from "=" k buf'.
Proof.
  unfold CStr.poke. intros H Ha Hn. case_match; [|done]. simplify_eq.
  intros i Hi. destruct (decide (i = p)) as [->|Hne].
  - rewrite list_lookup_insert_eq by (by apply Nat.ltb_lt). congruence.
  - rewrite list_lookup_insert_ne by done. by apply Hn.
Qed.

Lemma poke_take buf p a buf' k :
  CStr.poke buf p a = Some buf' → (k ≤ p)%nat → take k buf' = take k buf.
Proof.
  unfold CStr.poke. intros H Hk. case_match; [|done]. simplify_eq.
  by rewrite take_insert_ge by lia.
Qed.

Lemma strcpy_down_erases buf c src buf' :
  CStr.strcpy_down buf c src = Some buf' → (c < src)%nat →
  none_from "=" (S c) buf →
  take c buf' = take c buf ∧ none_from "=" c buf'.
Proof.
  unfold CStr.strcpy_down. intros H Hlt Hn.
  destruct (CStr.strlen (drop src buf)) as [n|] eqn:En; [|done]. simpl in H.
  simplify_eq. pose proof (strlen_lt _ _ En) as Hl. rewrite length_drop in Hl.
  assert (length (take c buf) = c) as Htk by (rewrite length_take; lia).
  split.
  - rewrite take_app_le by lia. rewrite take_take. f_equal. lia.
  - intros i Hi.
    rewrite lookup_app_r by lia. rewrite Htk.
    assert (length (take (S n) (drop src buf)) = S n) as Hl2
      by (rewrite length_take, length_drop; lia).
    destruct (decide (i - c < S n)%nat).
    + rewrite lookup_app_l by lia. rewrite lookup_take_lt by lia.
      rewrite lookup_drop. apply Hn. lia.
    + rewrite lookup_app_r by lia. rewrite Hl2, lookup_drop.
      replace (c + S n + (i - c - S n))%nat with i by lia. apply Hn. lia.
Qed.

Lemma cut_erases buf c tc skip buf' :
  cut buf c tc skip = Some buf' → none_from "=" (S c) buf →
  take c buf' = take c buf ∧ none_from "=" c buf'.
Proof.
  unfold cut. intros H Hn. destruct (buf !! tc) as [a|]; [|done]. simpl in H.
  destruct (Ascii.eqb a CStr.NUL); [by eapply poke_erases|].
  destruct (c <? tc + skip)%nat eqn:E; [|done]. apply Nat.ltb_lt in E.
  by eapply strcpy_down_erases.
Qed.

Lemma read_forwards_ge buf x f s x' :
  read_forwards buf x = Some (f, s, x') → (x ≤ x')%nat.
Proof. unfold read_forwards. intros H. inv_some H; lia. Qed.

Lemma read_enum_ge buf x st st' dt x' :
  DEBUG_ReadTypeEnum buf x st = Some (st', dt, x') → (x ≤ x')%nat.
Proof.
  unfold DEBUG_ReadTypeEnum. intros H.
  destruct (read_forwards buf x) as [[[f s] y]|] eqn:E; [|done].
  apply read_forwards_ge in E. inv_some H. done.
Qed.

Lemma struct_members_pokes fuel : ∀ buf tc ct fl st st' buf' tc' fl' k,
  struct_members fuel buf tc ct fl st = Some (st', buf', tc', fl') →
  (k ≤ tc)%nat →
  take k buf' = take k buf ∧ ∀ j, none_from "=" j buf → none_from "=" j buf'.
Proof.
  induction fuel as [|fuel IH]; intros buf tc ct fl st st' buf' tc' fl' k H Hk; [done|].
  cbn [struct_members] in H.
  destruct (buf !! tc) as [a|]; [|done]. cbn [mbind option_bind] in H.
  destruct (Ascii.eqb a ";"); [by simplify_eq|].
  destruct (CStr.span_until ":" (drop tc buf)) as [bytes|]; [|done].
  cbn [mbind option_bind] in H.
  destruct (element_name_of bytes) as [name|]; [|done]. cbn [mbind option_bind] in H.
  destruct (DEBUG_ReadTypeEnum buf (tc + length bytes + 1) st) as [[[st1 dt] tc1]|] eqn:Er;
    [|done].
  cbn [mbind option_bind] in H. apply read_enum_ge in Er.
  destruct (load st1 dt) as [datatype|]; [|done]. cbn [mbind option_bind] in H.
  destruct (CStr.poke buf tc1 CStr.NUL) as [buf1|] eqn:Ep; [|done].
  cbn [mbind option_bind] in H.
  destruct (CStr.strtol (drop (S tc1) buf1)) as [[offset n]|]; [|done].
  cbn [mbind option_bind] in H.
  destruct (CStr.strtol (drop (S tc1 + n + 1) buf1)) as [[size n']|]; [|done].
  cbn [mbind option_bind] in H.
  assert (take k buf1 = take k buf) as Htk by (eapply poke_take; [done|lia]).
  assert (∀ j, none_from "=" j buf → none_from "=" j buf1) as Hn1
    by (intros j; eapply poke_keeps_none; done).
  destruct datatype as [d|].
  - destruct (DEBUG_AddStructElement _ _ _ _ _ _) as [h|]; [|done].
    cbn [mbind option_bind] in H.
    apply (IH _ _ _ _ _ _ _ _ _ k) in H as [H1 H2]; [|lia].
    split; [congruence|]. intros j Hj. by apply H2, Hn1.
  - destruct (CStr.cstr buf1) as [p|]; [|done]. cbn [mbind option_bind] in H.
    destruct (CStr.cstr _) as [tis|]; [|done]. cbn [mbind option_bind] in H.
    apply (IH _ _ _ _ _ _ _ _ _ k) in H as [H1 H2]; [|lia].
    split; [congruence|]. intros j Hj. by apply H2, Hn1.
Qed.

(** A turn that goes on leaves the text in front of its ['='] as it was
    and no ['='] from there on. *)
Lemma pass2_step_erases buf c ntp tn st st' buf' z :
  pass2_step buf c ntp tn st = Some (st', buf', Some z) →
  none_from "=" (S c) buf →
  z = ntp - 1 ∧ take c buf' = take c buf ∧ none_from "=" c buf'.
Proof.
  unfold_pass2. intros H Hn. inv_some H.
  all: split; [done|].
  all: try match goal with
       | E : struct_members _ _ _ _ _ _ = Some _, E' : cut _ _ _ _ = Some _ |- _ =>
           apply (struct_members_pokes _ _ _ _ _ _ _ _ _ _ c) in E as [H1 H2]; [|lia];
           apply cut_erases in E' as [H3 H4]; [|by apply H2];
           split; [congruence|done]
       end.
  all: try match goal with
       | E : cut _ _ _ _ = Some _ |- _ => by eapply cut_erases
       | E : CStr.poke _ _ _ = Some _ |- _ => by eapply poke_erases
       end.
Qed.

(** *** [DEBUG_ReadTypeEnumBackwards] reads in front of the ['='] only *)

Lemma skip_space_local l e r :
  CStr.isspace e = false →
  ∃ n, CStr.skip_space (l ++ e :: r) = Some n ∧ (n ≤ length l)%nat
       ∧ ∀ r', CStr.skip_space (l ++ e :: r') = Some n.
Proof.
  intros He. induction l as [|a l (n & H1 & H2 & H3)]; cbn [app CStr.skip_space].
  - rewrite He. exists 0%nat. split; [done|]. split; [done|]. done.
  - destruct (CStr.isspace a).
    + exists (S n). rewrite H1. split; [done|]. split; [simpl; lia|].
      intros r'. by rewrite H3.
    + exists 0%nat. split; [done|]. split; [lia|]. done.
Qed.

Lemma digits_local l e r :
  CStr.isdigit e = false →
  ∀ acc, ∃ v k, CStr.digits acc (l ++ e :: r) = Some (v, k) ∧ (k ≤ length l)%nat
                ∧ ∀ r', CStr.digits acc (l ++ e :: r') = Some (v, k).
Proof.
  intros He. unfold CStr.isdigit in He.
  induction l as [|a l IH]; intros acc; cbn [app CStr.digits].
  - destruct (CStr.digit_val e); [done|]. exists acc, 0%nat.
    split; [done|]. split; [done|]. done.
  - destruct (CStr.digit_val a) as [d|].
    + destruct (IH (10 * acc + d)) as (v & k & H1 & H2 & H3).
      exists v, (S k). rewrite H1. split; [done|]. split; [simpl; lia|].
      intros r'. by rewrite H3.
    + exists acc, 0%nat. split; [done|]. split; [lia|]. done.
Qed.

(** [strtol] does not read past a byte at which it stops. *)
Lemma strtol_local l e r :
  stopper e →
  ∃ v n, CStr.strtol (l ++ e :: r) = Some (v, n) ∧ (n ≤ length l)%nat
         ∧ ∀ r', CStr.strtol (l ++ e :: r') = Some (v, n).
Proof.
  intros (Hsp & Hdg & Hm & Hp).
  destruct (skip_space_local l e r Hsp) as (n & H1 & H2 & H3).
  assert (∀ r', drop n (l ++ e :: r') = drop n l ++ e :: r') as Hdrop.
  { intros r'. by rewrite drop_app_le by done. }
  assert (∀ r', CStr.strtol (l ++ e :: r')
    = (a ← head (drop n l ++ e :: r');
       let neg := Ascii.eqb a "-" in
       let s := if neg || Ascii.eqb a "+" then 1%nat else 0%nat in
       '(v, k) ← CStr.digits 0 (drop s (drop n l ++ e :: r'));
       if (k =? 0)%nat then Some (0, 0%nat)
       else Some (CStr.clamp_long (if neg then - v else v), (n + s + k)%nat)))
    as Hun.
  { intros r'. unfold CStr.strtol. rewrite H3. cbn [mbind option_bind].
    by rewrite Hdrop. }
  pose proof (length_drop l n) as Hlen.
  destruct (drop n l) as [|a l'] eqn:El.
  - exists 0, 0%nat.
    assert (∀ r', CStr.strtol (l ++ e :: r') = Some (0, 0%nat)) as Hall.
    { intros r'. rewrite Hun. cbn [app head mbind option_bind].
      rewrite (proj2 (Ascii.eqb_neq e "-")), (proj2 (Ascii.eqb_neq e "+")) by done.
      cbn [orb drop CStr.digits]. unfold CStr.isdigit in Hdg.
      destruct (CStr.digit_val e); [done|]. done. }
    split; [apply Hall|]. split; [lia|]. apply Hall.
  - simpl in Hlen.
    set (s := if Ascii.eqb a "-" || Ascii.eqb a "+" then 1%nat else 0%nat).
    assert (s ≤ 1)%nat as Hs by (unfold s; case_match; lia).
    assert (∀ r', drop s ((a :: l') ++ e :: r') = drop s (a :: l') ++ e :: r') as Hd2.
    { intros r'. rewrite drop_app_le; [done|]. simpl. lia. }
    destruct (digits_local (drop s (a :: l')) e r Hdg 0) as (v & k & D1 & D2 & D3).
    rewrite length_drop in D2. simpl in D2.
    assert (∀ r', CStr.strtol (l ++ e :: r')
      = if (k =? 0)%nat then Some (0, 0%nat)
        else Some (CStr.clamp_long (if Ascii.eqb a "-" then - v else v),
                   (n + s + k)%nat)) as Hall.
    { intros r'. rewrite Hun. cbn [head mbind option_bind app]. cbv zeta.
      fold s. change (a :: l' ++ e :: r') with ((a :: l') ++ e :: r').
      rewrite Hd2, D3. done. }
    destruct (k =? 0)%nat eqn:Ek.
    + exists 0, 0%nat. split; [apply Hall|]. split; [lia|]. apply Hall.
    + eexists _, _. split; [apply Hall|]. split; [lia|]. apply Hall.
Qed.

Lemma scan_back_lt cond l k : scan_back cond l = Some k → (k < length l)%nat.
Proof.
  revert k. induction l as [|a l IH]; intros k H; [done|]. cbn [scan_back] in H.
  destruct (cond a).
  - destruct (scan_back cond l) as [k'|]; [|done]. simpl in H. simplify_eq.
    specialize (IH k' eq_refl). simpl. lia.
  - simplify_eq. simpl. lia.
Qed.

Lemma stopper_eq : stopper "="%char.
Proof. by repeat split. Qed.

Lemma stopper_paren : stopper ")"%char.
Proof. by repeat split. Qed.

(** The numbers in front of an ['='] do not depend on the text behind it. *)
Lemma read_backwards_local pre r r' x :
  length pre = S x →
  read_backwards (pre ++ "="%char :: r) x = read_backwards (pre ++ "="%char :: r') x.
Proof.
  intros Hlen. unfold read_backwards.
  rewrite !lookup_app_l by lia. rewrite !take_app_length' by done.
  destruct (pre !! x) as [a|] eqn:Ea; [|done]. cbn [mbind option_bind].
  destruct (Ascii.eqb a ")") eqn:Ep.
  - apply Ascii.eqb_eq in Ep as ->.
    destruct (scan_back _ (rev pre)) as [k|] eqn:Ek; [|done]. cbn [mbind option_bind].
    pose proof (scan_back_lt _ _ _ Ek) as Hk. rewrite length_rev in Hk.
    assert (1 ≤ k)%nat as Hk1.
    { assert (rev pre = ")"%char :: rev (take x pre)) as Hrev.
      { rewrite <- (take_drop x pre) at 1. rewrite rev_app_distr.
        rewrite (drop_S _ ")"%char x) by done. rewrite drop_ge by lia. done. }
      rewrite Hrev in Ek. cbn in Ek.
      destruct (scan_back _ (rev (take x pre))); [|done]. simpl in Ek.
      simplify_eq. lia. }
    set (x1 := (x - k + 1)%nat).
    assert (pre = take x pre ++ [")"%char]) as Hpre.
    { rewrite <- (take_drop x pre) at 1. f_equal.
      rewrite (drop_S _ ")"%char x) by done. by rewrite drop_ge by lia. }
    assert (∀ q, drop x1 (pre ++ "="%char :: q)
                 = drop x1 (take x pre) ++ ")"%char :: "="%char :: q) as Hd.
    { intros q. rewrite Hpre at 1. rewrite <- app_assoc. cbn [app].
      rewrite drop_app_le; [done|]. rewrite length_take. unfold x1. lia. }
    rewrite !Hd.
    destruct (strtol_local (drop x1 (take x pre)) ")" ("="%char :: r) stopper_paren)
      as (f & n1 & S1 & S2 & S3).
    rewrite S1. rewrite (S3 ("="%char :: r')). cbn [mbind option_bind].
    rewrite length_drop, length_take in S2.
    set (x2 := (x1 + n1 + 1)%nat).
    assert (x2 ≤ length pre)%nat as Hx2 by (unfold x2, x1; lia).
    rewrite !drop_app_le by done.
    destruct (strtol_local (drop x2 pre) "=" r stopper_eq) as (s & n2 & T1 & T2 & T3).
    rewrite T1, (T3 r'). done.
  - destruct (scan_back _ (rev pre)) as [k|] eqn:Ek; [|done]. cbn [mbind option_bind].
    pose proof (scan_back_lt _ _ _ Ek) as Hk. rewrite length_rev in Hk.
    rewrite !drop_app_le by lia.
    destruct (strtol_local (drop (x - k + 1) pre) "=" r stopper_eq)
      as (s & n2 & T1 & T2 & T3).
    rewrite T1, (T3 r'). done.
Qed.

Lemma read_backwards_swept text m buf x :
  swept text m buf → (S x < m)%nat → buf !! S x = Some "="%char →
  read_backwards buf x = read_backwards text x.
Proof.
  intros [Htk _] Hx Hb.
  assert (text !! S x = Some "="%char) as Ht
    by (by rewrite <- (take_lookup_eq _ _ m (S x) Htk)).
  rewrite <- (take_drop_middle buf (S x) "="%char Hb).
  rewrite <- (take_drop_middle text (S x) "="%char Ht).
  rewrite (take_le_eq buf text (S x) m ltac:(lia) Htk).
  apply read_backwards_local. rewrite length_take.
  apply lookup_lt_Some in Ht. lia.
Qed.

(** *** Slots that exist *)

Lemma frame_refl st : frame st st.
Proof. unfold frame. split_and!; try done. apply wider_refl. Qed.

Lemma frame_trans st1 st2 st3 : frame st1 st2 → frame st2 st3 → frame st1 st3.
Proof.
  intros (H1 & H2 & H3 & H4 & H5 & H6) (G1 & G2 & G3 & G4 & G5 & G6).
  unfold frame. split_and!; try congruence.
  - by eapply same_includes_trans.
  - by eapply wider_trans.
Qed.

Lemma read_enum_frame buf x st st' dt x' :
  DEBUG_ReadTypeEnum buf x st = Some (st', dt, x') → frame st st'.
Proof.
  unfold DEBUG_ReadTypeEnum. intros H. inv_some H. by eapply resolve_frame.
Qed.

Lemma resolve_resolvable f s st st' dt :
  DEBUG_FileSubNr2StabEnum f s st = Some (st', dt) →
  resolvable f st ∧ subnr_of dt = s.
Proof.
  unfold DEBUG_FileSubNr2StabEnum, resolvable. intros H.
  destruct (f =? 0) eqn:E0.
  - apply Z.eqb_eq in E0. destruct (grow s (cu_vector st)); [|done].
    cbn [mbind option_bind] in H. simplify_eq. split; [by left|done].
  - destruct (cu_include_stk_idx st <? f) eqn:E1; [done|].
    destruct (f <? 0) eqn:E2; [done|].
    destruct (cu_include_stack st !! Z.to_nat f) as [idx|] eqn:E3; [|done].
    cbn [mbind option_bind] in H.
    destruct (idx <? 0) eqn:E4; [done|].
    destruct (include_defs st !! Z.to_nat idx) as [d|] eqn:E5; [|done].
    cbn [mbind option_bind] in H.
    destruct (grow s (inc_vector d)); cbn [mbind option_bind] in H; [|done].
    simplify_eq. split; [|done]. right.
    apply Z.eqb_neq in E0. apply Z.ltb_ge in E1, E2, E4.
    split; [lia|]. exists idx. split; [done|]. split; [done|].
    by eapply lookup_lt_Some.
Qed.

Lemma load_subnr st dt v : load st dt = Some v → 0 ≤ subnr_of dt.
Proof.
  unfold load, index_ok. intros H. destruct dt as [n|i n]; simpl.
  - destruct (0 <=? n) eqn:E; [by apply Z.leb_le|done].
  - destruct (include_defs st !! i); [|done]. cbn [mbind option_bind] in H.
    destruct (0 <=? n) eqn:E; [by apply Z.leb_le|done].
Qed.

Lemma resolvable_same f st st' :
  same_includes st st' → resolvable f st → resolvable f st'.
Proof.
  intros (H1 & H2 & H3) [->|(Hf & idx & Hi & H0 & Hl)]; [by left|right].
  rewrite H1, H2, H3. eauto.
Qed.

(** An entry that a table has is there when the table is wider. *)
Lemma covered_wider f s st st' :
  same_includes st st' → wider st st' → covered f s st → covered f s st'.
Proof.
  intros (H1 & H2 & H3) (Wc & _ & Wi) (v & Hv & Hs). unfold covered, table_of in *.
  rewrite H1, H2. destruct (f =? 0).
  - simplify_eq. eexists. split; [done|]. apply widened_length in Wc. lia.
  - destruct (cu_include_stk_idx st <? f); [done|]. destruct (f <? 0); [done|].
    destruct (cu_include_stack st !! Z.to_nat f) as [idx|]; [|done].
    cbn [mbind option_bind] in *. destruct (idx <? 0); [done|].
    destruct (include_defs st !! Z.to_nat idx) as [d|] eqn:Ed; [|done].
    cbn [mbind option_bind] in *. simplify_eq.
    destruct (lookup_lt_is_Some_2 (include_defs st') (Z.to_nat idx)) as [d' Hd'].
    { rewrite H3. by eapply lookup_lt_Some. }
    rewrite Hd'. cbn [mbind option_bind]. eexists. split; [done|].
    pose proof (widened_length _ _ (Wi _ _ _ Ed Hd')). lia.
Qed.

Lemma covered_untouched f s st st' : untouched st st' → covered f s st → covered f s st'.
Proof. intros (_ & Hs & Hw). by apply covered_wider. Qed.

Lemma covered_frame f s st st' : frame st st' → covered f s st → covered f s st'.
Proof. intros Hf. by apply covered_untouched, frame_untouched. Qed.

Lemma bindable_untouched text st st' p :
  untouched st st' → bindable text st p → bindable text st' p.
Proof.
  intros Hu (x & f & s & -> & Hr & Hc). exists x, f, s.
  split; [done|]. split; [done|]. by eapply covered_untouched.
Qed.

(** A slot that exists is taken in place and can be assigned. *)
Lemma bind_slot f s v st :
  covered f s st →
  ∃ dt st1,
    DEBUG_FileSubNr2StabEnum f s st = Some (st, dt)
    ∧ store st dt v = Some st1 ∧ frame st st1.
Proof.
  intros Hc. destruct (resolve_in_place _ _ _ Hc) as (dt & Hres & [w Hw]).
  destruct (store_of_load st dt w v Hw) as [st1 Hst].
  exists dt, st1. split; [done|]. split; [done|]. by eapply store_frame.
Qed.

(** A turn of the second sweep starts with the slot in front of the
    ['=']; what follows leaves the registry and the include stack
    alone. *)
Lemma pass2_step_from buf c ntp tn st st' buf' r :
  pass2_step buf c ntp tn st = Some (st', buf', r) →
  ∃ st0 dt v,
    DEBUG_ReadTypeEnumBackwards buf c st = Some (st0, dt)
    ∧ load st0 dt = Some v ∧ untouched st0 st'.
Proof.
  unfold pass2_step. intros H.
  destruct (DEBUG_ReadTypeEnumBackwards buf c st) as [[st0 dt]|] eqn:Eb; [|done].
  cbn [mbind option_bind] in H.
  destruct (load st0 dt) as [v|] eqn:El; [|done]. cbn [mbind option_bind] in H.
  exists st0, dt, v. split; [done|]. split; [done|]. clear Eb El.
  revert H. unfold pass2_xref_struct, pass2_pointer, pass2_reference,
    pass2_array, pass2_struct, pass2_enum. intros H. inv_some H.
  all: untouched_more; untouched_chain.
Qed.

Lemma pass2_step_binds buf c ntp tn st st' buf' r :
  pass2_step buf c ntp tn st = Some (st', buf', r) →
  ∃ x f s, c = S x ∧ read_backwards buf x = Some (f, s) ∧ covered f s st'.
Proof.
  intros H. destruct (pass2_step_from _ _ _ _ _ _ _ _ H) as (st0 & dt & v & Hb & Hl & Hu).
  unfold DEBUG_ReadTypeEnumBackwards in Hb. destruct c as [|x]; [done|].
  destruct (read_backwards buf x) as [[f s]|] eqn:Er; [|done].
  cbn [mbind option_bind] in Hb.
  exists x, f, s. split; [done|]. split; [done|].
  eapply covered_untouched; [exact Hu|]. by eapply resolve_covered.
Qed.

(** *** The kinds of the nodes and the scratch list *)

Lemma keeps_kinds_refl st : keeps_kinds st st.
Proof. intros h d H. eauto. Qed.

Lemma keeps_kinds_trans st1 st2 st3 :
  keeps_kinds st1 st2 → keeps_kinds st2 st3 → keeps_kinds st1 st3.
Proof.
  intros H1 H2 h d H. destruct (H1 h d H) as (d1 & G1 & E1).
  destruct (H2 h d1 G1) as (d2 & G2 & E2). exists d2. split; [done|congruence].
Qed.

Lemma keeps_kinds_heap st st' : heap st' = heap st → keeps_kinds st st'.
Proof. intros E h d H. rewrite E. eauto. Qed.

Lemma update_keeps_kinds st dt f h' :
  update (heap st) dt f = Some h' → (∀ d, dt_type (f d) = dt_type d) →
  keeps_kinds st (set_heap h' st).
Proof.
  unfold update. intros H Hf i x Hx. destruct dt as [k|]; [|done].
  cbn [mbind option_bind] in H.
  destruct (heap st !! k) as [y|] eqn:Ey; [|done]. cbn [mbind option_bind] in H.
  simplify_eq. cbn [heap set_heap].
  destruct (decide (i = k)) as [->|Hne].
  - rewrite list_lookup_insert_eq by (by eapply lookup_lt_Some).
    eexists. split; [done|]. rewrite Hf. congruence.
  - rewrite list_lookup_insert_ne by done. eauto.
Qed.

Lemma new_keeps_kinds xtype name st h' node :
  DEBUG_NewDataType xtype name (heap st) = (h', node) →
  keeps_kinds st (set_heap h' st)
  ∧ node = Some (length (heap st))
  ∧ h' !! length (heap st) = Some (blank xtype name).
Proof.
  unfold DEBUG_NewDataType. intros [= <- <-]. split; [|split; [done|]].
  - intros h d Hd. cbn [heap set_heap]. exists d. split; [|done].
    by apply lookup_app_l_Some.
  - by rewrite list_lookup_middle.
Qed.

Lemma struct_size_keeps_kinds st dt size h' fresh :
  DEBUG_SetStructSize (heap st) dt size = Some (h', fresh) →
  keeps_kinds st (set_heap h' st).
Proof.
  unfold DEBUG_SetStructSize. intros H. destruct dt as [k|]; [|done].
  cbn [mbind option_bind] in H.
  destruct (heap st !! k) as [y|] eqn:Ey; [|done]. cbn [mbind option_bind] in H.
  destruct (dt_size y); simplify_eq.
  - by apply keeps_kinds_heap.
  - intros i x Hx. cbn [heap set_heap].
    destruct (decide (i = k)) as [->|Hne].
    + rewrite list_lookup_insert_eq by (by eapply lookup_lt_Some).
      eexists. split; [done|]. simpl. congruence.
    + rewrite list_lookup_insert_ne by done. eauto.
Qed.

Lemma steady_refl st : steady st st.
Proof. split; [apply keeps_kinds_refl|done]. Qed.

Lemma steady_trans st1 st2 st3 : steady st1 st2 → steady st2 st3 → steady st1 st3.
Proof.
  intros [H1 E1] [H2 E2]. split; [by eapply keeps_kinds_trans|congruence].
Qed.

Lemma frame_steady st st' : frame st st' → steady st st'.
Proof. intros (H1 & _ & H3 & _). split; [by apply keeps_kinds_heap|done]. Qed.

Lemma steady_printf m st : steady st (DEBUG_Printf m st).
Proof. split; [by apply keeps_kinds_heap|done]. Qed.

Lemma steady_update st dt f h' :
  update (heap st) dt f = Some h' → (∀ d, dt_type (f d) = dt_type d) →
  steady st (set_heap h' st).
Proof. intros H Hf. split; [by eapply update_keeps_kinds|done]. Qed.

Lemma steady_struct_size st dt size h' fresh :
  DEBUG_SetStructSize (heap st) dt size = Some (h', fresh) →
  steady st (set_heap h' st).
Proof. intros H. split; [by eapply struct_size_keeps_kinds|done]. Qed.

Ltac steady_facts :=
  repeat match goal with
  | E : DEBUG_ReadTypeEnumBackwards _ _ _ = Some _ |- _ =>
      apply read_back_frame, frame_steady in E
  | E : DEBUG_ReadTypeEnum _ _ _ = Some _ |- _ =>
      apply read_enum_frame, frame_steady in E
  | E : store_held _ _ _ _ = Some _ |- _ => apply store_held_store in E
  | E : store _ _ _ = Some _ |- _ => apply store_frame, frame_steady in E
  | E : DEBUG_SetPointerType (heap _) _ _ = Some _ |- _ =>
      apply steady_update in E; [|done]
  | E : DEBUG_SetArrayParams (heap _) _ _ _ _ = Some _ |- _ =>
      apply steady_update in E; [|done]
  | E : DEBUG_AddStructElement (heap _) _ _ _ _ _ = Some _ |- _ =>
      apply steady_update in E; [|done]
  | E : DEBUG_SetStructSize (heap _) _ _ = Some _ |- _ =>
      apply steady_struct_size in E
  end.

Ltac steady_chain :=
  repeat match goal with
  | |- steady ?a ?a => apply steady_refl
  | |- steady _ (DEBUG_Printf _ _) => eapply steady_trans; [|apply steady_printf]
  | H : steady ?b ?c |- steady _ ?c => eapply steady_trans; [|exact H]; clear H
  end.

Lemma struct_members_steady fuel : ∀ buf tc ct fl st st' buf' tc' fl',
  struct_members fuel buf tc ct fl st = Some (st', buf', tc', fl') → steady st st'.
Proof.
  induction fuel as [|fuel IH]; intros buf tc ct fl st st' buf' tc' fl' H; [done|].
  inv_some H.
  - apply steady_refl.
  - apply IH in H. steady_facts. steady_chain.
  - apply IH in H. steady_facts. steady_chain.
Qed.

Lemma enum_members_steady fuel : ∀ buf tc ct st st' tc',
  enum_members fuel buf tc ct st = Some (st', tc') → steady st st'.
Proof.
  induction fuel as [|fuel IH]; intros buf tc ct st st' tc' H; [done|].
  inv_some H.
  - apply steady_refl.
  - apply IH in H. steady_facts. steady_chain.
Qed.

Ltac steady_more :=
  repeat match goal with
  | E : struct_members _ _ _ _ _ _ = Some _ |- _ => apply struct_members_steady in E
  | E : enum_members _ _ _ _ _ = Some _ |- _ => apply enum_members_steady in E
  end; steady_facts.

Lemma pass2_reference_kinds buf c dt n tn st st' buf' :
  pass2_reference buf c dt n tn st = Some (st', buf') → steady st st'.
Proof.
  unfold pass2_reference. intros H. inv_some H.
  all: steady_facts.
  all: try (steady_chain; fail).
  match goal with E : steady (set_heap (heap ?s ++ [?b]) ?s) _ |- _ =>
    assert (steady s (set_heap (heap s ++ [b]) s)) as Hs
  end.
  { split; [|done]. intros i x Hx. exists x. split; [|done].
    by apply lookup_app_l_Some. }
  steady_chain.
Qed.

Lemma pass2_step_steady buf c ntp tn st st' buf' r :
  buf !! S c ≠ Some "("%char →
  pass2_step buf c ntp tn st = Some (st', buf', r) → steady st st'.
Proof.
  unfold pass2_step, pass2_xref_struct, pass2_pointer, pass2_array, pass2_struct,
    pass2_enum.
  intros Htag H. inv_some H.
  all: try match goal with
       | E : Ascii.eqb ?a "(" = true |- _ => apply eqb_tag in E as ->; done
       end.
  all: steady_more; steady_chain.
Qed.

(** A turn of the second sweep keeps the kinds of the nodes and changes
    the scratch list at its own index at most. *)
Lemma pass2_step_scratch buf c ntp tn st st' buf' r :
  pass2_step buf c ntp tn st = Some (st', buf', r) →
  keeps_kinds st st'
  ∧ length (curr_types st') = length (curr_types st)
  ∧ ∀ i, i ≠ Z.to_nat ntp → curr_types st' !! i = curr_types st !! i.
Proof.
  intros H. destruct (decide (buf !! S c = Some "("%char)) as [Htag|Htag].
  - unfold pass2_step in H. inv_some H.
    all: injection Htag as ->; try done.
    steady_facts. fact_of pass2_reference_kinds.
    match goal with A : steady st ?s1, B : steady ?s1 ?s2 |- _ =>
      destruct (steady_trans _ _ _ A B) as [Hk Hc] end.
    cbn [heap curr_types set_curr_types]. split; [done|].
    rewrite length_insert. split; [congruence|].
    intros i Hi. rewrite list_lookup_insert_ne by done. congruence.
  - destruct (pass2_step_steady _ _ _ _ _ _ _ _ Htag H) as [Hk Hc].
    split; [done|]. rewrite Hc. done.
Qed.

(** *** The second sweep over a text *)

Lemma tagged_below text m c :
  (text !! m = Some CStr.NUL ∨ text !! m = Some "="%char) →
  tagged text c → (c < m)%nat → (S c < m)%nat.
Proof.
  intros Hm (tag & Ht & He) Hc.
  destruct (decide (S c = m)) as [<-|]; [|lia]. exfalso.
  destruct Hm as [Hm|Hm]; rewrite Ht in Hm; injection Hm as ->; apply He; reflexivity.
Qed.

(** The second sweep deals with the ['='] of the text from right to left,
    the scratch index in step: the kinds of the nodes are kept, the
    scratch list changes at plain references only, and the slot in front
    of every ['='] exists afterwards. *)
Lemma pass2_swept text n0 tn : ∀ qs fuel m buf st st' buf',
  CStr.strlen text = Some n0 → (m ≤ n0)%nat →
  (text !! m = Some CStr.NUL ∨ text !! m = Some "="%char) →
  eqs_below text m qs → Forall (tagged text) qs →
  swept text m buf →
  pass2 fuel buf (Z.of_nat (length qs) - 1) tn st = Some (st', buf', true) →
  keeps_kinds st st'
  ∧ length (curr_types st') = length (curr_types st)
  ∧ (∀ i, (length qs ≤ i)%nat → curr_types st' !! i = curr_types st !! i)
  ∧ (∀ i p, qs !! i = Some p → text !! S p ≠ Some "("%char →
       curr_types st' !! i = curr_types st !! i)
  ∧ Forall (bindable text st') qs.
Proof.
  induction qs as [|c qs IH] using rev_ind;
    intros fuel m buf st st' buf' H0 Hm Hend Hq Htag Hsw H.
  - assert (CStr.strrchr "=" buf = Some None) as Hr.
    { destruct (CStr.strrchr "=" buf) as [[c|]|] eqn:Er; [exfalso| |destruct fuel; cbn [pass2] in H; rewrite Er in H; done].
      - destruct (strrchr_last "=" _ _ ltac:(done) Er) as (Hc & _).
        destruct Hsw as [Htk Hnone], Hq as [_ Hq].
        destruct (decide (c < m)%nat) as [Hlt|Hge].
        + assert (c ∈ @nil nat) as Hin%elem_of_nil; [|done].
          apply Hq. split; [done|]. by rewrite <- (take_lookup_eq _ _ m c Htk).
        + apply (Hnone c); [lia|done].
      - done. }
    assert (st' = st) as ->.
    { destruct fuel; cbn [pass2] in H; rewrite Hr in H; cbn [mbind option_bind] in H;
        by simplify_eq. }
    split; [apply keeps_kinds_refl|]. split; [done|]. split; [done|].
    split; [done|]. constructor.
  - destruct (CStr.strrchr "=" buf) as [[c'|]|] eqn:Er.
    2: { by destruct (swept_not_done _ _ _ _ _ _ H0 Hm Hq Hsw). }
    2: { destruct fuel; cbn [pass2] in H; rewrite Er in H; done. }
    destruct (swept_last _ _ _ _ _ _ _ H0 Hm Hq Hsw Er)
      as (-> & Hcm & Hbc & Hnone & Hq').
    destruct fuel as [|fuel]; cbn [pass2] in H; rewrite Er in H;
      cbn [mbind option_bind] in H; [done|].
    destruct (pass2_step buf c _ tn st) as [[[st1 buf1] [z|]]|] eqn:Es;
      cbn [mbind option_bind] in H; [|done|done].
    apply Forall_app in Htag as [Htag Htc].
    apply (proj1 (Forall_singleton _ _)) in Htc.
    pose proof (tagged_below _ _ _ Hend Htc Hcm) as HSc.
    destruct (pass2_step_erases _ _ _ _ _ _ _ _ Es Hnone) as (-> & Htk1 & Hn1).
    pose proof (swept_step _ _ _ _ _ Hsw Hcm Htk1 Hn1) as Hsw1.
    rewrite length_app in H. cbn [length] in H.
    replace (Z.of_nat (length qs + 1) - 1 - 1) with (Z.of_nat (length qs) - 1) in H
      by lia.
    assert (text !! c = Some "="%char) as Htc_eq.
    { destruct Hsw as [Htk _]. by rewrite <- (take_lookup_eq _ _ m c Htk). }
    destruct (IH fuel c buf1 st1 st' buf' H0 ltac:(lia) (or_intror Htc_eq) Hq' Htag Hsw1 H)
      as (K1 & L1 & A1 & B1 & F1).
    destruct (pass2_step_scratch _ _ _ _ _ _ _ _ Es) as (K0 & L0 & A0).
    rewrite length_app in A0. cbn [length] in A0.
    replace (Z.to_nat (Z.of_nat (length qs + 1) - 1)) with (length qs) in A0 by lia.
    split; [by eapply keeps_kinds_trans|]. split; [congruence|]. split; [|split].
    + intros i Hi. rewrite length_app in Hi. cbn [length] in Hi.
      rewrite A1 by lia. apply A0. lia.
    + intros i p Hp Hnot.
      destruct (decide (i < length qs)%nat) as [Hlt|Hge].
      * rewrite lookup_app_l in Hp by done. rewrite (B1 i p Hp Hnot). apply A0. lia.
      * apply lookup_lt_Some in Hp as Hlen. rewrite length_app in Hlen.
        cbn [length] in Hlen. assert (i = length qs) as -> by lia.
        rewrite list_lookup_middle in Hp by done. injection Hp as <-.
        rewrite A1 by lia.
        assert (buf !! S c ≠ Some "("%char) as Hb.
        { destruct Hsw as [Htk _]. by rewrite (take_lookup_eq _ _ m (S c) Htk). }
        destruct (pass2_step_steady _ _ _ _ _ _ _ _ Hb Es) as [_ ->]. done.
    + apply Forall_app. split; [done|]. apply Forall_singleton.
      destruct (pass2_step_binds _ _ _ _ _ _ _ _ Es) as (x & f & s & -> & Hrb & Hcov).
      exists x, f, s. split; [done|]. split.
      * rewrite <- Hrb. symmetry. by eapply read_backwards_swept.
      * eapply covered_untouched; [|exact Hcov]. by eapply pass2_untouched.
Qed.

(** *** The first sweep *)

Lemma skeleton_expect buf c tag tn sk :
  skeleton_of buf c tag tn = Some sk →
  match sk with
  | Skeleton K _ => expect_of tag = Some (Some K)
  | Reference => expect_of tag = Some None
  | UnknownTag => True
  end.
Proof.
  unfold skeleton_of, expect_of. intros H.
  destruct (Ascii.eqb tag "*"); [by simplify_eq|].
  destruct (Ascii.eqb tag "s" || Ascii.eqb tag "u"); [by simplify_eq|].
  destruct (Ascii.eqb tag "a"); [by simplify_eq|].
  destruct (Ascii.eqb tag "("); [by simplify_eq|].
  destruct (Ascii.eqb tag "1" || Ascii.eqb tag "r"); [by simplify_eq|].
  destruct (Ascii.eqb tag "x").
  { destruct (stab_strcpy 1024 _); [|done]. cbn [mbind option_bind] in H.
    by simplify_eq. }
  destruct (Ascii.eqb tag "e"); [by simplify_eq|].
  destruct (Ascii.eqb tag "f"); by simplify_eq.
Qed.

Lemma push_curr_type_spec n v st st' :
  push_curr_type n v st = Some st' →
  heap st' = heap st
  ∧ curr_types st' !! n = Some v
  ∧ (S n ≤ length (curr_types st'))%nat
  ∧ ∀ i, (i < length (curr_types st))%nat → i ≠ n →
      curr_types st' !! i = curr_types st !! i.
Proof.
  unfold push_curr_type. intros H.
  set (cur := if (length (curr_types st) <=? n)%nat
              then curr_types st ++ replicate 64 None else curr_types st) in *.
  destruct (n <? length cur)%nat eqn:E; [|done]. apply Nat.ltb_lt in E.
  simplify_eq. cbn [heap curr_types set_curr_types]. split; [done|].
  split; [by apply list_lookup_insert_eq|]. split; [rewrite length_insert; lia|].
  intros i Hi Hne. rewrite list_lookup_insert_ne by done.
  unfold cur. case_match; [|done]. by rewrite lookup_app_l.
Qed.

(** The first sweep: every tag is known, and the scratch list holds, for
    every tag but the plain reference, a node of the kind of the tag. *)
Lemma pass1_skeletons buf : ∀ ps tn n st st' m tn',
  pass1 buf ps tn n st = Some (st', Some m, tn') →
  (n ≤ length (curr_types st))%nat →
  keeps_kinds st st'
  ∧ (n + length ps ≤ length (curr_types st'))%nat
  ∧ (∀ i, (i < n)%nat → curr_types st' !! i = curr_types st !! i)
  ∧ Forall (tagged buf) ps
  ∧ ∀ j p tag K,
      ps !! j = Some p → buf !! S p = Some tag → expect_of tag = Some (Some K) →
      ∃ h d, curr_types st' !! (n + j)%nat = Some (Some h)
             ∧ heap st' !! h = Some d ∧ dt_type d = K.
Proof.
  induction ps as [|c ps IH]; intros tn n st st' m tn' H Hn.
  - cbn [pass1] in H. simplify_eq. split; [apply keeps_kinds_refl|].
    split; [simpl; lia|]. split; [done|]. split; [constructor|]. done.
  - cbn [pass1] in H.
    destruct (DEBUG_ReadTypeEnumBackwards buf c st) as [[st0 dt]|] eqn:Eb; [|done].
    cbn [mbind option_bind] in H. apply read_back_frame in Eb.
    destruct Eb as (Fh & _ & Fc & _).
    destruct (buf !! S c) as [tag|] eqn:Et; [|done]. cbn [mbind option_bind] in H.
    destruct (skeleton_of buf c tag tn) as [sk|] eqn:Esk; [|done].
    cbn [mbind option_bind] in H. apply skeleton_expect in Esk.
    destruct sk as [K name| |]; [| |done].
    + destruct (DEBUG_NewDataType K name (heap st0)) as [h node] eqn:En.
      destruct (new_keeps_kinds _ _ _ _ _ En) as (Kn & -> & Hblank).
      destruct (store (set_heap h st0) dt _) as [st1|] eqn:Es; [|done].
      cbn [mbind option_bind] in H. apply store_frame in Es.
      destruct Es as (Sh & _ & Sc & _). cbn [heap curr_types set_heap] in Sh, Sc.
      destruct (push_curr_type n _ st1) as [st2|] eqn:Ep; [|done].
      cbn [mbind option_bind] in H.
      destruct (push_curr_type_spec _ _ _ _ Ep) as (Ph & Pn & Pl & Po).
      destruct (IH _ _ _ _ _ _ H Pl) as (K2 & L2 & A2 & T2 & B2).
      assert (keeps_kinds st st2) as K02.
      { eapply keeps_kinds_trans; [apply keeps_kinds_heap; exact Fh|].
        eapply keeps_kinds_trans; [exact Kn|]. apply keeps_kinds_heap.
        cbn [heap set_heap]. congruence. }
      split; [by eapply keeps_kinds_trans|]. split; [simpl; lia|]. split; [|split].
      * intros i Hi. rewrite A2 by lia. rewrite Po by (rewrite ?Sc, ?Fc; lia).
        congruence.
      * constructor; [|done]. exists tag. split; [done|]. by rewrite Esk.
      * intros [|j] p tag' K' Hp Htag' He.
        -- cbn in Hp. injection Hp as <-. rewrite Et in Htag'. injection Htag' as <-.
           rewrite Esk in He. injection He as <-.
           rewrite Nat.add_0_r, A2 by lia. rewrite Pn.
           assert (heap st2 !! length (heap st0) = Some (blank K name)) as Hh2
             by (rewrite Ph, Sh; exact Hblank).
           destruct (K2 _ _ Hh2) as (d & Hd & Hk). exists (length (heap st0)), d.
           split; [done|]. split; [done|]. by rewrite Hk.
        -- cbn in Hp. destruct (B2 j p tag' K' Hp Htag' He) as (h' & d & H1 & H2 & H3).
           exists h', d. replace (n + S j)%nat with (S n + j)%nat by lia. done.
    + destruct (push_curr_type n None st0) as [st2|] eqn:Ep; [|done].
      cbn [mbind option_bind] in H.
      destruct (push_curr_type_spec _ _ _ _ Ep) as (Ph & Pn & Pl & Po).
      destruct (IH _ _ _ _ _ _ H Pl) as (K2 & L2 & A2 & T2 & B2).
      split.
      { eapply keeps_kinds_trans; [|exact K2]. apply keeps_kinds_heap. congruence. }
      split; [simpl; lia|]. split; [|split].
      * intros i Hi. rewrite A2 by lia. rewrite Po by (rewrite ?Fc; lia). congruence.
      * constructor; [|done]. exists tag. split; [done|]. by rewrite Esk.
      * intros [|j] p tag' K' Hp Htag' He.
        -- cbn in Hp. injection Hp as <-. rewrite Et in Htag'. injection Htag' as <-.
           rewrite Esk in He. done.
        -- cbn in Hp. destruct (B2 j p tag' K' Hp Htag' He) as (h' & d & H1 & H2 & H3).
           exists h', d. replace (n + S j)%nat with (S n + j)%nat by lia. done.
Qed.

(** *** Checking and rebinding again *)

(** The first loop of [DEBUG_HandlePreviousTypedef] runs to its end when
    the cached nodes have the kinds of the tags. *)
Lemma check_defs_ok text types st : ∀ ps count,
  Forall (tagged text) ps →
  (count + length ps ≤ length types)%nat →
  (∀ j p tag K,
     ps !! j = Some p → text !! S p = Some tag → expect_of tag = Some (Some K) →
     ∃ h d, types !! (count + j)%nat = Some (Some h)
            ∧ heap st !! h = Some d ∧ dt_type d = K) →
  check_defs text types count ps st = Some (st, Some (count + length ps)%nat).
Proof.
  induction ps as [|p ps IH]; intros count Htag Hlen Hk; cbn [check_defs].
  - by rewrite Nat.add_0_r.
  - cbn [length] in Hlen. rewrite (proj2 (Nat.leb_gt _ _)) by lia.
    apply Forall_cons in Htag as [(tag & Ht & He) Htag]. rewrite Ht.
    cbn [mbind option_bind].
    assert (check_defs text types (S count) ps st
            = Some (st, Some (count + length (p :: ps))%nat)) as Hrec.
    { cbn [length]. replace (count + S (length ps))%nat with (S count + length ps)%nat
        by lia.
      apply IH; [done|lia|]. intros j q tg K Hq Htg Hex.
      replace (S count + j)%nat with (count + S j)%nat by lia. by eapply Hk. }
    destruct (expect_of tag) as [[K|]|] eqn:Ee; [|done..].
    destruct (Hk 0%nat p tag K eq_refl Ht Ee) as (h & d & Hty & Hh & Hd).
    rewrite Nat.add_0_r in Hty. rewrite Hty. cbn [mbind option_bind].
    unfold DEBUG_GetType. cbn [mbind option_bind]. rewrite Hh.
    cbn [mbind option_bind]. rewrite Hd. by rewrite bool_decide_eq_true_2.
Qed.

Lemma check_defs_again text types : ∀ ps count st st' m,
  check_defs text types count ps st = Some (st', Some m) →
  st' = st ∧ m = (count + length ps)%nat
  ∧ ∀ st2, heap st2 = heap st →
      check_defs text types count ps st2 = Some (st2, Some m).
Proof.
  induction ps as [|p ps IH]; intros count st st' m H; cbn [check_defs] in *.
  - simplify_eq. split; [done|]. split; [simpl; lia|]. done.
  - destruct (length types <=? count)%nat; [done|].
    destruct (text !! S p) as [tag|]; [|done]. cbn [mbind option_bind] in *.
    destruct (expect_of tag) as [[K|]|]; [| |done].
    + destruct (types !! count) as [t|]; [|done]. cbn [mbind option_bind] in *.
      destruct (DEBUG_GetType (heap st) t) as [got|] eqn:Eg; [|done].
      cbn [mbind option_bind] in *.
      destruct (bool_decide (K = got)) eqn:Eb; [|done].
      destruct (IH _ _ _ _ H) as (-> & -> & Hall).
      split; [done|]. split; [simpl; lia|]. intros st2 Hh. rewrite Hh, Eg.
      cbn [mbind option_bind]. rewrite Eb. by apply Hall.
    + destruct (IH _ _ _ _ H) as (-> & -> & Hall).
      split; [done|]. split; [simpl; lia|]. done.
Qed.

Lemma rebind_defs_frame buf types ps : ∀ count st st',
  rebind_defs buf types count ps st = Some st' → frame st st'.
Proof.
  induction ps as [|p ps IH]; intros count st st' H; cbn [rebind_defs] in H.
  { simplify_eq. apply frame_refl. }
  destruct (DEBUG_ReadTypeEnumBackwards buf p st) as [[st0 dt]|] eqn:Eb; [|done].
  cbn [mbind option_bind] in H.
  destruct (types !! count) as [t|]; [|done]. cbn [mbind option_bind] in H.
  destruct (store st0 dt t) as [st1|] eqn:Es; [|done]. cbn [mbind option_bind] in H.
  apply read_back_frame in Eb. apply store_frame in Es. apply IH in H.
  eapply frame_trans; [exact Eb|]. by eapply frame_trans.
Qed.

Lemma store_entries st dt v st' : store st dt v = Some st' → same_entries st st'.
Proof.
  unfold store, same_entries, entries. intros H d.
  destruct dt as [n|i n]; inv_some H; destruct d as [m|j m];
    cbn [cu_vector set_cu_vector include_defs set_include_defs]; try done.
  - by rewrite length_insert.
  - destruct (decide (j = i)) as [->|Hne].
    + rewrite list_lookup_insert_eq by (by eapply lookup_lt_Some).
      rewrite E. cbn. by rewrite length_insert.
    + by rewrite list_lookup_insert_ne.
Qed.

(** Its second loop has a result when every slot exists, and no table is
    reallocated. *)
Lemma rebind_defs_ok text types : ∀ ps count st,
  Forall (bindable text st) ps →
  (count + length ps ≤ length types)%nat →
  ∃ st', rebind_defs text types count ps st = Some st' ∧ frame st st'
         ∧ same_entries st st'.
Proof.
  induction ps as [|p ps IH]; intros count st Hb Hlen; cbn [rebind_defs].
  - exists st. split; [done|]. split; [apply frame_refl|done].
  - cbn [length] in Hlen.
    apply Forall_cons in Hb as [(x & f & s & -> & Hr & Hc) Hb].
    destruct (lookup_lt_is_Some_2 types count ltac:(lia)) as [t Ht].
    destruct (bind_slot f s t st Hc) as (dt & st1 & E1 & E2 & Hf).
    cbn [DEBUG_ReadTypeEnumBackwards]. rewrite Hr. cbn [mbind option_bind].
    rewrite E1. cbn [mbind option_bind]. rewrite Ht. cbn [mbind option_bind].
    rewrite E2. cbn [mbind option_bind].
    destruct (IH (S count) st1) as (st' & Hrec & Hf' & He'); [|lia|].
    { eapply Forall_impl; [exact Hb|]. intros q.
      by apply bindable_untouched, frame_untouched. }
    exists st'. split; [done|]. split; [by eapply frame_trans|].
    intros d. rewrite He'. by apply (store_entries _ _ _ _ E2).
Qed.

Lemma load_of_store st dt v st' : store st dt v = Some st' → is_Some (load st dt).
Proof.
  unfold load, store, index_ok. destruct dt as [n|i n]; intros H.
  - destruct (_ && _) eqn:E; [|done]. apply lookup_lt_is_Some.
    apply andb_true_iff in E. lia.
  - destruct (include_defs st !! i) as [x|]; [|done]. cbn [mbind option_bind] in *.
    destruct (_ && _) eqn:E; [|done]. apply lookup_lt_is_Some.
    apply andb_true_iff in E. lia.
Qed.

(** Once the second loop is through, every slot it has bound exists. *)
Lemma rebind_defs_bindable text types : ∀ ps count st st',
  rebind_defs text types count ps st = Some st' →
  Forall (bindable text st') ps
  ∧ (ps = [] ∨ (count + length ps ≤ length types)%nat).
Proof.
  induction ps as [|p ps IH]; intros count st st' H; cbn [rebind_defs] in H.
  - split; [constructor|]. by left.
  - unfold DEBUG_ReadTypeEnumBackwards in H. destruct p as [|x]; [done|].
    destruct (read_backwards text x) as [[f s]|] eqn:Er; [|done].
    cbn [mbind option_bind] in H.
    destruct (DEBUG_FileSubNr2StabEnum f s st) as [[st0 dt]|] eqn:Ef; [|done].
    cbn [mbind option_bind] in H.
    destruct (types !! count) as [t|] eqn:Et; [|done]. cbn [mbind option_bind] in H.
    destruct (store st0 dt t) as [st1|] eqn:Es; [|done]. cbn [mbind option_bind] in H.
    destruct (IH _ _ _ H) as [Hb Hl]. apply lookup_lt_Some in Et.
    destruct (load_of_store _ _ _ _ Es) as [w Hw].
    pose proof (resolve_covered _ _ _ _ _ _ Ef Hw) as Hc.
    split; [|right; destruct Hl as [->|Hl]; simpl; lia]. constructor; [|done].
    exists x, f, s. split; [done|]. split; [done|].
    eapply covered_untouched; [by eapply rebind_defs_untouched|].
    eapply covered_frame; [by eapply store_frame|done].
Qed.

(** A text that was seen is seen again. *)
Lemma handled_again name text st st1 :
  DEBUG_HandlePreviousTypedef name text st = Some (st1, true) →
  ∃ st2, DEBUG_HandlePreviousTypedef name text st1 = Some (st2, true)
         ∧ frame st1 st2 ∧ same_entries st1 st2.
Proof.
  unfold DEBUG_HandlePreviousTypedef. intros H.
  destruct (find_typedef name st) as [[ktd|]|] eqn:Ef; [|done..].
  cbn [mbind option_bind] in H.
  destruct (CStr.strchr_all "=" text) as [ps|] eqn:Ep; [|done].
  cbn [mbind option_bind] in H.
  destruct (check_defs text (ktd_types ktd) 0 ps st) as [[st' [m|]]|] eqn:Ec; [|done..].
  cbn [mbind option_bind] in H.
  destruct (check_defs_again _ _ _ _ _ _ _ Ec) as (-> & -> & Hall).
  destruct (negb _) eqn:En; [done|].
  destruct (rebind_defs text (ktd_types ktd) 0 ps st) as [sr|] eqn:Er; [|done].
  cbn [mbind option_bind] in H. injection H as ->.
  destruct (rebind_defs_bindable _ _ _ _ _ _ Er) as [Hb Hl0].
  assert (0 + length ps ≤ length (ktd_types ktd))%nat as Hl
    by (destruct Hl0 as [->|Hl0]; simpl in *; lia).
  destruct (rebind_defs_frame _ _ _ _ _ _ Er) as (Hh & Hk & _).
  assert (find_typedef name st1 = Some (Some ktd)) as Ef1.
  { unfold find_typedef in *. by rewrite Hk. }
  rewrite Ef1. cbn [mbind option_bind]. rewrite (Hall st1 Hh).
  cbn [mbind option_bind]. rewrite En.
  destruct (rebind_defs_ok text (ktd_types ktd) ps 0 st1 Hb Hl)
    as (st2 & E2 & Hf2 & He2).
  exists st2. rewrite E2. done.
Qed.

(** *** The slots a text names, and what the second loop puts in them *)

Lemma check_defs_kinds text types : ∀ ps count st st' m,
  check_defs text types count ps st = Some (st', Some m) →
  ∀ j p, ps !! j = Some p →
    ∃ tag e t, text !! S p = Some tag ∧ expect_of tag = Some e
      ∧ types !! (count + j)%nat = Some t
      ∧ ∀ K, e = Some K → DEBUG_GetType (heap st) t = Some K.
Proof.
  induction ps as [|q ps IH]; intros count st st' m H j p Hp; [done|].
  cbn [check_defs] in H.
  destruct (Nat.leb_spec (length types) count) as [|Hc]; [done|].
  destruct (lookup_lt_is_Some_2 types count Hc) as [t Ht].
  destruct (text !! S q) as [tag|] eqn:Et; [|done]. cbn [mbind option_bind] in H.
  destruct (expect_of tag) as [[K|]|] eqn:Ee; [| |done].
  - rewrite Ht in H. cbn [mbind option_bind] in H.
    destruct (DEBUG_GetType (heap st) t) as [got|] eqn:Eg; [|done].
    cbn [mbind option_bind] in H.
    destruct (decide (K = got)) as [<-|Hne];
      [rewrite bool_decide_eq_true_2 in H by done
      |by rewrite bool_decide_eq_false_2 in H by done].
    destruct j as [|j].
    + cbn in Hp. injection Hp as <-. exists tag, (Some K), t.
      rewrite Nat.add_0_r. split_and!; try done. by intros K' [= <-].
    + cbn in Hp. destruct (IH _ _ _ _ H j p Hp) as (tag' & e & t' & H1 & H2 & H3 & H4).
      exists tag', e, t'. replace (count + S j)%nat with (S count + j)%nat by lia.
      done.
  - destruct j as [|j].
    + cbn in Hp. injection Hp as <-. exists tag, None, t.
      rewrite Nat.add_0_r. split_and!; try done.
    + cbn in Hp. destruct (IH _ _ _ _ H j p Hp) as (tag' & e & t' & H1 & H2 & H3 & H4).
      exists tag', e, t'. replace (count + S j)%nat with (S count + j)%nat by lia.
      done.
Qed.

Lemma grow_is_some s v :
  is_Some (grow s v) ↔ s < Z.of_nat (length v) ∨ fits s = true.
Proof.
  unfold grow. destruct (Z.leb_spec (Z.of_nat (length v)) s) as [Hl|Hl].
  - destruct (fits s); split.
    + by right.
    + by eexists.
    + by intros [? [=]].
    + intros [?|?]; [lia|done].
  - split; [by left|by eexists].
Qed.

Lemma grow_widened_iff s v v' :
  widened v v' → is_Some (grow s v') ↔ is_Some (grow s v).
Proof.
  intros Hw. rewrite !grow_is_some. destruct Hw as [E|[Hl Hf]].
  - by rewrite E.
  - split; intros [H|H]; try (by right).
    + destruct (Z.ltb_spec s (Z.of_nat (length v))); [by left|right].
      eapply fits_le; [|exact Hf]. lia.
    + left. lia.
Qed.

(** The slot of a type number has the same name in a state whose tables
    are wider. *)
Lemma slot_same f s st st2 :
  same_includes st st2 → wider st st2 →
  snd <$> DEBUG_FileSubNr2StabEnum f s st2 = snd <$> DEBUG_FileSubNr2StabEnum f s st.
Proof.
  intros (Hs & Hi & Hl) (Wc & _ & Wi). unfold DEBUG_FileSubNr2StabEnum. rewrite Hs, Hi.
  destruct (f =? 0).
  { pose proof (grow_widened_iff s _ _ Wc) as Hiff.
    destruct (grow s (cu_vector st2)) as [w2|], (grow s (cu_vector st)) as [w|];
      try done.
    - by destruct (proj1 Hiff ltac:(by eexists)).
    - by destruct (proj2 Hiff ltac:(by eexists)). }
  destruct (_ <? f); [done|]. destruct (f <? 0); [done|].
  destruct (cu_include_stack st !! Z.to_nat f) as [idx|]; [|done].
  cbn [mbind option_bind]. destruct (idx <? 0); [done|].
  destruct (include_defs st !! Z.to_nat idx) as [d|] eqn:Ed.
  - destruct (lookup_lt_is_Some_2 (include_defs st2) (Z.to_nat idx)) as [d2 Hd2].
    { rewrite Hl. by eapply lookup_lt_Some. }
    rewrite Hd2. cbn [mbind option_bind].
    pose proof (grow_widened_iff s _ _ (Wi _ _ _ Ed Hd2)) as Hiff.
    destruct (grow s (inc_vector d2)) as [w2|], (grow s (inc_vector d)) as [w|];
      try done.
    + by destruct (proj1 Hiff ltac:(by eexists)).
    + by destruct (proj2 Hiff ltac:(by eexists)).
  - rewrite lookup_ge_None_2; [done|]. rewrite Hl. by apply lookup_ge_None_1.
Qed.

Lemma read_back_slot_same text p st st2 :
  frame st st2 →
  snd <$> DEBUG_ReadTypeEnumBackwards text p st2
  = snd <$> DEBUG_ReadTypeEnumBackwards text p st.
Proof.
  intros (_ & _ & _ & _ & Hs & Hw). unfold DEBUG_ReadTypeEnumBackwards.
  destruct p as [|x]; [done|].
  destruct (read_backwards text x) as [[f s]|]; [|done]. cbn [mbind option_bind].
  by apply slot_same.
Qed.

Lemma frame_same_includes st st' : frame st st' → same_includes st st'.
Proof. by intros (_ & _ & _ & _ & H & _). Qed.

(** The second loop leaves a cell alone that no ['='] names. *)
Lemma rebind_defs_other text types dt v : ∀ ps count st st',
  rebind_defs text types count ps st = Some st' →
  (∀ k q, ps !! k = Some q →
     snd <$> DEBUG_ReadTypeEnumBackwards text q st ≠ Some dt) →
  load st dt = Some v → load st' dt = Some v.
Proof.
  induction ps as [|p ps IH]; intros count st st' H Hne Hv; cbn [rebind_defs] in H.
  { by simplify_eq. }
  destruct (DEBUG_ReadTypeEnumBackwards text p st) as [[st0 dt0]|] eqn:Eb; [|done].
  cbn [mbind option_bind] in H.
  destruct (types !! count) as [t|]; [|done]. cbn [mbind option_bind] in H.
  destruct (store st0 dt0 t) as [st1|] eqn:Es; [|done]. cbn [mbind option_bind] in H.
  assert (dt ≠ dt0) as Hd.
  { intros ->. apply (Hne 0%nat p); [done|]. by rewrite Eb. }
  assert (frame st st1) as Hf.
  { eapply frame_trans; [by eapply read_back_frame|by eapply store_frame]. }
  apply (IH _ _ _ H).
  - intros k q Hq. rewrite (read_back_slot_same _ _ _ _ Hf). by apply (Hne (S k)).
  - apply (store_keeps_other _ _ _ _ Es); [done|].
    by apply (read_back_loads_kept _ _ _ _ _ Eb).
Qed.

(** It leaves the cached node of its rank in the cell that an ['=']
    names, unless a later ['='] names the same cell. *)
Lemma rebind_defs_binds text types : ∀ ps count st st',
  rebind_defs text types count ps st = Some st' →
  ∀ j p dt, ps !! j = Some p →
    snd <$> DEBUG_ReadTypeEnumBackwards text p st = Some dt →
    (∀ k q, (j < k)%nat → ps !! k = Some q →
       snd <$> DEBUG_ReadTypeEnumBackwards text q st ≠ Some dt) →
    ∃ t, types !! (count + j)%nat = Some t ∧ load st' dt = Some t.
Proof.
  induction ps as [|p0 ps IH]; intros count st st' H j p dt Hp Hdt Hlater; [done|].
  cbn [rebind_defs] in H.
  destruct (DEBUG_ReadTypeEnumBackwards text p0 st) as [[st0 dt0]|] eqn:Eb; [|done].
  cbn [mbind option_bind] in H.
  destruct (types !! count) as [t|] eqn:Et; [|done]. cbn [mbind option_bind] in H.
  destruct (store st0 dt0 t) as [st1|] eqn:Es; [|done]. cbn [mbind option_bind] in H.
  assert (frame st st1) as Hf.
  { eapply frame_trans; [by eapply read_back_frame|by eapply store_frame]. }
  destruct j as [|j].
  - cbn in Hp. injection Hp as <-. rewrite Eb in Hdt. cbn in Hdt.
    injection Hdt as ->. exists t. rewrite Nat.add_0_r. split; [done|].
    apply (rebind_defs_other _ _ _ _ _ _ _ _ H).
    + intros k q Hq. rewrite (read_back_slot_same _ _ _ _ Hf).
      apply (Hlater (S k)); [lia|done].
    + by eapply load_store_eq.
  - cbn in Hp. replace (count + S j)%nat with (S count + j)%nat by lia.
    apply (IH _ _ _ H j p dt Hp).
    + by rewrite (read_back_slot_same _ _ _ _ Hf).
    + intros k q Hk Hq. rewrite (read_back_slot_same _ _ _ _ Hf).
      apply (Hlater (S k)); [lia|done].
Qed.

(** What [DEBUG_HandlePreviousTypedef] has done when it answers TRUE. *)
Lemma handled_shape name stab st st' :
  DEBUG_HandlePreviousTypedef name stab st = Some (st', true) →
  ∃ ktd ps,
    find_typedef name st = Some (Some ktd)
    ∧ CStr.strchr_all "=" stab = Some ps
    ∧ length ps = length (ktd_types ktd)
    ∧ frame st st'
    ∧ (∀ j p, ps !! j = Some p →
        ∃ tag t, stab !! S p = Some tag ∧ ktd_types ktd !! j = Some t
          ∧ (∀ K, expect_of tag = Some (Some K) →
               DEBUG_GetType (heap st) t = Some K)
          ∧ ∀ dt, snd <$> DEBUG_ReadTypeEnumBackwards stab p st = Some dt →
              (∀ k q, (j < k)%nat → ps !! k = Some q →
                 snd <$> DEBUG_ReadTypeEnumBackwards stab q st ≠ Some dt) →
              load st' dt = Some t)
    ∧ (∀ dt v,
         (∀ k q, ps !! k = Some q →
            snd <$> DEBUG_ReadTypeEnumBackwards stab q st ≠ Some dt) →
         load st dt = Some v → load st' dt = Some v)
    ∧ Forall (bindable stab st') ps.
Proof.
  unfold DEBUG_HandlePreviousTypedef. intros H.
  destruct (find_typedef name st) as [[ktd|]|]; cbn [mbind option_bind] in H;
    [|done|done].
  destruct (CStr.strchr_all "=" stab) as [ps|]; cbn [mbind option_bind] in H; [|done].
  destruct (check_defs stab (ktd_types ktd) 0 ps st) as [[st0 [m|]]|] eqn:Ec;
    cbn [mbind option_bind] in H; [|done|done].
  destruct (check_defs_again _ _ _ _ _ _ _ Ec) as (-> & -> & _).
  destruct (Nat.eqb_spec (length (ktd_types ktd)) (0 + length ps)) as [Hl|];
    cbn [negb] in H; [|done].
  destruct (rebind_defs stab (ktd_types ktd) 0 ps st) as [st1|] eqn:Er;
    cbn [mbind option_bind] in H; [|done].
  simplify_eq. exists ktd, ps. split; [done|]. split; [done|].
  split; [lia|]. split; [by eapply rebind_defs_frame|]. split; [|split].
  - intros j p Hp.
    destruct (check_defs_kinds _ _ _ _ _ _ _ Ec j p Hp) as (tag & e & t & H1 & H2 & H3 & H4).
    exists tag, t. split; [done|]. split; [done|]. split.
    + intros K HK. apply H4. congruence.
    + intros dt Hdt Hlater.
      destruct (rebind_defs_binds _ _ _ _ _ _ Er j p dt Hp Hdt Hlater)
        as (t' & Ht' & Hload).
      change (0 + j)%nat with j in *. congruence.
  - intros dt v Hne Hv. by eapply rebind_defs_other.
  - by destruct (rebind_defs_bindable _ _ _ _ _ _ Er).
Qed.

(** After a full parse that registered its definition, the text is seen. *)
Lemma fresh_parse_registered text name ps st0 stp tn' stq buf2 st2 :
  CStr.strchr_all "=" text = Some ps → length ps ≠ 1%nat → no_stale_eq text →
  pass1 text ps (Some name) 0 st0 = Some (stp, Some (length ps), tn') →
  pass2 (length text) text (Z.of_nat (length ps) - 1) tn' stp = Some (stq, buf2, true) →
  DEBUG_RegisterTypedef name (curr_types stq) (length ps) stq = Some st2 →
  ∃ st3, DEBUG_HandlePreviousTypedef name text st2 = Some (st3, true)
         ∧ frame st2 st3 ∧ same_entries st2 st3.
Proof.
  intros Hps Hn Hstale H1 H2 H3.
  destruct (swept_start _ _ Hps Hstale) as (n0 & H0 & Hq & Hsw).
  destruct (strlen_lookup _ _ H0) as [Hnul _].
  destruct (pass1_skeletons _ _ _ _ _ _ _ _ H1 ltac:(lia))
    as (K1 & L1 & _ & Htag & B1).
  destruct (pass2_swept text n0 tn' ps _ n0 text stp stq buf2 H0 ltac:(lia)
              (or_introl Hnul) Hq Htag Hsw H2) as (K2 & L2 & _ & B2 & F2).
  cbn [Nat.add] in L1.
  destruct (register_shape _ _ _ _ _ H3) as [[? _]|(_ & Hlen & chain & Hchain & ->)];
    [done|].
  set (types := take (length ps) (curr_types stq)).
  unfold DEBUG_HandlePreviousTypedef.
  rewrite (find_typedef_registered name types chain stq Hchain).
  cbn [mbind option_bind]. rewrite Hps. cbn [mbind option_bind ktd_types].
  assert (length types = length ps) as Hty by (unfold types; rewrite length_take; lia).
  rewrite (check_defs_ok text types _ ps 0 Htag ltac:(lia)).
  - cbn [mbind option_bind Nat.add]. rewrite Hty, Nat.eqb_refl. cbn [negb].
    destruct (rebind_defs_ok text types ps 0
                (set_ktd_head (<[Z.to_nat (stab_hash name) := mkKtd name types :: chain]>
                                 (ktd_head stq)) stq)) as (st3 & E3 & Hf3 & He3);
      [|lia|].
    + eapply Forall_impl; [exact F2|]. intros q Hbq. exact Hbq.
    + exists st3. rewrite E3. done.
  - intros j p tag K Hp Ht He. cbn [Nat.add heap set_ktd_head].
    destruct (B1 j p tag K Hp Ht He) as (h & d & Hc & Hh & Hd).
    destruct (K2 h d Hh) as (d' & Hh' & Hd').
    exists h, d'. split; [|split; [done|congruence]].
    unfold types. rewrite lookup_take_lt by (by eapply lookup_lt_Some).
    rewrite (B2 j p Hp); [done|]. intros Hparen. rewrite Ht in Hparen.
    injection Hparen as ->. done.
Qed.

(** C1 (second parse): for a text whose number of ['='] is not one and
    that has no ['='] behind its terminator, once
    [DEBUG_ParseTypedefStab] has succeeded for the text under a name, the
    second parse of the same text under the same name is answered by
    [DEBUG_HandlePreviousTypedef]: it reports the text seen and the
    parser returns at once with the text untouched.  The second parse
    allocates no node and changes nothing but slots: the heap, the
    registry, the scratch list, the messages and the include stack are
    as they were, and no table is reallocated.  The name finds an entry
    with one node for every ['='], and the slot named in front of an
    ['='] holds the cached node of the same rank, unless a later ['=']
    names the same slot; a slot that no ['='] names keeps its content. *)
Theorem second_parse_is_rebound text name st ps :
  CStr.strchr_all "=" text = Some ps → length ps ≠ 1%nat → no_stale_eq text →
  second_parse_rebinds text name st
  ∧ ∀ st1 buf1 st2,
      DEBUG_ParseTypedefStab text name st = Some (st1, buf1, true) →
      DEBUG_ParseTypedefStab text name st1 = Some (st2, text, true) →
      ∃ ktd,
        find_typedef name st1 = Some (Some ktd)
        ∧ length (ktd_types ktd) = length ps
        ∧ frame st1 st2
        ∧ same_entries st1 st2
        ∧ (∀ j p dt, ps !! j = Some p →
             snd <$> DEBUG_ReadTypeEnumBackwards text p st1 = Some dt →
             (∀ k q, (j < k)%nat → ps !! k = Some q →
                snd <$> DEBUG_ReadTypeEnumBackwards text q st1 ≠ Some dt) →
             ∃ t, ktd_types ktd !! j = Some t ∧ load st2 dt = Some t)
        ∧ (∀ dt v,
             (∀ k q, ps !! k = Some q →
                snd <$> DEBUG_ReadTypeEnumBackwards text q st1 ≠ Some dt) →
             load st1 dt = Some v → load st2 dt = Some v).
Proof.
  intros Hps Hn Hstale.
  assert (∀ st1 buf1,
            DEBUG_ParseTypedefStab text name st = Some (st1, buf1, true) →
            ∃ st2, DEBUG_HandlePreviousTypedef name text st1 = Some (st2, true)
                   ∧ frame st1 st2 ∧ same_entries st1 st2) as Hmain.
  { intros st1 buf1 Hparse.
    destruct (DEBUG_HandlePreviousTypedef name text st) as [[st' [|]]|] eqn:Eh.
    - unfold DEBUG_ParseTypedefStab in Hparse. rewrite Eh in Hparse.
      cbn [mbind option_bind] in Hparse. injection Hparse as <- <-.
      by eapply handled_again.
    - destruct (parse_typedef_fresh _ _ _ _ _ _ Eh Hparse)
        as (ps' & stp & tn' & stq & Hps' & H1 & H2 & H3).
      rewrite Hps in Hps'. injection Hps' as <-.
      by eapply fresh_parse_registered.
    - unfold DEBUG_ParseTypedefStab in Hparse. by rewrite Eh in Hparse. }
  split.
  - intros st1 buf1 Hparse.
    destruct (Hmain _ _ Hparse) as (st2 & Hh & Hf & _).
    exists st2. split; [done|]. split.
    + unfold DEBUG_ParseTypedefStab. by rewrite Hh.
    + by destruct Hf as (? & _).
  - intros st1 buf1 st2 Hparse Hagain.
    destruct (Hmain _ _ Hparse) as (st2' & Hh & Hf & He).
    assert (st2' = st2) as ->.
    { unfold DEBUG_ParseTypedefStab in Hagain. rewrite Hh in Hagain.
      cbn [mbind option_bind] in Hagain. congruence. }
    destruct (handled_shape _ _ _ _ Hh) as (ktd & ps' & F1 & F2 & F3 & _ & F5 & F6 & _).
    rewrite Hps in F2. injection F2 as <-.
    exists ktd. split_and!; try done.
    intros j p dt Hp Hdt Hlater.
    destruct (F5 j p Hp) as (tag & t & _ & Ht & _ & Hbind).
    exists t. split; [done|]. by apply Hbind.
Qed.

Lemma no_stale_eq_tail buf n :
  CStr.strlen buf = Some n → Forall (λ a, a ≠ "="%char) (drop n buf) →
  no_stale_eq buf.
Proof.
  intros Hn Hall m Hm i Hi. rewrite Hn in Hm. injection Hm as <-.
  intros Hb. rewrite Forall_forall in Hall. apply (Hall "="%char); [|done].
  apply list_elem_of_lookup. exists (i - n)%nat. rewrite lookup_drop.
  by replace (n + (i - n))%nat with i by lia.
Qed.

Lemma second_parse_is_rebound_witness :
  ∃ st1 buf1 st2 ktd,
    DEBUG_ParseTypedefStab two_pointers_text (CStr.of_string "A") initial_statics
      = Some (st1, buf1, true)
    ∧ DEBUG_HandlePreviousTypedef (CStr.of_string "A") two_pointers_text st1
      = Some (st2, true)
    ∧ DEBUG_ParseTypedefStab two_pointers_text (CStr.of_string "A") st1
      = Some (st2, two_pointers_text, true)
    ∧ heap st2 = heap st1
    ∧ find_typedef (CStr.of_string "A") st1 = Some (Some ktd)
    ∧ length (ktd_types ktd) = 2%nat
    ∧ frame st1 st2
    ∧ same_entries st1 st2
    ∧ (∀ j p dt, [4; 7]%nat !! j = Some p →
         snd <$> DEBUG_ReadTypeEnumBackwards two_pointers_text p st1 = Some dt →
         (∀ k q, (j < k)%nat → [4; 7]%nat !! k = Some q →
            snd <$> DEBUG_ReadTypeEnumBackwards two_pointers_text q st1 ≠ Some dt) →
         ∃ t, ktd_types ktd !! j = Some t ∧ load st2 dt = Some t)
    ∧ (∀ dt v,
         (∀ k q, [4; 7]%nat !! k = Some q →
            snd <$> DEBUG_ReadTypeEnumBackwards two_pointers_text q st1 ≠ Some dt) →
         load st1 dt = Some v → load st2 dt = Some v).
Proof.
  destruct (DEBUG_ParseTypedefStab two_pointers_text (CStr.of_string "A")
              initial_statics) as [[[st1 buf1] [|]]|] eqn:E;
    try (vm_compute in E; discriminate E).
  assert (no_stale_eq two_pointers_text) as Hs.
  { apply (no_stale_eq_tail _ 10); [vm_compute; reflexivity|].
    vm_compute. by repeat constructor. }
  destruct (second_parse_is_rebound two_pointers_text (CStr.of_string "A")
              initial_statics [4; 7]%nat ltac:(vm_compute; reflexivity)
              ltac:(simpl; lia) Hs) as [R1 R2].
  destruct (R1 st1 buf1 E) as (st2 & H1 & H2 & H3).
  destruct (R2 st1 buf1 st2 E H2) as (ktd & G1 & G2 & G3 & G4 & G5 & G6).
  exists st1, buf1, st2, ktd. split; [reflexivity|]. by split_and!.
Defined.

(** C1: the typedef [A:t5=*1] has one ['=']; it is not registered, and
    the second parse is not answered from the registry.  The typedef
    [A:t5=*6=xsB] has two, and its cross reference has no [':'] behind
    the name; in a buffer that holds [:7=(0,1)] behind the terminator,
    left by an earlier text, the second sweep finds the [':'] there and
    moves the bytes that follow into the text: the ['='] among them is
    taken for a definition of its own, which puts a basic node in the
    scratch list where the pointer was.  The entry that is registered
    does not have the shape of the text, and the second parse is not
    answered from the registry. *)
Lemma second_parse_not_rebound :
  ¬ second_parse_rebinds (stab_text "A:t5=*1") (CStr.of_string "A") initial_statics
  ∧ CStr.cstr stale_text = Some (CStr.of_string "A:t5=*6=xsB")
  ∧ CStr.strchr_all "=" stale_text = Some [4; 7]%nat
  ∧ ¬ no_stale_eq stale_text
  ∧ ¬ second_parse_rebinds stale_text (CStr.of_string "A") initial_statics.
Proof.
  split_and!.
  - intros H.
    destruct (DEBUG_ParseTypedefStab (stab_text "A:t5=*1") (CStr.of_string "A")
                initial_statics) as [[[st1 buf1] [|]]|] eqn:E;
      try (vm_compute in E; discriminate E).
    destruct (H st1 buf1 E) as (st2 & H1 & _).
    vm_compute in E. injection E as <- <-.
    vm_compute in H1. discriminate H1.
  - vm_compute. reflexivity.
  - vm_compute. reflexivity.
  - intros H. apply (H 11%nat ltac:(vm_compute; reflexivity) 14%nat ltac:(lia)).
    vm_compute. reflexivity.
  - intros H.
    destruct (DEBUG_ParseTypedefStab stale_text (CStr.of_string "A")
                initial_statics) as [[[st1 buf1] [|]]|] eqn:E;
      try (vm_compute in E; discriminate E).
    destruct (H st1 buf1 E) as (st2 & H1 & _).
    vm_compute in E. injection E as <- <-.
    vm_compute in H1. discriminate H1.
Qed.

(** ** The record loop *)

(** *** The flag of [N_SOL] *)













(** *** Joining continued records *)

Lemma cstr_inv l s :
  CStr.cstr l = Some s →
  CStr.strlen l = Some (length s) ∧ (CStr.NUL ∉ s)
  ∧ l = s ++ CStr.NUL :: drop (S (length s)) l.
Proof.
  unfold CStr.cstr. intros H. destruct (CStr.strlen l) as [n|] eqn:En; [|done].
  cbn [mbind option_bind] in H. injection H as <-.
  pose proof (strlen_lt _ _ En) as Hlt.
  destruct (strlen_lookup _ _ En) as [Hnul Hnon].
  rewrite length_take, Nat.min_l by lia. split; [done|]. split.
  - intros Hin. apply list_elem_of_lookup in Hin as [i Hi].
    apply lookup_take_Some in Hi as [Hi Hlti].
    destruct (Hnon i Hlti) as (a & Ha & Hne). congruence.
  - by rewrite take_drop_middle.
Qed.

Lemma write_buff_cstr at_ s l l' acc :
  write_buff at_ s l = Some l' →
  CStr.cstr (stabbuff l) = Some acc → at_ = length acc → CStr.NUL ∉ s →
  CStr.cstr (stabbuff l') = Some (acc ++ s)
  ∧ l' = set_stabbuff (stabbuff l') (stabbufflen l) l.
Proof.
  unfold write_buff. intros H Hc -> Hs. case_match; [|done]. simplify_eq.
  cbn [stabbuff set_stabbuff]. split; [|done].
  destruct (cstr_inv _ _ Hc) as (_ & Hacc & Hl).
  assert (take (length acc) (stabbuff l) = acc) as ->
    by (rewrite Hl; apply take_app_length).
  rewrite app_assoc. cbn [app].
  apply cstr_no_nul. intros [?|?]%elem_of_app; done.
Qed.

Lemma record_bytes addr l r s :
  record_string addr (strs l) r = Some s →
  0 ≤ strs l + wrap32 (n_strx r)
  ∧ bytes_at addr l (InFile (strs l + wrap32 (n_strx r)))
    = Some (drop (Z.to_nat (strs l + wrap32 (n_strx r))) addr)
  ∧ CStr.cstr (drop (Z.to_nat (strs l + wrap32 (n_strx r))) addr) = Some s.
Proof.
  unfold record_string, bytes_at. intros H.
  destruct (strs l + wrap32 (n_strx r) <? 0) eqn:E; [done|].
  apply Z.ltb_ge in E. done.
Qed.

Lemma last_byte addr p s a :
  CStr.cstr (drop p addr) = Some (s ++ [a]) →
  addr !! (p + length s)%nat = Some a.
Proof.
  intros H. destruct (cstr_inv _ _ H) as (_ & _ & Hl).
  rewrite <- lookup_drop, Hl, <- app_assoc. cbn [app].
  by rewrite list_lookup_middle.
Qed.

(** A text that ends in a backslash is appended to the buffer without the
    backslash. *)
Lemma join_continued addr r l u acc :
  record_string addr (strs l) r = Some (u ++ ["\"%char]) →
  CStr.cstr (stabbuff l) = Some acc →
  Z.of_nat (length acc + length u + 1) ≤ stabbufflen l →
  ∃ l', join addr r l = Some (l', None)
        ∧ CStr.cstr (stabbuff l') = Some (acc ++ u)
        ∧ l' = set_stabbuff (stabbuff l') (stabbufflen l) l.
Proof.
  intros Hr Hc Hcap. destruct (record_bytes _ _ _ _ Hr) as (Hp & Hb & Ht).
  set (ptr := strs l + wrap32 (n_strx r)) in *.
  destruct (cstr_inv _ _ Ht) as (Hlen & Hnul & Hl).
  destruct (cstr_inv _ _ Hc) as (Hblen & _ & _).
  rewrite length_app in Hlen. cbn [length] in Hlen.
  unfold join. fold ptr. rewrite Hb. cbn [mbind option_bind]. rewrite Hlen.
  cbn [mbind option_bind].
  rewrite (proj2 (Z.ltb_ge _ 0)) by lia.
  replace (Z.to_nat (ptr + Z.of_nat (length u + 1) - 1))
    with (Z.to_nat ptr + length u)%nat by lia.
  rewrite (last_byte _ _ _ _ Ht). cbn [mbind option_bind].
  change (Ascii.eqb "\" "\") with true. cbv iota. rewrite Hblen.
  cbn [mbind option_bind].
  rewrite (proj2 (Z.ltb_ge _ _)) by lia.
  assert (take (length u + 1 - 1) (drop (Z.to_nat ptr) addr) = u) as Htk.
  { rewrite Hl, <- app_assoc. replace (length u + 1 - 1)%nat with (length u) by lia.
    by rewrite take_app_length. }
  rewrite Htk.
  destruct (write_buff (length acc) u l) as [l'|] eqn:Ew.
  - cbn [mbind option_bind]. exists l'. split; [done|].
    apply (write_buff_cstr _ _ _ _ _ Ew Hc eq_refl).
    intros Hin. apply Hnul, elem_of_app. by left.
  - unfold write_buff in Ew. rewrite (proj2 (Z.leb_le _ _)) in Ew by lia. done.
Qed.

(** A text that does not end in a backslash ends the run: the text is the
    record itself when the buffer is clear, and the buffer with the text
    appended otherwise. *)
Lemma join_last addr r l t a acc :
  record_string addr (strs l) r = Some (t ++ [a]) → a ≠ "\"%char →
  CStr.cstr (stabbuff l) = Some acc →
  Z.of_nat (length acc + length t + 2) ≤ stabbufflen l →
  ∃ l' ptr bytes,
    join addr r l = Some (l', Some ptr)
    ∧ bytes_at addr l' ptr = Some bytes
    ∧ CStr.cstr bytes = Some (acc ++ t ++ [a])
    ∧ (acc ≠ [] → ptr = InBuff)
    ∧ l' = set_stabbuff (stabbuff l') (stabbufflen l) l.
Proof.
  intros Hr Ha Hc Hcap. destruct (record_bytes _ _ _ _ Hr) as (Hp & Hb & Ht).
  set (ptr := strs l + wrap32 (n_strx r)) in *.
  destruct (cstr_inv _ _ Ht) as (Hlen & Hnul & Hl).
  destruct (cstr_inv _ _ Hc) as (Hblen & Hnacc & Hbl).
  rewrite length_app in Hlen. cbn [length] in Hlen.
  unfold join. fold ptr. rewrite Hb. cbn [mbind option_bind]. rewrite Hlen.
  cbn [mbind option_bind].
  rewrite (proj2 (Z.ltb_ge _ 0)) by lia.
  replace (Z.to_nat (ptr + Z.of_nat (length t + 1) - 1))
    with (Z.to_nat ptr + length t)%nat by lia.
  rewrite (last_byte _ _ _ _ Ht). cbn [mbind option_bind].
  rewrite (proj2 (Ascii.eqb_neq a "\")) by done.
  destruct acc as [|b acc].
  - assert (stabbuff l !! 0%nat = Some CStr.NUL) as H0 by (by rewrite Hbl).
    rewrite H0. cbn [mbind option_bind].
    change (Ascii.eqb CStr.NUL CStr.NUL) with true. cbn [negb].
    eexists l, _, _. split; [done|]. split; [exact Hb|]. split; [done|].
    split; [done|]. by destruct l.
  - assert (stabbuff l !! 0%nat = Some b) as H0 by (by rewrite Hbl).
    rewrite H0. cbn [mbind option_bind].
    assert (b ≠ CStr.NUL) as Hb0.
    { intros ->. apply Hnacc, list_elem_of_here. }
    rewrite (proj2 (Ascii.eqb_neq b CStr.NUL)) by done. cbn [negb].
    rewrite Hblen. cbn [mbind option_bind].
    assert (take (length t + 1) (drop (Z.to_nat ptr) addr) = t ++ [a]) as Htk.
    { rewrite Hl. replace (length t + 1)%nat with (length (t ++ [a]))
        by (rewrite length_app; simpl; lia).
      by rewrite take_app_length. }
    rewrite Htk.
    destruct (write_buff (length (b :: acc)) (t ++ [a]) l) as [l'|] eqn:Ew.
    + cbn [mbind option_bind].
      destruct (write_buff_cstr _ _ _ _ _ Ew Hc eq_refl Hnul) as [H1 H2].
      exists l', InBuff, (stabbuff l'). split; [done|]. split; [done|].
      split; [done|]. split; [done|]. done.
    + unfold write_buff in Ew. rewrite length_app in Ew. cbn [length] in *.
      rewrite (proj2 (Z.leb_le _ _)) in Ew by lia. done.
Qed.

Lemma body_continued addr lo i r l u acc :
  record_string addr (strs l) r = Some (u ++ ["\"%char]) →
  CStr.cstr (stabbuff l) = Some acc →
  Z.of_nat (length acc + length u + 1) ≤ stabbufflen l →
  ∃ l', DEBUG_ParseStabs_body addr lo i r l = Some (l', Continued)
        ∧ CStr.cstr (stabbuff l') = Some (acc ++ u)
        ∧ l' = set_stabbuff (stabbuff l') (stabbufflen l) l.
Proof.
  intros Hr Hc Hcap.
  destruct (join_continued _ _ _ _ _ Hr Hc Hcap) as (l' & Hj & H1 & H2).
  exists l'. unfold DEBUG_ParseStabs_body. rewrite Hj. done.
Qed.

Lemma set_stabbuff_twice l l1 l2 b1 n1 b2 n2 :
  l1 = set_stabbuff b1 n1 l → l2 = set_stabbuff b2 n2 l1 → l2 = set_stabbuff b2 n2 l.
Proof. intros -> ->. by destruct l. Qed.

Lemma continued_run_acc addr lo : ∀ (us : list (stab_nlist * list ascii)) i l acc rk t a,
  Forall (λ ru, record_string addr (strs l) ru.1 = Some (ru.2 ++ ["\"%char])) us →
  record_string addr (strs l) rk = Some (t ++ [a]) → a ≠ "\"%char →
  CStr.cstr (stabbuff l) = Some acc →
  Z.of_nat (length acc + length (concat us.*2) + length t + 2) ≤ stabbufflen l →
  ∃ l1 l2 ptr bytes,
    continued_run addr lo i us.*1 l = Some l1
    ∧ join addr rk l1 = Some (l2, Some ptr)
    ∧ bytes_at addr l2 ptr = Some bytes
    ∧ CStr.cstr bytes = Some (acc ++ concat us.*2 ++ t ++ [a])
    ∧ (acc ++ concat us.*2 ≠ [] → ptr = InBuff)
    ∧ l2 = set_stabbuff (stabbuff l2) (stabbufflen l) l.
Proof.
  induction us as [|[r u] us IH]; intros i l acc rk t a Hus Hk Ha Hc Hcap.
  - cbn [fmap list_fmap concat app] in *. rewrite app_nil_r.
    destruct (join_last _ _ _ _ _ _ Hk Ha Hc ltac:(lia))
      as (l2 & ptr & bytes & H1 & H2 & H3 & H4 & H5).
    exists l, l2, ptr, bytes. done.
  - apply Forall_cons in Hus as [Hr Hus]. cbn [fst snd] in Hr.
    cbn [fmap list_fmap concat snd fst] in *. rewrite length_app in Hcap.
    destruct (body_continued addr lo i r l u acc Hr Hc ltac:(lia))
      as (l' & Hb & Hc' & Hl').
    assert (strs l' = strs l) as Hs by (by rewrite Hl').
    assert (stabbufflen l' = stabbufflen l) as Hn by (by rewrite Hl').
    destruct (IH (i + 1) l' (acc ++ u) rk t a) as (l1 & l2 & ptr & bytes & G).
    { rewrite Hs. exact Hus. }
    { rewrite Hs. exact Hk. }
    { exact Ha. }
    { exact Hc'. }
    { rewrite length_app, Hn. lia. }
    destruct G as (G1 & G2 & G3 & G4 & G5 & G6).
    exists l1, l2, ptr, bytes. cbn [continued_run]. rewrite Hb.
    cbn [mbind option_bind]. split; [done|]. split; [done|]. split; [done|].
    split; [rewrite G4; f_equal; by rewrite <- !app_assoc|].
    split; [intros Hne; apply G5; by rewrite <- app_assoc|].
    rewrite Hn in G6. exact (set_stabbuff_twice _ _ _ _ _ _ _ Hl' G6).
Qed.

(** X1 (continued records with texts that are not empty): when the buffer is
    clear and has room for the joined text, the loop body goes on to the
    next record for each record whose text ends in a backslash, and for
    the record that ends the run the joiner gives the texts joined, the
    backslashes dropped; the other locals are as they were. *)
Theorem continued_run_joined addr lo i (us : list (stab_nlist * list ascii)) l rk t a :
  Forall (λ ru, record_string addr (strs l) ru.1 = Some (ru.2 ++ ["\"%char])) us →
  record_string addr (strs l) rk = Some (t ++ [a]) → a ≠ "\"%char →
  CStr.cstr (stabbuff l) = Some [] →
  Z.of_nat (length (concat us.*2) + length t + 2) ≤ stabbufflen l →
  ∃ l1 l2 ptr bytes,
    continued_run addr lo i us.*1 l = Some l1
    ∧ join addr rk l1 = Some (l2, Some ptr)
    ∧ bytes_at addr l2 ptr = Some bytes
    ∧ CStr.cstr bytes = Some (concat us.*2 ++ t ++ [a])
    ∧ l2 = set_stabbuff (stabbuff l2) (stabbufflen l) l.
Proof.
  intros Hus Hk Ha Hc Hcap.
  destruct (continued_run_acc addr lo us i l [] rk t a Hus Hk Ha Hc Hcap)
    as (l1 & l2 & ptr & bytes & G1 & G2 & G3 & G4 & _ & G6).
  exists l1, l2, ptr, bytes. done.
Qed.

Lemma continued_run_joined_witness :
  ∃ l1 l2 ptr bytes,
    continued_run sample_file 0 0 [rec_so_continued] 
      (initial_locals sample_strtaboff initial_statics) = Some l1
    ∧ join sample_file rec_fun l1 = Some (l2, Some ptr)
    ∧ bytes_at sample_file l2 ptr = Some bytes
    ∧ CStr.cstr bytes = Some (CStr.of_string "xfoo:F1")
    ∧ l2 = set_stabbuff (stabbuff l2) 65536
             (initial_locals sample_strtaboff initial_statics).
Proof.
  apply (continued_run_joined sample_file 0 0 [(rec_so_continued, CStr.of_string "x")]
           (initial_locals sample_strtaboff initial_statics) rec_fun
           (CStr.of_string "foo:F") "1").
  - apply List.Forall_cons; [vm_compute; reflexivity|apply List.Forall_nil].
  - vm_compute. reflexivity.
  - discriminate.
  - vm_compute. reflexivity.
  - vm_compute. discriminate.
Defined.

(** C10 (empty text): the text of [rec_so_empty] is empty and the byte in
    front of it is a backslash; the loop body takes the record for a
    continued one.  An empty text at the very start of the file has no
    byte in front of it, and the body has no defined result. *)
Theorem empty_text_reads_byte_before :
  record_text rec_so_empty = Some []
  ∧ turn_of (DEBUG_ParseStabs_body sample_file 0 0 rec_so_empty
               (initial_locals sample_strtaboff initial_statics)) = Some Continued
  ∧ DEBUG_ParseStabs_body [CStr.NUL] 0 0 (mkStab 0 N_SO 0 0 0)
      (initial_locals 0 initial_statics) = None.
Proof. split_and!; vm_compute; reflexivity. Qed.

(** C7 (continuation joining): the records [x\], the empty text behind it
    and [foo:F1] are a run of two records followed by a run of one; the
    loop joins all three and the function is entered as [xfoo], where the
    function alone gives [foo]. *)
Theorem empty_text_joins_next_record :
  record_text rec_so_continued = Some (CStr.of_string "x\")
  ∧ record_text rec_so_empty = Some []
  ∧ record_text rec_fun = Some (CStr.of_string "foo:F1")
  ∧ symbols_of (run_records [rec_so_continued; rec_so_empty; rec_fun])
    = Some [CStr.of_string "xfoo"]
  ∧ symbols_of (run_records [rec_fun]) = Some [CStr.of_string "foo"].
Proof. split_and!; vm_compute; reflexivity. Qed.

(** *** The buffer between two records *)

Lemma poke_length buf p a buf' :
  CStr.poke buf p a = Some buf' → length buf' = length buf.
Proof.
  unfold CStr.poke. intros H. case_match; [|done]. simplify_eq.
  by rewrite length_insert.
Qed.

Lemma strcpy_down_length buf c src buf' :
  CStr.strcpy_down buf c src = Some buf' → (c < src)%nat →
  length buf' = length buf.
Proof.
  unfold CStr.strcpy_down. intros H Hlt.
  destruct (CStr.strlen (drop src buf)) as [n|] eqn:En; [|done]. simpl in H.
  simplify_eq. pose proof (strlen_lt _ _ En) as Hl. rewrite length_drop in Hl.
  rewrite !length_app, !length_take, !length_drop. lia.
Qed.

Lemma cut_length buf c tc skip buf' :
  cut buf c tc skip = Some buf' → length buf' = length buf.
Proof.
  unfold cut. intros H. destruct (buf !! tc) as [a|]; [|done]. simpl in H.
  destruct (Ascii.eqb a CStr.NUL); [by eapply poke_length|].
  destruct (c <? tc + skip)%nat eqn:E; [|done]. apply Nat.ltb_lt in E.
  by eapply strcpy_down_length.
Qed.

Lemma struct_members_length fuel : ∀ buf tc ct fl st st' buf' tc' fl',
  struct_members fuel buf tc ct fl st = Some (st', buf', tc', fl') →
  length buf' = length buf.
Proof.
  induction fuel as [|fuel IH]; intros buf tc ct fl st st' buf' tc' fl' H; [done|].
  inv_some H.
  - done.
  - apply IH in H. fact_of poke_length. congruence.
  - apply IH in H.
    match goal with E : CStr.poke _ _ _ = Some _ |- _ => apply poke_length in E end.
    congruence.
Qed.

Lemma pass2_step_length buf c ntp tn st st' buf' r :
  pass2_step buf c ntp tn st = Some (st', buf', r) → length buf' = length buf.
Proof.
  unfold_pass2. intros H. inv_some H.
  all: try match goal with
       | E : struct_members _ _ _ _ _ _ = Some _, E' : cut _ _ _ _ = Some _ |- _ =>
           apply struct_members_length in E; apply cut_length in E'; congruence
       end.
  all: try match goal with
       | E : cut _ _ _ _ = Some _ |- _ => by eapply cut_length
       | E : CStr.poke _ _ _ = Some _ |- _ => by eapply poke_length
       end.
  done.
Qed.

Lemma pass2_length fuel : ∀ buf ntp tn st st' buf' ok,
  pass2 fuel buf ntp tn st = Some (st', buf', ok) → length buf' = length buf.
Proof.
  induction fuel as [|fuel IH]; intros buf ntp tn st st' buf' ok H; cbn [pass2] in H.
  - destruct (CStr.strrchr "=" buf) as [[c|]|]; cbn [mbind option_bind] in H;
      by simplify_eq.
  - destruct (CStr.strrchr "=" buf) as [[c|]|]; cbn [mbind option_bind] in H;
      [|by simplify_eq|done].
    destruct (pass2_step buf c ntp tn st) as [[[st1 buf1] [z|]]|] eqn:Es;
      cbn [mbind option_bind] in H; [| |done].
    + apply IH in H. apply pass2_step_length in Es. congruence.
    + simplify_eq. by eapply pass2_step_length.
Qed.

Lemma parse_typedef_length ptr name st st' buf' ok :
  DEBUG_ParseTypedefStab ptr name st = Some (st', buf', ok) →
  length buf' = length ptr.
Proof.
  unfold DEBUG_ParseTypedefStab. intros H.
  destruct (DEBUG_HandlePreviousTypedef name ptr st) as [[st0 [|]]|];
    cbn [mbind option_bind] in H; [by simplify_eq| |done].
  destruct (CStr.strchr_all "=" ptr) as [ps|]; cbn [mbind option_bind] in H; [|done].
  destruct (pass1 ptr ps (Some name) 0 st0) as [[[st1 [n|]] tn]|];
    cbn [mbind option_bind] in H; [|by simplify_eq|done].
  destruct (pass2 _ ptr _ tn st1) as [[[st2 buf2] [|]]|] eqn:E2;
    cbn [mbind option_bind] in H; [| |done].
  - destruct (DEBUG_RegisterTypedef _ _ _ _); cbn [mbind option_bind] in H; [|done].
    simplify_eq. by eapply pass2_length.
  - simplify_eq. by eapply pass2_length.
Qed.

Lemma write_buff_filled at_ s l l' : write_buff at_ s l = Some l' → stabbuff l' ≠ [].
Proof.
  unfold write_buff. intros H. case_match; [|done]. simplify_eq.
  cbn [stabbuff set_stabbuff]. intros E. apply (f_equal length) in E.
  rewrite !length_app in E. simpl in E. lia.
Qed.

Lemma join_filled addr r l l' p :
  join addr r l = Some (l', p) → stabbuff l ≠ [] → stabbuff l' ≠ [].
Proof.
  unfold join. intros H Hl. inv_some H.
  all: try match goal with E : write_buff _ _ _ = Some _ |- _ =>
         by apply write_buff_filled in E end.
  all: done.
Qed.

Lemma typedef_part_filled addr p l l' q :
  typedef_part addr p l = Some (l', q) → stabbuff l ≠ [] → stabbuff l' ≠ [].
Proof.
  unfold typedef_part. intros H Hl.
  destruct (bytes_at addr l p) as [text|]; cbn [mbind option_bind] in H; [|done].
  destruct (CStr.strchr "=" text) as [[k|]|]; cbn [mbind option_bind] in H;
    [|by simplify_eq|done].
  destruct (if bool_decide (p = InBuff) then Some l else _) as [l2|] eqn:E2;
    cbn [mbind option_bind] in H; [|done].
  assert (stabbuff l2 ≠ []) as Hl2.
  { destruct (bool_decide (p = InBuff)); [by simplify_eq|].
    destruct (CStr.cstr text); cbn [mbind option_bind] in E2; [|done].
    by eapply write_buff_filled. }
  destruct (stab_strcpy 4096 (stabbuff l2)); cbn [mbind option_bind] in H; [|done].
  destruct (DEBUG_ParseTypedefStab _ _ _) as [[[g buf] ok]|] eqn:Ep;
    cbn [mbind option_bind] in H; [|done].
  apply parse_typedef_length in Ep.
  assert (buf ≠ []) as Hb.
  { intros ->. destruct (stabbuff l2); [done|]. simpl in Ep. lia. }
  destruct ok; simplify_eq; cbn [stabbuff set_stabbuff set_glob]; [done|].
  intros E. apply (f_equal length) in E. rewrite length_insert in E.
  destruct buf; [done|]. simpl in E. lia.
Qed.

Lemma dispatch_stabbuff addr lo i r q l l' :
  dispatch addr lo i r q l = Some l' → stabbuff l' = stabbuff l.
Proof.
  unfold dispatch, data_symbol, local_symbol, stab_type, symname_of, emit.
  intros H.
  repeat match type of H with
  | (if ?c then _ else _) = Some _ => destruct c
  end.
  all: try (inv_some H; reflexivity).
Qed.

(** X2 (buffer cleared): after a turn of the loop that did not end in a
    continued record, the typedef skipped or the record dispatched, the
    buffer is clear: its first byte is the terminator. *)
Theorem body_leaves_buffer_clear addr lo i r l l' t :
  DEBUG_ParseStabs_body addr lo i r l = Some (l', t) → t ≠ Continued →
  stabbuff l ≠ [] →
  stabbuff l' !! 0%nat = Some CStr.NUL.
Proof.
  unfold DEBUG_ParseStabs_body. intros H Ht Hl.
  destruct (join addr r l) as [[l1 [p|]]|] eqn:Ej; cbn [mbind option_bind] in H;
    [|by simplify_eq|done].
  apply join_filled in Ej; [|done].
  destruct (typedef_part addr p l1) as [[l2 [q|]]|] eqn:Etp;
    cbn [mbind option_bind] in H; [| |done].
  - apply typedef_part_filled in Etp; [|done].
    destruct (dispatch addr lo i r q l2) as [l3|] eqn:Ed; cbn [mbind option_bind] in H;
      [|done].
    apply dispatch_stabbuff in Ed. simplify_eq. cbn [stabbuff set_stabbuff].
    rewrite Ed. destruct (stabbuff l2); done.
  - simplify_eq. unfold typedef_part in Etp.
    destruct (bytes_at addr l1 p); [|done]. cbn [mbind option_bind] in Etp.
    destruct (CStr.strchr "=" l0) as [[k|]|]; cbn [mbind option_bind] in Etp;
      [|done..].
    destruct (if bool_decide (p = InBuff) then Some l1 else _) as [l2|] eqn:E2;
      cbn [mbind option_bind] in Etp; [|done].
    assert (stabbuff l2 ≠ []) as Hl2.
    { destruct (bool_decide (p = InBuff)); [by simplify_eq|].
      destruct (CStr.cstr l0); cbn [mbind option_bind] in E2; [|done].
      by eapply write_buff_filled. }
    destruct (stab_strcpy 4096 (stabbuff l2)); cbn [mbind option_bind] in Etp; [|done].
    destruct (DEBUG_ParseTypedefStab _ _ _) as [[[g buf] [|]]|] eqn:Ep;
      cbn [mbind option_bind] in Etp; [done| |done].
    apply parse_typedef_length in Ep. simplify_eq. cbn [stabbuff set_stabbuff].
    destruct buf; [|done]. destruct (stabbuff l2); [done|]. simpl in Ep. lia.
Qed.

Lemma body_leaves_buffer_clear_witness :
  ∃ l',
    DEBUG_ParseStabs_body sample_file 0 0 rec_so_main
      (initial_locals sample_strtaboff initial_statics) = Some (l', Dispatched)
    ∧ stabbuff l' !! 0%nat = Some CStr.NUL.
Proof.
  destruct (DEBUG_ParseStabs_body sample_file 0 0 rec_so_main
              (initial_locals sample_strtaboff initial_statics))
    as [[l' [| |]]|] eqn:E; try (vm_compute in E; discriminate E).
  exists l'. split; [reflexivity|].
  exact (body_leaves_buffer_clear _ _ _ _ _ _ _ E ltac:(discriminate)
           ltac:(discriminate)).
Defined.

(** *** [N_EXCL] for an include file that is known *)

Lemma find_include_from_found file val : ∀ defs i,
  0 ≤ i →
  find_include_from i file val defs = -1
  ∨ (i ≤ find_include_from i file val defs
     ∧ ∃ d, defs !! Z.to_nat (find_include_from i file val defs - i) = Some d
            ∧ inc_name d = file ∧ inc_value d = val).
Proof.
  induction defs as [|d defs IH]; intros i Hi; cbn [find_include_from]; [by left|].
  destruct ((val =? inc_value d) && bool_decide (file = inc_name d)) eqn:E.
  - right. split; [lia|]. exists d. rewrite Z.sub_diag.
    apply andb_true_iff in E as [Ev%Z.eqb_eq Ef%bool_decide_eq_true]. done.
  - destruct (IH (i + 1) ltac:(lia)) as [H|[H (d' & Hd & Hn)]]; [by left|right].
    split; [lia|]. exists d'. split; [|done].
    replace (Z.to_nat (find_include_from (i + 1) file val defs - i))
      with (S (Z.to_nat (find_include_from (i + 1) file val defs - (i + 1)))) by lia.
    done.
Qed.

Lemma dispatch_excl addr lo i stab ptr l :
  n_type stab = N_EXCL →
  dispatch addr lo i stab ptr l
  = (text ← bytes_at addr l ptr;
     file ← CStr.cstr text;
     '(g, _) ← DEBUG_AddInclude (DEBUG_FindInclude file (n_value stab) (glob l))
                 (glob l);
     Some (set_glob g l)).
Proof. intros H. unfold dispatch. rewrite H. reflexivity. Qed.

(** X3 ([N_EXCL] of a known include file): when the include file of an
    [N_EXCL] record is known, that is when
    [DEBUG_FindInclude] does not return [-1], and the include stack is not
    full, the record pushes the index of the entry with the name and the
    value of the record; the file number of the new stack position is one
    that [DEBUG_FileSubNr2StabEnum] accepts. *)
Theorem excl_pushes_known_index addr lo i stab ptr l text file :
  let idx := DEBUG_FindInclude file (n_value stab) (glob l) in
  let k := cu_include_stk_idx (glob l) + 1 in
  n_type stab = N_EXCL →
  bytes_at addr l ptr = Some text → CStr.cstr text = Some file →
  idx ≠ -1 →
  0 < k < MAX_INCLUDES → (Z.to_nat k < length (cu_include_stack (glob l)))%nat →
  ∃ l' d,
    dispatch addr lo i stab ptr l = Some l'
    ∧ cu_include_stk_idx (glob l') = k
    ∧ cu_include_stack (glob l') !! Z.to_nat k = Some idx
    ∧ include_defs (glob l') !! Z.to_nat idx = Some d
    ∧ inc_name d = file ∧ inc_value d = n_value stab
    ∧ resolvable k (glob l').
Proof.
  intros idx k Ht Hb Hc Hfound Hk Hlen.
  rewrite (dispatch_excl _ _ _ _ _ _ Ht), Hb. cbn [mbind option_bind].
  rewrite Hc. cbn [mbind option_bind]. fold idx.
  unfold DEBUG_AddInclude. fold k.
  rewrite (proj2 (andb_true_iff _ _)) by (split; [apply Z.leb_le|apply Z.ltb_lt]; lia).
  cbn [mbind option_bind].
  destruct (find_include_from_found file (n_value stab) (include_defs (glob l)) 0
              ltac:(lia)) as [H|[H0 (d & Hd & Hn & Hv)]]; [done|].
  fold (DEBUG_FindInclude file (n_value stab) (glob l)) in H0, Hd. fold idx in H0, Hd.
  rewrite Z.sub_0_r in Hd.
  eexists _, d. split; [reflexivity|]. cbn.
  split; [done|]. split; [by apply list_lookup_insert_eq|]. split; [done|].
  split; [done|]. split; [done|]. right. cbn. split; [lia|].
  exists idx. split; [by apply list_lookup_insert_eq|]. split; [done|].
  by eapply lookup_lt_Some.
Qed.

Lemma excl_pushes_known_index_witness :
  ∃ l' d,
    dispatch sample_file 0 2 rec_excl (InFile 10) known_include_locals = Some l'
    ∧ cu_include_stk_idx (glob l') = 2
    ∧ cu_include_stack (glob l') !! 2%nat = Some 0
    ∧ include_defs (glob l') !! 0%nat = Some d
    ∧ inc_name d = CStr.of_string "h.h" ∧ inc_value d = 7
    ∧ resolvable 2 (glob l').
Proof.
  apply (excl_pushes_known_index sample_file 0 2 rec_excl (InFile 10)
           known_include_locals (drop 10 sample_file) (CStr.of_string "h.h"));
    try (vm_compute; reflexivity).
  - vm_compute. discriminate.
  - vm_compute. split; reflexivity.
  - vm_compute. lia.
Defined.

(** C9 (include re-export): an [N_EXCL] record that names no known include
    file pushes the [-1] of [DEBUG_FindInclude] on the include stack, and
    the next symbol whose type is [(1,3)] has no defined result; the same
    records with [N_BINCL] in place of [N_EXCL] are parsed. *)
Theorem excl_pushes_not_found :
  DEBUG_FindInclude (CStr.of_string "h.h") 7 (glob sample_locals) = -1
  ∧ include_stack_of (run_records [rec_so_main; rec_excl]) = Some [0; -1]
  ∧ run_records [rec_so_main; rec_excl; rec_gsym] = None
  ∧ symbols_of (run_records [rec_so_main; rec_bincl; rec_gsym])
    = Some [CStr.of_string "v"].
Proof. split_and!; vm_compute; reflexivity. Qed.

(** ** The helpers of the parser *)

(** *** The hash and the bounded copy *)

Lemma low_bits x k :
  0 ≤ k → (∀ n, k ≤ n → Z.testbit x n = false) → 0 ≤ x < 2 ^ k.
Proof.
  intros Hk H.
  assert (x = x mod 2 ^ k) as ->.
  { apply Z.bits_inj'. intros n Hn. destruct (Z.lt_ge_cases n k).
    - by rewrite Z.mod_pow2_bits_low.
    - rewrite Z.mod_pow2_bits_high by lia. by apply H. }
  apply Z.mod_pos_bound. by apply Z.pow_pos_nonneg.
Qed.

Lemma wrap32_high z n : 32 ≤ n → Z.testbit (wrap32 z) n = false.
Proof. intros Hn. unfold wrap32. apply Z.mod_pow2_bits_high. lia. Qed.

Lemma stab_hash_step_bound hash a : 0 ≤ stab_hash_step hash a < 2 ^ 28.
Proof.
  apply low_bits; [lia|]. intros n Hn. unfold stab_hash_step. cbv zeta.
  set (h := wrap32 (Z.shiftl hash 4 + CStr.char_val a)).
  set (tmp := Z.land h 4026531840).
  rewrite Z.land_spec.
  destruct (Z.lt_ge_cases n 32) as [Hlt|Hge];
    [|by rewrite (wrap32_high _ n Hge), andb_false_r].
  assert (Z.testbit (if tmp =? 0 then h else Z.lxor h (Z.shiftr tmp 24)) n
          = Z.testbit h n) as ->.
  { destruct (tmp =? 0); [done|].
    rewrite Z.lxor_spec, Z.shiftr_spec by lia. unfold tmp.
    rewrite Z.land_spec. unfold h at 2.
    rewrite (wrap32_high _ (n + 24)) by lia. by rewrite xorb_false_r. }
  unfold wrap32. rewrite Z.mod_pow2_bits_low, Z.lnot_spec by lia.
  unfold tmp. rewrite Z.land_spec.
  assert (Z.testbit 4026531840 n = true) as ->.
  { assert (n = 28 ∨ n = 29 ∨ n = 30 ∨ n = 31) as [-> | [-> | [-> | ->]]] by lia;
      reflexivity. }
  by destruct (Z.testbit h n).
Qed.

Lemma stab_hash_fold_bound name : ∀ acc,
  0 ≤ acc < 2 ^ 28 → 0 ≤ fold_left stab_hash_step name acc < 2 ^ 28.
Proof.
  induction name as [|a name IH]; intros acc Hacc; [done|].
  apply IH, stab_hash_step_bound.
Qed.

Lemma stab_hash_bound name : 0 ≤ stab_hash name < NR_STAB_HASH.
Proof. unfold stab_hash. apply Z.mod_pos_bound. reflexivity. Qed.

Lemma chain_of_hash name st :
  length (ktd_head st) = Z.to_nat NR_STAB_HASH →
  ∃ chain, ktd_head st !! Z.to_nat (stab_hash name) = Some chain.
Proof.
  intros Hlen. apply lookup_lt_is_Some_2. rewrite Hlen.
  pose proof (stab_hash_bound name). lia.
Qed.

(** X4 (hash): whatever the name, the running value of [stab_hash] fits
    in 28 bits, its top four bits being folded back at every byte, and
    the result is a subscript of the [NR_STAB_HASH] chains: on a registry
    of that many chains the search for a name never leaves the table. *)
Theorem stab_hash_in_range name st :
  0 ≤ fold_left stab_hash_step name 0 < 2 ^ 28
  ∧ 0 ≤ stab_hash name < NR_STAB_HASH
  ∧ (length (ktd_head st) = Z.to_nat NR_STAB_HASH →
     is_Some (find_typedef name st)).
Proof.
  split; [by apply stab_hash_fold_bound|].
  split; [apply stab_hash_bound|].
  intros Hlen. destruct (chain_of_hash name st Hlen) as [chain Hc].
  unfold find_typedef. rewrite Hc. by eexists.
Qed.

Lemma stab_strcpy_loop_eq fuel source :
  stab_strcpy_loop fuel source
  = match source with
    | [] => None
    | a :: source' =>
        if Ascii.eqb a CStr.NUL || Ascii.eqb a ":" then Some []
        else match fuel with
             | O => None
             | S fuel' => (a ::.) <$> stab_strcpy_loop fuel' source'
             end
    end.
Proof. by destruct fuel. Qed.

Lemma stab_strcpy_loop_spec source : ∀ fuel d,
  stab_strcpy_loop fuel source = Some d ↔
  ∃ stop rest, source = d ++ stop :: rest
    ∧ (stop = CStr.NUL ∨ stop = ":"%char)
    ∧ (CStr.NUL ∉ d) ∧ (":"%char ∉ d) ∧ (length d ≤ fuel)%nat.
Proof.
  induction source as [|a source IH]; intros fuel d;
    rewrite stab_strcpy_loop_eq.
  { split; [done|]. intros (stop & rest & H & _). by destruct d. }
  destruct (Ascii.eqb_spec a CStr.NUL) as [->|Hn]; simpl.
  { split.
    - intros [= <-]. exists CStr.NUL, source. split_and!; try done.
      + by left.
      + apply not_elem_of_nil.
      + apply not_elem_of_nil.
      + simpl; lia.
    - intros (stop & rest & H & _ & Hd & _). destruct d as [|b d]; [done|].
      injection H as <- _. exfalso. apply Hd. by left. }
  destruct (Ascii.eqb_spec a ":") as [->|Hc]; simpl.
  { split.
    - intros [= <-]. exists ":"%char, source. split_and!; try done.
      + by right.
      + apply not_elem_of_nil.
      + apply not_elem_of_nil.
      + simpl; lia.
    - intros (stop & rest & H & _ & _ & Hd & _). destruct d as [|b d]; [done|].
      injection H as <- _. exfalso. apply Hd. by left. }
  destruct fuel as [|fuel].
  { split; [done|]. intros (stop & rest & H & Hs & _ & _ & Hl).
    destruct d as [|b d]; [|simpl in Hl; lia].
    injection H as <- _. by destruct Hs. }
  split.
  - intros H. destruct (stab_strcpy_loop fuel source) as [d'|] eqn:E; [|done].
    injection H as <-. apply IH in E as (stop & rest & -> & Hs & Hd1 & Hd2 & Hl).
    exists stop, rest. split_and!; try done.
    + by apply not_elem_of_cons.
    + by apply not_elem_of_cons.
    + simpl. lia.
  - intros (stop & rest & H & Hs & Hd1 & Hd2 & Hl).
    destruct d as [|b d]; [injection H as <- _; by destruct Hs|].
    injection H as <- ->.
    apply not_elem_of_cons in Hd1 as [_ Hd1]. apply not_elem_of_cons in Hd2 as [_ Hd2].
    assert (stab_strcpy_loop fuel (d ++ stop :: rest) = Some d) as ->; [|done].
    apply IH. exists stop, rest. split_and!; try done. simpl in Hl. lia.
Qed.

(** X5 (bounded copy): [stab_strcpy] gives the bytes in front of the
    first [':'] or terminator of its source, and it returns at all exactly
    when fewer than [sz] bytes stand there; with [sz] bytes or more, or
    with [sz <= 0], the closing [assert] stops the program. *)
Theorem stab_strcpy_spec sz source d :
  stab_strcpy sz source = Some d ↔
  ∃ stop rest, source = d ++ stop :: rest
    ∧ (stop = CStr.NUL ∨ stop = ":"%char)
    ∧ (CStr.NUL ∉ d) ∧ (":"%char ∉ d) ∧ Z.of_nat (length d) < sz.
Proof.
  unfold stab_strcpy. destruct (Z.leb_spec sz 0) as [Hs|Hs].
  - split; [done|]. intros (stop & rest & _ & _ & _ & _ & Hl). lia.
  - rewrite stab_strcpy_loop_spec. split.
    + intros (stop & rest & H1 & H2 & H3 & H4 & H5).
      exists stop, rest. split_and!; try done. lia.
    + intros (stop & rest & H1 & H2 & H3 & H4 & H5).
      exists stop, rest. split_and!; try done. lia.
Qed.

(** *** The include files *)

Lemma is_include_test file val d :
  (val =? inc_value d) && bool_decide (file = inc_name d) = true
  ↔ is_include file val d.
Proof.
  unfold is_include. rewrite andb_true_iff, Z.eqb_eq, bool_decide_eq_true.
  split; intros [H1 H2]; by split.
Qed.

Lemma find_include_from_spec file val : ∀ defs i,
  (find_include_from i file val defs = -1
   ∧ Forall (λ d, ¬ is_include file val d) defs)
  ∨ (∃ k d, find_include_from i file val defs = i + Z.of_nat k
       ∧ defs !! k = Some d ∧ is_include file val d
       ∧ ∀ j d', (j < k)%nat → defs !! j = Some d' → ¬ is_include file val d').
Proof.
  induction defs as [|d defs IH]; intros i; cbn [find_include_from].
  { left. split; [done|apply List.Forall_nil]. }
  destruct ((val =? inc_value d) && bool_decide (file = inc_name d)) eqn:E.
  - right. exists 0%nat, d. apply is_include_test in E.
    split; [lia|]. split; [done|]. split; [done|]. intros j d' Hj. lia.
  - assert (¬ is_include file val d) as Hd.
    { intros H%is_include_test. congruence. }
    destruct (IH (i + 1)) as [[H1 H2]|(k & d1 & H1 & H2 & H3 & H4)].
    + left. split; [done|]. by apply List.Forall_cons.
    + right. exists (S k), d1. split; [lia|]. split; [done|]. split; [done|].
      intros [|j] d' Hj Hl; [by injection Hl as <-|].
      apply (H4 j d'); [lia|done].
Qed.

(** X6 (search of an include file): [DEBUG_FindInclude] returns the rank
    of the first entry with the name and the value asked for, and [-1]
    exactly when no entry has both. *)
Theorem find_include_first_match file val st :
  (DEBUG_FindInclude file val st = -1
   ∧ ∀ d, d ∈ include_defs st → ¬ is_include file val d)
  ∨ (∃ k d, DEBUG_FindInclude file val st = Z.of_nat k
       ∧ include_defs st !! k = Some d ∧ is_include file val d
       ∧ ∀ j d', (j < k)%nat → include_defs st !! j = Some d' →
           ¬ is_include file val d').
Proof.
  unfold DEBUG_FindInclude.
  destruct (find_include_from_spec file val (include_defs st) 0)
    as [[H1 H2]|(k & d & H1 & H2 & H3 & H4)].
  - left. split; [done|]. intros d Hd. by apply (proj1 (Forall_forall _ _) H2).
  - right. exists k, d. split; [by rewrite H1|done].
Qed.

Lemma find_include_from_app file val d : ∀ defs i,
  0 ≤ i →
  find_include_from i file val (defs ++ [d])
  = if find_include_from i file val defs =? -1
    then (if (val =? inc_value d) && bool_decide (file = inc_name d)
          then i + Z.of_nat (length defs) else -1)
    else find_include_from i file val defs.
Proof.
  induction defs as [|d0 defs IH]; intros i Hi; cbn [find_include_from app length].
  { rewrite Z.add_0_r. by destruct (_ && _). }
  destruct ((val =? inc_value d0) && bool_decide (file = inc_name d0)).
  - destruct (Z.eqb_spec i (-1)); [lia|done].
  - rewrite IH by lia. destruct (_ =? -1); [|done].
    destruct (_ && _); [|done]. lia.
Qed.

(** X7 (a new include file): [DEBUG_CreateInclude] appends an entry with
    an empty table and returns its rank.  A search for the same name and
    value then gives that rank, unless an older entry has both, which
    is found first; every other search gives what it gave before. *)
Theorem create_then_find file val st :
  let st' := (DEBUG_CreateInclude file val st).1 in
  let idx := (DEBUG_CreateInclude file val st).2 in
  idx = Z.of_nat (length (include_defs st))
  ∧ include_defs st' = include_defs st ++ [mkInclude file val []]
  ∧ DEBUG_FindInclude file val st'
    = (if DEBUG_FindInclude file val st =? -1 then idx
       else DEBUG_FindInclude file val st)
  ∧ ∀ f v, ¬ (f = file ∧ v = val) →
      DEBUG_FindInclude f v st' = DEBUG_FindInclude f v st.
Proof.
  cbn. split; [done|]. split; [done|]. unfold DEBUG_FindInclude. cbn. split.
  - rewrite find_include_from_app by lia. cbn.
    rewrite Z.eqb_refl, bool_decide_eq_true_2 by done. done.
  - intros f v Hne. rewrite find_include_from_app by lia. cbn.
    destruct (Z.eqb_spec (find_include_from 0 f v (include_defs st)) (-1)) as [->|];
      [|done].
    destruct (Z.eqb_spec v val) as [->|]; [|done].
    rewrite bool_decide_eq_false_2; [done|]. intros ->. by apply Hne.
Qed.

Lemma dispatch_bincl addr lo i stab ptr l :
  n_type stab = N_BINCL →
  dispatch addr lo i stab ptr l
  = (text ← bytes_at addr l ptr;
     file ← CStr.cstr text;
     let '(g, idx) := DEBUG_CreateInclude file (n_value stab) (glob l) in
     '(g, _) ← DEBUG_AddInclude idx g;
     Some (set_glob g l)).
Proof. intros H. unfold dispatch. rewrite H. reflexivity. Qed.

(** X8 ([N_BINCL]): the record of an include file, met with room on the
    include stack, appends an entry for the file and pushes its rank: the
    next file number stands for the new file, whose table is empty, so
    that every type number of the file for which a table fits the
    address space resolves to an empty cell; the file numbers below keep
    their meaning. *)
Theorem bincl_opens_empty_table addr lo i stab ptr l text file s :
  let k := cu_include_stk_idx (glob l) + 1 in
  let idx := length (include_defs (glob l)) in
  n_type stab = N_BINCL →
  bytes_at addr l ptr = Some text → CStr.cstr text = Some file →
  0 < k < MAX_INCLUDES → (Z.to_nat k < length (cu_include_stack (glob l)))%nat →
  0 ≤ s → fits s = true →
  ∃ l' st',
    dispatch addr lo i stab ptr l = Some l'
    ∧ cu_include_stk_idx (glob l') = k
    ∧ include_defs (glob l')
      = include_defs (glob l) ++ [mkInclude file (n_value stab) []]
    ∧ DEBUG_FileSubNr2StabEnum k s (glob l') = Some (st', IncSlot idx s)
    ∧ load st' (IncSlot idx s) = Some None
    ∧ ∀ j, (j < Z.to_nat k)%nat →
        cu_include_stack (glob l') !! j = cu_include_stack (glob l) !! j.
Proof.
  intros k idx Ht Hb Hc Hk Hlen Hs Hfit.
  rewrite (dispatch_bincl _ _ _ _ _ _ Ht), Hb. cbn [mbind option_bind].
  rewrite Hc. cbn [mbind option_bind].
  unfold DEBUG_CreateInclude, DEBUG_AddInclude. cbn. fold k.
  rewrite (proj2 (andb_true_iff _ _)) by (split; [apply Z.leb_le|apply Z.ltb_lt]; lia).
  cbn. eexists _, _. split; [reflexivity|]. cbn.
  split; [done|]. split; [done|].
  unfold DEBUG_FileSubNr2StabEnum. cbn.
  destruct (Z.eqb_spec k 0) as [|_]; [lia|].
  destruct (Z.ltb_spec k k) as [|_]; [lia|].
  destruct (Z.ltb_spec k 0) as [|_]; [lia|].
  rewrite list_lookup_insert_eq by done. cbn.
  destruct (Z.ltb_spec (Z.of_nat (length (include_defs (glob l)))) 0) as [|_]; [lia|].
  rewrite Nat2Z.id, lookup_app_r, Nat.sub_diag by done. cbn.
  rewrite (grow_fits s []) by done. cbn. fold idx.
  split; [reflexivity|]. split.
  - etrans.
    { apply (cell_grow_inc (mkInclude file (n_value stab) []) s idx). cbn.
      by rewrite lookup_app_r, Nat.sub_diag. }
    unfold cell. by destruct (Z.leb_spec 0 s) as [_|]; [|lia].
  - intros j Hj. apply list_lookup_insert_ne. lia.
Qed.

Lemma bincl_opens_empty_table_witness :
  ∃ l' st',
    dispatch sample_file 0 1 rec_bincl (InFile 10) sample_locals = Some l'
    ∧ cu_include_stk_idx (glob l') = 1
    ∧ include_defs (glob l') = [mkInclude (CStr.of_string "h.h") 7 []]
    ∧ DEBUG_FileSubNr2StabEnum 1 3 (glob l') = Some (st', IncSlot 0 3)
    ∧ load st' (IncSlot 0 3) = Some None
    ∧ ∀ j, (j < 1)%nat →
        cu_include_stack (glob l') !! j = cu_include_stack (glob sample_locals) !! j.
Proof.
  apply (bincl_opens_empty_table sample_file 0 1 rec_bincl (InFile 10)
           sample_locals (drop 10 sample_file) (CStr.of_string "h.h") 3);
    try (vm_compute; reflexivity).
  - vm_compute. split; reflexivity.
  - vm_compute. lia.
  - lia.
Defined.

(** *** The tables of type numbers *)

(** X9 (a new compilation unit): [DEBUG_ResetIncludes] empties every cell
    of the table of the unit and keeps its size, leaves the tables of the
    include files as they are, and brings the include stack back to the
    unit itself: no file number but 0 resolves any more.  Nodes and
    registry are not touched. *)
Theorem reset_includes_spec st :
  let st' := DEBUG_ResetIncludes st in
  (∀ n, load st' (CuSlot n) = (λ _, None) <$> load st (CuSlot n))
  ∧ (∀ i n, load st' (IncSlot i n) = load st (IncSlot i n))
  ∧ (∀ f s, f ≠ 0 → DEBUG_FileSubNr2StabEnum f s st' = None)
  ∧ heap st' = heap st ∧ ktd_head st' = ktd_head st
  ∧ include_defs st' = include_defs st.
Proof.
  cbn. split_and!; try done.
  - intros n. unfold load, DEBUG_ResetIncludes, index_ok. cbn.
    rewrite length_replicate.
    destruct ((0 <=? n) && (n <? Z.of_nat (length (cu_vector st)))) eqn:E; [|done].
    apply andb_true_iff in E as [E1%Z.leb_le E2%Z.ltb_lt].
    rewrite lookup_replicate_2 by lia.
    destruct (lookup_lt_is_Some_2 (cu_vector st) (Z.to_nat n) ltac:(lia)) as [x ->].
    done.
  - intros f s Hf. unfold DEBUG_FileSubNr2StabEnum, DEBUG_ResetIncludes. cbn.
    destruct (Z.eqb_spec f 0) as [|_]; [done|].
    destruct (Z.ltb_spec 0 f) as [|H1]; [done|].
    destruct (Z.ltb_spec f 0) as [|H2]; [done|lia].
Qed.

Lemma fits_bound n : fits n = true ↔ n < 2 ^ 30 - 1.
Proof.
  unfold fits, PTR_SIZE. rewrite Z.ltb_lt.
  change (2 ^ 32) with 4294967296. change (2 ^ 30) with 1073741824. lia.
Qed.

Lemma cell_load_cu st s :
  cell (cu_vector st) s
  = if 0 <=? s then Some (from_option id None (load st (CuSlot s))) else None.
Proof.
  unfold cell, load, index_ok. destruct (Z.leb_spec 0 s) as [Hs|]; [|done]. cbn.
  destruct (Z.ltb_spec s (Z.of_nat (length (cu_vector st)))) as [|Hl]; [done|].
  rewrite lookup_ge_None_2 by lia. done.
Qed.

Lemma cell_load_inc st idx d s :
  include_defs st !! idx = Some d →
  cell (inc_vector d) s
  = if 0 <=? s then Some (from_option id None (load st (IncSlot idx s))) else None.
Proof.
  intros Hd. unfold cell, load, index_ok. rewrite Hd. cbn.
  destruct (Z.leb_spec 0 s) as [Hs|]; [|done]. cbn.
  destruct (Z.ltb_spec s (Z.of_nat (length (inc_vector d)))) as [|Hl]; [done|].
  rewrite lookup_ge_None_2 by lia. done.
Qed.

Lemma grow_again s v w : grow s v = Some w → grow s w = Some w.
Proof.
  unfold grow. intros H. destruct (Z.leb_spec (Z.of_nat (length v)) s) as [Hl|Hl].
  - destruct (fits s); [|done]. simplify_eq.
    rewrite length_app, length_replicate.
    by rewrite (proj2 (Z.leb_gt _ _)) by lia.
  - simplify_eq. by rewrite (proj2 (Z.leb_gt _ _)) by lia.
Qed.

Lemma resolve_again f s st st' dt :
  DEBUG_FileSubNr2StabEnum f s st = Some (st', dt) →
  DEBUG_FileSubNr2StabEnum f s st' = Some (st', dt).
Proof.
  unfold DEBUG_FileSubNr2StabEnum. destruct (f =? 0).
  { destruct (grow s (cu_vector st)) as [w|] eqn:G; [|done]. cbn.
    intros [= <- <-]. cbn. rewrite (grow_again _ _ _ G). done. }
  destruct (cu_include_stk_idx st <? f) eqn:E1; [done|].
  destruct (f <? 0) eqn:E2; [done|].
  destruct (cu_include_stack st !! Z.to_nat f) as [idx|] eqn:E3; [|done]. cbn.
  destruct (idx <? 0) eqn:E4; [done|].
  destruct (include_defs st !! Z.to_nat idx) as [d|] eqn:E5; [|done]. cbn.
  destruct (grow s (inc_vector d)) as [w|] eqn:G; [|done]. cbn.
  intros [= <- <-]. cbn. rewrite E1, E3. cbn. rewrite E4.
  rewrite list_lookup_insert_eq by (by eapply lookup_lt_Some). cbn.
  rewrite (grow_again _ _ _ G). cbn. rewrite list_insert_insert_eq. done.
Qed.

(** X10 (the cell of a type number): when [DEBUG_FileSubNr2StabEnum] has
    a defined result, it has grown the table up to the subscript asked
    for and gives its cell.  The cell holds what it held before, or
    nothing when it is new; every other cell keeps its content and
    nothing but the table is changed.  Asking for the same number again
    gives the same cell and changes nothing at all.  For the file number
    0 and a subscript that is not negative there is a defined result
    exactly when the subscript lies within the table or below
    [2^30 - 1]: beyond, the size of the new block wraps. *)
Theorem resolve_cell f s st st' dt :
  DEBUG_FileSubNr2StabEnum f s st = Some (st', dt) →
  load st' dt
  = (if 0 <=? s then Some (from_option id None (load st dt)) else None)
  ∧ loads_kept st st'
  ∧ frame st st'
  ∧ DEBUG_FileSubNr2StabEnum f s st' = Some (st', dt)
  ∧ (∀ n, 0 ≤ n →
       is_Some (DEBUG_FileSubNr2StabEnum 0 n st)
       ↔ n < Z.of_nat (length (cu_vector st)) ∨ n < 2 ^ 30 - 1).
Proof.
  intros H. split; [|split; [by eapply resolve_loads_kept|
                     split; [by eapply resolve_frame|
                     split; [by apply (resolve_again f s st)|]]]].
  2: { intros n _. unfold DEBUG_FileSubNr2StabEnum. cbn [Z.eqb].
       rewrite <- (fits_bound n), <- grow_is_some.
       destruct (grow n (cu_vector st)); cbn [mbind option_bind];
         split; intros [x Hx]; by eauto. }
  revert H. unfold DEBUG_FileSubNr2StabEnum. destruct (f =? 0).
  { destruct (grow s (cu_vector st)) as [w|] eqn:G; [|done]. grown_facts. cbn.
    intros [= <- <-]. rewrite cell_grow. apply cell_load_cu. }
  destruct (cu_include_stk_idx st <? f) eqn:E1; [done|].
  destruct (f <? 0) eqn:E2; [done|].
  destruct (cu_include_stack st !! Z.to_nat f) as [idx|] eqn:E3; [|done]. cbn.
  destruct (idx <? 0) eqn:E4; [done|].
  destruct (include_defs st !! Z.to_nat idx) as [d|] eqn:E5; [|done]. cbn.
  destruct (grow s (inc_vector d)) as [w|] eqn:G; [|done]. grown_facts. cbn.
  intros [= <- <-]. etrans; [by apply (cell_grow_inc d)|].
  exact (cell_load_inc st (Z.to_nat idx) d s E5).
Qed.

Lemma resolve_cell_witness :
  load (set_cu_vector (grown 7 (cu_vector int_state)) int_state) (CuSlot 7)
  = (if 0 <=? 7 then Some (from_option id None (load int_state (CuSlot 7))) else None)
  ∧ loads_kept int_state (set_cu_vector (grown 7 (cu_vector int_state)) int_state)
  ∧ frame int_state (set_cu_vector (grown 7 (cu_vector int_state)) int_state)
  ∧ DEBUG_FileSubNr2StabEnum 0 7
      (set_cu_vector (grown 7 (cu_vector int_state)) int_state)
    = Some (set_cu_vector (grown 7 (cu_vector int_state)) int_state, CuSlot 7)
  ∧ (∀ n, 0 ≤ n →
       is_Some (DEBUG_FileSubNr2StabEnum 0 n int_state)
       ↔ n < Z.of_nat (length (cu_vector int_state)) ∨ n < 2 ^ 30 - 1).
Proof.
  apply (resolve_cell 0 7 int_state). reflexivity.
Defined.

(** *** A reference read from either end *)

Lemma scan_back_run cond l a rest :
  Forall (λ b, cond b = true) l → cond a = false →
  scan_back cond (l ++ a :: rest) = Some (length l).
Proof.
  intros Hl Ha. induction Hl as [|b l Hb Hl IH]; cbn [app scan_back length].
  - by rewrite Ha.
  - by rewrite Hb, IH.
Qed.

Lemma dec_nonneg_digits z : 0 ≤ z → Forall (λ a, CStr.isdigit a = true) (dec z).
Proof.
  intros Hz. unfold dec. destruct (Z.ltb_spec z 0); [lia|].
  apply uint_chars_digits.
Qed.

Lemma digit_not_paren a : CStr.isdigit a = true → Ascii.eqb a "(" = false.
Proof.
  intros Ha%isdigit_ord. apply ord_inj_eqb. change (CStr.ord "(") with 40. lia.
Qed.

Lemma digit_not_closing a : CStr.isdigit a = true → Ascii.eqb a ")" = false.
Proof.
  intros Ha%isdigit_ord. apply ord_inj_eqb. change (CStr.ord ")") with 41. lia.
Qed.

Lemma take_at {A} (text pre suf : list A) n :
  text = pre ++ suf → n = length pre → take n text = pre.
Proof. intros -> ->. apply take_app_length. Qed.

Ltac list_norm := repeat (progress (rewrite <- ?app_assoc; cbn [app])).
Ltac list_len :=
  repeat (progress (rewrite ?length_app, ?length_rev; cbn [length])); lia.

Lemma read_backwards_ref pre b r e rest :
  0 ≤ (ref_numbers r).1 → in_long (ref_numbers r).1 →
  0 ≤ (ref_numbers r).2 → in_long (ref_numbers r).2 →
  CStr.isdigit b = false → CStr.isdigit e = false →
  read_backwards (pre ++ b :: ref_chars r ++ e :: rest)
    (length pre + length (ref_chars r))
  = Some (ref_numbers r).
Proof.
  intros Hf0 Hf Hn0 Hn Hb He. unfold read_backwards.
  destruct r as [n|f n]; cbn [ref_chars ref_numbers fst snd] in *.
  - pose proof (dec_nonneg_digits n Hn0) as Hd.
    pose proof (strtol_dec n e rest Hn He) as Hv.
    destruct (dec_nonneg_head n Hn0) as (a0 & l0 & Ha0 & _).
    destruct (dec n) as [|c0 cs _] using rev_ind; [done|]. clear a0 l0 Ha0.
    apply Forall_app in Hd as [Hcs Hc0].
    apply (proj1 (Forall_singleton _ _)) in Hc0.
    rewrite (lookup_at _ (pre ++ b :: cs) (e :: rest) c0);
      [|by list_norm|list_len].
    cbn [mbind option_bind]. rewrite (digit_not_closing _ Hc0).
    rewrite (take_at _ (pre ++ b :: cs ++ [c0]) (e :: rest));
      [|by list_norm|list_len].
    assert (rev (pre ++ b :: cs ++ [c0]) = (c0 :: rev cs) ++ b :: rev pre) as ->.
    { rewrite rev_app_distr. cbn [rev]. rewrite rev_app_distr. cbn [rev app].
      by list_norm. }
    rewrite scan_back_run; [|apply Forall_cons; split;
                               [done|by apply Forall_rev]|done].
    cbn [mbind option_bind].
    replace (length pre + length (cs ++ [c0]) - length (c0 :: rev cs) + 1)%nat
      with (S (length pre)) by list_len.
    rewrite (drop_at _ (pre ++ [b]) ((cs ++ [c0]) ++ e :: rest));
      [|by list_norm|list_len].
    rewrite Hv. done.
  - pose proof (dec_nonneg_digits f Hf0) as Hdf.
    pose proof (dec_nonneg_digits n Hn0) as Hdn.
    rewrite (lookup_at _ (pre ++ b :: "("%char :: dec f ++ ","%char :: dec n)
               (e :: rest) ")"%char); [|by list_norm|list_len].
    cbn [mbind option_bind]. change (Ascii.eqb ")" ")") with true. cbv iota.
    rewrite (take_at _ (pre ++ b :: "("%char :: dec f ++ ","%char :: dec n ++ [")"%char])
               (e :: rest)); [|by list_norm|list_len].
    assert (rev (pre ++ b :: "("%char :: dec f ++ ","%char :: dec n ++ [")"%char])
            = (")"%char :: rev (dec n) ++ ","%char :: rev (dec f))
                ++ "("%char :: b :: rev pre) as ->.
    { rewrite rev_app_distr. cbn [rev]. rewrite !rev_app_distr.
      cbn [rev app]. rewrite rev_app_distr. cbn [rev app]. by list_norm. }
    rewrite scan_back_run.
    2:{ apply Forall_cons. split; [done|]. apply Forall_app. split.
        - apply Forall_rev. eapply Forall_impl; [exact Hdn|].
          intros a Ha. cbn beta. by rewrite (digit_not_paren _ Ha).
        - apply Forall_cons. split; [done|]. apply Forall_rev.
          eapply Forall_impl; [exact Hdf|].
          intros a Ha. cbn beta. by rewrite (digit_not_paren _ Ha). }
    2:{ done. }
    cbn [mbind option_bind].
    replace (length pre + length ("("%char :: dec f ++ ","%char :: dec n ++ [")"%char])
             - length (")"%char :: rev (dec n) ++ ","%char :: rev (dec f)) + 1)%nat
      with (length pre + 2)%nat by list_len.
    rewrite (drop_at _ (pre ++ [b; "("%char])
               (dec f ++ ","%char :: dec n ++ ")"%char :: e :: rest));
      [|by list_norm|list_len].
    rewrite strtol_dec by done. cbn [mbind option_bind].
    rewrite (drop_at _ (pre ++ [b; "("%char] ++ dec f ++ [","%char])
               (dec n ++ ")"%char :: e :: rest)); [|by list_norm|list_len].
    rewrite strtol_dec by done. done.
Qed.

(** X11 (a reference read from either end): a type reference in the
    text, a bare subscript or a file number and a subscript in
    parentheses, neither negative, with no digit in front of it or behind
    it, is read by [DEBUG_ReadTypeEnum] from its first byte and by
    [DEBUG_ReadTypeEnumBackwards] from its last byte as the same pair of
    numbers; the forward reader stops on the byte behind the reference. *)
Theorem reference_read_both_ways pre b r e rest :
  let buf := pre ++ b :: ref_chars r ++ e :: rest in
  let x := S (length pre) in
  0 ≤ (ref_numbers r).1 → in_long (ref_numbers r).1 →
  0 ≤ (ref_numbers r).2 → in_long (ref_numbers r).2 →
  CStr.isdigit b = false → CStr.isdigit e = false →
  read_forwards buf x
  = Some ((ref_numbers r).1, (ref_numbers r).2, (x + length (ref_chars r))%nat)
  ∧ read_backwards buf (x + length (ref_chars r) - 1) = Some (ref_numbers r)
  ∧ ∀ st, DEBUG_ReadTypeEnumBackwards buf (x + length (ref_chars r)) st
          = (λ r, (r.1.1, r.1.2)) <$> DEBUG_ReadTypeEnum buf x st.
Proof.
  intros buf x Hf0 Hf Hn0 Hn Hb He.
  assert (read_forwards buf x
          = Some ((ref_numbers r).1, (ref_numbers r).2,
                  (x + length (ref_chars r))%nat)) as HF.
  { apply (read_forwards_ref buf x r e rest); try done.
    unfold buf, x. apply (drop_at _ (pre ++ [b])).
    - by rewrite <- app_assoc.
    - rewrite length_app. cbn [length]. lia. }
  assert (read_backwards buf (x + length (ref_chars r) - 1) = Some (ref_numbers r))
    as HB.
  { unfold x, buf.
    replace (S (length pre) + length (ref_chars r) - 1)%nat
      with (length pre + length (ref_chars r))%nat by lia.
    by apply read_backwards_ref. }
  split; [done|]. split; [done|]. intros st.
  unfold DEBUG_ReadTypeEnumBackwards, DEBUG_ReadTypeEnum. rewrite HF.
  cbn [mbind option_bind].
  replace (x + length (ref_chars r))%nat
    with (S (x + length (ref_chars r) - 1)) by (unfold x; lia).
  rewrite HB. destruct (ref_numbers r) as [f s]. cbn [mbind option_bind fst snd].
  by destruct (DEBUG_FileSubNr2StabEnum f s st) as [[st' dt]|].
Qed.

Lemma reference_read_both_ways_witness :
  read_forwards (stab_text "v:(1,3)=") 2 = Some (1, 3, 7%nat)
  ∧ read_backwards (stab_text "v:(1,3)=") 6 = Some (1, 3)
  ∧ ∀ st, DEBUG_ReadTypeEnumBackwards (stab_text "v:(1,3)=") 7 st
          = (λ r, (r.1.1, r.1.2)) <$> DEBUG_ReadTypeEnum (stab_text "v:(1,3)=") 2 st.
Proof.
  apply (reference_read_both_ways (CStr.of_string "v") ":" (Paren 1 3) "="
           [CStr.NUL]); try (vm_compute; done).
Defined.

(** ** The registry and the parse as a whole *)

(** *** Registration and release *)

Lemma find_typedef_other name types chain other st :
  ktd_head st !! Z.to_nat (stab_hash name) = Some chain → other ≠ name →
  find_typedef other
    (set_ktd_head (<[Z.to_nat (stab_hash name) := mkKtd name types :: chain]>
                     (ktd_head st)) st)
  = find_typedef other st.
Proof.
  intros Hc Hne. unfold find_typedef. cbn [ktd_head set_ktd_head].
  destruct (decide (Z.to_nat (stab_hash other) = Z.to_nat (stab_hash name))) as [E|E].
  - rewrite E, Hc, list_lookup_insert_eq by (by eapply lookup_lt_Some).
    cbn [mbind option_bind List.find ktd_name].
    by rewrite bool_decide_eq_false_2 by done.
  - by rewrite list_lookup_insert_ne by done.
Qed.

(** X12 (registration): once [DEBUG_RegisterTypedef] has stored the
    nodes of a typedef with more than one definition, or with none, the
    name finds the new entry, in front of any older entry of the same
    name, with the first [ndef] nodes of the list it was given; every
    other name finds what it found before, and nothing but the registry
    is changed. *)
Theorem register_then_find name types n st st' :
  DEBUG_RegisterTypedef name types n st = Some st' → n ≠ 1%nat →
  find_typedef name st' = Some (Some (mkKtd name (take n types)))
  ∧ (n ≤ length types)%nat
  ∧ (∀ other, other ≠ name → find_typedef other st' = find_typedef other st)
  ∧ heap st' = heap st ∧ cu_vector st' = cu_vector st
  ∧ include_defs st' = include_defs st ∧ curr_types st' = curr_types st
  ∧ length (ktd_head st') = length (ktd_head st).
Proof.
  intros H Hn.
  destruct (register_shape _ _ _ _ _ H) as [[-> _]|(_ & Hlen & chain & Hc & ->)];
    [done|].
  split; [by apply find_typedef_registered|]. split; [done|].
  split; [intros other Ho; by apply find_typedef_other|].
  cbn. by rewrite length_insert.
Qed.

Lemma register_then_find_witness :
  find_typedef (CStr.of_string "A") registered_state
  = Some (Some (mkKtd (CStr.of_string "A") (take 2 [Some 7%nat; None; Some 1%nat])))
  ∧ (2 ≤ length [Some 7%nat; None; Some 1%nat])%nat
  ∧ (∀ other, other ≠ CStr.of_string "A" →
       find_typedef other registered_state = find_typedef other initial_statics)
  ∧ heap registered_state = heap initial_statics
  ∧ cu_vector registered_state = cu_vector initial_statics
  ∧ include_defs registered_state = include_defs initial_statics
  ∧ curr_types registered_state = curr_types initial_statics
  ∧ length (ktd_head registered_state) = length (ktd_head initial_statics).
Proof.
  apply (register_then_find (CStr.of_string "A") [Some 7%nat; None; Some 1%nat] 2
           initial_statics registered_state); [vm_compute; reflexivity|lia].
Defined.

(** *** What the record loop leaves of the registry *)

Lemma parse_stab_type_frame stab st st' v :
  DEBUG_ParseStabType stab st = Some (st', v) → frame st st'.
Proof.
  unfold DEBUG_ParseStabType. intros H.
  destruct (CStr.strchr ":" stab) as [[c|]|]; cbn [mbind option_bind] in H;
    [|simplify_eq; apply frame_refl|done].
  destruct (stab !! S c) as [a|]; cbn [mbind option_bind] in H; [|done].
  destruct (DEBUG_ReadTypeEnum stab _ st) as [[[st1 dt] x]|] eqn:E;
    cbn [mbind option_bind] in H; [|done].
  destruct (load st1 dt); cbn [mbind option_bind] in H; [|done].
  simplify_eq. by eapply read_enum_frame.
Qed.

Lemma add_include_registry idx st st' k :
  DEBUG_AddInclude idx st = Some (st', k) →
  ktd_head st' = ktd_head st ∧ heap st' = heap st
  ∧ include_defs st' = include_defs st ∧ cu_vector st' = cu_vector st.
Proof. unfold DEBUG_AddInclude. intros H. case_match; by simplify_eq. Qed.

Lemma dispatch_registry addr lo i r q l l' :
  dispatch addr lo i r q l = Some l' → ktd_head (glob l') = ktd_head (glob l).
Proof.
  unfold dispatch, data_symbol, local_symbol, stab_type, symname_of, emit.
  intros H.
  repeat match type of H with
  | (if ?c then _ else _) = Some _ => destruct c
  end.
  all: inv_some H.
  all: repeat match goal with
       | E : DEBUG_ParseStabType _ _ = Some _ |- _ =>
           apply parse_stab_type_frame in E; destruct E as (_ & E & _)
       | E : DEBUG_AddInclude _ _ = Some _ |- _ =>
           apply add_include_registry in E; destruct E as (E & _)
       end.
  all: cbn in *; try congruence.
Qed.

Lemma join_glob addr r l l' p : join addr r l = Some (l', p) → glob l' = glob l.
Proof.
  unfold join, write_buff. intros H. inv_some H; cbn; repeat case_match; reflexivity.
Qed.

Lemma parse_typedef_chains ptr name st st' buf ok :
  DEBUG_ParseTypedefStab ptr name st = Some (st', buf, ok) →
  length (ktd_head st') = length (ktd_head st)
  ∧ (ok = false → ktd_head st' = ktd_head st)
  ∧ same_includes st st'.
Proof.
  unfold DEBUG_ParseTypedefStab. intros H.
  destruct (DEBUG_HandlePreviousTypedef name ptr st) as [[st0 h]|] eqn:E0;
    cbn [mbind option_bind] in H; [|done].
  apply handle_previous_untouched in E0 as (K0 & I0 & _).
  destruct h; [simplify_eq; by rewrite K0|].
  destruct (CStr.strchr_all "=" ptr) as [ps|]; cbn [mbind option_bind] in H; [|done].
  destruct (pass1 ptr ps (Some name) 0 st0) as [[[st1 r] tn]|] eqn:E1;
    cbn [mbind option_bind] in H; [|done].
  apply pass1_untouched in E1 as (K1 & I1 & _).
  destruct r as [n|]; [|simplify_eq; split_and!;
                         [congruence|congruence|by eapply same_includes_trans]].
  destruct (pass2 _ ptr _ tn st1) as [[[st2 buf2] o]|] eqn:E2;
    cbn [mbind option_bind] in H; [|done].
  apply pass2_untouched in E2 as (K2 & I2 & _).
  assert (same_includes st st2) as I
    by (eapply same_includes_trans; [|exact I2]; by eapply same_includes_trans).
  destruct o; [|simplify_eq; split_and!; [congruence|congruence|done]].
  destruct (DEBUG_RegisterTypedef name (curr_types st2) n st2) as [st3|] eqn:E3;
    cbn [mbind option_bind] in H; [|done].
  simplify_eq.
  destruct (register_shape _ _ _ _ _ E3) as [[_ ->]|(_ & _ & chain & _ & ->)].
  - split_and!; [congruence|done|done].
  - cbn. rewrite length_insert. split_and!; [congruence|done|done].
Qed.

Lemma typedef_part_chains addr p l l' q :
  typedef_part addr p l = Some (l', q) →
  length (ktd_head (glob l')) = length (ktd_head (glob l)).
Proof.
  unfold typedef_part, write_buff. intros H.
  destruct (bytes_at addr l p) as [text|]; cbn [mbind option_bind] in H; [|done].
  destruct (CStr.strchr "=" text) as [[k|]|]; cbn [mbind option_bind] in H;
    [|by simplify_eq|done].
  destruct (if bool_decide (p = InBuff) then Some l else _) as [l2|] eqn:E2;
    cbn [mbind option_bind] in H; [|done].
  assert (glob l2 = glob l) as G.
  { destruct (bool_decide (p = InBuff)); [by simplify_eq|].
    destruct (CStr.cstr text); cbn [mbind option_bind] in E2; [|done].
    case_match; by simplify_eq. }
  destruct (stab_strcpy 4096 (stabbuff l2)); cbn [mbind option_bind] in H; [|done].
  destruct (DEBUG_ParseTypedefStab _ _ _) as [[[g buf] ok]|] eqn:Ep;
    cbn [mbind option_bind] in H; [|done].
  apply parse_typedef_chains in Ep as [Ep _]. rewrite G in Ep.
  destruct ok; by simplify_eq.
Qed.

Lemma body_chains addr lo i r l l' t :
  DEBUG_ParseStabs_body addr lo i r l = Some (l', t) →
  length (ktd_head (glob l')) = length (ktd_head (glob l)).
Proof.
  unfold DEBUG_ParseStabs_body. intros H.
  destruct (join addr r l) as [[l1 [p|]]|] eqn:Ej; cbn [mbind option_bind] in H;
    [|simplify_eq; by rewrite (join_glob _ _ _ _ _ Ej)|done].
  apply join_glob in Ej.
  destruct (typedef_part addr p l1) as [[l2 [q|]]|] eqn:Et;
    cbn [mbind option_bind] in H; [| |done].
  - destruct (dispatch addr lo i r q l2) as [l3|] eqn:Ed;
      cbn [mbind option_bind] in H; [|done].
    apply typedef_part_chains in Et. apply dispatch_registry in Ed.
    simplify_eq. cbn. congruence.
  - apply typedef_part_chains in Et. simplify_eq. congruence.
Qed.

Lemma loop_chains addr lo : ∀ stabs i l l',
  DEBUG_ParseStabs_loop addr lo i stabs l = Some l' →
  length (ktd_head (glob l')) = length (ktd_head (glob l)).
Proof.
  induction stabs as [|r stabs IH]; intros i l l' H; cbn [DEBUG_ParseStabs_loop] in H;
    [by simplify_eq|].
  destruct (DEBUG_ParseStabs_body addr lo i r l) as [[l1 t]|] eqn:Eb;
    cbn [mbind option_bind] in H; [|done].
  apply IH in H. apply body_chains in Eb. congruence.
Qed.

(** X13 (release): when [DEBUG_ParseStabs] returns, whatever the records
    were, every chain of the registry is empty, so that no name is known
    any more and [DEBUG_HandlePreviousTypedef] answers FALSE for every
    text without a change; the include files, the table of the unit and
    the scratch list are gone and the include stack is back at the
    unit. *)
Theorem parse_stabs_releases addr lo stabs off g l :
  DEBUG_ParseStabs addr lo stabs off g = Some l →
  length (ktd_head g) = Z.to_nat NR_STAB_HASH →
  (∀ name, find_typedef name (glob l) = Some None)
  ∧ (∀ name stab,
       DEBUG_HandlePreviousTypedef name stab (glob l) = Some (glob l, false))
  ∧ include_defs (glob l) = [] ∧ cu_vector (glob l) = []
  ∧ curr_types (glob l) = [] ∧ cu_include_stk_idx (glob l) = 0.
Proof.
  unfold DEBUG_ParseStabs. intros H Hlen.
  destruct (DEBUG_ParseStabs_loop _ _ _ _ _) as [l1|] eqn:El;
    cbn [mbind option_bind] in H; [|done].
  apply loop_chains in El. cbn in El. simplify_eq. cbn.
  assert (∀ name,
    find_typedef name
      (set_curr_types [] (DEBUG_FreeIncludes (DEBUG_FreeRegisteredTypedefs (glob l1))))
    = Some None) as Hfind.
  { intros name. unfold find_typedef. cbn.
    rewrite lookup_replicate_2; [done|].
    rewrite El, Hlen. pose proof (stab_hash_bound name). lia. }
  split; [done|]. split; [|done].
  intros name stab. unfold DEBUG_HandlePreviousTypedef. by rewrite Hfind.
Qed.

Lemma parse_stabs_releases_witness :
  ∃ l, DEBUG_ParseStabs sample_file 0 [rec_so_main; rec_bincl; rec_gsym]
         sample_strtaboff two_pointers_state = Some l
       ∧ (∀ name, find_typedef name (glob l) = Some None)
       ∧ (∀ name stab,
            DEBUG_HandlePreviousTypedef name stab (glob l) = Some (glob l, false))
       ∧ include_defs (glob l) = [] ∧ cu_vector (glob l) = []
       ∧ curr_types (glob l) = [] ∧ cu_include_stk_idx (glob l) = 0.
Proof.
  destruct (DEBUG_ParseStabs sample_file 0 [rec_so_main; rec_bincl; rec_gsym]
              sample_strtaboff two_pointers_state) as [l|] eqn:E;
    [|vm_compute in E; discriminate E].
  exists l. split; [reflexivity|].
  apply (parse_stabs_releases sample_file 0 [rec_so_main; rec_bincl; rec_gsym]
           sample_strtaboff two_pointers_state l E).
  vm_compute. reflexivity.
Defined.

(** *** What a parse keeps *)

Lemma handle_previous_heap name stab st st' b :
  DEBUG_HandlePreviousTypedef name stab st = Some (st', b) → heap st' = heap st.
Proof.
  destruct b; [|by intros (H & _)%handle_previous_unseen].
  unfold DEBUG_HandlePreviousTypedef. intros H.
  destruct (find_typedef name st) as [[ktd|]|]; cbn [mbind option_bind] in H;
    [|done|done].
  destruct (CStr.strchr_all "=" stab) as [ps|]; cbn [mbind option_bind] in H; [|done].
  destruct (check_defs stab (ktd_types ktd) 0 ps st) as [[st0 [m|]]|] eqn:Ec;
    cbn [mbind option_bind] in H; [|done|done].
  apply check_defs_only_printed in Ec as (Hh & _).
  destruct (negb _); [done|].
  destruct (rebind_defs stab (ktd_types ktd) 0 ps st0) as [st1|] eqn:Er;
    cbn [mbind option_bind] in H; [|done].
  apply rebind_defs_frame in Er as (Hr & _). simplify_eq. congruence.
Qed.

Lemma pass1_appends buf : ∀ ps tn n st st' r tn',
  pass1 buf ps tn n st = Some (st', r, tn') →
  ∃ new, heap st' = heap st ++ new.
Proof.
  induction ps as [|c ps IH]; intros tn n st st' r tn' H; cbn [pass1] in H.
  { simplify_eq. exists []. by rewrite app_nil_r. }
  destruct (DEBUG_ReadTypeEnumBackwards buf c st) as [[st0 dt]|] eqn:Eb; [|done].
  cbn [mbind option_bind] in H. apply read_back_frame in Eb as (Fh & _).
  destruct (buf !! S c) as [tag|]; [|done]. cbn [mbind option_bind] in H.
  destruct (skeleton_of buf c tag tn) as [sk|]; [|done].
  cbn [mbind option_bind] in H.
  destruct sk as [K name| |].
  - unfold DEBUG_NewDataType in H.
    destruct (store _ dt _) as [st1|] eqn:Es; [|done].
    cbn [mbind option_bind] in H. apply store_frame in Es as (Sh & _).
    cbn [heap set_heap] in Sh.
    destruct (push_curr_type n _ st1) as [st2|] eqn:Ep; [|done].
    cbn [mbind option_bind] in H.
    apply push_curr_type_spec in Ep as (Ph & _).
    apply IH in H as [new Hn]. exists (blank K name :: new).
    rewrite Hn, Ph, Sh, Fh. by rewrite <- app_assoc.
  - destruct (push_curr_type n None st0) as [st2|] eqn:Ep; [|done].
    cbn [mbind option_bind] in H.
    apply push_curr_type_spec in Ep as (Ph & _).
    apply IH in H as [new Hn]. exists new. congruence.
  - simplify_eq. exists []. cbn. by rewrite app_nil_r.
Qed.

Lemma appends_keeps_kinds st st' new :
  heap st' = heap st ++ new → keeps_kinds st st'.
Proof.
  intros H h d Hd. exists d. split; [|done]. rewrite H. by apply lookup_app_l_Some.
Qed.

Lemma pass2_kinds fuel : ∀ buf ntp tn st st' buf' ok,
  pass2 fuel buf ntp tn st = Some (st', buf', ok) → keeps_kinds st st'.
Proof.
  induction fuel as [|fuel IH]; intros buf ntp tn st st' buf' ok H; cbn [pass2] in H.
  - destruct (CStr.strrchr "=" buf) as [[c|]|]; cbn [mbind option_bind] in H;
      [done| |done]. simplify_eq. apply keeps_kinds_refl.
  - destruct (CStr.strrchr "=" buf) as [[c|]|]; cbn [mbind option_bind] in H;
      [| |done]; [|simplify_eq; apply keeps_kinds_refl].
    destruct (pass2_step buf c ntp tn st) as [[[st1 buf1] [z|]]|] eqn:Es;
      cbn [mbind option_bind] in H; [| |done].
    + apply IH in H. apply pass2_step_scratch in Es as (Es & _).
      by eapply keeps_kinds_trans.
    + simplify_eq. by apply pass2_step_scratch in Es as (Es & _).
Qed.

Lemma parse_typedef_kinds ptr name st st' buf ok :
  DEBUG_ParseTypedefStab ptr name st = Some (st', buf, ok) → keeps_kinds st st'.
Proof.
  unfold DEBUG_ParseTypedefStab. intros H.
  destruct (DEBUG_HandlePreviousTypedef name ptr st) as [[st0 h]|] eqn:E0;
    cbn [mbind option_bind] in H; [|done].
  apply handle_previous_heap, keeps_kinds_heap in E0.
  destruct h; [by simplify_eq|].
  destruct (CStr.strchr_all "=" ptr) as [ps|]; cbn [mbind option_bind] in H; [|done].
  destruct (pass1 ptr ps (Some name) 0 st0) as [[[st1 r] tn]|] eqn:E1;
    cbn [mbind option_bind] in H; [|done].
  apply pass1_appends in E1 as [new E1]. apply appends_keeps_kinds in E1.
  assert (keeps_kinds st st1) as K1 by (by eapply keeps_kinds_trans).
  destruct r as [n|]; [|by simplify_eq].
  destruct (pass2 _ ptr _ tn st1) as [[[st2 buf2] o]|] eqn:E2;
    cbn [mbind option_bind] in H; [|done].
  apply pass2_kinds in E2.
  assert (keeps_kinds st st2) as K2 by (by eapply keeps_kinds_trans).
  destruct o; [|by simplify_eq].
  destruct (DEBUG_RegisterTypedef name (curr_types st2) n st2) as [st3|] eqn:E3;
    cbn [mbind option_bind] in H; [|done].
  simplify_eq.
  destruct (register_shape _ _ _ _ _ E3) as [[_ ->]|(_ & _ & chain & _ & ->)];
    [done|].
  eapply keeps_kinds_trans; [exact K2|]. by apply keeps_kinds_heap.
Qed.

(** X14 (what a parse keeps): whatever the text and however the parse
    ends, [DEBUG_ParseTypedefStab] keeps every node under its handle and
    with its kind, leaves the include stack and the number of include
    files alone, keeps the number of chains of the registry, and edits the
    text in place, without a change of the size of the buffer; a parse
    that fails leaves the registry as it was. *)
Theorem parse_typedef_keeps ptr name st st' buf ok :
  DEBUG_ParseTypedefStab ptr name st = Some (st', buf, ok) →
  keeps_kinds st st'
  ∧ (length (heap st) ≤ length (heap st'))%nat
  ∧ same_includes st st'
  ∧ length (ktd_head st') = length (ktd_head st)
  ∧ (ok = false → ktd_head st' = ktd_head st)
  ∧ length buf = length ptr.
Proof.
  intros H. pose proof (parse_typedef_kinds _ _ _ _ _ _ H) as K.
  destruct (parse_typedef_chains _ _ _ _ _ _ H) as (H1 & H2 & H3).
  split; [done|]. split; [|split_and!; try done; by eapply parse_typedef_length].
  destruct (heap st) as [|d0 hs] eqn:Eh using rev_ind; [simpl; lia|]. clear IHhs.
  destruct (K (length hs) d0) as (d' & Hd & _).
  { rewrite Eh. by apply list_lookup_middle. }
  apply lookup_lt_Some in Hd. rewrite length_app. simpl. lia.
Qed.

Lemma parse_typedef_keeps_witness :
  ∃ st' buf,
    DEBUG_ParseTypedefStab nested_text (CStr.of_string "A") int1_state
      = Some (st', buf, true)
    ∧ keeps_kinds int1_state st'
    ∧ (length (heap int1_state) ≤ length (heap st'))%nat
    ∧ same_includes int1_state st'
    ∧ length (ktd_head st') = length (ktd_head int1_state)
    ∧ (true = false → ktd_head st' = ktd_head int1_state)
    ∧ length buf = length nested_text.
Proof.
  destruct (DEBUG_ParseTypedefStab nested_text (CStr.of_string "A") int1_state)
    as [[[st' buf] [|]]|] eqn:E; try (vm_compute in E; discriminate E).
  exists st', buf. split; [reflexivity|].
  exact (parse_typedef_keeps nested_text (CStr.of_string "A") int1_state st' buf
           true E).
Defined.

(** *** The text a parse leaves *)

Lemma strcpy_down_take buf c src buf' :
  CStr.strcpy_down buf c src = Some buf' → (c < src)%nat →
  take c buf' = take c buf.
Proof.
  unfold CStr.strcpy_down. intros H Hlt.
  destruct (CStr.strlen (drop src buf)) as [n|] eqn:En; [|done].
  cbn [mbind option_bind] in H. simplify_eq.
  pose proof (strlen_lt _ _ En) as Hl. rewrite length_drop in Hl.
  rewrite take_app_le by (rewrite length_take; lia).
  rewrite take_take. f_equal. lia.
Qed.

Lemma cut_take buf c tc skip buf' :
  cut buf c tc skip = Some buf' → take c buf' = take c buf.
Proof.
  unfold cut. intros H. destruct (buf !! tc) as [a|]; [|done].
  cbn [mbind option_bind] in H.
  destruct (Ascii.eqb a CStr.NUL); [by eapply poke_take|].
  destruct (c <? tc + skip)%nat eqn:E; [|done]. apply Nat.ltb_lt in E.
  by eapply strcpy_down_take.
Qed.

Lemma pass2_step_prefix buf c ntp tn st st' buf' r :
  pass2_step buf c ntp tn st = Some (st', buf', r) → take c buf' = take c buf.
Proof.
  unfold_pass2. intros H. inv_some H.
  all: try match goal with
       | E : struct_members _ _ ?tc _ _ _ = Some _, E' : cut _ _ _ _ = Some _ |- _ =>
           apply (struct_members_pokes _ _ _ _ _ _ _ _ _ _ c) in E; [|lia];
           destruct E as [E _]; apply cut_take in E'; congruence
       end.
  all: try match goal with
       | E : cut _ _ _ _ = Some _ |- _ => by eapply cut_take
       | E : CStr.poke _ _ _ = Some _ |- _ => by eapply poke_take
       end.
  done.
Qed.

Lemma pass2_prefix fuel : ∀ buf ntp tn st st' buf' ok k,
  pass2 fuel buf ntp tn st = Some (st', buf', ok) →
  (∀ i, (i < k)%nat → buf !! i ≠ Some "="%char) →
  take k buf' = take k buf
  ∧ (ok = true → CStr.strrchr "=" buf' = Some None).
Proof.
  induction fuel as [|fuel IH]; intros buf ntp tn st st' buf' ok k H Hk;
    cbn [pass2] in H.
  - destruct (CStr.strrchr "=" buf) as [[c|]|] eqn:Er; cbn [mbind option_bind] in H;
      [done| |done]. by simplify_eq.
  - destruct (CStr.strrchr "=" buf) as [[c|]|] eqn:Er; cbn [mbind option_bind] in H;
      [| |done]; [|by simplify_eq].
    destruct (strrchr_last "=" buf c ltac:(done) Er) as (Hc & _).
    assert (k ≤ c)%nat as Hkc.
    { destruct (Nat.le_gt_cases k c) as [|Hlt]; [done|]. by destruct (Hk c Hlt). }
    destruct (pass2_step buf c ntp tn st) as [[[st1 buf1] [z|]]|] eqn:Es;
      cbn [mbind option_bind] in H; [| |done].
    + apply pass2_step_prefix in Es.
      pose proof (take_le_eq _ _ _ _ Hkc Es) as Ek.
      destruct (IH _ _ _ _ _ _ _ k H) as [H1 H2].
      { intros i Hi. rewrite (take_lookup_eq _ _ _ _ Ek Hi). by apply Hk. }
      split; [congruence|done].
    + simplify_eq. apply pass2_step_prefix in Es.
      split; [by eapply take_le_eq|done].
Qed.

(** X15 (the text after a parse): a successful parse either was
    answered from the registry, and then the text is as it was, or it
    went through the two sweeps, and then no ['='] is left in the
    string, while the bytes in front of the first ['='], the name of the
    symbol and its kind, are those of the text that came in.  (Bytes of
    a definition may be left behind the place of an ['=']; see the
    struct that is visited again.) *)
Theorem parse_consumes_definitions ptr name st st' buf :
  DEBUG_ParseTypedefStab ptr name st = Some (st', buf, true) →
  (DEBUG_HandlePreviousTypedef name ptr st = Some (st', true) ∧ buf = ptr)
  ∨ ((∃ st0, DEBUG_HandlePreviousTypedef name ptr st = Some (st0, false))
     ∧ CStr.strrchr "=" buf = Some None
     ∧ ∀ k, (∀ i, (i < k)%nat → ptr !! i ≠ Some "="%char) →
         take k buf = take k ptr).
Proof.
  unfold DEBUG_ParseTypedefStab. intros H.
  destruct (DEBUG_HandlePreviousTypedef name ptr st) as [[st0 h]|] eqn:E0;
    cbn [mbind option_bind] in H; [|done].
  destruct h; [left; by simplify_eq|right].
  split; [by eexists|].
  destruct (CStr.strchr_all "=" ptr) as [ps|]; cbn [mbind option_bind] in H; [|done].
  destruct (pass1 ptr ps (Some name) 0 st0) as [[[st1 r] tn]|] eqn:E1;
    cbn [mbind option_bind] in H; [|done].
  destruct r as [n|]; [|by simplify_eq].
  destruct (pass2 _ ptr _ tn st1) as [[[st2 buf2] o]|] eqn:E2;
    cbn [mbind option_bind] in H; [|done].
  destruct o; [|by simplify_eq].
  destruct (DEBUG_RegisterTypedef name (curr_types st2) n st2) as [st3|] eqn:E3;
    cbn [mbind option_bind] in H; [|done].
  simplify_eq. split.
  - by destruct (pass2_prefix _ _ _ _ _ _ _ _ 0 E2 ltac:(intros; lia)) as [_ ->].
  - intros k Hk. by destruct (pass2_prefix _ _ _ _ _ _ _ _ k E2 Hk) as [-> _].
Qed.

Lemma parse_consumes_definitions_witness :
  ∃ st' buf,
    DEBUG_ParseTypedefStab nested_text (CStr.of_string "A") int1_state
      = Some (st', buf, true)
    ∧ ((DEBUG_HandlePreviousTypedef (CStr.of_string "A") nested_text int1_state
          = Some (st', true) ∧ buf = nested_text)
       ∨ ((∃ st0, DEBUG_HandlePreviousTypedef (CStr.of_string "A") nested_text
                    int1_state = Some (st0, false))
          ∧ CStr.strrchr "=" buf = Some None
          ∧ ∀ k, (∀ i, (i < k)%nat → nested_text !! i ≠ Some "="%char) →
              take k buf = take k nested_text)).
Proof.
  destruct (DEBUG_ParseTypedefStab nested_text (CStr.of_string "A") int1_state)
    as [[[st' buf] [|]]|] eqn:E; try (vm_compute in E; discriminate E).
  exists st', buf. split; [reflexivity|].
  exact (parse_consumes_definitions nested_text (CStr.of_string "A") int1_state
           st' buf E).
Defined.

(** *** The nodes of the first sweep *)

Lemma pass1_blank buf : ∀ ps tn n st st' m tn',
  pass1 buf ps tn n st = Some (st', Some m, tn') →
  (n ≤ length (curr_types st))%nat →
  (ps ≠ [] → tn' = None)
  ∧ ∀ j p tag, ps !! j = Some p → buf !! S p = Some tag →
      match skeleton_of buf p tag (if j is 0%nat then tn else None) with
      | Some (Skeleton K nm) =>
          ∃ h, curr_types st' !! (n + j)%nat = Some (Some h)
               ∧ heap st' !! h = Some (blank K nm)
               ∧ (length (heap st) ≤ h)%nat
      | Some Reference => curr_types st' !! (n + j)%nat = Some None
      | _ => False
      end.
Proof.
  induction ps as [|c ps IH]; intros tn n st st' m tn' H Hn.
  { split; [done|]. intros j p tag Hp. done. }
  cbn [pass1] in H.
  destruct (DEBUG_ReadTypeEnumBackwards buf c st) as [[st0 dt]|] eqn:Eb; [|done].
  cbn [mbind option_bind] in H. apply read_back_frame in Eb.
  destruct Eb as (Fh & _ & Fc & _).
  destruct (buf !! S c) as [tag|] eqn:Et; [|done]. cbn [mbind option_bind] in H.
  destruct (skeleton_of buf c tag tn) as [sk|] eqn:Esk; [|done].
  cbn [mbind option_bind] in H.
  destruct sk as [K name| |]; [| |done].
  - unfold DEBUG_NewDataType in H.
    destruct (store _ dt _) as [st1|] eqn:Es; [|done].
    cbn [mbind option_bind] in H. apply store_frame in Es.
    destruct Es as (Sh & _ & Sc & _). cbn [heap curr_types set_heap] in Sh, Sc.
    destruct (push_curr_type n _ st1) as [st2|] eqn:Ep; [|done].
    cbn [mbind option_bind] in H.
    destruct (push_curr_type_spec _ _ _ _ Ep) as (Ph & Pn & Pl & Po).
    destruct (pass1_skeletons _ _ _ _ _ _ _ _ H Pl) as (_ & _ & A2 & _).
    destruct (pass1_appends _ _ _ _ _ _ _ _ H) as [new Hnew].
    destruct (IH _ _ _ _ _ _ H Pl) as (T2 & B2).
    split.
    { intros _. destruct ps as [|c' ps]; [|by apply T2].
      cbn [pass1] in H. by simplify_eq. }
    intros [|j] p tag' Hp Htag'.
    + cbn in Hp. injection Hp as <-. rewrite Et in Htag'. injection Htag' as <-.
      rewrite Esk. exists (length (heap st0)).
      rewrite Nat.add_0_r, A2 by lia. split; [done|]. split; [|rewrite Fh; lia].
      rewrite Hnew, Ph, Sh, <- app_assoc. cbn [app]. by apply list_lookup_middle.
    + cbn in Hp. specialize (B2 j p tag' Hp Htag').
      replace (n + S j)%nat with (S n + j)%nat by lia.
      assert ((if j is 0%nat then @None (list ascii) else None) = None) as Hj
        by (by destruct j).
      rewrite Hj in B2.
      destruct (skeleton_of buf p tag' None) as [[K' nm| |]|]; try done.
      destruct B2 as (h & H1 & H2 & H3). exists h. split; [done|]. split; [done|].
      rewrite Ph, Sh, length_app, Fh in H3. simpl in H3. lia.
  - destruct (push_curr_type n None st0) as [st2|] eqn:Ep; [|done].
    cbn [mbind option_bind] in H.
    destruct (push_curr_type_spec _ _ _ _ Ep) as (Ph & Pn & Pl & Po).
    destruct (pass1_skeletons _ _ _ _ _ _ _ _ H Pl) as (_ & _ & A2 & _).
    destruct (IH _ _ _ _ _ _ H Pl) as (T2 & B2).
    split.
    { intros _. destruct ps as [|c' ps]; [|by apply T2].
      cbn [pass1] in H. by simplify_eq. }
    intros [|j] p tag' Hp Htag'.
    + cbn in Hp. injection Hp as <-. rewrite Et in Htag'. injection Htag' as <-.
      rewrite Esk. rewrite Nat.add_0_r, A2 by lia. done.
    + cbn in Hp. specialize (B2 j p tag' Hp Htag').
      replace (n + S j)%nat with (S n + j)%nat by lia.
      assert ((if j is 0%nat then @None (list ascii) else None) = None) as Hj
        by (by destruct j).
      rewrite Hj in B2.
      destruct (skeleton_of buf p tag' None) as [[K' nm| |]|]; try done.
      destruct B2 as (h & H1 & H2 & H3). exists h. split; [done|]. split; [done|].
      rewrite Ph, Fh in H3. lia.
Qed.

(** X16 (the first sweep): when the first sweep runs to its end it has
    counted the ['='] of the text, and the scratch list holds for each of
    them, in the order of the text, a new node of the kind of the tag and
    without any content, or nothing for a plain reference.  The name of
    the typedef goes to the node of the first ['='] only: from the second
    one on the nodes of structs and basic types are nameless, and the
    second sweep runs without a name. *)
Theorem first_sweep_skeletons buf ps name st st' m tn' :
  pass1 buf ps (Some name) 0 st = Some (st', Some m, tn') →
  m = length ps
  ∧ (ps ≠ [] → tn' = None)
  ∧ ∀ j p tag, ps !! j = Some p → buf !! S p = Some tag →
      match skeleton_of buf p tag (if j is 0%nat then Some name else None) with
      | Some (Skeleton K nm) =>
          ∃ h, curr_types st' !! j = Some (Some h)
               ∧ heap st' !! h = Some (blank K nm)
               ∧ (length (heap st) ≤ h)%nat
      | Some Reference => curr_types st' !! j = Some None
      | _ => False
      end.
Proof.
  intros H. split; [by apply pass1_count in H|].
  by destruct (pass1_blank _ _ _ _ _ _ _ _ H ltac:(lia)) as [H1 H2].
Qed.

Lemma first_sweep_skeletons_witness :
  ∃ st' m tn',
    pass1 nested_text [4; 19]%nat (Some (CStr.of_string "A")) 0 int1_state
      = Some (st', Some m, tn')
    ∧ m = length [4; 19]%nat
    ∧ ([4; 19]%nat ≠ [] → tn' = None)
    ∧ ∀ j p tag, [4; 19]%nat !! j = Some p → nested_text !! S p = Some tag →
        match skeleton_of nested_text p tag
                (if j is 0%nat then Some (CStr.of_string "A") else None) with
        | Some (Skeleton K nm) =>
            ∃ h, curr_types st' !! j = Some (Some h)
                 ∧ heap st' !! h = Some (blank K nm)
                 ∧ (length (heap int1_state) ≤ h)%nat
        | Some Reference => curr_types st' !! j = Some None
        | _ => False
        end.
Proof.
  destruct (pass1 nested_text [4; 19]%nat (Some (CStr.of_string "A")) 0 int1_state)
    as [[[st' [m|]] tn']|] eqn:E; try (vm_compute in E; discriminate E).
  exists st', m, tn'. split; [reflexivity|].
  exact (first_sweep_skeletons nested_text [4; 19]%nat (CStr.of_string "A")
           int1_state st' m tn' E).
Defined.

(** *** A text answered from the registry *)

(** X17 (a text answered from the registry): [DEBUG_HandlePreviousTypedef]
    answers TRUE only for a name that is registered, with as many nodes as
    the text has ['='], each of the kind that the tag behind its ['=']
    asks for, a plain reference asking for none.  It then changes nothing
    but cells: the cell named in front of an ['='] holds the cached node
    of the same rank, unless a later ['='] names the same cell. *)
Theorem handled_means_same_shape name stab st st' :
  DEBUG_HandlePreviousTypedef name stab st = Some (st', true) →
  ∃ ktd ps,
    find_typedef name st = Some (Some ktd)
    ∧ CStr.strchr_all "=" stab = Some ps
    ∧ length ps = length (ktd_types ktd)
    ∧ frame st st'
    ∧ ∀ j p, ps !! j = Some p →
        ∃ tag t, stab !! S p = Some tag ∧ ktd_types ktd !! j = Some t
          ∧ (∀ K, expect_of tag = Some (Some K) →
               DEBUG_GetType (heap st) t = Some K)
          ∧ ∀ dt, snd <$> DEBUG_ReadTypeEnumBackwards stab p st = Some dt →
              (∀ k q, (j < k)%nat → ps !! k = Some q →
                 snd <$> DEBUG_ReadTypeEnumBackwards stab q st ≠ Some dt) →
              load st' dt = Some t.
Proof.
  intros H.
  destruct (handled_shape _ _ _ _ H) as (ktd & ps & H1 & H2 & H3 & H4 & H5 & _).
  exists ktd, ps. by split_and!.
Qed.

Lemma handled_means_same_shape_witness :
  ∃ st' ktd ps,
    DEBUG_HandlePreviousTypedef (CStr.of_string "A") two_pointers_text
      two_pointers_state = Some (st', true)
    ∧ find_typedef (CStr.of_string "A") two_pointers_state = Some (Some ktd)
    ∧ CStr.strchr_all "=" two_pointers_text = Some ps
    ∧ length ps = length (ktd_types ktd)
    ∧ frame two_pointers_state st'
    ∧ ∀ j p, ps !! j = Some p →
        ∃ tag t, two_pointers_text !! S p = Some tag ∧ ktd_types ktd !! j = Some t
          ∧ (∀ K, expect_of tag = Some (Some K) →
               DEBUG_GetType (heap two_pointers_state) t = Some K)
          ∧ ∀ dt, snd <$> DEBUG_ReadTypeEnumBackwards two_pointers_text p
                            two_pointers_state = Some dt →
              (∀ k q, (j < k)%nat → ps !! k = Some q →
                 snd <$> DEBUG_ReadTypeEnumBackwards two_pointers_text q
                           two_pointers_state ≠ Some dt) →
              load st' dt = Some t.
Proof.
  destruct (DEBUG_HandlePreviousTypedef (CStr.of_string "A") two_pointers_text
              two_pointers_state) as [[st' [|]]|] eqn:E;
    try (vm_compute in E; discriminate E).
  destruct (handled_means_same_shape (CStr.of_string "A") two_pointers_text
              two_pointers_state st' E) as (ktd & ps & H).
  exists st', ktd, ps. split; [reflexivity|exact H].
Defined.

(** ** The branches of the second sweep *)

(** *** Enumerations *)

Lemma enumerator_chars_length e : (0 < length (enumerator_chars e))%nat.
Proof. unfold enumerator_chars. rewrite length_app. simpl. lia. Qed.

Lemma enumerators_chars_length es : (length es ≤ length (enumerators_chars es))%nat.
Proof.
  induction es as [|e es IH]; [done|]. unfold enumerators_chars in *. simpl.
  rewrite length_app. pose proof (enumerator_chars_length e). lia.
Qed.

Lemma enum_member_step e T fuel buf tc h st node :
  drop tc buf = enumerator_chars e ++ T →
  enumerator_ok e →
  heap st !! h = Some node →
  enum_members (S fuel) buf tc (Some h) st
  = enum_members fuel buf (tc + length (enumerator_chars e)) (Some h)
      (set_heap (<[h := with_members node [enumerator_member e]]> (heap st)) st).
Proof.
  intros Hs (Hcolon & Hnul & Hhead & Hlen & Hval) Hh.
  unfold enumerator_chars in Hs.
  repeat (rewrite <- ?app_assoc, <- ?app_comm_cons in Hs; cbn [app] in Hs).
  assert (∃ a, buf !! tc = Some a ∧ Ascii.eqb a ";" = false) as (a & Ha & Hne).
  { destruct (e_name e) as [|a l] eqn:En; cbn [app] in Hs.
    - exists ":"%char. split; [by eapply drop_cons_lookup|done].
    - exists a. split; [by eapply drop_cons_lookup|].
      apply Ascii.eqb_neq. intros ->. by apply Hhead. }
  cbn [enum_members]. rewrite Ha. cbn [mbind option_bind]. rewrite Hne.
  rewrite Hs, span_until_app by done. cbn [mbind option_bind].
  rewrite element_name_ok by done. cbn [mbind option_bind].
  apply drop_step in Hs. apply drop_cons_step in Hs.
  replace (S (tc + length (e_name e))) with (tc + length (e_name e) + 1)%nat in Hs
    by lia.
  rewrite Hs, strtol_dec by done. cbn [mbind option_bind].
  unfold DEBUG_AddStructElement, update. cbn [mbind option_bind]. rewrite Hh.
  cbn [mbind option_bind]. f_equal.
  unfold enumerator_chars. rewrite length_app. cbn [length]. rewrite length_app.
  cbn [length]. lia.
Qed.

Lemma enum_members_all h rest : ∀ es fuel buf tc st node,
  drop tc buf = enumerators_chars es ++ ";"%char :: rest →
  (length es < fuel)%nat →
  Forall enumerator_ok es →
  heap st !! h = Some node →
  enum_members fuel buf tc (Some h) st
  = Some (set_heap (<[h := with_members node (map enumerator_member es)]> (heap st)) st,
          (tc + length (enumerators_chars es))%nat).
Proof.
  induction es as [|e es IH]; intros fuel buf tc st node Hs Hfuel Hok Hh.
  - destruct fuel as [|fuel]; [simpl in Hfuel; lia|].
    cbn [enum_members]. cbn in Hs. rewrite (drop_cons_lookup _ _ _ _ Hs).
    cbn [mbind option_bind]. change (Ascii.eqb ";" ";") with true. cbv iota.
    cbn [map]. rewrite with_members_nil, list_insert_id by done.
    rewrite Nat.add_0_r. by destruct st.
  - destruct fuel as [|fuel]; [simpl in Hfuel; lia|].
    apply Forall_cons in Hok as [He Hok].
    unfold enumerators_chars in Hs. cbn [map concat] in Hs.
    rewrite <- app_assoc in Hs.
    rewrite (enum_member_step e _ fuel buf tc h st node Hs He Hh).
    apply drop_step in Hs.
    rewrite (IH fuel buf _ _ (with_members node [enumerator_member e]) Hs).
    + cbn [heap set_heap]. rewrite list_insert_insert_eq, with_members_app.
      unfold enumerators_chars. cbn [map concat]. rewrite length_app, Nat.add_assoc.
      reflexivity.
    + simpl in Hfuel. lia.
    + done.
    + cbn [heap set_heap]. apply list_lookup_insert_eq. by eapply lookup_lt_Some.
Qed.

Lemma pass2_step_enum buf c ntp tn st :
  buf !! S c = Some "e"%char →
  pass2_step buf c ntp tn st
  = '(st, dt) ← DEBUG_ReadTypeEnumBackwards buf c st;
    curr_type ← load st dt;
    '(st, buf) ← pass2_enum buf c curr_type st;
    Some (st, buf, Some (ntp - 1)).
Proof.
  intros Htag. unfold pass2_step.
  destruct (DEBUG_ReadTypeEnumBackwards buf c st) as [[st1 dt]|]; [|done]. simpl.
  destruct (load st1 dt); [|done]. simpl. by rewrite Htag.
Qed.

(** X18 (an enumeration): a turn of the second sweep on a well-formed
    enumeration, [=e<name>:<value>,...;], whose cell holds a node, gives
    that node one member for each enumerator, in the order of the text,
    with the value as its offset, without a type and with size 0; nothing
    else is changed, and the definition is cut out of the text, what
    follows it moving up to the place of the ['=']. *)
Theorem enum_members_parsed st pre es rest ntp tn st0 dt h node n :
  let buf := pre ++ enum_chars es ++ rest in
  let c := length pre in
  Forall enumerator_ok es →
  CStr.strlen rest = Some n →
  DEBUG_ReadTypeEnumBackwards buf c st = Some (st0, dt) →
  load st0 dt = Some (Some h) →
  heap st0 !! h = Some node →
  ∃ buf',
    pass2_step buf c ntp tn st
    = Some (set_heap (<[h := with_members node (map enumerator_member es)]>
                        (heap st0)) st0,
            buf', Some (ntp - 1))
    ∧ take c buf' = pre
    ∧ CStr.cstr (drop c buf') = CStr.cstr rest.
Proof.
  intros buf c Hok Hrest Hback Hload Hnode.
  assert (buf = pre ++ "="%char :: "e"%char :: enumerators_chars es
                  ++ ";"%char :: rest) as Hbuf.
  { unfold buf, enum_chars. cbn [app]. by rewrite <- !app_assoc. }
  clearbody buf.
  assert (buf !! S c = Some "e"%char) as Ht.
  { eapply (lookup_at _ (pre ++ ["="%char])); [by rewrite Hbuf, <- app_assoc|].
    rewrite length_app. simpl. unfold c. lia. }
  rewrite (pass2_step_enum _ _ _ _ _ Ht), Hback.
  cbn [mbind option_bind]. rewrite Hload. cbn [mbind option_bind].
  assert (drop (c + 2) buf = enumerators_chars es ++ ";"%char :: rest) as Hd2.
  { eapply (drop_at _ (pre ++ ["="%char; "e"%char])).
    - by rewrite Hbuf, <- app_assoc.
    - rewrite length_app. simpl. done. }
  assert (length es < length buf)%nat as Hfuel.
  { rewrite Hbuf, !length_app. simpl. rewrite !length_app. simpl.
    pose proof (enumerators_chars_length es). lia. }
  unfold pass2_enum.
  rewrite (enum_members_all h rest es (length buf) buf (c + 2) st0 node Hd2 Hfuel
             Hok Hnode).
  cbn [mbind option_bind].
  set (tc := (c + 2 + length (enumerators_chars es))%nat).
  assert (drop tc buf = ";"%char :: rest) as Hd by (by apply drop_step in Hd2).
  assert (buf !! tc = Some ";"%char) as Hsemi by (by eapply drop_cons_lookup).
  assert (CStr.strlen (drop (tc + 1) buf) = Some n) as Hn2.
  { by rewrite <- drop_drop, Hd. }
  assert (c < tc + 1)%nat as Hctc by (unfold tc; lia).
  assert (c ≤ length buf)%nat as Hcl.
  { rewrite Hbuf, length_app. unfold c. lia. }
  destruct (cut_down buf c tc 1 _ n Hsemi ltac:(done) Hctc Hcl Hn2)
    as (buf3 & Hcut & Htk3 & Hcs & _).
  rewrite Hcut. cbn [mbind option_bind]. exists buf3. split; [done|]. split.
  - rewrite Htk3, Hbuf. unfold c. by rewrite take_app_length.
  - by rewrite Hcs, <- drop_drop, Hd.
Qed.

Lemma enum_members_parsed_witness :
  ∃ buf',
    pass2_step colour_text 4 0 None colour_state
    = Some (set_heap (<[0%nat := with_members (blank DT_ENUM None)
                                  (map enumerator_member colour_enumerators)]>
                        (heap colour_state)) colour_state,
            buf', Some (0 - 1))
    ∧ take 4 buf' = CStr.of_string "C:t7"
    ∧ CStr.cstr (drop 4 buf') = CStr.cstr [CStr.NUL].
Proof.
  apply (enum_members_parsed colour_state (CStr.of_string "C:t7") colour_enumerators
           [CStr.NUL] 0 None colour_state (CuSlot 7) 0%nat (blank DT_ENUM None)
           0%nat).
  - apply List.Forall_cons; [|apply List.Forall_cons; [|apply List.Forall_nil]].
    + split; [apply (bool_decide_unpack _); by vm_compute|].
      split; [apply (bool_decide_unpack _); by vm_compute|].
      split; [discriminate|]. split; [simpl; lia|]. split; discriminate.
    + split; [apply (bool_decide_unpack _); by vm_compute|].
      split; [apply (bool_decide_unpack _); by vm_compute|].
      split; [discriminate|]. split; [simpl; lia|]. split; discriminate.
  - vm_compute. reflexivity.
  - vm_compute. reflexivity.
  - vm_compute. reflexivity.
  - vm_compute. reflexivity.
Defined.

(** *** Pointers, functions and the type of a symbol *)

Lemma cut_here buf c tc a n :
  buf !! tc = Some a → (c < tc)%nat →
  CStr.strlen (drop tc buf) = Some n →
  ∃ buf', cut buf c tc 0 = Some buf'
    ∧ take c buf' = take c buf
    ∧ CStr.cstr (drop c buf') = CStr.cstr (drop tc buf)
    ∧ length buf' = length buf.
Proof.
  intros Ha Hlt Hn. pose proof (lookup_lt_Some _ _ _ Ha) as Hl.
  destruct (decide (a = CStr.NUL)) as [->|Hne].
  - unfold cut, CStr.poke. rewrite Ha. cbn [mbind option_bind].
    change (Ascii.eqb CStr.NUL CStr.NUL) with true. cbv iota.
    rewrite (proj2 (Nat.ltb_lt _ _)) by lia.
    eexists. split; [done|]. split; [by apply take_insert_ge|].
    split; [|by rewrite length_insert].
    rewrite (drop_S _ CStr.NUL tc) by done.
    rewrite (drop_S _ CStr.NUL c) by (apply list_lookup_insert_eq; lia).
    reflexivity.
  - rewrite <- (Nat.add_0_r tc) in Hn.
    destruct (cut_down buf c tc 0 a n Ha Hne ltac:(lia) ltac:(lia) Hn)
      as (buf' & H1 & H2 & H3 & H4).
    exists buf'. rewrite Nat.add_0_r in H3. done.
Qed.

Lemma pass2_step_pointer buf c ntp tn st tag :
  buf !! S c = Some tag → tag = "*"%char ∨ tag = "f"%char →
  pass2_step buf c ntp tn st
  = '(st, dt) ← DEBUG_ReadTypeEnumBackwards buf c st;
    curr_type ← load st dt;
    '(st, buf) ← pass2_pointer buf c curr_type st;
    Some (st, buf, Some (ntp - 1)).
Proof.
  intros Htag Hsu. unfold pass2_step.
  destruct (DEBUG_ReadTypeEnumBackwards buf c st) as [[st1 dt]|]; [|done]. simpl.
  destruct (load st1 dt); [|done]. simpl. rewrite Htag.
  by destruct Hsu as [-> | ->].
Qed.

(** X19 (a pointer or a function): a turn of the second sweep on
    [=*<type-ref>] or [=f<type-ref>], whose cell holds a node and whose
    reference resolves (its entry exists, or a table that reaches it fits
    the address space), sets the target of that node to what the cell of
    the reference holds, be it nothing; the tables only grow, no other
    node is changed, and the definition is cut out of the text. *)
Theorem pointer_target_set st pre tag r e X ntp tn st0 dt h node v n :
  let buf := pre ++ "="%char :: tag :: ref_chars r ++ e :: X in
  let c := length pre in
  tag = "*"%char ∨ tag = "f"%char →
  0 ≤ (ref_numbers r).1 → in_long (ref_numbers r).1 →
  0 ≤ (ref_numbers r).2 → in_long (ref_numbers r).2 →
  CStr.isdigit e = false →
  CStr.strlen (e :: X) = Some n →
  DEBUG_ReadTypeEnumBackwards buf c st = Some (st0, dt) →
  load st0 dt = Some (Some h) →
  heap st0 !! h = Some node →
  node_of st0 r = Some v →
  ∃ st' buf',
    pass2_step buf c ntp tn st = Some (st', buf', Some (ntp - 1))
    ∧ heap st' = <[h := with_target node v]> (heap st0)
    ∧ extends st0 st'
    ∧ load st' dt = Some (Some h)
    ∧ take c buf' = pre
    ∧ CStr.cstr (drop c buf') = CStr.cstr (e :: X).
Proof.
  intros buf c Htag Hf0 Hf Hn0 Hn He Hrest Hback Hload Hnode Hv.
  assert (buf = pre ++ "="%char :: tag :: ref_chars r ++ e :: X) as Hbuf by done.
  clearbody buf.
  assert (buf !! S c = Some tag) as Ht.
  { eapply (lookup_at _ (pre ++ ["="%char])); [by rewrite Hbuf, <- app_assoc|].
    rewrite length_app. simpl. unfold c. lia. }
  rewrite (pass2_step_pointer _ _ _ _ _ _ Ht Htag), Hback.
  cbn [mbind option_bind]. rewrite Hload. cbn [mbind option_bind].
  assert (drop (c + 2) buf = ref_chars r ++ e :: X) as Hd2.
  { eapply (drop_at _ (pre ++ ["="%char; tag])).
    - by rewrite Hbuf, <- app_assoc.
    - rewrite length_app. simpl. done. }
  pose proof (read_forwards_ref _ _ _ _ _ Hd2 He Hf0 Hf Hn0 Hn) as Hr.
  destruct (read_enum_node _ _ _ _ _ _ _ Hr Hv) as (st1 & dt2 & Hre & Hld & Hext & Hfr).
  unfold pass2_pointer. rewrite Hre. cbn [mbind option_bind].
  rewrite Hld. cbn [mbind option_bind].
  destruct Hfr as (Hh1 & _).
  unfold DEBUG_SetPointerType, update. cbn [mbind option_bind].
  rewrite Hh1, Hnode. cbn [mbind option_bind].
  set (tc := (c + 2 + length (ref_chars r))%nat).
  assert (drop tc buf = e :: X) as Hd by (by apply drop_step in Hd2).
  assert (buf !! tc = Some e) as Htc by (by eapply drop_cons_lookup).
  rewrite <- Hd in Hrest.
  destruct (cut_here buf c tc e n Htc ltac:(unfold tc; lia) Hrest)
    as (buf3 & Hcut & Htk3 & Hcs & _).
  rewrite Hcut. cbn [mbind option_bind]. eexists _, buf3. split; [done|].
  cbn [heap set_heap]. split; [done|].
  split; [eapply extends_trans; [exact Hext|apply extends_set_heap]|].
  split; [rewrite load_set_heap; by eapply read_enum_loads_kept|].
  split.
  - rewrite Htk3, Hbuf. unfold c. by rewrite take_app_length.
  - by rewrite Hcs, Hd.
Qed.

Lemma pointer_target_set_witness :
  ∃ st' buf',
    pass2_step pointer_text 8 0 None pointer_state = Some (st', buf', Some (0 - 1))
    ∧ heap st' = <[1%nat := with_target (blank DT_POINTER None) (Some 0%nat)]>
                   (heap pointer_state)
    ∧ extends pointer_state st'
    ∧ load st' (CuSlot 5) = Some (Some 1%nat)
    ∧ take 8 buf' = CStr.of_string "P:t(0,5)"
    ∧ CStr.cstr (drop 8 buf') = CStr.cstr [CStr.NUL].
Proof.
  apply (pointer_target_set pointer_state (CStr.of_string "P:t(0,5)") "*" (Paren 0 1)
           CStr.NUL [] 0 None pointer_state (CuSlot 5) 1%nat (blank DT_POINTER None)
           (Some 0%nat) 0%nat).
  - by left.
  - simpl. lia.
  - vm_compute. split; discriminate.
  - simpl. lia.
  - vm_compute. split; discriminate.
  - reflexivity.
  - reflexivity.
  - vm_compute. reflexivity.
  - vm_compute. reflexivity.
  - vm_compute. reflexivity.
  - vm_compute. reflexivity.
Defined.

Lemma strchr_first name rest :
  (":"%char ∉ name) → (CStr.NUL ∉ name) →
  CStr.strchr ":" (name ++ ":"%char :: rest) = Some (Some (length name)).
Proof.
  intros Hc Hn. rewrite (strchr_plain ":" name).
  - cbn. by rewrite Nat.add_0_r.
  - apply Forall_forall. intros a Ha. split; intros ->; done.
Qed.

Lemma parse_stab_type_ref name k r e rest st v :
  (":"%char ∉ name) → (CStr.NUL ∉ name) →
  (k = [] ∧ ∃ f s, r = Paren f s) ∨ (∃ a, k = [a] ∧ a ≠ "("%char) →
  0 ≤ (ref_numbers r).1 → in_long (ref_numbers r).1 →
  0 ≤ (ref_numbers r).2 → in_long (ref_numbers r).2 →
  CStr.isdigit e = false →
  node_of st r = Some v →
  ∃ st',
    DEBUG_ParseStabType (name ++ ":"%char :: k ++ ref_chars r ++ e :: rest) st
    = Some (st', v)
    ∧ extends st st' ∧ frame st st' ∧ loads_kept st st'.
Proof.
  intros Hc Hnul Hk Hf0 Hf Hn0 Hn He Hv. unfold DEBUG_ParseStabType.
  rewrite strchr_first by done. cbn [mbind option_bind].
  set (buf := name ++ ":"%char :: k ++ ref_chars r ++ e :: rest).
  assert (∃ a x, buf !! S (length name) = Some a
                 ∧ x = (if Ascii.eqb a "(" then S (length name) else S (S (length name)))
                 ∧ drop x buf = ref_chars r ++ e :: rest) as (a & x & Ha & Hx & Hd).
  { destruct Hk as [[-> (f & s & ->)]|(a & -> & Ha)].
    - exists "("%char, (S (length name)). split_and!; try done.
      + apply (lookup_at _ (name ++ [":"%char]) (dec f ++ ","%char :: dec s ++ [")"%char] ++ e :: rest)).
        * unfold buf. cbn. rewrite <- !app_assoc. cbn. by rewrite <- !app_assoc.
        * rewrite length_app. simpl. lia.
      + apply (drop_at _ (name ++ [":"%char])).
        * unfold buf. by rewrite <- !app_assoc.
        * rewrite length_app. simpl. lia.
    - exists a, (S (S (length name))). split_and!.
      + apply (lookup_at _ (name ++ [":"%char]) (ref_chars r ++ e :: rest)).
        * unfold buf. by rewrite <- !app_assoc.
        * rewrite length_app. simpl. lia.
      + by rewrite (proj2 (Ascii.eqb_neq a "(")).
      + apply (drop_at _ (name ++ [":"%char; a])).
        * unfold buf. by rewrite <- !app_assoc.
        * rewrite length_app. simpl. lia. }
  rewrite Ha. cbn [mbind option_bind]. rewrite <- Hx.
  pose proof (read_forwards_ref _ _ _ _ _ Hd He Hf0 Hf Hn0 Hn) as Hr.
  destruct (read_enum_node _ _ _ _ _ _ _ Hr Hv) as (st1 & dt2 & Hre & Hld & Hext & Hfr).
  rewrite Hre. cbn [mbind option_bind]. rewrite Hld. cbn [mbind option_bind].
  exists st1. split; [done|]. split; [done|]. split; [done|].
  by eapply read_enum_loads_kept.
Qed.

(** X20 (the type of a symbol): for the text of a symbol,
    [<name>:<kind letter><type-ref>] or [<name>:(<file>,<subscript>)] with
    no letter, whose reference resolves (its entry exists, or a table
    that reaches it fits the address space), [DEBUG_ParseStabType] gives
    what the cell of the reference holds; it skips one byte behind the
    [':'] unless that byte opens a parenthesis, changes no cell and only
    lets the tables grow. *)
Theorem stab_type_of_symbol name k r e rest st v :
  (":"%char ∉ name) → (CStr.NUL ∉ name) →
  (k = [] ∧ ∃ f s, r = Paren f s) ∨ (∃ a, k = [a] ∧ a ≠ "("%char) →
  0 ≤ (ref_numbers r).1 → in_long (ref_numbers r).1 →
  0 ≤ (ref_numbers r).2 → in_long (ref_numbers r).2 →
  CStr.isdigit e = false →
  node_of st r = Some v →
  ∃ st',
    DEBUG_ParseStabType (name ++ ":"%char :: k ++ ref_chars r ++ e :: rest) st
    = Some (st', v)
    ∧ extends st st' ∧ frame st st' ∧ loads_kept st st'.
Proof. apply parse_stab_type_ref. Qed.

Lemma stab_type_of_symbol_witness :
  ∃ st',
    DEBUG_ParseStabType (stab_text "v:G1") int1_state = Some (st', Some 0%nat)
    ∧ extends int1_state st' ∧ frame int1_state st' ∧ loads_kept int1_state st'.
Proof.
  apply (stab_type_of_symbol (CStr.of_string "v") [ "G"%char ] (Bare 1) CStr.NUL []
           int1_state (Some 0%nat)).
  - apply (bool_decide_unpack _). by vm_compute.
  - apply (bool_decide_unpack _). by vm_compute.
  - right. exists "G"%char. split; [done|discriminate].
  - simpl. lia.
  - vm_compute. split; discriminate.
  - simpl. lia.
  - vm_compute. split; discriminate.
  - reflexivity.
  - vm_compute. reflexivity.
Defined.

(** *** Another name for a type *)

Lemma pass2_step_ref buf c ntp tn st :
  buf !! S c = Some "("%char →
  pass2_step buf c ntp tn st
  = '(st, dt) ← DEBUG_ReadTypeEnumBackwards buf c st;
    curr_type ← load st dt;
    n ← entries st dt;
    '(st, buf) ← pass2_reference buf c dt n tn st;
    v ← load_held n st dt;
    if (0 <=? ntp) && (ntp <? Z.of_nat (length (curr_types st))) then
      Some (set_curr_types (<[Z.to_nat ntp := v]> (curr_types st)) st, buf,
            Some (ntp - 1))
    else None.
Proof.
  intros Htag. unfold pass2_step.
  destruct (DEBUG_ReadTypeEnumBackwards buf c st) as [[st1 dt]|]; [|done]. simpl.
  destruct (load st1 dt); [|done]. simpl. by rewrite Htag.
Qed.

(** X26 (another name for a type): a turn of the second sweep on a plain
    reference, [=(<file>,<subscript>)], whose own cell is empty and whose
    table is not reallocated when the cell of the reference is taken (the
    table has the entries it had), binds its own cell to the node in the
    cell of the reference; when that cell is empty as well, a new basic
    node, named as the sweep is, is made and bound to both cells.  The
    node goes to the scratch list at the rank of the ['='], no message is
    printed, and the definition is cut out of the text. *)
Theorem reference_binds_cell st pre f s e X ntp tn st0 dt st1 dt2 v2 n :
  let buf := pre ++ "="%char :: ref_chars (Paren f s) ++ e :: X in
  let c := length pre in
  0 ≤ f → in_long f → 0 ≤ s → in_long s →
  CStr.isdigit e = false →
  CStr.strlen (e :: X) = Some n →
  DEBUG_ReadTypeEnumBackwards buf c st = Some (st0, dt) →
  load st0 dt = Some None →
  DEBUG_FileSubNr2StabEnum f s st0 = Some (st1, dt2) →
  entries st1 dt = entries st0 dt →
  load st1 dt2 = Some v2 →
  0 ≤ ntp < Z.of_nat (length (curr_types st0)) →
  ∃ st' buf' node,
    pass2_step buf c ntp tn st = Some (st', buf', Some (ntp - 1))
    ∧ take c buf' = pre
    ∧ CStr.cstr (drop c buf') = CStr.cstr (e :: X)
    ∧ load st' dt = Some (Some node)
    ∧ load st' dt2 = Some (Some node)
    ∧ curr_types st' = <[Z.to_nat ntp := Some node]> (curr_types st0)
    ∧ printed st' = printed st
    ∧ match v2 with
      | Some t => node = t ∧ heap st' = heap st0
      | None => node = length (heap st0)
                ∧ heap st' = heap st0 ++ [blank DT_BASIC tn]
      end.
Proof.
  intros buf c Hf0 Hf Hs0 Hs He Hrest Hback Hload Hres Hent Hv2 Hntp.
  destruct (load_entries _ _ _ Hload) as [m Hm]. rewrite Hm in Hent.
  assert (buf = pre ++ "="%char :: "("%char :: dec f ++ ","%char :: dec s
                  ++ [")"%char] ++ e :: X) as Hbuf.
  { unfold buf. cbn [ref_chars]. by list_norm. }
  assert (buf !! S c = Some "("%char) as Ht.
  { eapply (lookup_at _ (pre ++ ["="%char])); [by rewrite Hbuf, <- app_assoc|].
    rewrite length_app. simpl. unfold c. lia. }
  assert (drop (c + 1) buf = ref_chars (Paren f s) ++ e :: X) as Hd1.
  { eapply (drop_at _ (pre ++ ["="%char])).
    - unfold buf. by rewrite <- app_assoc.
    - rewrite length_app. simpl. done. }
  clearbody buf.
  pose proof (read_forwards_ref _ _ (Paren f s) _ _ Hd1 He Hf0 Hf Hs0 Hs) as Hr.
  cbn [ref_numbers fst snd] in Hr.
  set (tc := (c + 1 + length (ref_chars (Paren f s)))%nat) in *.
  assert (DEBUG_ReadTypeEnum buf (c + 1) st0 = Some (st1, dt2, tc)) as Hre.
  { unfold DEBUG_ReadTypeEnum. rewrite Hr. cbn [mbind option_bind].
    by rewrite Hres. }
  destruct (read_back_frame _ _ _ _ _ Hback) as (_ & _ & _ & Bp & _).
  destruct (resolve_frame _ _ _ _ _ Hres) as (Rh & _ & Rc & Rp & _).
  pose proof (resolve_load _ _ _ _ _ _ _ Hres Hload) as Hl1.
  assert (drop tc buf = e :: X) as Hd by (by apply drop_step in Hd1).
  assert (buf !! tc = Some e) as Htc by (by eapply drop_cons_lookup).
  rewrite <- Hd in Hrest.
  destruct (cut_here buf c tc e n Htc ltac:(unfold tc; lia) Hrest)
    as (buf3 & Hcut & Htk3 & Hcs & _).
  assert (take c buf3 = pre) as Hpre.
  { rewrite Htk3, Hbuf. unfold c. by rewrite take_app_length. }
  rewrite Hd in Hcs.
  rewrite (pass2_step_ref _ _ _ _ _ Ht), Hback. cbn [mbind option_bind].
  rewrite Hload. cbn [mbind option_bind]. rewrite Hm. cbn [mbind option_bind].
  unfold pass2_reference.
  rewrite Hre. cbn [mbind option_bind]. rewrite (held_load _ _ _ Hent), Hl1.
  cbn [mbind option_bind]. rewrite Hv2. cbn [mbind option_bind].
  destruct v2 as [t|].
  - destruct (store_of_load st1 dt _ (Some t) Hl1) as [st2 Hst].
    rewrite (held_store _ _ _ _ Hent), Hst. cbn [mbind option_bind].
    rewrite Hcut. cbn [mbind option_bind].
    destruct (store_frame _ _ _ _ Hst) as (Sh & _ & Sc & Sp & _).
    rewrite held_load by (by rewrite (store_entries _ _ _ _ Hst)).
    rewrite (load_store_eq _ _ _ _ Hst). cbn [mbind option_bind].
    rewrite Sc, Rc.
    rewrite (proj2 (andb_true_iff _ _))
      by (split; [apply Z.leb_le|apply Z.ltb_lt]; lia).
    eexists _, buf3, t. split; [reflexivity|]. split; [done|]. split; [done|].
    rewrite !load_set_curr_types. cbn [curr_types heap printed set_curr_types].
    split; [by eapply load_store_eq|]. split.
    { destruct (decide (dt2 = dt)) as [->|Hne]; [by eapply load_store_eq|].
      by rewrite (load_store_ne _ _ _ _ _ Hst Hne). }
    split; [done|]. split; [congruence|]. split; [done|congruence].
  - unfold DEBUG_NewDataType.
    set (node := length (heap st1)).
    set (sth := set_heap (heap st1 ++ [blank DT_BASIC tn]) st1).
    assert (load sth dt = Some None) as Hlh by (unfold sth; by rewrite load_set_heap).
    destruct (store_of_load sth dt _ (Some node) Hlh) as [st2 Hst].
    rewrite (held_store m sth) by exact Hent. rewrite Hst. cbn [mbind option_bind].
    assert (is_Some (load st2 dt2)) as [w Hw].
    { destruct (decide (dt2 = dt)) as [->|Hne];
        [rewrite (load_store_eq _ _ _ _ Hst); by eexists|].
      rewrite (load_store_ne _ _ _ _ _ Hst Hne). unfold sth.
      rewrite load_set_heap, Hv2. by eexists. }
    destruct (store_of_load st2 dt2 _ (Some node) Hw) as [st3 Hst3].
    rewrite Hst3. cbn [mbind option_bind]. rewrite Hcut. cbn [mbind option_bind].
    subst sth.
    destruct (store_frame _ _ _ _ Hst) as (Sh & _ & Sc & Sp & _).
    destruct (store_frame _ _ _ _ Hst3) as (Th & _ & Tc & Tp & _).
    cbn [heap curr_types printed set_heap] in Sh, Sc, Sp.
    assert (load st3 dt = Some (Some node)) as Hl3.
    { destruct (decide (dt = dt2)) as [->|Hne]; [by eapply load_store_eq|].
      rewrite (load_store_ne _ _ _ _ _ Hst3 Hne). by eapply load_store_eq. }
    rewrite held_load
      by (rewrite (store_entries _ _ _ _ Hst3), (store_entries _ _ _ _ Hst);
          exact Hent).
    rewrite Hl3. cbn [mbind option_bind]. rewrite Tc, Sc, Rc.
    rewrite (proj2 (andb_true_iff _ _))
      by (split; [apply Z.leb_le|apply Z.ltb_lt]; lia).
    eexists _, buf3, node. split; [reflexivity|]. split; [done|]. split; [done|].
    rewrite !load_set_curr_types. cbn [curr_types heap printed set_curr_types].
    split; [done|]. split; [by eapply load_store_eq|].
    split; [done|]. split; [congruence|].
    unfold node. rewrite Rh. split; [done|]. congruence.
Qed.

Lemma reference_binds_cell_witness :
  ∃ st' buf' node,
    pass2_step alias_text 8 0 None alias_state = Some (st', buf', Some (0 - 1))
    ∧ take 8 buf' = CStr.of_string "T:t(0,5)"
    ∧ CStr.cstr (drop 8 buf') = CStr.cstr [CStr.NUL]
    ∧ load st' (CuSlot 5) = Some (Some node)
    ∧ load st' (CuSlot 1) = Some (Some node)
    ∧ curr_types st' = <[0%nat := Some node]> (curr_types alias_state)
    ∧ printed st' = printed alias_state
    ∧ node = 0%nat ∧ heap st' = heap alias_state.
Proof.
  apply (reference_binds_cell alias_state (CStr.of_string "T:t(0,5)") 0 1 CStr.NUL []
           0 None alias_state (CuSlot 5) alias_state (CuSlot 1) (Some 0%nat) 0%nat).
  - lia.
  - vm_compute. split; discriminate.
  - lia.
  - vm_compute. split; discriminate.
  - reflexivity.
  - reflexivity.
  - vm_compute. reflexivity.
  - vm_compute. reflexivity.
  - vm_compute. reflexivity.
  - vm_compute. reflexivity.
  - vm_compute. reflexivity.
  - vm_compute. split; [discriminate|reflexivity].
Defined.

(** *** A pointer that is kept while its block is reallocated *)

(** X28 (a plain reference beyond the table): the typedef
    [T:t(0,5)=(0,9)] is met when the table of the compilation unit has
    six entries.  The second sweep takes the address of slot 5, then
    that of slot 9, for which the table is reallocated with ten entries;
    the test [!*dt] that follows reads through the address taken before
    the reallocation and has no defined result, and neither has the
    parse of the typedef.  With type 1 in place of type 9 the table is
    left where it is and slot 5 is bound to the node of type 1. *)
Theorem reference_reads_stale_slot :
  ∃ st1 tc st' buf',
    DEBUG_ReadTypeEnumBackwards far_reference_text 8 far_reference_state
      = Some (far_reference_state, CuSlot 5)
    ∧ entries far_reference_state (CuSlot 5) = Some 6%nat
    ∧ DEBUG_ReadTypeEnum far_reference_text 9 far_reference_state
      = Some (st1, CuSlot 9, tc)
    ∧ entries st1 (CuSlot 5) = Some 10%nat
    ∧ load st1 (CuSlot 5) = Some None
    ∧ load_held 6 st1 (CuSlot 5) = None
    ∧ pass2_step far_reference_text 8 0 None far_reference_state = None
    ∧ DEBUG_ParseTypedefStab far_reference_text (CStr.of_string "T") int1_state = None
    ∧ DEBUG_ParseTypedefStab alias_text (CStr.of_string "T") int1_state
      = Some (st', buf', true)
    ∧ load st' (CuSlot 5) = Some (Some 0%nat).
Proof.
  do 4 eexists. split_and!; vm_compute; reflexivity.
Qed.

(** ** The records one by one *)

(** *** Records of an include file *)

Lemma join_flags addr r l l' p :
  join addr r l = Some (l', p) →
  events l' = events l ∧ in_external_file l' = in_external_file l.
Proof.
  unfold join, write_buff. intros H. inv_some H; cbn; repeat case_match; done.
Qed.

Lemma typedef_part_flags addr p l l' q :
  typedef_part addr p l = Some (l', q) →
  events l' = events l ∧ in_external_file l' = in_external_file l.
Proof.
  unfold typedef_part, write_buff. intros H.
  destruct (bytes_at addr l p) as [text|]; cbn [mbind option_bind] in H; [|done].
  destruct (CStr.strchr "=" text) as [[k|]|]; cbn [mbind option_bind] in H;
    [|by simplify_eq|done].
  destruct (if bool_decide (p = InBuff) then Some l else _) as [l2|] eqn:E2;
    cbn [mbind option_bind] in H; [|done].
  assert (events l2 = events l ∧ in_external_file l2 = in_external_file l) as [G1 G2].
  { destruct (bool_decide (p = InBuff)); [by simplify_eq|].
    destruct (CStr.cstr text); cbn [mbind option_bind] in E2; [|done].
    case_match; by simplify_eq. }
  destruct (stab_strcpy 4096 (stabbuff l2)); cbn [mbind option_bind] in H; [|done].
  destruct (DEBUG_ParseTypedefStab _ _ _) as [[[g buf] ok]|] eqn:Ep;
    cbn [mbind option_bind] in H; [|done].
  destruct ok; by simplify_eq.
Qed.

Lemma dispatch_external addr lo i r q l l' :
  dispatch addr lo i r q l = Some l' → in_external_file l = true →
  (n_type r ≠ N_SOL → in_external_file l' = true)
  ∧ ∃ es, events l' = events l ++ es
          ∧ forallb (λ e, negb (of_function e)) es = true.
Proof.
  unfold dispatch, data_symbol, local_symbol, stab_type, symname_of, emit.
  intros H Hx.
  destruct (n_type r =? N_GSYM) eqn:T1.
  { inv_some H. cbn. split; [done|]. by eexists [_]. }
  destruct ((n_type r =? N_RBRAC) || (n_type r =? N_LBRAC)) eqn:T2.
  { simplify_eq. split; [done|]. exists []. by rewrite app_nil_r. }
  destruct ((n_type r =? N_LCSYM) || (n_type r =? N_STSYM)) eqn:T3.
  { inv_some H. cbn. split; [done|]. by eexists [_]. }
  destruct (n_type r =? N_PSYM) eqn:T4.
  { rewrite Hx in H. destruct (curr_func l); simplify_eq;
      (split; [done|]; exists []; by rewrite app_nil_r). }
  destruct (n_type r =? N_RSYM) eqn:T5.
  { rewrite Hx in H. destruct (curr_func l); simplify_eq;
      (split; [done|]; exists []; by rewrite app_nil_r). }
  destruct (n_type r =? N_LSYM) eqn:T6.
  { rewrite Hx in H. destruct (curr_func l); simplify_eq;
      (split; [done|]; exists []; by rewrite app_nil_r). }
  destruct (n_type r =? N_SLINE) eqn:T7.
  { rewrite Hx in H. destruct (curr_func l); simplify_eq;
      (split; [done|]; exists []; by rewrite app_nil_r). }
  destruct (n_type r =? N_FUN) eqn:T8.
  { cbn in H. rewrite Hx in H. cbn in H. simplify_eq. cbn.
    split; [done|]. by eexists [_]. }
  destruct (n_type r =? N_SO) eqn:T9.
  { destruct (bytes_at addr l q) as [text|]; cbn [mbind option_bind] in H; [|done].
    destruct (CStr.cstr text) as [[|a s]|]; cbn [mbind option_bind] in H; [| |done].
    - simplify_eq. cbn. split; [done|]. by eexists [_].
    - destruct (PATH_MAX <? _); cbn [mbind option_bind] in H; [done|].
      simplify_eq. cbn. split; [done|]. exists []. by rewrite app_nil_r. }
  destruct (n_type r =? N_SOL) eqn:T10.
  { apply Z.eqb_eq in T10. split; [done|].
    destruct (subpath l); inv_some H; cbn; exists []; by rewrite app_nil_r. }
  destruct (n_type r =? N_UNDF) eqn:T11.
  { simplify_eq. cbn. split; [done|]. by eexists [_]. }
  destruct (n_type r =? N_OPT) eqn:T12.
  { simplify_eq. split; [done|]. exists []. by rewrite app_nil_r. }
  destruct (n_type r =? N_BINCL) eqn:T13.
  { inv_some H. cbn. split; [done|]. exists []. by rewrite app_nil_r. }
  destruct (n_type r =? N_EINCL) eqn:T14.
  { simplify_eq. split; [done|]. exists []. by rewrite app_nil_r. }
  destruct (n_type r =? N_EXCL) eqn:T15.
  { inv_some H. cbn. split; [done|]. exists []. by rewrite app_nil_r. }
  destruct (n_type r =? N_MAIN) eqn:T16.
  { simplify_eq. split; [done|]. exists []. by rewrite app_nil_r. }
  simplify_eq. cbn. split; [done|]. exists []. by rewrite app_nil_r.
Qed.

Lemma body_external addr lo i r l l' t :
  DEBUG_ParseStabs_body addr lo i r l = Some (l', t) →
  in_external_file l = true → n_type r ≠ N_SOL →
  in_external_file l' = true
  ∧ ∃ es, events l' = events l ++ es
          ∧ forallb (λ e, negb (of_function e)) es = true.
Proof.
  unfold DEBUG_ParseStabs_body. intros H Hx Ht.
  destruct (join addr r l) as [[l1 p]|] eqn:Ej; cbn [mbind option_bind] in H; [|done].
  apply join_flags in Ej as [J1 J2].
  destruct p as [p|];
    [|simplify_eq; split; [congruence|exists []; by rewrite app_nil_r]].
  destruct (typedef_part addr p l1) as [[l2 q]|] eqn:Et;
    cbn [mbind option_bind] in H; [|done].
  apply typedef_part_flags in Et as [P1 P2].
  destruct q as [q|];
    [|simplify_eq; cbn; split;
       [congruence|exists []; rewrite app_nil_r; split; [congruence|done]]].
  destruct (dispatch addr lo i r q l2) as [l3|] eqn:Ed;
    cbn [mbind option_bind] in H; [|done].
  apply dispatch_external in Ed as (D1 & es & D2 & D3); [|congruence].
  simplify_eq. cbn. split; [by apply D1|]. exists es. split; [congruence|done].
Qed.

(** X21 (records of an include file): while the loop is in an include
    file, the flag set by an [N_SOL] record, no record makes it add a
    function, a parameter, a local or a line number to the symbol table:
    over any run of records without another [N_SOL], whatever their types
    and texts, the flag stays set and the calls made are those for data
    symbols and the closing of functions only. *)
Theorem external_file_adds_no_locals addr lo : ∀ stabs i l l',
  DEBUG_ParseStabs_loop addr lo i stabs l = Some l' →
  in_external_file l = true →
  Forall (λ r, n_type r ≠ N_SOL) stabs →
  in_external_file l' = true
  ∧ ∃ es, events l' = events l ++ es
          ∧ forallb (λ e, negb (of_function e)) es = true.
Proof.
  induction stabs as [|r stabs IH]; intros i l l' H Hx Hs;
    cbn [DEBUG_ParseStabs_loop] in H.
  { simplify_eq. split; [done|]. exists []. by rewrite app_nil_r. }
  apply Forall_cons in Hs as [Hr Hs].
  destruct (DEBUG_ParseStabs_body addr lo i r l) as [[l1 t]|] eqn:Eb;
    cbn [mbind option_bind] in H; [|done].
  destruct (body_external _ _ _ _ _ _ _ Eb Hx Hr) as (B1 & es1 & B2 & B3).
  destruct (IH _ _ _ H B1 Hs) as (I1 & es2 & I2 & I3).
  split; [done|]. exists (es1 ++ es2). split.
  - by rewrite I2, B2, app_assoc.
  - rewrite forallb_app, B3, I3. done.
Qed.

Lemma external_file_adds_no_locals_witness :
  ∃ l',
    DEBUG_ParseStabs_loop sample_file 0 2 [rec_bincl; rec_gsym; rec_fun]
      external_locals = Some l'
    ∧ in_external_file l' = true
    ∧ ∃ es, events l' = events external_locals ++ es
            ∧ forallb (λ e, negb (of_function e)) es = true.
Proof.
  destruct (DEBUG_ParseStabs_loop sample_file 0 2 [rec_bincl; rec_gsym; rec_fun]
              external_locals) as [l'|] eqn:E; [|vm_compute in E; discriminate E].
  exists l'. split; [reflexivity|].
  apply (external_file_adds_no_locals sample_file 0 [rec_bincl; rec_gsym; rec_fun] 2
           external_locals l' E).
  - vm_compute. reflexivity.
  - apply List.Forall_cons; [vm_compute; discriminate|].
    apply List.Forall_cons; [vm_compute; discriminate|].
    apply List.Forall_cons; [vm_compute; discriminate|apply List.Forall_nil].
Defined.

(** *** Source files and data symbols *)

Lemma dispatch_so addr lo i stab ptr l :
  n_type stab = N_SO →
  dispatch addr lo i stab ptr l
  = (text ← bytes_at addr l ptr;
     s ← CStr.cstr text;
     l ← match s with
         | [] =>
             let l := set_currpath [] l in
             let l := fst (emit (Normalize (curr_func l)) l) in
             Some (set_curr_func None l)
         | a :: _ =>
             let path := if Ascii.eqb a "/" then s else currpath l ++ s in
             if PATH_MAX <? Z.of_nat (length path + 1) then None
             else Some (set_glob (DEBUG_ResetIncludes (glob l))
                          (set_subpath (Some (ptr, stabbufflen l)) (set_currpath path l)))
         end;
     Some (set_last_nso i l)).
Proof. intros H. unfold dispatch. rewrite H. reflexivity. Qed.

Lemma dispatch_so_named addr lo i stab ptr l text a s :
  n_type stab = N_SO →
  bytes_at addr l ptr = Some text → CStr.cstr text = Some (a :: s) →
  let path := if Ascii.eqb a "/" then a :: s else currpath l ++ a :: s in
  Z.of_nat (length path + 1) ≤ PATH_MAX →
  dispatch addr lo i stab ptr l
  = Some (set_last_nso i (set_glob (DEBUG_ResetIncludes (glob l))
                            (set_subpath (Some (ptr, stabbufflen l)) (set_currpath path l)))).
Proof.
  intros Ht Hb Hc path Hlen. rewrite (dispatch_so _ _ _ _ _ _ Ht), Hb.
  cbn [mbind option_bind]. rewrite Hc. cbn [mbind option_bind]. fold path.
  destruct (Z.ltb_spec PATH_MAX (Z.of_nat (length path + 1))); [lia|done].
Qed.

(** X22 (the path of a source file): two [N_SO] records in a row, the
    first with an absolute directory and the second with a name that does
    not start with a slash, build the path of the source file: the
    directory followed by the name, provided the whole fits [PATH_MAX].
    Each of them forgets the type numbers of the unit; the pointer to the
    text of the second one, with the size of the line buffer, is what is
    saved for the [N_SOL] records that follow.  No call is made to the
    symbol table and the current function is kept. *)
Theorem source_path_joined addr lo i1 i2 r1 r2 p1 p2 l t1 t2 d f :
  n_type r1 = N_SO → n_type r2 = N_SO →
  bytes_at addr l p1 = Some t1 → CStr.cstr t1 = Some ("/"%char :: d) →
  bytes_at addr l p2 = Some t2 → CStr.cstr t2 = Some f →
  f ≠ [] → head f ≠ Some "/"%char →
  Z.of_nat (length d + length f + 2) ≤ PATH_MAX →
  ∃ l1 l2,
    dispatch addr lo i1 r1 p1 l = Some l1
    ∧ dispatch addr lo i2 r2 p2 l1 = Some l2
    ∧ currpath l2 = "/"%char :: d ++ f
    ∧ subpath l2 = Some (p2, stabbufflen l)
    ∧ last_nso l2 = i2
    ∧ cu_include_stk_idx (glob l2) = 0
    ∧ Forall (λ v, v = None) (cu_vector (glob l2))
    ∧ heap (glob l2) = heap (glob l) ∧ ktd_head (glob l2) = ktd_head (glob l)
    ∧ include_defs (glob l2) = include_defs (glob l)
    ∧ events l2 = events l ∧ curr_func l2 = curr_func l.
Proof.
  intros T1 T2 B1 C1 B2 C2 Hf Hh Hlen.
  destruct f as [|a f]; [done|].
  assert (Ascii.eqb a "/" = false) as Ha.
  { apply Ascii.eqb_neq. intros ->. by apply Hh. }
  eexists _, _. split.
  { apply (dispatch_so_named _ _ _ _ _ _ _ _ _ T1 B1 C1).
    change (Ascii.eqb "/" "/") with true. cbv iota. cbn [length] in *. lia. }
  split.
  { apply (dispatch_so_named _ _ _ _ _ _ t2 a f T2); [by destruct p2|done|].
    cbn [currpath set_currpath set_subpath set_glob set_last_nso]. rewrite Ha.
    change (Ascii.eqb "/" "/") with true. cbv iota.
    rewrite length_app. cbn [length] in *. lia. }
  cbn. rewrite Ha. split_and!; try done.
  apply Forall_forall. intros v Hv. by apply elem_of_replicate in Hv as [-> _].
Qed.

Lemma source_path_joined_witness :
  ∃ l1 l2,
    dispatch sample_file 0 0 rec_so_main (InFile 2) 
      (initial_locals sample_strtaboff int1_state) = Some l1
    ∧ dispatch sample_file 0 1 rec_so_file (InFile 10) l1 = Some l2
    ∧ currpath l2 = "/"%char :: CStr.of_string "a.c" ++ CStr.of_string "h.h"
    ∧ subpath l2 = Some (InFile 10, 65536)
    ∧ last_nso l2 = 1
    ∧ cu_include_stk_idx (glob l2) = 0
    ∧ Forall (λ v, v = None) (cu_vector (glob l2))
    ∧ heap (glob l2) = heap int1_state ∧ ktd_head (glob l2) = ktd_head int1_state
    ∧ include_defs (glob l2) = include_defs int1_state
    ∧ events l2 = [] ∧ curr_func l2 = None.
Proof.
  apply (source_path_joined sample_file 0 0 1 rec_so_main rec_so_file (InFile 2)
           (InFile 10) (initial_locals sample_strtaboff int1_state)
           (drop 2 sample_file) (drop 10 sample_file) (CStr.of_string "a.c")
           (CStr.of_string "h.h")); try (vm_compute; reflexivity).
  - discriminate.
  - discriminate.
  - vm_compute. discriminate.
Defined.

(** X29 (a source file whose name was in the line buffer): the name [ab]
    of the source file comes in two records, [a\] and [b], and is put
    together in the line buffer; [subpath] is left pointing to the
    buffer, whose first byte is cleared at the end of the turn.  A line
    record with the text [ab] then sets the flag, although it names the
    source file; one with the empty text clears it; and one whose text
    [ab] is put together in the buffer as well is compared with itself
    and clears it. *)
Theorem path_in_line_buffer :
  ∃ l l1 l2 l3,
    run_path_records [rec_so_head; rec_so_tail] = Some l
    ∧ currpath l = CStr.of_string "ab"
    ∧ subpath l = Some (InBuff, 65536)
    ∧ CStr.cstr (stabbuff l) = Some []
    ∧ record_string path_file 1 rec_sol_same = Some (CStr.of_string "ab")
    ∧ run_path_records [rec_so_head; rec_so_tail; rec_sol_same] = Some l1
    ∧ in_external_file l1 = true
    ∧ record_string path_file 1 rec_sol_none = Some []
    ∧ run_path_records [rec_so_head; rec_so_tail; rec_sol_none] = Some l2
    ∧ in_external_file l2 = false
    ∧ run_path_records [rec_so_head; rec_so_tail; rec_sol_head; rec_sol_tail]
      = Some l3
    ∧ in_external_file l3 = false.
Proof.
  do 4 eexists. split_and!; vm_compute; reflexivity.
Qed.

Lemma stab_strcpy_name sz name stop rest :
  (stop = CStr.NUL ∨ stop = ":"%char) →
  (CStr.NUL ∉ name) → (":"%char ∉ name) → Z.of_nat (length name) < sz →
  stab_strcpy sz (name ++ stop :: rest) = Some name.
Proof.
  intros Hs Hn Hc Hl. unfold stab_strcpy.
  destruct (Z.leb_spec sz 0) as [|_]; [lia|].
  apply stab_strcpy_loop_spec. exists stop, rest. split_and!; try done. lia.
Qed.

Lemma bytes_at_set_glob addr g l p : bytes_at addr (set_glob g l) p = bytes_at addr l p.
Proof. by destruct p. Qed.

(** X23 (a data symbol): an [N_GSYM], [N_LCSYM] or [N_STSYM] record
    whose text is [<name>:<kind letter><type-ref>], the reference one
    that resolves, hands one symbol to the symbol table: its name is the
    text in front of the [':'], its type what the cell of the reference
    holds, its address the sum of the load offset and the value of the
    record in 32 bits, its file the current path; the flags mark a
    global symbol as not yet valid.  The symbol becomes the current one;
    the buffer is not touched. *)
Theorem data_symbol_recorded addr lo i r p l name k ref e rest v :
  n_type r = N_GSYM ∨ n_type r = N_LCSYM ∨ n_type r = N_STSYM →
  bytes_at addr l p = Some (name ++ ":"%char :: k ++ ref_chars ref ++ e :: rest) →
  (":"%char ∉ name) → (CStr.NUL ∉ name) → (length name < 4096)%nat →
  (k = [] ∧ ∃ f s, ref = Paren f s) ∨ (∃ a, k = [a] ∧ a ≠ "("%char) →
  0 ≤ (ref_numbers ref).1 → in_long (ref_numbers ref).1 →
  0 ≤ (ref_numbers ref).2 → in_long (ref_numbers ref).2 →
  CStr.isdigit e = false →
  node_of (glob l) ref = Some v →
  ∃ l',
    dispatch addr lo i r p l = Some l'
    ∧ events l'
      = events l ++ [AddSymbol name v (wrap32 (lo + n_value r)) (currpath l)
                       (if n_type r =? N_GSYM then [SYM_WINE; SYM_DATA; SYM_INVALID]
                        else [SYM_WINE; SYM_DATA])]
    ∧ curr_sym l' = Some (length (events l))
    ∧ extends (glob l) (glob l') ∧ frame (glob l) (glob l')
    ∧ stabbuff l' = stabbuff l ∧ curr_func l' = curr_func l.
Proof.
  intros Ht Hb Hc Hnul Hlen Hk Hf0 Hf Hn0 Hn He Hv.
  destruct (parse_stab_type_ref name k ref e rest (glob l) v Hc Hnul Hk Hf0 Hf Hn0 Hn
              He Hv) as (g & Hp & Hext & Hfr & _).
  assert (data_symbol addr lo r p
            (if n_type r =? N_GSYM then [SYM_WINE; SYM_DATA; SYM_INVALID]
             else [SYM_WINE; SYM_DATA]) l
          = Some (set_curr_sym (Some (length (events l)))
                    (fst (emit (AddSymbol name v (wrap32 (lo + n_value r)) (currpath l)
                                  (if n_type r =? N_GSYM
                                   then [SYM_WINE; SYM_DATA; SYM_INVALID]
                                   else [SYM_WINE; SYM_DATA])) (set_glob g l)))))
    as Hd.
  { unfold data_symbol, stab_type, symname_of. rewrite Hb.
    cbn [mbind option_bind]. rewrite Hp. cbn [mbind option_bind].
    rewrite bytes_at_set_glob, Hb. cbn [mbind option_bind].
    rewrite (stab_strcpy_name 4096 name ":" _ (or_intror eq_refl) Hnul Hc ltac:(lia)).
    cbn [mbind option_bind]. reflexivity. }
  destruct Ht as [Ht|[Ht|Ht]]; rewrite Ht in Hd; rewrite Ht.
  all: eexists; (split; [unfold dispatch; rewrite Ht; exact Hd|]); cbn; done.
Qed.

Lemma data_symbol_recorded_witness :
  ∃ l',
    dispatch sample_file 0 2 rec_gsym (InFile 21) known_include_locals = Some l'
    ∧ events l'
      = events known_include_locals
          ++ [AddSymbol (CStr.of_string "v") None (wrap32 (0 + 0))
                (currpath known_include_locals)
                (if n_type rec_gsym =? N_GSYM then [SYM_WINE; SYM_DATA; SYM_INVALID]
                 else [SYM_WINE; SYM_DATA])]
    ∧ curr_sym l' = Some (length (events known_include_locals))
    ∧ extends (glob known_include_locals) (glob l')
    ∧ frame (glob known_include_locals) (glob l')
    ∧ stabbuff l' = stabbuff known_include_locals
    ∧ curr_func l' = curr_func known_include_locals.
Proof.
  apply (data_symbol_recorded sample_file 0 2 rec_gsym (InFile 21)
           known_include_locals (CStr.of_string "v") [] (Paren 1 3) CStr.NUL []
           None).
  - by left.
  - vm_compute. reflexivity.
  - apply (bool_decide_unpack _). by vm_compute.
  - apply (bool_decide_unpack _). by vm_compute.
  - simpl. lia.
  - left. split; [done|]. by exists 1, 3.
  - simpl. lia.
  - vm_compute. split; discriminate.
  - simpl. lia.
  - vm_compute. split; discriminate.
  - reflexivity.
  - vm_compute. reflexivity.
Defined.

(** *** Functions, their lines and their locals *)

Lemma bytes_at_emit addr ev l p :
  bytes_at addr (fst (emit ev l)) p = bytes_at addr l p.
Proof. by destruct p. Qed.

(** X24 (a function and its lines): in the primary source file an
    [N_FUN] record with the text [<name>:<kind letter><type-ref>], the
    name not empty and the reference one that resolves, closes the
    function before it and hands the new one to the symbol table, under
    the name in front of the [':'], with the type of the reference, the
    address in 32 bits and the current path; the new symbol becomes the
    current function, and every [N_SLINE] record that follows adds its
    line and value to that function. *)
Theorem function_then_lines addr lo i rf p l name k ref e rest v :
  n_type rf = N_FUN → in_external_file l = false →
  bytes_at addr l p = Some (name ++ ":"%char :: k ++ ref_chars ref ++ e :: rest) →
  name ≠ [] →
  (":"%char ∉ name) → (CStr.NUL ∉ name) → (length name < 4096)%nat →
  (k = [] ∧ ∃ f s, ref = Paren f s) ∨ (∃ a, k = [a] ∧ a ≠ "("%char) →
  0 ≤ (ref_numbers ref).1 → in_long (ref_numbers ref).1 →
  0 ≤ (ref_numbers ref).2 → in_long (ref_numbers ref).2 →
  CStr.isdigit e = false →
  node_of (glob l) ref = Some v →
  ∃ l1,
    dispatch addr lo i rf p l = Some l1
    ∧ events l1
      = events l ++ [Normalize (curr_func l);
                     AddSymbol name v (wrap32 (lo + n_value rf)) (currpath l)
                       [SYM_WINE; SYM_FUNC; SYM_INVALID]]
    ∧ curr_func l1 = Some (S (length (events l)))
    ∧ extends (glob l) (glob l1) ∧ frame (glob l) (glob l1)
    ∧ ∀ i' rs q,
        n_type rs = N_SLINE →
        dispatch addr lo i' rs q l1
        = Some (fst (emit (AddLineNumber (S (length (events l))) (n_desc rs)
                             (n_value rs)) l1)).
Proof.
  intros Ht Hx Hb Hne Hc Hnul Hlen Hk Hf0 Hf Hn0 Hn He Hv.
  destruct (parse_stab_type_ref name k ref e rest (glob l) v Hc Hnul Hk Hf0 Hf Hn0 Hn
              He Hv) as (g & Hp & Hext & Hfr & _).
  destruct name as [|a name]; [done|].
  eexists. split.
  { unfold dispatch. rewrite Ht. cbn -[emit symname_of stab_type].
    change (in_external_file (emit (Normalize (curr_func l)) l).1)
      with (in_external_file l). rewrite Hx. cbn [negb].
    unfold symname_of, stab_type. rewrite bytes_at_emit, Hb.
    cbn [mbind option_bind].
    rewrite (stab_strcpy_name 4096 (a :: name) ":" _ (or_intror eq_refl) Hnul Hc
               ltac:(lia)).
    cbn [mbind option_bind].
    change (glob (emit (Normalize (curr_func l)) l).1) with (glob l).
    rewrite Hp. cbn [mbind option_bind]. reflexivity. }
  cbn. rewrite <- app_assoc. cbn. rewrite !length_app. cbn [length].
  rewrite Nat.add_1_r.
  split; [done|]. split; [done|]. split; [done|]. split; [done|].
  intros i' rs q Hs. unfold dispatch. rewrite Hs. cbn. by rewrite Hx.
Qed.

Lemma function_then_lines_witness :
  ∃ l1,
    dispatch sample_file 0 1 rec_fun (InFile 14) sample_locals = Some l1
    ∧ events l1
      = events sample_locals
          ++ [Normalize (curr_func sample_locals);
              AddSymbol (CStr.of_string "foo") None (wrap32 (0 + n_value rec_fun))
                (currpath sample_locals) [SYM_WINE; SYM_FUNC; SYM_INVALID]]
    ∧ curr_func l1 = Some (S (length (events sample_locals)))
    ∧ extends (glob sample_locals) (glob l1) ∧ frame (glob sample_locals) (glob l1)
    ∧ ∀ i' rs q,
        n_type rs = N_SLINE →
        dispatch sample_file 0 i' rs q l1
        = Some (fst (emit (AddLineNumber (S (length (events sample_locals)))
                             (n_desc rs) (n_value rs)) l1)).
Proof.
  apply (function_then_lines sample_file 0 1 rec_fun (InFile 14) sample_locals
           (CStr.of_string "foo") ["F"%char] (Bare 1) CStr.NUL (stab_text "v:(1,3)")
           None).
  - reflexivity.
  - vm_compute. reflexivity.
  - vm_compute. reflexivity.
  - discriminate.
  - apply (bool_decide_unpack _). by vm_compute.
  - apply (bool_decide_unpack _). by vm_compute.
  - simpl. lia.
  - right. exists "F"%char. split; [done|discriminate].
  - simpl. lia.
  - vm_compute. split; discriminate.
  - simpl. lia.
  - vm_compute. split; discriminate.
  - reflexivity.
  - vm_compute. reflexivity.
Defined.

(** X25 (parameters and locals): inside a function of the primary source
    file an [N_PSYM], [N_LSYM] or [N_RSYM] record with the text
    [<name>:<kind letter><type-ref>], the reference one that resolves,
    adds one local to the current function, under the name in front of
    the [':'], and then gives it the type of the reference.  A parameter
    or a local on the stack has register 0 and the value of the record
    as its offset; a register variable has the value of the record plus
    one as its register, in 32 bits, and offset 0. *)
Theorem local_symbol_recorded addr lo i r p l func name k ref e rest v :
  n_type r = N_PSYM ∨ n_type r = N_LSYM ∨ n_type r = N_RSYM →
  curr_func l = Some func → in_external_file l = false →
  bytes_at addr l p = Some (name ++ ":"%char :: k ++ ref_chars ref ++ e :: rest) →
  (":"%char ∉ name) → (CStr.NUL ∉ name) → (length name < 4096)%nat →
  (k = [] ∧ ∃ f s, ref = Paren f s) ∨ (∃ a, k = [a] ∧ a ≠ "("%char) →
  0 ≤ (ref_numbers ref).1 → in_long (ref_numbers ref).1 →
  0 ≤ (ref_numbers ref).2 → in_long (ref_numbers ref).2 →
  CStr.isdigit e = false →
  node_of (glob l) ref = Some v →
  ∃ l',
    dispatch addr lo i r p l = Some l'
    ∧ events l'
      = events l
          ++ [AddLocal func
                (if n_type r =? N_RSYM then wrap32 (n_value r + 1) else 0)
                (if n_type r =? N_RSYM then 0 else n_value r) name;
              SetLocalSymbolType (length (events l)) v]
    ∧ curr_loc l' = Some (length (events l))
    ∧ curr_func l' = Some func
    ∧ extends (glob l) (glob l') ∧ frame (glob l) (glob l').
Proof.
  intros Ht Hfn Hx Hb Hc Hnul Hlen Hk Hf0 Hf Hn0 Hn He Hv.
  destruct (parse_stab_type_ref name k ref e rest (glob l) v Hc Hnul Hk Hf0 Hf Hn0 Hn
              He Hv) as (g & Hp & Hext & Hfr & _).
  assert (∀ regno offset,
    local_symbol addr r p regno offset l
    = Some (fst (emit (SetLocalSymbolType (length (events l)) v)
                   (set_glob g (set_curr_loc (Some (length (events l)))
                                  (fst (emit (AddLocal func regno offset name) l))))))) as Hd.
  { intros regno offset. unfold local_symbol, symname_of, stab_type.
    rewrite Hfn, Hx, Hb. cbn [mbind option_bind].
    rewrite (stab_strcpy_name 4096 name ":" _ (or_intror eq_refl) Hnul Hc ltac:(lia)).
    cbn [mbind option_bind]. cbn [emit]. cbn [bytes_at set_curr_loc stabbuff].
    assert (bytes_at addr
              (set_curr_loc (Some (length (events l)))
                 (mkLocals (curr_func l) (curr_loc l) (curr_sym l) (currpath l)
                    (in_external_file l) (last_nso l) (stabbuff l) (stabbufflen l)
                    (strs l) (strtabinc l) (subpath l)
                    (events l ++ [AddLocal func regno offset name]) (glob l))) p
            = bytes_at addr l p) as -> by (by destruct p).
    rewrite Hb. cbn [mbind option_bind glob set_curr_loc]. rewrite Hp.
    cbn [mbind option_bind]. reflexivity. }
  destruct Ht as [Ht|[Ht|Ht]]; rewrite Ht.
  all: eexists; (split; [unfold dispatch; rewrite Ht; apply Hd|]); cbn;
    rewrite <- app_assoc; done.
Qed.

Lemma local_symbol_recorded_witness :
  ∃ l',
    dispatch sample_file 0 3 rec_psym (InFile 21) function_locals = Some l'
    ∧ events l'
      = events function_locals
          ++ [AddLocal 1
                (if n_type rec_psym =? N_RSYM then wrap32 (n_value rec_psym + 1) else 0)
                (if n_type rec_psym =? N_RSYM then 0 else n_value rec_psym)
                (CStr.of_string "v");
              SetLocalSymbolType (length (events function_locals)) None]
    ∧ curr_loc l' = Some (length (events function_locals))
    ∧ curr_func l' = Some 1%nat
    ∧ extends (glob function_locals) (glob l')
    ∧ frame (glob function_locals) (glob l').
Proof.
  apply (local_symbol_recorded sample_file 0 3 rec_psym (InFile 21) function_locals
           1%nat (CStr.of_string "v") [] (Paren 1 3) CStr.NUL [] None).
  - by left.
  - vm_compute. reflexivity.
  - vm_compute. reflexivity.
  - vm_compute. reflexivity.
  - apply (bool_decide_unpack _). by vm_compute.
  - apply (bool_decide_unpack _). by vm_compute.
  - simpl. lia.
  - left. split; [done|]. by exists 1, 3.
  - simpl. lia.
  - vm_compute. split; discriminate.
  - simpl. lia.
  - vm_compute. split; discriminate.
  - reflexivity.
  - vm_compute. reflexivity.
Defined.

